(** * Red-black tree engine (rbtree.c / rbtree.h / rbtree_utils.c)

    A shallow embedding of the C implementation: nodes live in a store
    indexed by address, the sentinel [nil] is one shared node of that store,
    and every function of the source is a computation over the tree object
    that may read and write the store.  Loops and recursive helpers carry a
    fuel argument; a computation that dereferences an address that is not
    allocated, or exhausts its fuel, has no result. *)

From stdpp Require Import gmap list sorting.
From Stdlib Require Import ZArith Lia.

Local Open Scope Z_scope.

(** Addresses of heap blocks returned by [malloc]. *)
Abbreviation ptr := nat (only parsing).

(** ** rbtree.h *)

Inductive rb_color_t := RB_RED | RB_BLACK.

Inductive rb_result_t :=
  RB_OK | RB_ERROR | RB_NOT_FOUND | RB_DUPLICATE | RB_MEMORY_ERROR.

(** The numeric values of the enumeration [rb_result_t]. *)
Definition rb_result_code (r : rb_result_t) : Z :=
  match r with
  | RB_OK => 0
  | RB_ERROR => -1
  | RB_NOT_FOUND => -2
  | RB_DUPLICATE => -3
  | RB_MEMORY_ERROR => -4
  end.

Global Instance rb_color_eq_dec : EqDecision rb_color_t.
Proof. solve_decision. Defined.

Section RBTree.

(** [A] is the type of the objects a non-null [void *data] points to; a
    [void *] is an [option A], with [None] for [NULL]. *)
Context {A : Type}.

Record rb_node_t := mk_node {
  data : option A;
  left : ptr;
  right : ptr;
  parent : ptr;
  color : rb_color_t
}.

(** The tree object.  [mem] is the store holding the sentinel and every node
    of the tree; [free_data] tells whether a destructor is registered, and
    [destroyed] is the trace of the arguments it has been called with. *)
Record rb_tree_t := mk_tree {
  root : ptr;
  nil : ptr;
  size : Z;
  compare : A → A → Z;
  free_data : bool;
  mem : gmap nat rb_node_t;
  destroyed : list (option A)
}.

Definition set_mem (h : gmap nat rb_node_t) (t : rb_tree_t) : rb_tree_t :=
  mk_tree (root t) (nil t) (size t) (compare t) (free_data t) h (destroyed t).
Definition set_root (r : ptr) (t : rb_tree_t) : rb_tree_t :=
  mk_tree r (nil t) (size t) (compare t) (free_data t) (mem t) (destroyed t).
Definition set_size (n : Z) (t : rb_tree_t) : rb_tree_t :=
  mk_tree (root t) (nil t) n (compare t) (free_data t) (mem t) (destroyed t).
Definition set_destroyed (l : list (option A)) (t : rb_tree_t) : rb_tree_t :=
  mk_tree (root t) (nil t) (size t) (compare t) (free_data t) (mem t) l.

(** ** Computations over the tree object *)

Definition M (X : Type) : Type := rb_tree_t → option (X * rb_tree_t).

Global Instance M_ret : MRet M := λ X x t, Some (x, t).
Global Instance M_bind : MBind M :=
  λ X Y f m t, match m t with Some (x, t') => f x t' | None => None end.
Definition fail {X} : M X := λ _, None.

(** Reading and writing a node through its address. *)
Definition load (p : ptr) : M rb_node_t :=
  λ t, match mem t !! p with Some n => Some (n, t) | None => None end.
Definition store (p : ptr) (n : rb_node_t) : M unit :=
  λ t, match mem t !! p with
       | Some _ => Some (tt, set_mem (<[p := n]> (mem t)) t)
       | None => None
       end.

Definition get_root : M ptr := λ t, Some (root t, t).
Definition get_nil : M ptr := λ t, Some (nil t, t).
Definition put_root (r : ptr) : M unit := λ t, Some (tt, set_root r t).

Definition get_data (p : ptr) : M (option A) := n ← load p; mret (data n).
Definition get_left (p : ptr) : M ptr := n ← load p; mret (left n).
Definition get_right (p : ptr) : M ptr := n ← load p; mret (right n).
Definition get_parent (p : ptr) : M ptr := n ← load p; mret (parent n).
Definition get_color (p : ptr) : M rb_color_t := n ← load p; mret (color n).

Definition put_left (p v : ptr) : M unit :=
  n ← load p; store p (mk_node (data n) v (right n) (parent n) (color n)).
Definition put_right (p v : ptr) : M unit :=
  n ← load p; store p (mk_node (data n) (left n) v (parent n) (color n)).
Definition put_parent (p v : ptr) : M unit :=
  n ← load p; store p (mk_node (data n) (left n) (right n) v (color n)).
Definition put_color (p : ptr) (c : rb_color_t) : M unit :=
  n ← load p; store p (mk_node (data n) (left n) (right n) (parent n) c).

(** [tree->compare(a, b)]: the comparison function dereferences both
    arguments, so that a call on a [NULL] payload has no defined result. *)
Definition call_compare (a b : option A) : M Z :=
  λ t, match a, b with
       | Some a', Some b' => Some (compare t a' b', t)
       | _, _ => None
       end.

(** [size_t] arithmetic wraps around. *)
Definition size_max : Z := 2 ^ 64.
Definition get_size : M Z := λ t, Some (size t, t).
Definition put_size (n : Z) : M unit := λ t, Some (tt, set_size (n mod size_max) t).

(** [malloc(sizeof(rb_node_t))]: [alloc] is the address the allocator
    hands out, [None] when it fails.  A live block is never handed out. *)
Definition malloc (alloc : option ptr) (init : rb_node_t) : M (option ptr) :=
  λ t, match alloc with
       | None => Some (None, t)
       | Some p =>
           match mem t !! p with
           | Some _ => None
           | None => Some (Some p, set_mem (<[p := init]> (mem t)) t)
           end
       end.

(** [free(p)]. *)
Definition free (p : ptr) : M unit :=
  λ t, match mem t !! p with
       | Some _ => Some (tt, set_mem (delete p (mem t)) t)
       | None => None
       end.

(** ** rbtree.c *)

(** [rb_tree_create]: [alloc_tree] tells whether the tree object could be
    allocated, [alloc_nil] is the block obtained for the sentinel. *)
Definition rb_tree_create (compare_func : option (A → A → Z)) (free_func : bool)
    (alloc_tree : bool) (alloc_nil : option ptr) : option rb_tree_t :=
  match compare_func with
  | None => None
  | Some cmp =>
      if negb alloc_tree then None
      else match alloc_nil with
           | None => None
           | Some nl =>
               Some (mk_tree nl nl 0 cmp free_func
                       {[ nl := mk_node None nl nl nl RB_BLACK ]} [])
           end
  end.

Definition rb_node_create (d : option A) (alloc : option ptr) : M (option ptr) :=
  nl ← get_nil;
  malloc alloc (mk_node d nl nl nl RB_RED).

(** [tree->free_data(d)]: the call is recorded in the trace [destroyed]. *)
Definition get_free_data : M bool := λ t, Some (free_data t, t).
Definition call_free_data (d : option A) : M unit :=
  λ t, Some (tt, set_destroyed (destroyed t ++ [d]) t).

Definition rb_node_destroy (node : ptr) : M unit :=
  nl ← get_nil;
  if decide (node ≠ nl) then
    fd ← get_free_data;
    (if fd : bool then d ← get_data node; call_free_data d else mret tt);;
    free node
  else mret tt.

Definition rb_left_rotate (x : ptr) : M unit :=
  y ← get_right x;
  yl ← get_left y;
  put_right x yl;;
  yl ← get_left y;
  nl ← get_nil;
  (if decide (yl ≠ nl) then put_parent yl x else mret tt);;
  xp ← get_parent x;
  put_parent y xp;;
  xp ← get_parent x;
  (if decide (xp = nl) then put_root y
   else xpl ← get_left xp;
        if decide (x = xpl) then put_left xp y else put_right xp y);;
  put_left y x;;
  put_parent x y.

Definition rb_right_rotate (y : ptr) : M unit :=
  x ← get_left y;
  xr ← get_right x;
  put_left y xr;;
  xr ← get_right x;
  nl ← get_nil;
  (if decide (xr ≠ nl) then put_parent xr y else mret tt);;
  yp ← get_parent y;
  put_parent x yp;;
  yp ← get_parent y;
  (if decide (yp = nl) then put_root x
   else ypl ← get_left yp;
        if decide (y = ypl) then put_left yp x else put_right yp x);;
  put_right x y;;
  put_parent y x.

Fixpoint rb_insert_fixup (fuel : nat) (z : ptr) : M unit :=
  match fuel with
  | O => fail
  | S fuel =>
    zp ← get_parent z; zpc ← get_color zp;
    if decide (zpc = RB_RED) then
      zp ← get_parent z; zpp ← get_parent zp; zppl ← get_left zpp;
      if decide (zp = zppl) then
        zp ← get_parent z; zpp ← get_parent zp; y ← get_right zpp;
        yc ← get_color y;
        if decide (yc = RB_RED) then
          zp ← get_parent z; put_color zp RB_BLACK;;
          put_color y RB_BLACK;;
          zp ← get_parent z; zpp ← get_parent zp; put_color zpp RB_RED;;
          zp ← get_parent z; zpp ← get_parent zp;
          rb_insert_fixup fuel zpp
        else
          zp ← get_parent z; zpr ← get_right zp;
          z ← (if decide (z = zpr)
               then zp ← get_parent z; rb_left_rotate zp;; mret zp
               else mret z);
          zp ← get_parent z; put_color zp RB_BLACK;;
          zp ← get_parent z; zpp ← get_parent zp; put_color zpp RB_RED;;
          zp ← get_parent z; zpp ← get_parent zp; rb_right_rotate zpp;;
          rb_insert_fixup fuel z
      else
        zp ← get_parent z; zpp ← get_parent zp; y ← get_left zpp;
        yc ← get_color y;
        if decide (yc = RB_RED) then
          zp ← get_parent z; put_color zp RB_BLACK;;
          put_color y RB_BLACK;;
          zp ← get_parent z; zpp ← get_parent zp; put_color zpp RB_RED;;
          zp ← get_parent z; zpp ← get_parent zp;
          rb_insert_fixup fuel zpp
        else
          zp ← get_parent z; zpl ← get_left zp;
          z ← (if decide (z = zpl)
               then zp ← get_parent z; rb_right_rotate zp;; mret zp
               else mret z);
          zp ← get_parent z; put_color zp RB_BLACK;;
          zp ← get_parent z; zpp ← get_parent zp; put_color zpp RB_RED;;
          zp ← get_parent z; zpp ← get_parent zp; rb_left_rotate zpp;;
          rb_insert_fixup fuel z
    else
      r ← get_root; put_color r RB_BLACK
  end.

(** The descent loop of [rb_insert]: [Some y] when the loop ends with [x] on
    the sentinel, [None] when an equal payload is met. *)
Fixpoint rb_insert_descent (fuel : nat) (d : option A) (y x : ptr) : M (option ptr) :=
  match fuel with
  | O => fail
  | S fuel =>
    nl ← get_nil;
    if decide (x ≠ nl) then
      xd ← get_data x; cmp ← call_compare d xd;
      if decide (cmp < 0) then xl ← get_left x; rb_insert_descent fuel d x xl
      else if decide (cmp > 0) then xr ← get_right x; rb_insert_descent fuel d x xr
      else mret None
    else mret (Some y)
  end.

(** Public functions receive the tree by reference: [None] is the null
    reference, and a function that writes the tree returns it. *)
Definition on_tree {X} (tree : option rb_tree_t) (null : X) (m : M X)
    : option (X * option rb_tree_t) :=
  match tree with
  | None => Some (null, None)
  | Some t => match m t with Some (x, t') => Some (x, Some t') | None => None end
  end.

Definition rb_insert (fuel : nat) (tree : option rb_tree_t) (d : option A)
    (alloc : option ptr) : option (rb_result_t * option rb_tree_t) :=
  on_tree tree RB_ERROR
    (if decide (d = None :> option A) then mret RB_ERROR
     else
       z ← rb_node_create d alloc;
       match z with
       | None => mret RB_MEMORY_ERROR
       | Some z =>
           nl ← get_nil; r ← get_root;
           y ← rb_insert_descent fuel d nl r;
           match y with
           | None => free z;; mret RB_DUPLICATE
           | Some y =>
               put_parent z y;;
               nl ← get_nil;
               (if decide (y = nl) then put_root z
                else yd ← get_data y; cmp ← call_compare d yd;
                     if decide (cmp < 0) then put_left y z else put_right y z);;
               rb_insert_fixup fuel z;;
               n ← get_size; put_size (n + 1);;
               mret RB_OK
           end
       end).

Definition rb_transplant (u v : ptr) : M unit :=
  up ← get_parent u; nl ← get_nil;
  (if decide (up = nl) then put_root v
   else up ← get_parent u; upl ← get_left up;
        if decide (u = upl)
        then up ← get_parent u; put_left up v
        else up ← get_parent u; put_right up v);;
  up ← get_parent u; put_parent v up.

Fixpoint rb_delete_fixup (fuel : nat) (x : ptr) : M unit :=
  match fuel with
  | O => fail
  | S fuel =>
    r ← get_root;
    continue ← (if decide (x ≠ r)
                then xc ← get_color x; mret (bool_decide (xc = RB_BLACK))
                else mret false);
    if continue : bool then
      xp ← get_parent x; xpl ← get_left xp;
      if decide (x = xpl) then
        xp ← get_parent x; w ← get_right xp;
        wc ← get_color w;
        w ← (if decide (wc = RB_RED) then
               put_color w RB_BLACK;;
               xp ← get_parent x; put_color xp RB_RED;;
               xp ← get_parent x; rb_left_rotate xp;;
               xp ← get_parent x; get_right xp
             else mret w);
        wl ← get_left w; wlc ← get_color wl;
        both_black ← (if decide (wlc = RB_BLACK)
                      then wr ← get_right w; wrc ← get_color wr;
                           mret (bool_decide (wrc = RB_BLACK))
                      else mret false);
        if both_black : bool then
          put_color w RB_RED;;
          xp ← get_parent x;
          rb_delete_fixup fuel xp
        else
          wr ← get_right w; wrc ← get_color wr;
          w ← (if decide (wrc = RB_BLACK) then
                 wl ← get_left w; put_color wl RB_BLACK;;
                 put_color w RB_RED;;
                 rb_right_rotate w;;
                 xp ← get_parent x; get_right xp
               else mret w);
          xp ← get_parent x; xpc ← get_color xp; put_color w xpc;;
          xp ← get_parent x; put_color xp RB_BLACK;;
          wr ← get_right w; put_color wr RB_BLACK;;
          xp ← get_parent x; rb_left_rotate xp;;
          r ← get_root;
          rb_delete_fixup fuel r
      else
        xp ← get_parent x; w ← get_left xp;
        wc ← get_color w;
        w ← (if decide (wc = RB_RED) then
               put_color w RB_BLACK;;
               xp ← get_parent x; put_color xp RB_RED;;
               xp ← get_parent x; rb_right_rotate xp;;
               xp ← get_parent x; get_left xp
             else mret w);
        wr ← get_right w; wrc ← get_color wr;
        both_black ← (if decide (wrc = RB_BLACK)
                      then wl ← get_left w; wlc ← get_color wl;
                           mret (bool_decide (wlc = RB_BLACK))
                      else mret false);
        if both_black : bool then
          put_color w RB_RED;;
          xp ← get_parent x;
          rb_delete_fixup fuel xp
        else
          wl ← get_left w; wlc ← get_color wl;
          w ← (if decide (wlc = RB_BLACK) then
                 wr ← get_right w; put_color wr RB_BLACK;;
                 put_color w RB_RED;;
                 rb_left_rotate w;;
                 xp ← get_parent x; get_left xp
               else mret w);
          xp ← get_parent x; xpc ← get_color xp; put_color w xpc;;
          xp ← get_parent x; put_color xp RB_BLACK;;
          wl ← get_left w; put_color wl RB_BLACK;;
          xp ← get_parent x; rb_right_rotate xp;;
          r ← get_root;
          rb_delete_fixup fuel r
    else
      put_color x RB_BLACK
  end.

Fixpoint rb_find_node_from (fuel : nat) (d : option A) (current : ptr) : M ptr :=
  match fuel with
  | O => fail
  | S fuel =>
    nl ← get_nil;
    if decide (current ≠ nl) then
      cd ← get_data current; cmp ← call_compare d cd;
      if decide (cmp < 0) then cl ← get_left current; rb_find_node_from fuel d cl
      else if decide (cmp > 0) then cr ← get_right current; rb_find_node_from fuel d cr
      else mret current
    else mret nl
  end.

Definition rb_find_node (fuel : nat) (d : option A) : M ptr :=
  r ← get_root; rb_find_node_from fuel d r.

Fixpoint rb_tree_minimum_node (fuel : nat) (node : ptr) : M ptr :=
  match fuel with
  | O => fail
  | S fuel =>
    l ← get_left node; nl ← get_nil;
    if decide (l ≠ nl) then rb_tree_minimum_node fuel l else mret node
  end.

Fixpoint rb_tree_maximum_node (fuel : nat) (node : ptr) : M ptr :=
  match fuel with
  | O => fail
  | S fuel =>
    r ← get_right node; nl ← get_nil;
    if decide (r ≠ nl) then rb_tree_maximum_node fuel r else mret node
  end.

Definition rb_delete (fuel : nat) (tree : option rb_tree_t) (d : option A)
    : option (rb_result_t * option rb_tree_t) :=
  on_tree tree RB_ERROR
    (if decide (d = None :> option A) then mret RB_ERROR
     else
       z ← rb_find_node fuel d; nl ← get_nil;
       if decide (z = nl) then mret RB_NOT_FOUND
       else
         y_original_color ← get_color z;
         zl ← get_left z;
         xc ← (if decide (zl = nl) then
                 x ← get_right z;
                 zr ← get_right z; rb_transplant z zr;;
                 mret (x, y_original_color)
               else
                 zr ← get_right z;
                 if decide (zr = nl) then
                   x ← get_left z;
                   zl ← get_left z; rb_transplant z zl;;
                   mret (x, y_original_color)
                 else
                   zr ← get_right z; y ← rb_tree_minimum_node fuel zr;
                   y_original_color ← get_color y;
                   x ← get_right y;
                   yp ← get_parent y;
                   (if decide (yp = z) then put_parent x y
                    else
                      yr ← get_right y; rb_transplant y yr;;
                      zr ← get_right z; put_right y zr;;
                      yr ← get_right y; put_parent yr y);;
                   rb_transplant z y;;
                   zl ← get_left z; put_left y zl;;
                   yl ← get_left y; put_parent yl y;;
                   zc ← get_color z; put_color y zc;;
                   mret (x, y_original_color));
         (if decide (xc.2 = RB_BLACK) then rb_delete_fixup fuel xc.1 else mret tt);;
         rb_node_destroy z;;
         n ← get_size; put_size (n - 1);;
         mret RB_OK).

(** Read-only public functions return their value only. *)
Definition query {X} (tree : option rb_tree_t) (null : X) (m : M X) : option X :=
  match tree with
  | None => Some null
  | Some t => fst <$> m t
  end.

Definition rb_search (fuel : nat) (tree : option rb_tree_t) (d : option A)
    : option (option A) :=
  query tree None
    (if decide (d = None :> option A) then mret None
     else
       node ← rb_find_node fuel d; nl ← get_nil;
       if decide (node ≠ nl) then get_data node else mret None).

Definition rb_min (fuel : nat) (tree : option rb_tree_t) : option (option A) :=
  query tree None
    (r ← get_root; nl ← get_nil;
     if decide (r = nl) then mret None
     else r ← get_root; node ← rb_tree_minimum_node fuel r; get_data node).

Definition rb_max (fuel : nat) (tree : option rb_tree_t) : option (option A) :=
  query tree None
    (r ← get_root; nl ← get_nil;
     if decide (r = nl) then mret None
     else r ← get_root; node ← rb_tree_maximum_node fuel r; get_data node).

(** The ascent loops of the successor and predecessor searches. *)
Fixpoint successor_ascent (fuel : nat) (node y : ptr) : M ptr :=
  match fuel with
  | O => fail
  | S fuel =>
    nl ← get_nil;
    continue ← (if decide (y ≠ nl)
                then yr ← get_right y; mret (bool_decide (node = yr))
                else mret false);
    if continue : bool
    then yp ← get_parent y; successor_ascent fuel y yp
    else mret y
  end.

Fixpoint predecessor_ascent (fuel : nat) (node y : ptr) : M ptr :=
  match fuel with
  | O => fail
  | S fuel =>
    nl ← get_nil;
    continue ← (if decide (y ≠ nl)
                then yl ← get_left y; mret (bool_decide (node = yl))
                else mret false);
    if continue : bool
    then yp ← get_parent y; predecessor_ascent fuel y yp
    else mret y
  end.

Definition rb_tree_successor_node (fuel : nat) (node : ptr) : M ptr :=
  r ← get_right node; nl ← get_nil;
  if decide (r ≠ nl) then r ← get_right node; rb_tree_minimum_node fuel r
  else y ← get_parent node; successor_ascent fuel node y.

Definition rb_tree_predecessor_node (fuel : nat) (node : ptr) : M ptr :=
  l ← get_left node; nl ← get_nil;
  if decide (l ≠ nl) then l ← get_left node; rb_tree_maximum_node fuel l
  else y ← get_parent node; predecessor_ascent fuel node y.

Definition rb_successor (fuel : nat) (tree : option rb_tree_t) (d : option A)
    : option (option A) :=
  query tree None
    (if decide (d = None :> option A) then mret None
     else
       node ← rb_find_node fuel d; nl ← get_nil;
       if decide (node = nl) then mret None
       else
         succ ← rb_tree_successor_node fuel node;
         if decide (succ ≠ nl) then get_data succ else mret None).

Definition rb_predecessor (fuel : nat) (tree : option rb_tree_t) (d : option A)
    : option (option A) :=
  query tree None
    (if decide (d = None :> option A) then mret None
     else
       node ← rb_find_node fuel d; nl ← get_nil;
       if decide (node = nl) then mret None
       else
         pred ← rb_tree_predecessor_node fuel node;
         if decide (pred ≠ nl) then get_data pred else mret None).

(** Walks: the visitor is a function of the payload and of the caller's
    context, which the walk threads through the calls. *)
Fixpoint rb_inorder_walk_node {C} (fuel : nat) (node : ptr)
    (visit : option A → C → C) (context : C) : M C :=
  match fuel with
  | O => fail
  | S fuel =>
    nl ← get_nil;
    if decide (node ≠ nl) then
      l ← get_left node;
      context ← rb_inorder_walk_node fuel l visit context;
      d ← get_data node;
      r ← get_right node;
      rb_inorder_walk_node fuel r visit (visit d context)
    else mret context
  end.

Fixpoint rb_preorder_walk_node {C} (fuel : nat) (node : ptr)
    (visit : option A → C → C) (context : C) : M C :=
  match fuel with
  | O => fail
  | S fuel =>
    nl ← get_nil;
    if decide (node ≠ nl) then
      d ← get_data node;
      l ← get_left node;
      context ← rb_preorder_walk_node fuel l visit (visit d context);
      r ← get_right node;
      rb_preorder_walk_node fuel r visit context
    else mret context
  end.

Fixpoint rb_postorder_walk_node {C} (fuel : nat) (node : ptr)
    (visit : option A → C → C) (context : C) : M C :=
  match fuel with
  | O => fail
  | S fuel =>
    nl ← get_nil;
    if decide (node ≠ nl) then
      l ← get_left node;
      context ← rb_postorder_walk_node fuel l visit context;
      r ← get_right node;
      context ← rb_postorder_walk_node fuel r visit context;
      d ← get_data node;
      mret (visit d context)
    else mret context
  end.

Definition rb_inorder_walk {C} (fuel : nat) (tree : option rb_tree_t)
    (visit : option (option A → C → C)) (context : C) : option C :=
  match visit with
  | Some visit =>
      query tree context (r ← get_root; rb_inorder_walk_node fuel r visit context)
  | None => Some context
  end.

Definition rb_preorder_walk {C} (fuel : nat) (tree : option rb_tree_t)
    (visit : option (option A → C → C)) (context : C) : option C :=
  match visit with
  | Some visit =>
      query tree context (r ← get_root; rb_preorder_walk_node fuel r visit context)
  | None => Some context
  end.

Definition rb_postorder_walk {C} (fuel : nat) (tree : option rb_tree_t)
    (visit : option (option A → C → C)) (context : C) : option C :=
  match visit with
  | Some visit =>
      query tree context (r ← get_root; rb_postorder_walk_node fuel r visit context)
  | None => Some context
  end.

Definition rb_size (tree : option rb_tree_t) : Z :=
  match tree with Some t => size t | None => 0 end.

Definition rb_is_empty (tree : option rb_tree_t) : bool :=
  match tree with Some t => bool_decide (size t = 0) | None => true end.

Fixpoint rb_height_node (fuel : nat) (node : ptr) : M Z :=
  match fuel with
  | O => fail
  | S fuel =>
    nl ← get_nil;
    if decide (node = nl) then mret 0
    else
      l ← get_left node; left_height ← rb_height_node fuel l;
      r ← get_right node; right_height ← rb_height_node fuel r;
      mret (1 + (if decide (left_height > right_height)
                 then left_height else right_height))
  end.

Definition rb_height (fuel : nat) (tree : option rb_tree_t) : option Z :=
  query tree (-1) (r ← get_root; rb_height_node fuel r).

(** [rb_is_valid_node]: [Some bh] when the function returns [true] with
    [*black_height = bh], [None] when it returns [false] (the output
    parameter is then not written). *)
Fixpoint rb_is_valid_node (fuel : nat) (node : ptr) : M (option Z) :=
  match fuel with
  | O => fail
  | S fuel =>
    nl ← get_nil;
    if decide (node = nl) then mret (Some 1)
    else
      c ← get_color node;
      red_ok ← (if decide (c = RB_RED) then
                  l ← get_left node; lc ← get_color l;
                  if decide (lc ≠ RB_BLACK) then mret false
                  else r ← get_right node; rc ← get_color r;
                       mret (bool_decide (rc = RB_BLACK))
                else mret true);
      if negb red_ok then mret None
      else
        l ← get_left node; lb ← rb_is_valid_node fuel l;
        match lb with
        | None => mret None
        | Some left_black_height =>
            r ← get_right node; rb ← rb_is_valid_node fuel r;
            match rb with
            | None => mret None
            | Some right_black_height =>
                if decide (left_black_height ≠ right_black_height) then mret None
                else
                  c ← get_color node;
                  mret (Some (left_black_height
                              + (if decide (c = RB_BLACK) then 1 else 0)))
            end
        end
  end.

Definition rb_is_valid (fuel : nat) (tree : option rb_tree_t) : option bool :=
  query tree false
    (r ← get_root; nl ← get_nil;
     red_root ← (if decide (r ≠ nl)
                 then r ← get_root; rc ← get_color r;
                      mret (bool_decide (rc ≠ RB_BLACK))
                 else mret false);
     if red_root : bool then mret false
     else r ← get_root; bh ← rb_is_valid_node fuel r;
          mret (match bh with Some _ => true | None => false end)).

(** ** rbtree_utils.c: range operations *)

Fixpoint count_range_nodes (fuel : nat) (node : ptr) (min_key max_key : option A)
    (count : Z) : M Z :=
  match fuel with
  | O => fail
  | S fuel =>
    nl ← get_nil;
    if decide (node = nl) then mret count
    else
      d ← get_data node; cmp_min ← call_compare d min_key;
      d ← get_data node; cmp_max ← call_compare d max_key;
      count ← (if decide (cmp_min >= 0 ∧ cmp_max <= 0)
               then mret ((count + 1) mod size_max) else mret count);
      count ← (if decide (cmp_min > 0)
               then l ← get_left node; count_range_nodes fuel l min_key max_key count
               else mret count);
      count ← (if decide (cmp_max < 0)
               then r ← get_right node; count_range_nodes fuel r min_key max_key count
               else mret count);
      if decide (cmp_min >= 0 ∧ cmp_max <= 0) then
        l ← get_left node;
        count ← count_range_nodes fuel l min_key max_key count;
        r ← get_right node;
        count_range_nodes fuel r min_key max_key count
      else mret count
  end.

Definition rb_count_range (fuel : nat) (tree : option rb_tree_t)
    (min_key max_key : option A) : option Z :=
  query tree 0
    (if decide (min_key = None :> option A ∨ max_key = None :> option A) then mret 0
     else r ← get_root; count_range_nodes fuel r min_key max_key 0).

Fixpoint walk_range_nodes {C} (fuel : nat) (node : ptr) (min_key max_key : option A)
    (visit : option A → C → C) (context : C) : M C :=
  match fuel with
  | O => fail
  | S fuel =>
    nl ← get_nil;
    if decide (node = nl) then mret context
    else
      d ← get_data node; cmp_min ← call_compare d min_key;
      d ← get_data node; cmp_max ← call_compare d max_key;
      context ← (if decide (cmp_min > 0)
                 then l ← get_left node;
                      walk_range_nodes fuel l min_key max_key visit context
                 else mret context);
      context ← (if decide (cmp_min >= 0 ∧ cmp_max <= 0)
                 then d ← get_data node; mret (visit d context)
                 else mret context);
      if decide (cmp_max < 0)
      then r ← get_right node;
           walk_range_nodes fuel r min_key max_key visit context
      else mret context
  end.

Definition rb_walk_range {C} (fuel : nat) (tree : option rb_tree_t)
    (min_key max_key : option A) (visit : option (option A → C → C)) (context : C)
    : option C :=
  match visit with
  | Some visit =>
      query tree context
        (if decide (min_key = None :> option A ∨ max_key = None :> option A)
         then mret context
         else r ← get_root; walk_range_nodes fuel r min_key max_key visit context)
  | None => Some context
  end.

End RBTree.

(** ** Abstract view of the store

    A tree of the store is described by a binary tree whose nodes carry
    their address; a context is the path from a subtree up to the root. *)

Section Abstraction.
Context {A : Type}.

Inductive tree :=
  | Leaf
  | Node (c : rb_color_t) (l : tree) (p : ptr) (d : A) (r : tree).

Inductive ctx :=
  | Top
  | CL (c : rb_color_t) (up : ctx) (p : ptr) (d : A) (r : tree)
  | CR (c : rb_color_t) (l : tree) (p : ptr) (d : A) (up : ctx).

Fixpoint plug (k : ctx) (t : tree) : tree :=
  match k with
  | Top => t
  | CL c up p d r => plug up (Node c t p d r)
  | CR c l p d up => plug up (Node c l p d t)
  end.

(** Address of the root of a subtree; the sentinel stands for [Leaf]. *)
Definition rootp (nl : ptr) (t : tree) : ptr :=
  match t with Leaf => nl | Node _ _ p _ _ => p end.

(** Address of the node right above the hole of a context. *)
Definition cpar (nl : ptr) (k : ctx) : ptr :=
  match k with Top => nl | CL _ _ p _ _ => p | CR _ _ p _ _ => p end.

(** Address found at the root once the hole holds address [hp]. *)
Fixpoint croot (k : ctx) (hp : ptr) : ptr :=
  match k with
  | Top => hp
  | CL _ up p _ _ => croot up p
  | CR _ _ p _ up => croot up p
  end.

Definition tcolor (t : tree) : rb_color_t :=
  match t with Leaf => RB_BLACK | Node c _ _ _ _ => c end.

(** In-order lists of addresses and payloads. *)
Fixpoint ptrs (t : tree) : list ptr :=
  match t with Leaf => [] | Node _ l p _ r => ptrs l ++ p :: ptrs r end.

Fixpoint values (t : tree) : list A :=
  match t with Leaf => [] | Node _ l _ d r => values l ++ d :: values r end.

Fixpoint cptrs (k : ctx) : list ptr :=
  match k with
  | Top => []
  | CL _ up p _ r => p :: ptrs r ++ cptrs up
  | CR _ l p _ up => p :: ptrs l ++ cptrs up
  end.

Fixpoint vbefore (k : ctx) : list A :=
  match k with
  | Top => []
  | CL _ up _ _ _ => vbefore up
  | CR _ l _ d up => vbefore up ++ values l ++ [d]
  end.

Fixpoint vafter (k : ctx) : list A :=
  match k with
  | Top => []
  | CL _ up _ d r => d :: values r ++ vafter up
  | CR _ _ _ _ up => vafter up
  end.

Fixpoint theight (t : tree) : nat :=
  match t with Leaf => O | Node _ l _ _ r => S (Nat.max (theight l) (theight r)) end.

Fixpoint cdepth (k : ctx) : nat :=
  match k with Top => O | CL _ up _ _ _ => S (cdepth up) | CR _ _ _ _ up => S (cdepth up) end.

(** Black height: black nodes on the way down, the sentinel not counted. *)
Definition black (c : rb_color_t) : nat :=
  match c with RB_BLACK => 1%nat | RB_RED => 0%nat end.

Fixpoint bh (t : tree) : nat :=
  match t with Leaf => O | Node c l _ _ _ => (bh l + black c)%nat end.

(** Red-black conditions on a subtree, whatever the colour of its root. *)
Fixpoint rbsub (t : tree) : Prop :=
  match t with
  | Leaf => True
  | Node c l _ _ r =>
      rbsub l ∧ rbsub r ∧ bh l = bh r ∧
      (c = RB_RED → tcolor l = RB_BLACK ∧ tcolor r = RB_BLACK)
  end.

Definition rbtree (t : tree) : Prop := tcolor t = RB_BLACK ∧ rbsub t.

(** Red-black conditions on a context whose hole receives a subtree with
    root colour [c] and black height [n]. *)
Fixpoint cvalid (k : ctx) (c : rb_color_t) (n : nat) : Prop :=
  match k with
  | Top => c = RB_BLACK
  | CL pc up _ _ r =>
      rbsub r ∧ bh r = n ∧ (pc = RB_RED → c = RB_BLACK ∧ tcolor r = RB_BLACK) ∧
      cvalid up pc (n + black pc)
  | CR pc l _ _ up =>
      rbsub l ∧ bh l = n ∧ (pc = RB_RED → c = RB_BLACK ∧ tcolor l = RB_BLACK) ∧
      cvalid up pc (n + black pc)
  end.

(** The store holds subtree [t] below a node at address [par]. *)
Fixpoint rep (h : gmap nat (rb_node_t (A:=A))) (nl par : ptr) (t : tree) : Prop :=
  match t with
  | Leaf => True
  | Node c l p d r =>
      h !! p = Some (mk_node (Some d) (rootp nl l) (rootp nl r) par c) ∧
      rep h nl p l ∧ rep h nl p r
  end.

(** The store holds context [k], with address [hp] in its hole. *)
Fixpoint crep (h : gmap nat (rb_node_t (A:=A))) (nl : ptr) (k : ctx) (hp : ptr) : Prop :=
  match k with
  | Top => True
  | CL c up p d r =>
      h !! p = Some (mk_node (Some d) hp (rootp nl r) (cpar nl up) c) ∧
      rep h nl p r ∧ crep h nl up p
  | CR c l p d up =>
      h !! p = Some (mk_node (Some d) (rootp nl l) hp (cpar nl up) c) ∧
      rep h nl p l ∧ crep h nl up p
  end.

Definition sentinel (nl np : ptr) : rb_node_t (A:=A) :=
  mk_node None nl nl np RB_BLACK.

(** The fields of the tree object that rotations and recolourings leave
    alone. *)
Definition hdr_of (t : rb_tree_t (A:=A)) :=
  (nil t, size t, compare t, free_data t, destroyed t).

(** The tree object [t], with its sentinel at [nl], holds the tree [T];
    [np] is the content of the parent field of the sentinel. *)
Definition shape (nl : ptr) (t : rb_tree_t (A:=A)) (T : tree) (np : ptr) : Prop :=
  nil t = nl ∧
  root t = rootp nl T ∧
  mem t !! nl = Some (sentinel nl np) ∧
  NoDup (ptrs T) ∧ (nl ∉ ptrs T) ∧
  rep (mem t) nl nl T.

(** ... and its store holds nothing else. *)
Definition represents (t : rb_tree_t (A:=A)) (T : tree) (np : ptr) : Prop :=
  shape (nil t) t T np ∧
  dom (mem t) = {[ nil t ]} ∪ list_to_set (ptrs T).

End Abstraction.

Arguments tree : clear implicits.
Arguments ctx : clear implicits.

(** * Destruction and comparison of trees (rbtree.c, rbtree_utils.c) *)

Section Whole.
Context {A : Type}.

(** [destroy_node_data]: the visitor of the walk that [rb_tree_destroy]
    runs; its context is the tree object itself. *)
Definition destroy_node_data (d : option A) (context : rb_tree_t (A:=A))
    : rb_tree_t (A:=A) :=
  if free_data context then set_destroyed (destroyed context ++ [d]) context
  else context.

(** The loop of [rb_tree_destroy] that releases the nodes. *)
Fixpoint destroy_loop (fuel : nat) (current : ptr) : M (A:=A) unit :=
  match fuel with
  | O => fail
  | S fuel =>
    nl ← get_nil;
    if decide (current ≠ nl) then
      let temp := current in
      cl ← get_left current;
      if decide (cl ≠ nl) then
        cl ← get_left current; destroy_loop fuel cl
      else
        cr ← get_right current;
        if decide (cr ≠ nl) then
          cr ← get_right current; destroy_loop fuel cr
        else
          current ← get_parent current;
          (if decide (current ≠ nl) then
             l ← get_left current;
             if decide (l = temp) then put_left current nl
             else put_right current nl
           else mret tt);;
          free temp;;
          destroy_loop fuel current
    else mret tt
  end.

(** [rb_tree_destroy] releases the tree object; what it leaves is the store
    and the trace of the destructor calls.  [None] stands for the call on a
    null reference, which does nothing. *)
Definition rb_tree_destroy (fuel : nat) (tree : option (rb_tree_t (A:=A)))
    : option (option (gmap nat (rb_node_t (A:=A)) * list (option A))) :=
  match tree with
  | None => Some None
  | Some t =>
      t ← (if free_data t
           then rb_postorder_walk fuel (Some t) (Some destroy_node_data) t
           else Some t);
      r ← (r ← get_root; destroy_loop fuel r;; nl ← get_nil; free nl) t;
      Some (Some (mem r.2, destroyed r.2))
  end.

(** Reading through a reference to a tree object that is not written. *)
Definition read_in {X} (t : rb_tree_t (A:=A)) (m : M (A:=A) X) : option X :=
  fst <$> m t.

Fixpoint nodes_equal (fuel : nat) (tree1 : rb_tree_t (A:=A)) (node1 : ptr)
    (tree2 : rb_tree_t (A:=A)) (node2 : ptr) : option bool :=
  match fuel with
  | O => None
  | S fuel =>
    if decide (node1 = nil tree1 ∧ node2 = nil tree2) then Some true
    else if decide (node1 = nil tree1 ∨ node2 = nil tree2) then Some false
    else
      d1 ← read_in tree1 (get_data node1);
      d2 ← read_in tree2 (get_data node2);
      c ← read_in tree1 (call_compare d1 d2);
      if decide (c ≠ 0) then Some false
      else
        l1 ← read_in tree1 (get_left node1);
        l2 ← read_in tree2 (get_left node2);
        b ← nodes_equal fuel tree1 l1 tree2 l2;
        if b : bool then
          r1 ← read_in tree1 (get_right node1);
          r2 ← read_in tree2 (get_right node2);
          nodes_equal fuel tree1 r1 tree2 r2
        else Some false
  end.

(** [rb_trees_equal]: two null references are equal, a null reference and
    a tree are not. *)
Definition rb_trees_equal (fuel : nat) (tree1 tree2 : option (rb_tree_t (A:=A)))
    : option bool :=
  match tree1, tree2 with
  | Some t1, Some t2 =>
      if decide (size t1 ≠ size t2) then Some false
      else nodes_equal fuel t1 (root t1) t2 (root t2)
  | None, None => Some true
  | _, _ => Some false
  end.

End Whole.

(** * Iterators (rbtree_utils.h, rbtree_utils.c) *)

Section Iterator.
Context {A : Type}.

(** The iterator object.  [stack] is the block of [stack_capacity] cells
    that the field points to, [None] when the pointer is null; a cell that
    was never written has no content.  The field [tree] is a reference: the
    functions below receive the tree object it refers to. *)
Record rb_iterator_t := mk_iter {
  stack : option (gmap nat ptr);
  stack_size : Z;
  stack_capacity : Z;
  current : ptr
}.

(** The range of [int]; signed overflow has no defined result. *)
Definition int_min : Z := - 2 ^ 31.
Definition int_max : Z := 2 ^ 31 - 1.

Definition set_current (p : ptr) (it : rb_iterator_t) : rb_iterator_t :=
  mk_iter (stack it) (stack_size it) (stack_capacity it) p.

(** [rb_iterator_create]: [alloc_iter] and [alloc_stack] tell whether the
    two allocations succeed. *)
Definition rb_iterator_create (tree : option (rb_tree_t (A:=A)))
    (alloc_iter alloc_stack : bool) : option rb_iterator_t :=
  match tree with
  | None => None
  | Some t =>
      if negb alloc_iter then None
      else if negb alloc_stack then None
      else Some (mk_iter (Some ∅) 0 64 (nil t))
  end.

(** The statements of both descent loops that put [current] on the stack,
    enlarging the stack first when it is full; [realloc] tells whether the
    reallocation to a given capacity succeeds.  The flag of the result is
    false when it failed, in which case the function returns [NULL]. *)
Definition iter_push (realloc : Z → bool) (it : rb_iterator_t)
    : M (A:=A) (bool * rb_iterator_t) :=
  r ← (if decide (stack_size it >= stack_capacity it) then
         let capacity := stack_capacity it * 2 in
         if decide (int_min <= capacity <= int_max) then
           if realloc capacity
           then mret (true, mk_iter (Some (default ∅ (stack it))) (stack_size it)
                              capacity (current it))
           else mret (false, mk_iter None (stack_size it) capacity (current it))
         else fail
       else mret (true, it));
  if r.1 : bool then
    match stack r.2 with
    | Some cells =>
        if decide (0 <= stack_size r.2 < stack_capacity r.2 ∧
                   stack_size r.2 + 1 <= int_max)
        then mret (true, mk_iter (Some (<[Z.to_nat (stack_size r.2) := current r.2]> cells))
                           (stack_size r.2 + 1) (stack_capacity r.2) (current r.2))
        else fail
    | None => fail
    end
  else mret r.

(** [iter->current = iter->stack[--iter->stack_size]]. *)
Definition iter_pop (it : rb_iterator_t) : M (A:=A) rb_iterator_t :=
  match stack it with
  | Some cells =>
      if decide (int_min <= stack_size it - 1 ∧
                 0 <= stack_size it - 1 < stack_capacity it)
      then match cells !! Z.to_nat (stack_size it - 1) with
           | Some p => mret (mk_iter (stack it) (stack_size it - 1) (stack_capacity it) p)
           | None => fail
           end
      else fail
  | None => fail
  end.

(** The loop of [rb_iterator_first]. *)
Fixpoint iterator_first_loop (fuel : nat) (realloc : Z → bool) (it : rb_iterator_t)
    : M (A:=A) (bool * rb_iterator_t) :=
  match fuel with
  | O => fail
  | S fuel =>
    nl ← get_nil;
    if decide (current it ≠ nl) then
      r ← iter_push realloc it;
      if r.1 : bool then
        l ← get_left (current r.2);
        iterator_first_loop fuel realloc (set_current l r.2)
      else mret r
    else mret (true, it)
  end.

(** The loop of [rb_iterator_next]. *)
Fixpoint iterator_next_loop (fuel : nat) (realloc : Z → bool) (it : rb_iterator_t)
    : M (A:=A) (bool * rb_iterator_t) :=
  match fuel with
  | O => fail
  | S fuel =>
    nl ← get_nil; l ← get_left (current it);
    if decide (l ≠ nl) then
      r ← iter_push realloc it;
      if r.1 : bool then
        l ← get_left (current r.2);
        iterator_next_loop fuel realloc (set_current l r.2)
      else mret r
    else mret (true, it)
  end.

(** The functions return the payload and the iterator as they leave it;
    [tree] is the object that [iter->tree] refers to, [None] when that
    reference is null. *)
Definition rb_iterator_first (fuel : nat) (realloc : Z → bool)
    (tree : option (rb_tree_t (A:=A))) (iter : option rb_iterator_t)
    : option (option A * option rb_iterator_t) :=
  match iter, tree with
  | Some it, Some t =>
      fst <$>
        (r ← get_root;
         res ← iterator_first_loop fuel realloc
                 (mk_iter (stack it) 0 (stack_capacity it) r);
         if res.1 : bool then
           if decide (stack_size res.2 > 0) then
             it ← iter_pop res.2;
             d ← get_data (current it);
             mret (d, Some it)
           else mret (None, Some res.2)
         else mret (None, Some res.2)) t
  | _, _ => Some (None, iter)
  end.

Definition rb_iterator_next (fuel : nat) (realloc : Z → bool)
    (tree : option (rb_tree_t (A:=A))) (iter : option rb_iterator_t)
    : option (option A * option rb_iterator_t) :=
  match iter, tree with
  | Some it, Some t =>
      fst <$>
        (nl ← get_nil;
         if decide (current it = nl) then mret (None, Some it)
         else
           r ← get_right (current it);
           if decide (r ≠ nl) then
             r ← get_right (current it);
             res ← iterator_next_loop fuel realloc (set_current r it);
             if res.1 : bool then
               d ← get_data (current res.2);
               mret (d, Some res.2)
             else mret (None, Some res.2)
           else if decide (stack_size it > 0) then
             it ← iter_pop it;
             d ← get_data (current it);
             mret (d, Some it)
           else
             nl ← get_nil;
             mret (None, Some (set_current nl it))) t
  | _, _ => Some (None, iter)
  end.

Definition rb_iterator_has_next (tree : option (rb_tree_t (A:=A)))
    (iter : option rb_iterator_t) : option bool :=
  match iter, tree with
  | Some it, Some t =>
      fst <$>
        (nl ← get_nil;
         if decide (current it ≠ nl) then
           r ← get_right (current it);
           mret (bool_decide (r ≠ nl) || bool_decide (stack_size it > 0))
         else mret false) t
  | _, _ => Some false
  end.

End Iterator.

(** * Statistics (rbtree_utils.h, rbtree_utils.c) *)

Section Statistics.
Context {A : Type}.

(** The arithmetic of the type [double] is not interpreted: [double_zero]
    is [0.0], [double_add_int x n] is [x + n] for an [int] [n], and
    [double_div_size x n] is [x / n] for a [size_t] [n]. *)
Context {double : Type} (double_zero : double)
  (double_add_int : double → Z → double) (double_div_size : double → Z → double).

Record rb_tree_stats_t := mk_stats {
  total_nodes : Z;
  red_nodes : Z;
  black_nodes : Z;
  max_depth : Z;
  min_depth : Z;
  avg_depth : double
}.

Fixpoint collect_node_stats (fuel : nat) (node : ptr) (stats : rb_tree_stats_t)
    (depth : Z) : M (A:=A) rb_tree_stats_t :=
  match fuel with
  | O => fail
  | S fuel =>
    nl ← get_nil;
    if decide (node = nl) then
      mret (if decide (depth < min_depth stats)
            then mk_stats (total_nodes stats) (red_nodes stats) (black_nodes stats)
                   (max_depth stats) depth (avg_depth stats)
            else stats)
    else
      let stats := mk_stats ((total_nodes stats + 1) mod size_max) (red_nodes stats)
                     (black_nodes stats) (max_depth stats) (min_depth stats)
                     (double_add_int (avg_depth stats) depth) in
      c ← get_color node;
      let stats :=
        if decide (c = RB_RED)
        then mk_stats (total_nodes stats) ((red_nodes stats + 1) mod size_max)
               (black_nodes stats) (max_depth stats) (min_depth stats) (avg_depth stats)
        else mk_stats (total_nodes stats) (red_nodes stats)
               ((black_nodes stats + 1) mod size_max) (max_depth stats)
               (min_depth stats) (avg_depth stats) in
      let stats :=
        if decide (depth > max_depth stats)
        then mk_stats (total_nodes stats) (red_nodes stats) (black_nodes stats)
               depth (min_depth stats) (avg_depth stats)
        else stats in
      if decide (depth + 1 <= int_max) then
        l ← get_left node;
        stats ← collect_node_stats fuel l stats (depth + 1);
        r ← get_right node;
        collect_node_stats fuel r stats (depth + 1)
      else fail
  end.

Definition rb_get_statistics (fuel : nat) (tree : option (rb_tree_t (A:=A)))
    : option rb_tree_stats_t :=
  let stats := mk_stats 0 0 0 0 1000000 double_zero in
  query tree stats
    (r ← get_root; nl ← get_nil;
     if decide (r = nl) then mret stats
     else
       r ← get_root;
       stats ← collect_node_stats fuel r stats 1;
       mret (if decide (total_nodes stats > 0)
             then mk_stats (total_nodes stats) (red_nodes stats) (black_nodes stats)
                    (max_depth stats) (min_depth stats)
                    (double_div_size (avg_depth stats) (total_nodes stats))
             else stats)).

End Statistics.

Arguments rb_tree_stats_t : clear implicits.

(** * Predicates of the specification and of the proofs *)

(** Disjointness of address lists. *)
Definition ldisj (l1 l2 : list nat) : Prop := ∀ x, x ∈ l1 → x ∉ l2.

(** A copy of a hypothesis that the normalisation tactics leave alone. *)
Definition keep (P : Prop) : Prop := P.

(** A loop of the source is a function with a fuel argument here; the call
    returns [x] when every large enough fuel yields [x]. *)
Definition returns {X} (run : nat → option X) (x : X) : Prop :=
  ∃ n, ∀ fuel, (n ≤ fuel)%nat → run fuel = Some x.

(** More fuel never changes a result. *)
Definition fuel_mono {X} (run : nat → option X) : Prop :=
  ∀ n m x, (n ≤ m)%nat → run n = Some x → run m = Some x.

Section Predicates.
Context {A : Type}.
Implicit Types (t T : tree A) (k : ctx A) (st : rb_tree_t (A:=A)) (cmp : A → A → Z).
Implicit Types (it : rb_iterator_t).

(** [shape] of the tree [plug k t], with the parts of the store spelled out. *)
Definition shape_at nl st k t np : Prop :=
  nil st = nl ∧
  root st = croot k (rootp nl t) ∧
  mem st !! nl = Some (sentinel nl np) ∧
  NoDup (cptrs k ++ ptrs t) ∧ (nl ∉ cptrs k ++ ptrs t) ∧
  crep (mem st) nl k (rootp nl t) ∧
  rep (mem st) nl (cpar nl k) t.

Definition wp {X} (m : M (A:=A) X) (st : rb_tree_t (A:=A)) (Q : X → rb_tree_t (A:=A) → Prop) : Prop :=
  ∃ x st', m st = Some (x, st') ∧ Q x st'.

(** Code that only reads and writes allocated nodes and the root field
    leaves the other fields of the tree object and the set of allocated
    addresses as they are. *)
Definition same st st' : Prop :=
  hdr_of st' = hdr_of st ∧ dom (mem st') = dom (mem st).

Definition pres {X} (m : M (A:=A) X) : Prop :=
  ∀ st x st', m st = Some (x, st') → same st st'.

Definition blacken (t : tree A) : tree A :=
  match t with Leaf => Leaf | Node _ l p d r => Node RB_BLACK l p d r end.

(** State of the context during the insertion fix-up: the hole holds a red
    node of black height [n]; its parent may be red as well. *)
Definition ins_inv (k : ctx A) (n : nat) : Prop :=
  match k with
  | Top => True
  | CL RB_BLACK _ _ _ _ | CR RB_BLACK _ _ _ _ => cvalid k RB_RED n
  | CL RB_RED up _ _ s | CR RB_RED s _ _ up =>
      rbsub s ∧ bh s = n ∧ tcolor s = RB_BLACK ∧ cvalid up RB_RED n
  end.

(** The contract of a comparison function: the sign of [cmp a b] is that of
    a strict total order on the classes of the payloads that compare equal. *)
Record total_order (cmp : A → A → Z) : Prop := {
  cmp_antisym : ∀ a b, Z.sgn (cmp a b) = - Z.sgn (cmp b a);
  cmp_trans : ∀ a b c, cmp a b < 0 → cmp b c < 0 → cmp a c < 0;
  cmp_eq_compat : ∀ a b c, cmp a b = 0 → Z.sgn (cmp a c) = Z.sgn (cmp b c)
}.

Definition lt_of cmp (a b : A) : Prop := cmp a b < 0.

Definition sorted cmp (l : list A) : Prop := StronglySorted (lt_of cmp) l.

(** The comparisons made on the way down to the hole of a context. *)
Fixpoint path_ok cmp (d : A) (k : ctx A) : Prop :=
  match k with
  | Top => True
  | CL _ up _ v _ => cmp d v < 0 ∧ path_ok cmp d up
  | CR _ _ _ v up => cmp d v > 0 ∧ path_ok cmp d up
  end.

(** A payload that compares equal to [d] is stored. *)
Definition present cmp (d : A) (l : list A) : Prop := ∃ v, v ∈ l ∧ cmp d v = 0.

(** [capp km k]: the context [km], continued above its top by [k]. *)
Fixpoint capp (km k : ctx A) : ctx A :=
  match km with
  | Top => k
  | CL c up p d r => CL c (capp up k) p d r
  | CR c l p d up => CR c l p d (capp up k)
  end.

(** Contexts that go down along left children only. *)
Fixpoint left_spine (km : ctx A) : Prop :=
  match km with
  | Top => True
  | CL _ up _ _ _ => left_spine up
  | CR _ _ _ _ _ => False
  end.

Fixpoint right_spine (km : ctx A) : Prop :=
  match km with
  | Top => True
  | CL _ _ _ _ _ => False
  | CR _ _ _ _ up => right_spine up
  end.

Definition delete_post (st : rb_tree_t (A:=A)) (T : tree A) (d : A)
    (res : rb_result_t) (st' : rb_tree_t (A:=A)) : Prop :=
  (res = RB_NOT_FOUND ∧ st' = st ∧ ¬ present (compare st) d (values T)) ∨
  (res = RB_OK ∧ ∃ T' np' l1 v l2 z,
      shape (nil st) st' T' np' ∧ rbtree T' ∧
      values T = l1 ++ v :: l2 ∧ compare st d v = 0 ∧ values T' = l1 ++ l2 ∧
      ptrs T ≡ₚ z :: ptrs T' ∧
      dom (mem st') = dom (mem st) ∖ {[z]} ∧
      nil st' = nil st ∧ compare st' = compare st ∧
      free_data st' = free_data st ∧
      size st' = (size st - 1) mod size_max ∧
      ∃ dz, destroyed st' = destroyed st ++ (if free_data st then [dz] else [])).

(** The node reached by the ascent holds the first payload to the right of
    the context. *)
Definition holds st (nl y : nat) (o : option A) : Prop :=
  match o with
  | None => y = nl
  | Some v => y ≠ nl ∧ ∃ n, mem st !! y = Some n ∧ data n = Some v
  end.

Definition le_m {X} (m m' : M (A:=A) X) : Prop :=
  ∀ st r, m st = Some r → m' st = Some r.

(** The payloads held by the allocated nodes other than the sentinel. *)
Definition stored st : list (option A) :=
  data <$> (map_to_list (delete (nil st) (mem st))).*2.

(** What every reachable tree object satisfies. *)
Definition Inv st : Prop :=
  ∃ T np, represents st T np ∧ rbtree T ∧ sorted (compare st) (values T) ∧
          size st = Z.of_nat (length (values T)) mod size_max.

(** [rb_insert] on a tree that satisfies the invariant. *)
Definition insert_post st (T : tree A) (np : nat) (d : A) (alloc : option nat)
    (res : rb_result_t) (st' : rb_tree_t (A:=A)) : Prop :=
  match alloc with
  | None => res = RB_MEMORY_ERROR ∧ st' = st
  | Some z =>
      (present (compare st) d (values T) ∧ res = RB_DUPLICATE ∧ st' = st) ∨
      (¬ present (compare st) d (values T) ∧ res = RB_OK ∧
       ∃ T' l1 l2,
         represents st' T' np ∧ rbtree T' ∧
         values T = l1 ++ l2 ∧ values T' = l1 ++ d :: l2 ∧
         sorted (compare st) (values T') ∧
         nil st' = nil st ∧ compare st' = compare st ∧
         free_data st' = free_data st ∧ destroyed st' = destroyed st ∧
         size st' = (size st + 1) mod size_max)
  end.

(** The tree objects obtained from [rb_tree_create] with comparison function
    [cmp] by calls of [rb_insert] and [rb_delete] that return. *)
Inductive reachable (cmp : A → A → Z) : rb_tree_t (A:=A) → Prop :=
  | reach_create free_func alloc_tree alloc_nil st :
      rb_tree_create (Some cmp) free_func alloc_tree alloc_nil = Some st →
      reachable cmp st
  | reach_insert st d alloc res st' :
      reachable cmp st →
      returns (λ fuel, rb_insert fuel (Some st) d alloc) (res, Some st') →
      reachable cmp st'
  | reach_delete st d res st' :
      reachable cmp st →
      returns (λ fuel, rb_delete fuel (Some st) d) (res, Some st') →
      reachable cmp st'.

(** Every allocated node keeps its payload and its colour. *)
Definition payload_same st st' : Prop :=
  ∀ p n, mem st !! p = Some n →
         ∃ n', mem st' !! p = Some n' ∧ data n' = data n ∧ color n' = color n.

Definition keeps_payload {X} (m : M (A:=A) X) : Prop :=
  ∀ st x st', m st = Some (x, st') → payload_same st st'.

(** The nodes whose links a rotation at [x] below the context [k] rewrites:
    [x], the child [y] that takes its place, the root of the subtree [b]
    that changes sides, and the parent of [x]. *)
Definition rotated (nl : nat) k (x y : nat) (b : tree A) : list nat :=
  [x; y; rootp nl b; cpar nl k].

(** What a rotation leaves alone. *)
Definition links_only st st' : Prop :=
  same st st' ∧ payload_same st st' ∧ stored st' ≡ₚ stored st.

(** What a rotation does to the store: the header, the allocated addresses,
    the payloads and the colours stay, the sentinel is not written, and no
    node outside [nodes] is written. *)
Definition relinks (nodes : list nat) st st' : Prop :=
  links_only st st' ∧
  mem st' !! nil st = mem st !! nil st ∧
  ∀ p, p ∉ nodes → mem st' !! p = mem st !! p.

(** Payloads in the order of the pre-order and of the post-order walk. *)
Fixpoint preorder (t : tree A) : list A :=
  match t with Leaf => [] | Node _ l _ d r => d :: preorder l ++ preorder r end.

Fixpoint postorder (t : tree A) : list A :=
  match t with Leaf => [] | Node _ l _ d r => postorder l ++ postorder r ++ [d] end.

(** [v] lies between the bounds, as the range functions test it. *)
Definition in_range cmp (lo hi : A) (v : A) : Prop := cmp v lo >= 0 ∧ cmp v hi <= 0.

(** The first payload of a list that compares equal to [d]. *)
Fixpoint find_eq cmp (d : A) (l : list A) : option A :=
  match l with
  | [] => None
  | v :: l => if decide (cmp d v = 0) then Some v else find_eq cmp d l
  end.

(** The list that the visitor [collect] builds. *)
Definition collect (d : option A) (acc : list (option A)) : list (option A) :=
  acc ++ [d].

#[global] Instance in_range_dec cmp lo hi v : Decision (in_range cmp lo hi v).
Proof. unfold in_range. apply _. Defined.

(** [rb_inorder_walk] with the visitor [collect] returns the payloads [vs]. *)
Definition walk_yields st (vs : list A) : Prop :=
  returns (λ fuel, rb_inorder_walk fuel (Some st) (Some collect) []) (Some <$> vs).

(** Every allocated node is still allocated and holds the same payload. *)
Definition data_same st st' : Prop :=
  ∀ p n, mem st !! p = Some n → ∃ n', mem st' !! p = Some n' ∧ data n' = data n.

Definition keeps_data {X} (m : M (A:=A) X) : Prop :=
  ∀ st x st', m st = Some (x, st') → data_same st st'.

(** Code that leaves the tree object as it is. *)
Definition reads {X} (m : M (A:=A) X) : Prop :=
  ∀ st x st', m st = Some (x, st') → st' = st.

(** Two trees with the same layout of nodes, whose payloads compare equal
    node by node. *)
Fixpoint same_layout cmp (T1 T2 : tree A) : bool :=
  match T1, T2 with
  | Leaf, Leaf => true
  | Node _ l1 _ d1 r1, Node _ l2 _ d2 r2 =>
      bool_decide (cmp d1 d2 = 0) && same_layout cmp l1 l2 && same_layout cmp r1 r2
  | _, _ => false
  end.

(** [rb_preorder_walk] with the visitor [collect] returns the payloads [ps]. *)
Definition preorder_yields st (ps : list A) : Prop :=
  returns (λ fuel, rb_preorder_walk fuel (Some st) (Some collect) []) (Some <$> ps).

(** Iterations that the loop of [rb_tree_destroy] has left when it stands
    on the root of [t] below the context [k]. *)
Definition dmeasure k t : nat :=
  (2 * length (ptrs t) + (2 * length (cptrs k) - cdepth k))%nat.

(** The ancestors of the hole of a context that have it in their left
    subtree, the nearest first. *)
Fixpoint lanc k : list nat :=
  match k with
  | Top => []
  | CL _ up p _ _ => p :: lanc up
  | CR _ _ _ _ up => lanc up
  end.

(** The leftmost node of a subtree, with its context. *)
Fixpoint lmost k t : ctx A * tree A :=
  match t with
  | Leaf => (k, t)
  | Node c l p d r =>
      match l with
      | Leaf => (k, t)
      | Node _ _ _ _ _ => lmost (CL c k p d r) l
      end
  end.

(** The nearest ancestor that has the subtree on its left, with its context. *)
Fixpoint lup k t : option (ctx A * tree A) :=
  match k with
  | Top => None
  | CL c up p d r => Some (up, Node c t p d r)
  | CR c l p d up => lup up (Node c l p d t)
  end.

(** The stack of the iterator holds the addresses [s], the top first, in a
    block of [cap] cells. *)
Definition stack_holds (cap : Z) (s : list nat) it : Prop :=
  stack_capacity it = cap ∧ stack_size it = Z.of_nat (length s) ∧
  ∃ cells, stack it = Some cells ∧ ∀ i q, rev s !! i = Some q → cells !! i = Some q.

(** The iterator stands on the root of [t] below the context [k]. *)
Definition iter_at (nl : nat) (cap : Z) k t it : Prop :=
  current it = rootp nl t ∧ stack_holds cap (lanc k) it.

(** What the caller of [rb_iterator_next] gets, call after call. *)
Fixpoint next_yields (realloc : Z → bool) st it (vs : list A) : Prop :=
  match vs with
  | [] =>
      rb_iterator_has_next (Some st) (Some it) = Some false ∧
      ∃ it', returns (λ fuel, rb_iterator_next fuel realloc (Some st) (Some it))
                     (None, Some it')
  | v :: vs =>
      rb_iterator_has_next (Some st) (Some it) = Some true ∧
      ∃ it', returns (λ fuel, rb_iterator_next fuel realloc (Some st) (Some it))
                     (Some v, Some it') ∧
             next_yields realloc st it' vs
  end.

(** Nodes on the shortest way from the root of a subtree to a leaf. *)
Fixpoint tmin t : nat :=
  match t with Leaf => O | Node _ l _ _ r => S (Nat.min (tmin l) (tmin r)) end.

(** Red and black nodes of a subtree. *)
Fixpoint reds t : nat :=
  match t with
  | Leaf => O
  | Node c l _ _ r => (reds l + (1 - black c) + reds r)%nat
  end.

Fixpoint blacks t : nat :=
  match t with
  | Leaf => O
  | Node c l _ _ r => (blacks l + black c + blacks r)%nat
  end.

End Predicates.

(** * Trees of integers, as in the tests of the repository *)

(** [int_compare] of test.c: [(ia > ib) - (ia < ib)]. *)
Definition int_compare (a b : Z) : Z :=
  (if bool_decide (a > b) then 1 else 0) - (if bool_decide (a < b) then 1 else 0).

(** The tree object [rb_tree_create(int_compare, NULL)] returns when the
    sentinel is allocated at address 0. *)
Definition created : rb_tree_t (A:=Z) :=
  mk_tree 0 0 0 int_compare false
    {[ 0%nat := mk_node None 0%nat 0%nat 0%nat RB_BLACK ]} [].

(** The tree object after [rb_insert(tree, &d)], the node being allocated
    at address [z], and after [rb_delete(tree, &d)]. *)
Definition after_insert (st : rb_tree_t (A:=Z)) (d : Z) (z : nat) : rb_tree_t :=
  match rb_insert 64 (Some st) (Some d) (Some z) with
  | Some (_, Some st') => st'
  | _ => st
  end.

Definition after_delete (st : rb_tree_t (A:=Z)) (d : Z) : rb_tree_t :=
  match rb_delete 64 (Some st) (Some d) with
  | Some (_, Some st') => st'
  | _ => st
  end.

Definition ran {X} (o : option (X * option (rb_tree_t (A:=Z)))) : bool :=
  match o with Some (_, Some _) => true | _ => false end.

Definition tree_5 : rb_tree_t := after_insert created 5 1.

Definition tree_5_3 : rb_tree_t := after_insert tree_5 3 2.

Definition tree_1_2 : rb_tree_t := after_insert (after_insert created 1 1) 2 2.

Definition tree_2_1_3 : rb_tree_t :=
  after_insert (after_insert (after_insert created 2 1) 1 2) 3 3.

Definition tree_2_1_3_4_del : rb_tree_t :=
  after_delete (after_insert tree_2_1_3 4 4) 1.

(** A store that holds 5 at the root and 7 in its left child: the colours
    are those of a red-black tree, the payloads are out of order. *)
Definition unordered (cmp : Z → Z → Z) : rb_tree_t (A:=Z) :=
  mk_tree 1 0 2 cmp false
    (<[ 2%nat := mk_node (Some 7) 0%nat 0%nat 1%nat RB_RED ]>
       (<[ 1%nat := mk_node (Some 5) 2%nat 0%nat 0%nat RB_BLACK ]>
          {[ 0%nat := mk_node None 0%nat 0%nat 0%nat RB_BLACK ]})) [].

(** The tree object [rb_tree_create(int_compare, free_int)] returns, and the
    tree built from it by inserting 2, 1 and 3. *)
Definition created_owning : rb_tree_t (A:=Z) :=
  mk_tree 0 0 0 int_compare true
    {[ 0%nat := mk_node None 0%nat 0%nat 0%nat RB_BLACK ]} [].

Definition owning_2_1_3 : rb_tree_t :=
  after_insert (after_insert (after_insert created_owning 2 1) 1 2) 3 3.

(** * Lemmas *)

Section Basic.
Context {A : Type}.
Implicit Types (t l r : tree A) (k km : ctx A) (h : gmap nat (rb_node_t (A:=A))).

Lemma plug_rootp nl k t : rootp nl (plug k t) = croot k (rootp nl t).
Proof. revert t; induction k; intros; simpl; auto; by rewrite IHk. Qed.

Lemma ptrs_plug k t : ptrs (plug k t) ≡ₚ cptrs k ++ ptrs t.
Proof.
  revert t; induction k as [|c up IH p d r|c l p d up IH]; intros t; simpl; auto.
  - rewrite IH. simpl. solve_Permutation.
  - rewrite IH. simpl. solve_Permutation.
Qed.

Lemma values_plug k t : values (plug k t) = vbefore k ++ values t ++ vafter k.
Proof.
  revert t; induction k as [|c up IH p d r|c l p d up IH]; intros t; simpl.
  - by rewrite app_nil_r.
  - rewrite IH. simpl. by rewrite <- !app_assoc.
  - rewrite IH. simpl. by rewrite <- !app_assoc.
Qed.

Lemma rep_plug h nl k t :
  rep h nl nl (plug k t) ↔ crep h nl k (rootp nl t) ∧ rep h nl (cpar nl k) t.
Proof.
  revert t; induction k as [|c up IH p d r|c l p d up IH]; intros t; simpl.
  - tauto.
  - rewrite IH. simpl. tauto.
  - rewrite IH. simpl. tauto.
Qed.

Lemma rep_frame h h' nl par t :
  rep h nl par t → (∀ q, q ∈ ptrs t → h' !! q = h !! q) → rep h' nl par t.
Proof.
  revert par; induction t as [|c l IHl p d r IHr]; intros par; simpl; auto.
  intros (Hp & Hl & Hr) Hq. split_and!.
  - rewrite Hq; [done|]. set_solver.
  - apply IHl; auto. intros; apply Hq; set_solver.
  - apply IHr; auto. intros; apply Hq; set_solver.
Qed.

Lemma crep_frame h h' nl k hp :
  crep h nl k hp → (∀ q, q ∈ cptrs k → h' !! q = h !! q) → crep h' nl k hp.
Proof.
  revert hp; induction k as [|c up IH p d r|c l p d up IH]; intros hp; simpl; auto.
  - intros (Hp & Hr & Hup) Hq. split_and!.
    + rewrite Hq; [done|]. set_solver.
    + eapply rep_frame; eauto. intros; apply Hq; set_solver.
    + apply IH; auto. intros; apply Hq; set_solver.
  - intros (Hp & Hr & Hup) Hq. split_and!.
    + rewrite Hq; [done|]. set_solver.
    + eapply rep_frame; eauto. intros; apply Hq; set_solver.
    + apply IH; auto. intros; apply Hq; set_solver.
Qed.

End Basic.

Lemma NoDup_app' (l1 l2 : list nat) :
  NoDup (l1 ++ l2) ↔ NoDup l1 ∧ NoDup l2 ∧ ldisj l1 l2.
Proof. rewrite NoDup_app. unfold ldisj. tauto. Qed.
Lemma ldisj_app_l l1 l2 l : ldisj (l1 ++ l2) l ↔ ldisj l1 l ∧ ldisj l2 l.
Proof. unfold ldisj. setoid_rewrite elem_of_app. firstorder. Qed.
Lemma ldisj_cons_l x l1 l : ldisj (x :: l1) l ↔ (x ∉ l) ∧ ldisj l1 l.
Proof.
  unfold ldisj. setoid_rewrite elem_of_cons. split.
  - intros H. split; [apply H; by left|]. intros y Hy. apply H. by right.
  - intros [H1 H2] y [->|Hy]; auto.
Qed.
Lemma ldisj_nil_l l : ldisj [] l ↔ True.
Proof. unfold ldisj. setoid_rewrite elem_of_nil. firstorder. Qed.
Lemma ldisj_app_r l1 l2 l : ldisj l (l1 ++ l2) ↔ ldisj l l1 ∧ ldisj l l2.
Proof. unfold ldisj. setoid_rewrite elem_of_app. firstorder. Qed.
Lemma ldisj_cons_r x l1 l : ldisj l (x :: l1) ↔ (x ∉ l) ∧ ldisj l l1.
Proof.
  unfold ldisj. setoid_rewrite elem_of_cons. split.
  - intros H. split; [intros Hx; apply (H x Hx); by left|].
    intros y Hy Hy'. apply (H y Hy). by right.
  - intros [H1 H2] y Hy [->|Hy']; [done|]. by apply (H2 y).
Qed.
Lemma ldisj_nil_r l : ldisj l [] ↔ True.
Proof. unfold ldisj. setoid_rewrite elem_of_nil. firstorder. Qed.
Lemma ldisj_sym l1 l2 : ldisj l1 l2 → ldisj l2 l1.
Proof. unfold ldisj. intros H x Hx Hx'. by apply (H x). Qed.
Lemma NoDup_nil' : NoDup ([] : list nat) ↔ True.
Proof. split; auto using NoDup_nil_2. Qed.
Lemma not_elem_of_nil' (x : nat) : x ∉ ([] : list nat) ↔ True.
Proof. rewrite elem_of_nil. tauto. Qed.

Section Run.
Context {A : Type}.
Implicit Types (t l r : tree A) (k km : ctx A) (h : gmap nat (rb_node_t (A:=A))).
Implicit Types (st : rb_tree_t (A:=A)).

Lemma shape_plug nl st k t np :
  shape nl st (plug k t) np ↔
    nil st = nl ∧
    root st = croot k (rootp nl t) ∧
    mem st !! nl = Some (sentinel nl np) ∧
    NoDup (cptrs k ++ ptrs t) ∧ (nl ∉ cptrs k ++ ptrs t) ∧
    crep (mem st) nl k (rootp nl t) ∧
    rep (mem st) nl (cpar nl k) t.
Proof.
  unfold shape. rewrite plug_rootp, rep_plug, ptrs_plug. tauto.
Qed.

Lemma shape_at_plug nl st k t np :
  shape_at nl st k t np → shape nl st (plug k t) np.
Proof. apply shape_plug. Qed.

Lemma rootp_ne (x nl : nat) t : x ≠ nl → x ∉ ptrs t → x ≠ rootp nl t.
Proof. destruct t; simpl; set_solver. Qed.
Lemma rootp_ne' (x nl : nat) t : nl ≠ x → x ∉ ptrs t → rootp nl t ≠ x.
Proof. destruct t; simpl; set_solver. Qed.

Lemma croot_ne (x p : nat) k : x ≠ p → x ∉ cptrs k → x ≠ croot k p.
Proof.
  revert p; induction k as [|c up IH q d r|c l q d up IH]; intros p; simpl; auto.
  - rewrite not_elem_of_cons, not_elem_of_app. intros ? (? & ? & ?). by apply IH.
  - rewrite not_elem_of_cons, not_elem_of_app. intros ? (? & ? & ?). by apply IH.
Qed.

(** ** Weakest preconditions *)

Lemma wp_bind {X Y} (m : M (A:=A) X) (f : X → M (A:=A) Y) st Q :
  wp m st (λ x st', wp (f x) st' Q) → wp (m ≫= f) st Q.
Proof.
  intros (x & st' & E & (y & st'' & E' & HQ)). exists y, st''. split; auto.
  unfold mbind, M_bind. by rewrite E.
Qed.

Lemma wp_ret {X} (x : X) st (Q : X → rb_tree_t (A:=A) → Prop) : Q x st → wp (mret x) st Q.
Proof. intros. by exists x, st. Qed.

Lemma wp_mono {X} (m : M (A:=A) X) st (Q Q' : X → rb_tree_t (A:=A) → Prop) :
  wp m st Q' → (∀ x st', Q' x st' → Q x st') → wp m st Q.
Proof. intros (x & st' & E & HQ) H. exists x, st'. auto. Qed.

Lemma wp_get_nil st nl (Q : nat → rb_tree_t (A:=A) → Prop) :
  nil st = nl → Q nl st → wp get_nil st Q.
Proof. intros <- ?. by exists (nil st), st. Qed.
Lemma wp_get_root st rt (Q : nat → rb_tree_t (A:=A) → Prop) :
  root st = rt → Q rt st → wp get_root st Q.
Proof. intros <- ?. by exists (root st), st. Qed.
Lemma wp_put_root st (v : nat) (Q : unit → rb_tree_t (A:=A) → Prop) :
  Q tt (set_root v st) → wp (put_root v) st Q.
Proof. intros. by exists tt, (set_root v st). Qed.

Lemma wp_load st p n (Q : rb_node_t → rb_tree_t (A:=A) → Prop) :
  mem st !! p = Some n → Q n st → wp (load p) st Q.
Proof. intros E HQ. exists n, st. unfold load. by rewrite E. Qed.
Lemma wp_store st p n n' (Q : unit → rb_tree_t (A:=A) → Prop) :
  mem st !! p = Some n → Q tt (set_mem (<[p := n']> (mem st)) st) → wp (store p n') st Q.
Proof. intros E HQ. eexists tt, _. unfold store. by rewrite E. Qed.

Lemma wp_get_data st p n (Q : option A → rb_tree_t (A:=A) → Prop) :
  mem st !! p = Some n → Q (data n) st → wp (get_data p) st Q.
Proof. intros. apply wp_bind. eapply wp_load; eauto. by apply wp_ret. Qed.
Lemma wp_get_left st p n (Q : nat → rb_tree_t (A:=A) → Prop) :
  mem st !! p = Some n → Q (left n) st → wp (get_left p) st Q.
Proof. intros. apply wp_bind. eapply wp_load; eauto. by apply wp_ret. Qed.
Lemma wp_get_right st p n (Q : nat → rb_tree_t (A:=A) → Prop) :
  mem st !! p = Some n → Q (right n) st → wp (get_right p) st Q.
Proof. intros. apply wp_bind. eapply wp_load; eauto. by apply wp_ret. Qed.
Lemma wp_get_parent st p n (Q : nat → rb_tree_t (A:=A) → Prop) :
  mem st !! p = Some n → Q (parent n) st → wp (get_parent p) st Q.
Proof. intros. apply wp_bind. eapply wp_load; eauto. by apply wp_ret. Qed.
Lemma wp_get_color st p n (Q : rb_color_t → rb_tree_t (A:=A) → Prop) :
  mem st !! p = Some n → Q (color n) st → wp (get_color p) st Q.
Proof. intros. apply wp_bind. eapply wp_load; eauto. by apply wp_ret. Qed.

Lemma wp_call_compare st a b (Q : Z → rb_tree_t (A:=A) → Prop) :
  Q (compare st a b) st → wp (call_compare (Some a) (Some b)) st Q.
Proof. intros. by eexists _, st. Qed.

Lemma wp_malloc st p init (Q : option nat → rb_tree_t (A:=A) → Prop) :
  mem st !! p = None →
  Q (Some p) (set_mem (<[p := init]> (mem st)) st) →
  wp (malloc (Some p) init) st Q.
Proof. intros E HQ. eexists _, _. unfold malloc. by rewrite E. Qed.

Lemma wp_free st p n (Q : unit → rb_tree_t (A:=A) → Prop) :
  mem st !! p = Some n →
  Q tt (set_mem (delete p (mem st)) st) →
  wp (free p) st Q.
Proof. intros E HQ. eexists _, _. unfold free. by rewrite E. Qed.

Lemma wp_get_size st (Q : Z → rb_tree_t (A:=A) → Prop) :
  Q (size st) st → wp get_size st Q.
Proof. intros. by eexists _, st. Qed.
Lemma wp_put_size st n (Q : unit → rb_tree_t (A:=A) → Prop) :
  Q tt (set_size (n mod size_max) st) → wp (put_size n) st Q.
Proof. intros. by eexists _, _. Qed.

Lemma wp_put_left st p v n (Q : unit → rb_tree_t (A:=A) → Prop) :
  mem st !! p = Some n →
  Q tt (set_mem (<[p := mk_node (data n) v (right n) (parent n) (color n)]> (mem st)) st) →
  wp (put_left p v) st Q.
Proof. intros. apply wp_bind. eapply wp_load; eauto. eapply wp_store; eauto. Qed.
Lemma wp_put_right st p v n (Q : unit → rb_tree_t (A:=A) → Prop) :
  mem st !! p = Some n →
  Q tt (set_mem (<[p := mk_node (data n) (left n) v (parent n) (color n)]> (mem st)) st) →
  wp (put_right p v) st Q.
Proof. intros. apply wp_bind. eapply wp_load; eauto. eapply wp_store; eauto. Qed.
Lemma wp_put_parent st p v n (Q : unit → rb_tree_t (A:=A) → Prop) :
  mem st !! p = Some n →
  Q tt (set_mem (<[p := mk_node (data n) (left n) (right n) v (color n)]> (mem st)) st) →
  wp (put_parent p v) st Q.
Proof. intros. apply wp_bind. eapply wp_load; eauto. eapply wp_store; eauto. Qed.
Lemma wp_put_color st p v n (Q : unit → rb_tree_t (A:=A) → Prop) :
  mem st !! p = Some n →
  Q tt (set_mem (<[p := mk_node (data n) (left n) (right n) (parent n) v]> (mem st)) st) →
  wp (put_color p v) st Q.
Proof. intros. apply wp_bind. eapply wp_load; eauto. eapply wp_store; eauto. Qed.

End Run.

Arguments shape : simpl never.
Arguments set_mem {A} h t /.
Arguments set_root {A} r t /.
Arguments set_size {A} n t /.
Arguments set_destroyed {A} l t /.

Lemma keep_intro (P : Prop) : P → keep P.
Proof. auto. Qed.
Arguments keep : simpl never.

Ltac nodup_norm :=
  repeat match goal with
  | H : NoDup _ |- _ =>
      progress rewrite ?NoDup_app', ?NoDup_cons, ?NoDup_nil', ?ldisj_app_l, ?ldisj_cons_l,
        ?ldisj_nil_l, ?ldisj_app_r, ?ldisj_cons_r, ?ldisj_nil_r,
        ?not_elem_of_app, ?not_elem_of_cons, ?not_elem_of_nil' in H
  | H : _ ∉ _ |- _ =>
      progress rewrite ?not_elem_of_app, ?not_elem_of_cons, ?not_elem_of_nil' in H
  | H : ldisj _ _ |- _ =>
      progress rewrite ?ldisj_app_l, ?ldisj_cons_l,
        ?ldisj_nil_l, ?ldisj_app_r, ?ldisj_cons_r, ?ldisj_nil_r,
        ?not_elem_of_app, ?not_elem_of_cons, ?not_elem_of_nil' in H
  | H : _ ∧ _ |- _ => destruct H
  | H : True |- _ => clear H
  end.

Ltac ptr_ne :=
  solve [ congruence
        | apply croot_ne; [congruence | assumption]
        | apply not_eq_sym; apply croot_ne; [congruence | assumption]
        | apply rootp_ne; [congruence | assumption]
        | apply rootp_ne'; [congruence | assumption]
        | apply not_eq_sym; apply rootp_ne; [congruence | assumption]
        | apply not_eq_sym; apply rootp_ne'; [congruence | assumption] ].

Ltac solve_lookup :=
  simpl;
  lazymatch goal with
  | |- <[?p := _]> _ !! ?p = Some _ => apply lookup_insert_eq
  | |- <[?q := _]> _ !! ?p = Some _ => rewrite (lookup_insert_ne _ q p) by ptr_ne; solve_lookup
  | |- _ => eassumption
  end.

Ltac raw_step :=
  lazymatch goal with
  | |- wp (mbind _ _) _ _ => apply wp_bind
  | |- wp (mret _) _ _ => apply wp_ret
  | |- wp get_nil _ _ => eapply wp_get_nil; [reflexivity|]
  | |- wp get_root _ _ => eapply wp_get_root; [reflexivity|]
  | |- wp (put_root _) _ _ => apply wp_put_root
  | |- wp (get_data _) _ _ => eapply wp_get_data; [solve_lookup|]
  | |- wp (get_left _) _ _ => eapply wp_get_left; [solve_lookup|]
  | |- wp (get_right _) _ _ => eapply wp_get_right; [solve_lookup|]
  | |- wp (get_parent _) _ _ => eapply wp_get_parent; [solve_lookup|]
  | |- wp (get_color _) _ _ => eapply wp_get_color; [solve_lookup|]
  | |- wp (put_left _ _) _ _ => eapply wp_put_left; [solve_lookup|]
  | |- wp (put_right _ _) _ _ => eapply wp_put_right; [solve_lookup|]
  | |- wp (put_parent _ _) _ _ => eapply wp_put_parent; [solve_lookup|]
  | |- wp (put_color _ _) _ _ => eapply wp_put_color; [solve_lookup|]
  | |- wp (call_compare (Some _) (Some _)) _ _ => apply wp_call_compare
  | |- wp (if decide ?P then _ else _) _ _ =>
      let e := fresh "e" in
      destruct (decide P) as [e|e];
      [ try solve [exfalso; congruence | exfalso; revert e; ptr_ne | exfalso; simpl in *; lia]
      | try solve [exfalso; congruence | exfalso; apply e; ptr_ne | exfalso; simpl in *; lia] ]
  end; simpl.

Ltac solve_frame :=
  let q := fresh "q" in let Hq := fresh "Hq" in
  intros q Hq; simpl;
  repeat (rewrite lookup_insert_ne; [| intros ->; simpl in *; done ]);
  done.

Ltac solve_rep :=
  simpl;
  lazymatch goal with
  | |- True => exact I
  | |- _ ∧ _ => split; solve_rep
  | |- rep _ _ _ _ => first [eassumption | eapply rep_frame; [eassumption | solve_frame]]
  | |- crep _ _ _ _ => first [eassumption | eapply crep_frame; [eassumption | solve_frame]]
  | |- _ !! _ = Some _ => solve_lookup
  end.

Ltac norm_lists := simpl; repeat (rewrite <- app_assoc; simpl).
Ltac norm_lists_in H := simpl in H; repeat (rewrite <- app_assoc in H; simpl in H).

(** Closes a goal on the shape of the final store, after the code has run
    on a store whose nodes are known. *)
Ltac nodup_goal :=
  repeat progress
    rewrite ?NoDup_app', ?NoDup_cons, ?NoDup_nil', ?ldisj_app_l, ?ldisj_cons_l,
      ?ldisj_nil_l, ?ldisj_app_r, ?ldisj_cons_r, ?ldisj_nil_r,
      ?not_elem_of_app, ?not_elem_of_cons, ?not_elem_of_nil';
  split_and!;
  solve [ done | congruence | apply ldisj_sym; done ].

Ltac raw_finish Hnd Hnin :=
  unfold keep in *; split_and!;
  try done;
  try solve_lookup;
  try (norm_lists; norm_lists_in Hnd; norm_lists_in Hnin; done);
  try solve_rep;
  try nodup_goal.

Section Rot.
Context {A : Type}.
Implicit Types (t l r : tree A) (k km : ctx A) (h : gmap nat (rb_node_t (A:=A))).
Implicit Types (st : rb_tree_t (A:=A)).

Lemma left_rotate_shape nl st k xc a x xd yc b y yd g np :
  shape nl st (plug k (Node xc a x xd (Node yc b y yd g))) np →
  wp (rb_left_rotate x) st (λ _ st',
         shape nl st' (plug k (Node yc (Node xc a x xd b) y yd g)) np).
Proof.
  rewrite shape_plug. destruct st as [rt nl' sz cmp fd h ds]. simpl.
  intros (-> & Hroot & Hnil & Hnd & Hnin & Hk & Hx & Ha & (Hy & Hb & Hg)).
  eapply wp_mono; [|intros ? st' HS; apply shape_plug; exact HS].
  pose proof (keep_intro _ Hnd) as Hnd'; pose proof (keep_intro _ Hnin) as Hnin'.
  destruct b as [|bc bl bp bd br]; destruct k as [|kc up p pd r|kc l p pd up]; simpl in *.
  all: nodup_norm.
  all: unfold rb_left_rotate.
  all: repeat raw_step.
  all: raw_finish Hnd' Hnin'.
Qed.

Lemma right_rotate_shape nl st k xc a x xd yc b y yd g np :
  shape nl st (plug k (Node yc (Node xc a x xd b) y yd g)) np →
  wp (rb_right_rotate y) st (λ _ st',
         shape nl st' (plug k (Node xc a x xd (Node yc b y yd g))) np).
Proof.
  rewrite shape_plug. destruct st as [rt nl' sz cmp fd h ds]. simpl.
  intros (-> & Hroot & Hnil & Hnd & Hnin & Hk & Hy & (Hx & Ha & Hb) & Hg).
  eapply wp_mono; [|intros ? st' HS; apply shape_plug; exact HS].
  pose proof (keep_intro _ Hnd) as Hnd'; pose proof (keep_intro _ Hnin) as Hnin'.
  destruct b as [|bc bl bp bd br]; destruct k as [|kc up p pd r|kc l p pd up]; simpl in *.
  all: nodup_norm.
  all: unfold rb_right_rotate.
  all: repeat raw_step.
  all: raw_finish Hnd' Hnin'.
Qed.

Lemma put_color_shape nl st k c l p d r np c' :
  shape nl st (plug k (Node c l p d r)) np →
  wp (put_color p c') st (λ _ st', shape nl st' (plug k (Node c' l p d r)) np).
Proof.
  rewrite shape_plug. destruct st as [rt nl' sz cmp fd h ds]. simpl.
  intros (-> & Hroot & Hnil & Hnd & Hnin & Hk & Hx & Ha & Hb).
  eapply wp_mono; [|intros ? st' HS; apply shape_plug; exact HS].
  pose proof (keep_intro _ Hnd) as Hnd'; pose proof (keep_intro _ Hnin) as Hnin'.
  nodup_norm.
  repeat raw_step.
  raw_finish Hnd' Hnin'.
Qed.

Lemma shape_lookup nl st k c l p d r np :
  shape nl st (plug k (Node c l p d r)) np →
  mem st !! p = Some (mk_node (Some d) (rootp nl l) (rootp nl r) (cpar nl k) c).
Proof. rewrite shape_plug. simpl. tauto. Qed.

Lemma shape_nil nl st T np : shape nl st T np → mem st !! nl = Some (sentinel nl np).
Proof. unfold shape. tauto. Qed.
Lemma shape_nil_eq nl st T np : shape nl st T np → nil st = nl.
Proof. unfold shape. tauto. Qed.
Lemma shape_root nl st T np : shape nl st T np → root st = rootp nl T.
Proof. unfold shape. tauto. Qed.

End Rot.

Section Pres.
Context {A : Type}.
Implicit Types (st : rb_tree_t (A:=A)).

Lemma same_fields st st' :
  same st st' →
  nil st' = nil st ∧ size st' = size st ∧ compare st' = compare st ∧
  free_data st' = free_data st ∧ destroyed st' = destroyed st ∧
  dom (mem st') = dom (mem st).
Proof. unfold same, hdr_of. intros [[= ? ? ? ? ?] ?]. by split_and!. Qed.

Lemma same_refl st : same st st.
Proof. by split. Qed.
Lemma same_trans st1 st2 st3 : same st1 st2 → same st2 st3 → same st1 st3.
Proof. intros [? ?] [? ?]. split; congruence. Qed.

Lemma pres_ret {X} (x : X) : pres (mret x : M (A:=A) X).
Proof. intros st y st' [= <- <-]. apply same_refl. Qed.
Lemma pres_fail {X} : pres (fail : M (A:=A) X).
Proof. intros st y st' [=]. Qed.
Lemma pres_bind {X Y} (m : M (A:=A) X) (f : X → M (A:=A) Y) :
  pres m → (∀ x, pres (f x)) → pres (m ≫= f).
Proof.
  intros Hm Hf st y st'. unfold mbind, M_bind.
  destruct (m st) as [[x st1]|] eqn:E; [|done].
  intros E'. eapply same_trans; [eapply Hm|eapply Hf]; eauto.
Qed.
Lemma pres_get_nil : pres (get_nil (A:=A)).
Proof. intros st y st' [= <- <-]. apply same_refl. Qed.
Lemma pres_get_root : pres (get_root (A:=A)).
Proof. intros st y st' [= <- <-]. apply same_refl. Qed.
Lemma pres_put_root v : pres (put_root (A:=A) v).
Proof. intros st y st' [= <- <-]. by split. Qed.
Lemma pres_load p : pres (load (A:=A) p).
Proof.
  intros st y st'. unfold load. destruct (mem st !! p); [|done].
  intros [= <- <-]. apply same_refl.
Qed.
Lemma pres_store p n : pres (store (A:=A) p n).
Proof.
  intros st y st'. unfold store. destruct (mem st !! p) eqn:E; [|done].
  intros [= <- <-]. split; [done|]. simpl. apply dom_insert_lookup_L. eauto.
Qed.
Lemma pres_get_data p : pres (get_data (A:=A) p).
Proof. apply pres_bind; [apply pres_load|intros; apply pres_ret]. Qed.
Lemma pres_get_left p : pres (get_left (A:=A) p).
Proof. apply pres_bind; [apply pres_load|intros; apply pres_ret]. Qed.
Lemma pres_get_right p : pres (get_right (A:=A) p).
Proof. apply pres_bind; [apply pres_load|intros; apply pres_ret]. Qed.
Lemma pres_get_parent p : pres (get_parent (A:=A) p).
Proof. apply pres_bind; [apply pres_load|intros; apply pres_ret]. Qed.
Lemma pres_get_color p : pres (get_color (A:=A) p).
Proof. apply pres_bind; [apply pres_load|intros; apply pres_ret]. Qed.
Lemma pres_put_left p v : pres (put_left (A:=A) p v).
Proof. apply pres_bind; [apply pres_load|intros; apply pres_store]. Qed.
Lemma pres_put_right p v : pres (put_right (A:=A) p v).
Proof. apply pres_bind; [apply pres_load|intros; apply pres_store]. Qed.
Lemma pres_put_parent p v : pres (put_parent (A:=A) p v).
Proof. apply pres_bind; [apply pres_load|intros; apply pres_store]. Qed.
Lemma pres_put_color p v : pres (put_color (A:=A) p v).
Proof. apply pres_bind; [apply pres_load|intros; apply pres_store]. Qed.

Lemma wp_pres {X} (m : M (A:=A) X) st (Q : X → rb_tree_t (A:=A) → Prop) :
  pres m → wp m st Q → wp m st (λ x st', Q x st' ∧ same st st').
Proof. intros Hp (x & st' & E & HQ). exists x, st'. eauto. Qed.

End Pres.

Ltac solve_pres :=
  repeat first
    [ assumption
    | apply pres_ret | apply pres_fail | apply pres_get_nil | apply pres_get_root
    | apply pres_put_root | apply pres_get_data | apply pres_get_left
    | apply pres_get_right | apply pres_get_parent | apply pres_get_color
    | apply pres_put_left | apply pres_put_right | apply pres_put_parent
    | apply pres_put_color
    | apply pres_bind; [|intros ?]
    | match goal with
      | |- pres (if decide ?P then _ else _) => destruct (decide P)
      | |- pres (if ?b then _ else _) => destruct b
      | |- pres (match ?b with _ => _ end) => destruct b
      end ].

Section Pres2.
Context {A : Type}.

Lemma pres_left_rotate x : pres (rb_left_rotate (A:=A) x).
Proof. unfold rb_left_rotate. solve_pres. Qed.
Lemma pres_right_rotate x : pres (rb_right_rotate (A:=A) x).
Proof. unfold rb_right_rotate. solve_pres. Qed.
Lemma pres_transplant u v : pres (rb_transplant (A:=A) u v).
Proof. unfold rb_transplant. solve_pres. Qed.

Lemma pres_insert_fixup fuel z : pres (rb_insert_fixup (A:=A) fuel z).
Proof.
  revert z; induction fuel as [|fuel IH]; intros z; simpl; [apply pres_fail|].
  pose proof pres_left_rotate. pose proof pres_right_rotate.
  solve_pres; try apply IH; auto.
Qed.

Lemma pres_delete_fixup fuel x : pres (rb_delete_fixup (A:=A) fuel x).
Proof.
  revert x; induction fuel as [|fuel IH]; intros x; simpl; [apply pres_fail|].
  pose proof pres_left_rotate. pose proof pres_right_rotate.
  solve_pres; try apply IH; auto.
Qed.

End Pres2.

Ltac solve_same :=
  split; [reflexivity|];
  simpl; repeat (rewrite dom_insert_lookup_L by (eexists; solve_lookup));
  reflexivity.

Section Abs.
Context {A : Type}.
Implicit Types (t l r : tree A) (k km : ctx A).

Lemma plug_rbtree k t : cvalid k (tcolor t) (bh t) → rbsub t → rbtree (plug k t).
Proof.
  revert t; induction k as [|c up IH p d r|c l p d up IH]; intros t; simpl.
  - by split.
  - intros (Hr & Hb & Hc & Hup) Ht. apply IH; simpl; intuition (auto; congruence).
  - intros (Hr & Hb & Hc & Hup) Ht. apply IH; simpl; rewrite ?Hb; intuition (auto; congruence).
Qed.

Lemma cvalid_ins_inv k n : cvalid k RB_BLACK n → ins_inv k n.
Proof.
  destruct k as [|[] up p d r|[] l p d up]; simpl; auto;
    rewrite ?Nat.add_0_r; intuition auto.
Qed.

Lemma cvalid_eq k c n n' : cvalid k c n → n = n' → cvalid k c n'.
Proof. by intros ? <-. Qed.

Lemma blacken_rbtree t : rbtree t → blacken t = t.
Proof. destruct t; simpl; auto. intros [H _]; simpl in H. by subst. Qed.

Lemma values_blacken t : values (blacken t) = values t.
Proof. by destruct t. Qed.
Lemma ptrs_blacken t : ptrs (blacken t) = ptrs t.
Proof. by destruct t. Qed.

End Abs.

Section ShapeRules.
Context {A : Type}.
Implicit Types (t l r : tree A) (k km : ctx A) (st : rb_tree_t (A:=A)).

Lemma shape_distinct nl st k t np :
  shape nl st (plug k t) np → NoDup (nl :: cptrs k ++ ptrs t).
Proof. rewrite shape_plug. rewrite NoDup_cons. tauto. Qed.

Lemma put_color_nil_shape nl st T np :
  shape nl st T np → wp (put_color nl RB_BLACK) st (λ _ st', shape nl st' T np).
Proof.
  unfold shape. destruct st as [rt nl' sz cmp fd h ds]. simpl.
  intros (-> & Hroot & Hnil & Hnd & Hnin & Hrep).
  eapply wp_put_color; [done|]. simpl. split_and!; auto.
  - by rewrite lookup_insert_eq.
  - eapply rep_frame; [done|]. intros q Hq. rewrite lookup_insert_ne; [done|].
    intros ->. done.
Qed.

Lemma blacken_root_shape nl st T np :
  shape nl st T np →
  wp (put_color (rootp nl T) RB_BLACK) st (λ _ st', shape nl st' (blacken T) np).
Proof.
  destruct T as [|c l p d r]; simpl.
  - apply put_color_nil_shape.
  - apply (put_color_shape nl st Top).
Qed.

Lemma blacken_croot_shape nl st k t np :
  shape nl st (plug k t) np →
  wp (put_color (croot k (rootp nl t)) RB_BLACK) st
     (λ _ st', shape nl st' (blacken (plug k t)) np).
Proof. intros HS. rewrite <- plug_rootp. by apply blacken_root_shape. Qed.

Lemma shape_root_plug nl st k t np :
  shape nl st (plug k t) np → root st = croot k (rootp nl t).
Proof. rewrite shape_plug. tauto. Qed.

Lemma shape_lookup_rootp nl st k t np :
  shape nl st (plug k t) np →
  ∃ n, mem st !! rootp nl t = Some n ∧ color n = tcolor t.
Proof.
  intros HS. destruct t as [|c l p d r]; simpl.
  - eexists; split; [eapply shape_nil; eauto|done].
  - eexists; split; [eapply shape_lookup; eauto|done].
Qed.

Lemma wp_get_color_rootp nl st k t np (Q : rb_color_t → rb_tree_t (A:=A) → Prop) :
  shape nl st (plug k t) np → Q (tcolor t) st → wp (get_color (rootp nl t)) st Q.
Proof.
  intros HS HQ. destruct (shape_lookup_rootp _ _ _ _ _ HS) as (n & E & Hc).
  eapply wp_get_color; [exact E|]. by rewrite Hc.
Qed.

Lemma tcolor_red (t : tree A) :
  tcolor t ≠ RB_BLACK → ∃ l p d r, t = Node RB_RED l p d r.
Proof. destruct t as [|[] l p d r]; simpl; try done. eauto. Qed.

End ShapeRules.

(** Finding the node at address [p] in a tree term. *)
Ltac find_focus T p K ret :=
  lazymatch T with
  | Node _ _ p _ _ => ret K T
  | Node ?c ?l ?q ?d ?r =>
      first [ find_focus l p (CL c K q d r) ret | find_focus r p (CR c l q d K) ret ]
  end.

(** Finding the subtree [u] in a tree term. *)
Ltac find_sub T u K ret :=
  lazymatch T with
  | u => ret K T
  | Node ?c ?l ?q ?d ?r =>
      first [ find_sub l u (CL c K q d r) ret | find_sub r u (CR c l q d K) ret ]
  end.

Ltac focus_sub HS u :=
  simpl in HS;
  lazymatch type of HS with
  | shape ?nl ?st (plug ?K ?T) ?np =>
      find_sub T u K ltac:(fun K' T' => change (shape nl st (plug K' T') np) in HS)
  | @shape ?B ?nl ?st ?T ?np =>
      find_sub T u (@Top B) ltac:(fun K' T' => change (shape nl st (plug K' T') np) in HS)
  end.

Ltac zip_up HS :=
  simpl in HS;
  lazymatch type of HS with
  | shape ?nl ?st (plug ?K ?T) ?np => idtac
  | @shape ?B ?nl ?st ?T ?np => change (shape nl st (plug (@Top B) T) np) in HS
  end.

Ltac focus_on HS p :=
  simpl in HS;
  lazymatch type of HS with
  | shape ?nl ?st (plug ?K ?T) ?np =>
      find_focus T p K ltac:(fun K' T' => change (shape nl st (plug K' T') np) in HS)
  | @shape ?B ?nl ?st ?T ?np =>
      find_focus T p (@Top B) ltac:(fun K' T' => change (shape nl st (plug K' T') np) in HS)
  end.

Ltac sh_lookup :=
  lazymatch goal with
  | HS : shape ?nl ?st _ _ |- mem ?st !! ?nl = Some _ => exact (shape_nil _ _ _ _ HS)
  | HS : shape ?nl ?st _ _ |- mem ?st !! ?p = Some _ =>
      focus_on HS p; exact (shape_lookup _ _ _ _ _ _ _ _ _ HS)
  end.

Ltac sh_facts HS :=
  let H := fresh "Hdist" in
  simpl in HS;
  lazymatch type of HS with
  | shape ?nl ?st (plug ?K ?T) ?np => pose proof (shape_distinct _ _ _ _ _ HS) as H
  | @shape ?B ?nl ?st ?T ?np => pose proof (shape_distinct nl st (@Top B) T np HS) as H
  end;
  simpl in H; nodup_norm.

Ltac sh_step :=
  lazymatch goal with
  | |- wp (mbind _ _) _ _ => apply wp_bind
  | |- wp (mret _) _ _ => apply wp_ret
  | HS : shape ?nl ?st _ _ |- wp get_nil ?st _ =>
      eapply wp_get_nil; [exact (shape_nil_eq _ _ _ _ HS)|]
  | HS : shape ?nl ?st _ _ |- wp get_root ?st _ =>
      zip_up HS; eapply wp_get_root; [exact (shape_root_plug _ _ _ _ _ HS)|]
  | |- wp (get_data _) _ _ => eapply wp_get_data; [sh_lookup|]
  | |- wp (get_left _) _ _ => eapply wp_get_left; [sh_lookup|]
  | |- wp (get_right _) _ _ => eapply wp_get_right; [sh_lookup|]
  | |- wp (get_parent _) _ _ => eapply wp_get_parent; [sh_lookup|]
  | HS : shape ?nl ?st _ _ |- wp (get_color (rootp ?nl ?u)) ?st _ =>
      focus_sub HS u; eapply wp_get_color_rootp; [exact HS|]
  | |- wp (get_color _) _ _ => eapply wp_get_color; [sh_lookup|]
  | HS : shape ?nl ?st _ _ |- wp (put_color (croot _ _) RB_BLACK) ?st _ =>
      zip_up HS;
      eapply wp_mono; [exact (blacken_croot_shape _ _ _ _ _ HS)|];
      clear HS; intros [] ? HS
  | HS : shape ?nl ?st _ _ |- wp (put_color ?nl RB_BLACK) ?st _ =>
      eapply wp_mono; [exact (put_color_nil_shape _ _ _ _ HS)|];
      clear HS; intros [] ? HS
  | HS : shape ?nl ?st _ _ |- wp (put_color ?p ?c) ?st _ =>
      focus_on HS p;
      eapply wp_mono; [eapply put_color_shape; exact HS|];
      clear HS; intros [] ? HS
  | HS : shape ?nl ?st _ _ |- wp (rb_left_rotate ?p) ?st _ =>
      focus_on HS p;
      eapply wp_mono; [eapply left_rotate_shape; exact HS|];
      clear HS; intros [] ? HS
  | HS : shape ?nl ?st _ _ |- wp (rb_right_rotate ?p) ?st _ =>
      focus_on HS p;
      eapply wp_mono; [eapply right_rotate_shape; exact HS|];
      clear HS; intros [] ? HS
  | |- wp (call_compare (Some _) (Some _)) _ _ => apply wp_call_compare
  | |- wp (if decide ?P then _ else _) _ _ =>
      let e := fresh "e" in
      destruct (decide P) as [e|e];
      [ try solve [exfalso; congruence | exfalso; revert e; ptr_ne | exfalso; simpl in *; lia]
      | try solve [exfalso; congruence | exfalso; apply e; ptr_ne | exfalso; simpl in *; lia] ]
  | |- wp (if bool_decide ?P then _ else _) _ _ =>
      let e := fresh "e" in
      destruct (decide P) as [e|e];
      [ rewrite (bool_decide_eq_true_2 _ e);
        try solve [exfalso; congruence | exfalso; revert e; ptr_ne]
      | rewrite (bool_decide_eq_false_2 _ e);
        try solve [exfalso; congruence | exfalso; apply e; ptr_ne] ]
  end; simpl.

Section PlugEq.
Context {A : Type}.
Implicit Types (t l r : tree A) (k km : ctx A).
Lemma ptrs_plug_eq k t t' : ptrs t = ptrs t' → ptrs (plug k t) = ptrs (plug k t').
Proof.
  revert t t'; induction k; simpl; intros t1 t2 E; auto; apply IHk; simpl; by rewrite E.
Qed.
Lemma values_plug_eq k t t' : values t = values t' → values (plug k t) = values (plug k t').
Proof. intros E. by rewrite !values_plug, E. Qed.

End PlugEq.

Ltac abs_solve :=
  unfold rbtree in *; simpl in *; rewrite ?Nat.add_0_r in *;
  try solve [ intuition (auto; try congruence; try lia)
            | apply cvalid_ins_inv; eapply cvalid_eq; [eassumption|lia]
            | eapply cvalid_eq; [eassumption|lia] ].

Ltac lists_solve :=
  rewrite ?values_blacken, ?ptrs_blacken; simpl;
  first [ reflexivity
        | apply values_plug_eq; norm_lists; reflexivity
        | apply ptrs_plug_eq; norm_lists; reflexivity
        | norm_lists; reflexivity ].

(** Recursive call of a fix-up loop on the node at [z]. *)
Ltac fixup_rec IH z :=
  match goal with
  | HS : shape _ ?st _ _ |- wp _ ?st _ =>
      focus_on HS z;
      eapply wp_mono;
      [ eapply IH; [ | | | exact HS | .. ];
        [ | reflexivity | .. ]; [ simpl in *; lia | simpl in *; lia | .. ]
      | let T := fresh "T" in let HS' := fresh "HS" in
        let HT := fresh "HT" in let Hv := fresh "Hv" in let Hp := fresh "Hp" in
        intros [] ? (T & HS' & HT & Hv & Hp); exists T;
        split; [exact HS'|]; split; [exact HT|];
        rewrite Hv, Hp; split; lists_solve ]
  end.

Section InsertFixup.
Context {A : Type}.
Implicit Types (t l r : tree A) (k km : ctx A) (st : rb_tree_t (A:=A)).

Lemma insert_fixup_shape nl np n : ∀ fuel k st l z d r,
  cdepth k = n →
  (cdepth k < fuel)%nat →
  shape nl st (plug k (Node RB_RED l z d r)) np →
  rbsub l → rbsub r → bh l = bh r → tcolor l = RB_BLACK → tcolor r = RB_BLACK →
  ins_inv k (bh l) →
  wp (rb_insert_fixup fuel z) st (λ _ st', ∃ T,
      shape nl st' T np ∧ rbtree T ∧
      values T = values (plug k (Node RB_RED l z d r)) ∧
      ptrs T = ptrs (plug k (Node RB_RED l z d r))).
Proof.
  induction n as [n IH] using lt_wf_ind.
  intros fuel k st l z d r Hn Hfuel HS Hl Hr Hbh Hcl Hcr Hinv.
  destruct fuel as [|fuel]; [lia|]. simpl rb_insert_fixup.
  destruct k as [|[] up p pd s|[] s p pd up].
  - (* z is the root *)
    repeat sh_step.
    eexists; split; [exact HS|]. abs_solve.
  - (* red parent, z on its left *)
    simpl in Hinv. destruct Hinv as (Hs & Hbs & Hcs & Hup).
    destruct up as [|[] up g gd u|[] u g gd up]; simpl in Hup;
      try solve [exfalso; intuition congruence];
      destruct Hup as (Hu & Hbu & _ & Hup);
      destruct u as [|[] ul y yd ur]; sh_facts HS; repeat sh_step;
      match goal with |- wp (rb_insert_fixup _ ?z) _ _ => fixup_rec IH z end;
      abs_solve.
  - (* black parent, z on its left *)
    repeat sh_step.
    eexists; split; [exact HS|].
    assert (rbtree (plug (CL RB_BLACK up p pd s) (Node RB_RED l z d r))) as HT
      by (apply plug_rbtree; abs_solve).
    rewrite blacken_rbtree by exact HT. auto.
  - (* red parent, z on its right *)
    simpl in Hinv. destruct Hinv as (Hs & Hbs & Hcs & Hup).
    destruct up as [|[] up g gd u|[] u g gd up]; simpl in Hup;
      try solve [exfalso; intuition congruence];
      destruct Hup as (Hu & Hbu & _ & Hup);
      destruct u as [|[] ul y yd ur]; sh_facts HS; repeat sh_step;
      match goal with |- wp (rb_insert_fixup _ ?z) _ _ => fixup_rec IH z end;
      abs_solve.
  - (* black parent, z on its right *)
    repeat sh_step.
    eexists; split; [exact HS|].
    assert (rbtree (plug (CR RB_BLACK s p pd up) (Node RB_RED l z d r))) as HT
      by (apply plug_rbtree; abs_solve).
    rewrite blacken_rbtree by exact HT. auto.
Qed.
End InsertFixup.

Ltac norm_colors :=
  match goal with
  | H : tcolor ?u ≠ RB_BLACK |- _ =>
      is_var u;
      let l := fresh "l" in let p := fresh "p" in let d := fresh "d" in let r := fresh "r" in
      destruct (tcolor_red u H) as (l & p & d & r & ->); clear H; simpl in *
  end.

Section DeleteAux.
Context {A : Type}.
Implicit Types (t l r : tree A) (k km : ctx A) (st : rb_tree_t (A:=A)).

Lemma cvalid_black k c n : cvalid k c n → cvalid k RB_BLACK n.
Proof. destruct k; simpl; intuition auto. Qed.

Lemma plug_not_leaf k c l p d r : plug k (Node c l p d r) ≠ Leaf.
Proof.
  revert c l p d r; induction k; simpl; intros; try done; apply IHk.
Qed.

Lemma black_le c : (black c ≤ 1)%nat.
Proof. destruct c; simpl; lia. Qed.

End DeleteAux.

Ltac measure_solve :=
  simpl in *;
  repeat match goal with
  | |- context [black ?c] =>
      lazymatch goal with
      | _ : (black c ≤ 1)%nat |- _ => fail
      | _ => pose proof (black_le c)
      end
  end;
  lia.

Ltac fixup_post :=
  let T := fresh "T" in let HS' := fresh "HS" in
  let HT := fresh "HT" in let Hv := fresh "Hv" in let Hp := fresh "Hp" in
  intros [] ? (T & HS' & HT & Hv & Hp); exists T;
  split; [exact HS'|]; split; [exact HT|];
  rewrite Hv, Hp; split; lists_solve.

Ltac del_solve :=
  abs_solve;
  try solve [ eapply cvalid_black; eapply cvalid_eq; [eassumption|lia] ];
  try solve [ split_and!;
              first [ solve [intuition (auto; try congruence; try lia)]
                    | eapply cvalid_eq; [eassumption|lia]
                    | eapply cvalid_black; eapply cvalid_eq; [eassumption|lia] ] ].

Ltac del_rec IH :=
  lazymatch goal with
  | HS : shape ?nl ?st _ ?np |- wp (rb_delete_fixup ?fuel (croot ?up ?w)) ?st _ =>
      zip_up HS;
      lazymatch type of HS with
      | shape _ _ (plug ?K ?T0) _ =>
          let HT := fresh "HT" in
          assert (rbtree (plug K T0)) as HT by (apply plug_rbtree; del_solve);
          eapply wp_mono;
          [ eapply IH with (k := Top) (t := plug K T0);
            [ | reflexivity | | exact HS | symmetry; apply plug_rootp
            | let E := fresh in intros E; exfalso; eapply plug_not_leaf; exact E
            | rewrite blacken_rbtree by exact HT; apply HT
            | simpl; auto ];
            measure_solve
          | fixup_post ]
      end
  | HS : shape ?nl ?st _ ?np |- wp (rb_delete_fixup ?fuel ?p) ?st _ =>
      focus_on HS p;
      eapply wp_mono;
      [ eapply IH;
        [ | reflexivity | | exact HS | reflexivity | discriminate | .. ];
        [ measure_solve | measure_solve | .. ]
      | fixup_post ]
  end.

Section DeleteFixup.
Context {A : Type}.
Implicit Types (t l r : tree A) (k km : ctx A) (st : rb_tree_t (A:=A)).

Lemma delete_fixup_shape nl np m : ∀ fuel k st t x,
  (2 * cdepth k + black (tcolor t))%nat = m →
  (m < fuel)%nat →
  shape nl st (plug k t) np →
  x = rootp nl t →
  (t = Leaf → np = cpar nl k) →
  rbsub (blacken t) →
  cvalid k RB_BLACK (bh t + 1) →
  wp (rb_delete_fixup fuel x) st (λ _ st', ∃ T,
      shape nl st' T np ∧ rbtree T ∧
      values T = values (plug k t) ∧ ptrs T = ptrs (plug k t)).
Proof.
  induction m as [m IH] using lt_wf_ind.
  intros fuel k st t x Hm Hfuel HS -> Hnp Ht Hk.
  destruct fuel as [|fuel]; [lia|]. simpl rb_delete_fixup.
  destruct k as [|pc up p pd w|pc w p pd up].
  - (* x is the root *)
    destruct t as [|c l x d r]; simpl; repeat sh_step.
    + eexists; split; [exact HS|]. abs_solve.
    + eexists; split; [exact HS|]. abs_solve.
  - (* x is a left child *)
    simpl in Hk. destruct Hk as (Hw & Hbw & Hcw & Hup).
    destruct w as [|wc wl w wd wr]; [exfalso; simpl in *; lia|].
    destruct t as [|[] l x d r]; simpl in *.
    + specialize (Hnp eq_refl). subst np.
      destruct wc.
      * (* red sibling *)
        destruct pc; [exfalso; abs_solve|].
        destruct wl as [|[] wll wl wld wlr]; try solve [exfalso; abs_solve].
        sh_facts HS; repeat (sh_step || norm_colors); del_rec IH; del_solve.
      * sh_facts HS; repeat (sh_step || norm_colors); del_rec IH; del_solve.
    + sh_facts HS; repeat sh_step.
      eexists; split; [exact HS|].
      split; [apply plug_rbtree; del_solve|]. split; lists_solve.
    + destruct wc.
      * (* red sibling *)
        destruct pc; [exfalso; abs_solve|].
        destruct wl as [|[] wll wl wld wlr]; try solve [exfalso; abs_solve].
        sh_facts HS; repeat (sh_step || norm_colors); del_rec IH; del_solve.
      * sh_facts HS; repeat (sh_step || norm_colors); del_rec IH; del_solve.
  - (* x is a right child *)
    simpl in Hk. destruct Hk as (Hw & Hbw & Hcw & Hup).
    destruct w as [|wc wl w wd wr]; [exfalso; simpl in *; lia|].
    destruct t as [|[] l x d r]; simpl in *.
    + specialize (Hnp eq_refl). subst np.
      destruct wc.
      * (* red sibling *)
        destruct pc; [exfalso; abs_solve|].
        destruct wr as [|[] wrl wr wrd wrr]; try solve [exfalso; abs_solve].
        sh_facts HS; repeat (sh_step || norm_colors); del_rec IH; del_solve.
      * sh_facts HS; repeat (sh_step || norm_colors); del_rec IH; del_solve.
    + sh_facts HS; repeat sh_step.
      eexists; split; [exact HS|].
      split; [apply plug_rbtree; del_solve|]. split; lists_solve.
    + destruct wc.
      * (* red sibling *)
        destruct pc; [exfalso; abs_solve|].
        destruct wr as [|[] wrl wr wrd wrr]; try solve [exfalso; abs_solve].
        sh_facts HS; repeat (sh_step || norm_colors); del_rec IH; del_solve.
      * sh_facts HS; repeat (sh_step || norm_colors); del_rec IH; del_solve.
Qed.
End DeleteFixup.

Section Order.
Context {A : Type}.
Implicit Types (t : tree A) (k km : ctx A) (cmp : A → A → Z).

Lemma cmp_gt_lt cmp a b : total_order cmp → cmp a b > 0 → cmp b a < 0.
Proof. intros H ?. pose proof (cmp_antisym _ H a b). lia. Qed.
Lemma cmp_lt_gt cmp a b : total_order cmp → cmp a b < 0 → cmp b a > 0.
Proof. intros H ?. pose proof (cmp_antisym _ H a b). lia. Qed.
Lemma cmp_refl cmp a : total_order cmp → cmp a a = 0.
Proof. intros H. pose proof (cmp_antisym _ H a a). lia. Qed.
Lemma cmp_eq_sym cmp a b : total_order cmp → cmp a b = 0 → cmp b a = 0.
Proof. intros H ?. pose proof (cmp_antisym _ H a b). lia. Qed.

Lemma sorted_app cmp l1 l2 :
  sorted cmp (l1 ++ l2) ↔
  (∀ x1 x2, x1 ∈ l1 → x2 ∈ l2 → cmp x1 x2 < 0) ∧ sorted cmp l1 ∧ sorted cmp l2.
Proof. apply StronglySorted_app. Qed.

Lemma sorted_cons cmp x l :
  sorted cmp (x :: l) ↔ Forall (λ y, cmp x y < 0) l ∧ sorted cmp l.
Proof. apply StronglySorted_cons. Qed.

Lemma sorted_remove cmp l1 x l2 : sorted cmp (l1 ++ x :: l2) → sorted cmp (l1 ++ l2).
Proof.
  rewrite !sorted_app, sorted_cons. intros (H1 & H2 & H3 & H4). split_and!; auto.
  intros x1 x2 ? ?. apply H1; auto. by right.
Qed.

Lemma sorted_insert cmp l1 d l2 :
  sorted cmp (l1 ++ l2) →
  Forall (λ v, cmp v d < 0) l1 → Forall (λ v, cmp d v < 0) l2 →
  sorted cmp (l1 ++ d :: l2).
Proof.
  rewrite !sorted_app, sorted_cons, !Forall_forall. intros (H1 & H2 & H3) Hl Hr.
  split_and!; auto.
  intros x1 x2 Hx1. rewrite elem_of_cons. intros [->|?]; auto.
Qed.

Lemma sorted_mid cmp (l1 m l2 : list A) :
  sorted cmp (l1 ++ m ++ l2) → sorted cmp (l1 ++ l2).
Proof.
  induction m as [|x m IH]; simpl; [done|].
  intros H. apply IH. by apply sorted_remove in H.
Qed.

Lemma sorted_app_lt cmp (l1 l2 : list A) x1 x2 :
  sorted cmp (l1 ++ l2) → x1 ∈ l1 → x2 ∈ l2 → cmp x1 x2 < 0.
Proof. intros H ? ?. by eapply (StronglySorted_app_1_elem_of (lt_of cmp)). Qed.

Lemma path_bounds cmp d k :
  total_order cmp →
  sorted cmp (vbefore k ++ vafter k) → path_ok cmp d k →
  Forall (λ v, cmp v d < 0) (vbefore k) ∧ Forall (λ v, cmp d v < 0) (vafter k).
Proof.
  intros Hto. induction k as [|c up IH p v r|c l p v up IH]; simpl.
  - intros _ _. split; constructor.
  - intros Hs (Hd & Hp).
    change (sorted cmp (vbefore up ++ (v :: values r) ++ vafter up)) in Hs.
    destruct (IH (sorted_mid _ _ _ _ Hs) Hp) as [Hb Ha]. split; [done|].
    constructor; [done|]. apply Forall_app. split; [|done].
    apply Forall_forall. intros x Hx.
    eapply cmp_trans; [done|exact Hd|].
    apply StronglySorted_app_1_r in Hs. apply sorted_cons in Hs as [Hv _].
    rewrite Forall_forall in Hv. apply Hv. apply elem_of_app; by left.
  - intros Hs (Hd & Hp).
    rewrite <- app_assoc in Hs.
    destruct (IH (sorted_mid _ _ _ _ Hs) Hp) as [Hb Ha]. split; [|done].
    apply Forall_app. split; [done|]. apply Forall_app. split.
    + apply Forall_forall. intros x Hx.
      eapply cmp_trans; [done| |by apply cmp_gt_lt].
      apply StronglySorted_app_1_r in Hs. apply StronglySorted_app_1_l in Hs.
      eapply sorted_app_lt; [exact Hs|done|by left].
    + repeat constructor. by apply cmp_gt_lt.
Qed.

Lemma path_absent cmp d k :
  total_order cmp →
  sorted cmp (vbefore k ++ vafter k) → path_ok cmp d k →
  ¬ present cmp d (vbefore k ++ vafter k).
Proof.
  intros Hto Hs Hp (v & Hin & Hv).
  destruct (path_bounds _ _ _ Hto Hs Hp) as [Hb Ha].
  rewrite Forall_forall in Hb, Ha.
  apply elem_of_app in Hin as [Hin|Hin].
  - apply Hb in Hin. apply (cmp_lt_gt _ _ _ Hto) in Hin. lia.
  - apply Ha in Hin. lia.
Qed.

Lemma rbtree_plug_inv k t :
  rbtree (plug k t) → cvalid k (tcolor t) (bh t) ∧ rbsub t.
Proof.
  revert t; induction k as [|c up IH p d r|c l p d up IH]; intros t; simpl.
  - intros [? ?]. done.
  - intros H. apply IH in H as [Hc Hs]. simpl in *. intuition (auto; congruence).
  - intros H. apply IH in H as [Hc Hs]. simpl in *.
    destruct Hs as (Hl & Ht & Hb & Hcol). rewrite Hb in Hc. intuition (auto; congruence).
Qed.

Lemma cdepth_plug k t : (cdepth k + theight t ≤ theight (plug k t))%nat.
Proof.
  revert t; induction k as [|c up IH p d r|c l p d up IH]; intros t; simpl; [lia|..].
  - specialize (IH (Node c t p d r)). simpl in IH. lia.
  - specialize (IH (Node c l p d t)). simpl in IH. lia.
Qed.

End Order.

Section Reads.
Context {A : Type}.
Implicit Types (t : tree A) (k km : ctx A) (st : rb_tree_t (A:=A)).

(** The descent of [rb_insert] ends on a leaf position reached by the
    comparisons, or on a node holding an equal payload. *)
Lemma insert_descent_shape nl np d st : ∀ t k fuel,
  (theight t < fuel)%nat →
  shape nl st (plug k t) np →
  path_ok (compare st) d k →
  wp (rb_insert_descent fuel (Some d) (cpar nl k) (rootp nl t)) st (λ res st',
      st' = st ∧
      match res with
      | None => present (compare st) d (values (plug k t))
      | Some y => ∃ k', plug k' Leaf = plug k t ∧ y = cpar nl k' ∧
                        path_ok (compare st) d k'
      end).
Proof.
  induction t as [|c l IHl p v r IHr]; intros k fuel Hfuel HS Hp;
    (destruct fuel as [|fuel]; [lia|]); simpl rb_insert_descent.
  - simpl. repeat sh_step. split; [done|]. by exists k.
  - simpl in Hfuel. sh_facts HS. repeat sh_step.
    + eapply wp_mono; [apply (IHl (CL c k p v r)); [lia|exact HS|by split]|].
      simpl. auto.
    + eapply wp_mono; [apply (IHr (CR c l p v k)); [lia|exact HS|by split]|].
      simpl. auto.
    + split; [done|]. exists v. split; [|lia].
      rewrite values_plug. simpl. set_solver.
Qed.

End Reads.

Section Insert.
Context {A : Type}.
Implicit Types (t : tree A) (k km : ctx A) (st : rb_tree_t (A:=A)).

Lemma rep_allocated (h : gmap nat (rb_node_t (A:=A))) nl par t q :
  rep h nl par t → q ∈ ptrs t → is_Some (h !! q).
Proof.
  revert par; induction t as [|c l IHl p d r IHr]; intros par; simpl.
  - intros _ H. by apply elem_of_nil in H.
  - intros (Hp & Hl & Hr). rewrite elem_of_app, elem_of_cons.
    intros [?|[->|?]]; eauto.
Qed.

Lemma shape_allocated nl st T np q :
  shape nl st T np → q ∈ ptrs T → is_Some (mem st !! q).
Proof. intros (_ & _ & _ & _ & _ & Hrep). by eapply rep_allocated. Qed.

Lemma shape_fresh nl st T np z :
  shape nl st T np → mem st !! z = None → z ≠ nl ∧ z ∉ ptrs T.
Proof.
  intros HS Hz. split.
  - intros ->. apply shape_nil in HS. congruence.
  - intros Hin. destruct (shape_allocated _ _ _ _ _ HS Hin). congruence.
Qed.

Lemma shape_alloc nl st T np z n :
  shape nl st T np → mem st !! z = None →
  shape nl (set_mem (<[z := n]> (mem st)) st) T np.
Proof.
  intros HS Hz. destruct (shape_fresh _ _ _ _ _ HS Hz) as [Hnl Hin].
  destruct HS as (? & ? & ? & ? & ? & Hrep). split_and!; auto; simpl.
  - by rewrite lookup_insert_ne.
  - eapply rep_frame; [done|]. intros q Hq. rewrite lookup_insert_ne; [done|].
    intros ->. done.
Qed.

Lemma shape_set_size nl st T np n :
  shape nl st T np → shape nl (set_size n st) T np.
Proof. intros (? & ? & ? & ? & ? & ?). by split_and!. Qed.

Lemma wp_on_tree {X} (m : M (A:=A) X) st (null : X) Q :
  wp m st Q →
  ∃ x st', on_tree (Some st) null m = Some (x, Some st') ∧ Q x st'.
Proof.
  intros (x & st' & E & HQ). exists x, st'. split; [|done].
  unfold on_tree. by rewrite E.
Qed.

Lemma insert_link_shape {X} nl np st k z d (rest : M (A:=A) X) Q :
  shape nl st (plug k Leaf) np →
  mem st !! z = Some (mk_node (Some d) nl nl nl RB_RED) →
  z ≠ nl → z ∉ cptrs k →
  path_ok (compare st) d k →
  (∀ st', shape nl st' (plug k (Node RB_RED Leaf z d Leaf)) np → same st st' →
          wp rest st' Q) →
  wp (put_parent z (cpar nl k);;
      nl' ← get_nil;
      (if decide (cpar nl k = nl') then put_root z
       else yd ← get_data (cpar nl k); cmp ← call_compare (Some d) yd;
            if decide (cmp < 0) then put_left (cpar nl k) z
            else put_right (cpar nl k) z);;
      rest) st Q.
Proof.
  intros HS Hz Hznl Hzin Hpath Hrest.
  setoid_rewrite shape_plug in Hrest.
  destruct st as [rt nl' sz cmp fd h ds]; simpl in *.
  apply shape_plug in HS. simpl in HS.
  destruct HS as (-> & Hroot & Hnil & Hnd & Hnin & Hk & _).
  rewrite app_nil_r in Hnd, Hnin.
  pose proof (keep_intro _ Hnd) as Hnd'; pose proof (keep_intro _ Hnin) as Hnin'.
  destruct k as [|c up p v r|c l p v up]; simpl in *; nodup_norm; repeat raw_step.
  all: apply Hrest; [raw_finish Hnd' Hnin' | solve_same].
Qed.

Lemma insert_body_ok st T np d z fuel :
  shape (nil st) st T np → rbtree T →
  total_order (compare st) → sorted (compare st) (values T) →
  mem st !! z = None → (theight T < fuel)%nat →
  ¬ present (compare st) d (values T) →
  wp (z' ← rb_node_create (Some d) (Some z);
       match z' with
       | None => mret RB_MEMORY_ERROR
       | Some z =>
           nl ← get_nil; r ← get_root;
           y ← rb_insert_descent fuel (Some d) nl r;
           match y with
           | None => free z;; mret RB_DUPLICATE
           | Some y =>
               put_parent z y;;
               nl ← get_nil;
               (if decide (y = nl) then put_root z
                else yd ← get_data y; cmp ← call_compare (Some d) yd;
                     if decide (cmp < 0) then put_left y z else put_right y z);;
               rb_insert_fixup fuel z;;
               n ← get_size; put_size (n + 1);;
               mret RB_OK
           end
       end) st
    (λ res st', res = RB_OK ∧ ∃ T' l1 l2,
        shape (nil st) st' T' np ∧ rbtree T' ∧
        values T = l1 ++ l2 ∧ values T' = l1 ++ d :: l2 ∧
        sorted (compare st) (values T') ∧
        ptrs T' ≡ₚ z :: ptrs T ∧
        dom (mem st') = {[z]} ∪ dom (mem st) ∧
        nil st' = nil st ∧ compare st' = compare st ∧
        free_data st' = free_data st ∧ destroyed st' = destroyed st ∧
        size st' = (size st + 1) mod size_max).
Proof.
  intros HS HT Hto Hsort Hz Hfuel Habs.
  destruct (shape_fresh _ _ _ _ _ HS Hz) as [Hznl Hzin].
  pose proof (shape_alloc _ _ _ _ _
    (mk_node (Some d) (nil st) (nil st) (nil st) RB_RED) HS Hz) as HS1.
  apply wp_bind. unfold rb_node_create.
  apply wp_bind. eapply wp_get_nil; [reflexivity|].
  eapply wp_malloc; [exact Hz|].
  repeat sh_step.
  eapply wp_mono;
    [eapply insert_descent_shape with (k := Top) (t := T); [exact Hfuel|exact HS1|done]|].
  cbv beta. intros [y|] st1 [-> Hres]; [|exfalso; by apply Habs].
  destruct Hres as (k & Hk & -> & Hpath). simpl in Hpath, Hk. subst T.
  rewrite ptrs_plug, app_nil_r in Hzin.
  eapply insert_link_shape; [exact HS1|simpl; apply lookup_insert_eq|done|done|done|].
  intros st2 HS2 Hsame.
  destruct (rbtree_plug_inv _ _ HT) as [Hcv _]. simpl in Hcv.
  apply wp_bind. eapply wp_mono.
  { apply wp_pres; [apply pres_insert_fixup|].
    eapply insert_fixup_shape with (k := k); [reflexivity| |exact HS2|simpl; auto..].
    - pose proof (cdepth_plug k Leaf). simpl in *. lia.
    - by apply cvalid_ins_inv. }
  cbv beta. intros [] st3 ((T' & HS3 & HT' & Hv & Hp) & Hsame3).
  apply wp_bind. apply wp_get_size. apply wp_bind. apply wp_put_size. apply wp_ret.
  apply same_fields in Hsame as (? & ? & ? & ? & ? & ?).
  apply same_fields in Hsame3 as (? & ? & ? & ? & ? & ?).
  simpl in *.
  split; [done|]. exists T', (vbefore k), (vafter k).
  rewrite values_plug in Hv, Hsort |- *. simpl in *.
  split_and!; try congruence.
  - by apply shape_set_size.
  - rewrite Hv. apply sorted_insert; [done|..];
      by apply path_bounds.
  - rewrite Hp, !ptrs_plug. simpl. solve_Permutation.
  - rewrite dom_insert_L in *. congruence.
Qed.

Lemma insert_body_dup st T np d z fuel :
  shape (nil st) st T np →
  mem st !! z = None → (theight T < fuel)%nat →
  total_order (compare st) → sorted (compare st) (values T) →
  present (compare st) d (values T) →
  wp (z' ← rb_node_create (Some d) (Some z);
       match z' with
       | None => mret RB_MEMORY_ERROR
       | Some z =>
           nl ← get_nil; r ← get_root;
           y ← rb_insert_descent fuel (Some d) nl r;
           match y with
           | None => free z;; mret RB_DUPLICATE
           | Some y =>
               put_parent z y;;
               nl ← get_nil;
               (if decide (y = nl) then put_root z
                else yd ← get_data y; cmp ← call_compare (Some d) yd;
                     if decide (cmp < 0) then put_left y z else put_right y z);;
               rb_insert_fixup fuel z;;
               n ← get_size; put_size (n + 1);;
               mret RB_OK
           end
       end) st
    (λ res st', res = RB_DUPLICATE ∧ st' = st).
Proof.
  intros HS Hz Hfuel Hto Hsort Hpres.
  pose proof (shape_alloc _ _ _ _ _
    (mk_node (Some d) (nil st) (nil st) (nil st) RB_RED) HS Hz) as HS1.
  apply wp_bind. unfold rb_node_create.
  apply wp_bind. eapply wp_get_nil; [reflexivity|].
  eapply wp_malloc; [exact Hz|].
  repeat sh_step.
  eapply wp_mono;
    [eapply insert_descent_shape with (k := Top) (t := T); [exact Hfuel|exact HS1|done]|].
  cbv beta. intros [y|] st1 [-> Hres].
  - exfalso. destruct Hres as (k & Hk & -> & Hpath). simpl in Hpath, Hk. subst T.
    rewrite values_plug in Hsort, Hpres. simpl in *.
    by eapply path_absent.
  - apply wp_bind. eapply wp_free; [simpl; apply lookup_insert_eq|].
    apply wp_ret. split; [done|]. simpl.
    rewrite delete_insert_id by done. by destruct st.
Qed.

End Insert.

Section Compose.
Context {A : Type}.
Implicit Types (t : tree A) (k km : ctx A) (st : rb_tree_t (A:=A)).

Lemma plug_capp km k t : plug (capp km k) t = plug k (plug km t).
Proof. revert t; induction km; simpl; intros; auto. Qed.

Lemma capp_assoc k1 k2 k3 : capp (capp k1 k2) k3 = capp k1 (capp k2 k3).
Proof. induction k1; simpl; congruence. Qed.

Lemma vbefore_capp km k : vbefore (capp km k) = vbefore k ++ vbefore km.
Proof.
  induction km; simpl; rewrite ?app_nil_r; auto.
  rewrite IHkm. by rewrite <- !app_assoc.
Qed.

Lemma vafter_capp km k : vafter (capp km k) = vafter km ++ vafter k.
Proof.
  induction km; simpl; auto. rewrite IHkm. by rewrite <- !app_assoc.
Qed.

Lemma cptrs_capp km k : cptrs (capp km k) ≡ₚ cptrs km ++ cptrs k.
Proof.
  induction km; simpl; auto; rewrite IHkm; by rewrite <- !app_assoc.
Qed.

Lemma cdepth_capp km k : cdepth (capp km k) = (cdepth km + cdepth k)%nat.
Proof. induction km; simpl; auto. Qed.

Lemma left_spine_vbefore km : left_spine km → vbefore km = [].
Proof. induction km; simpl; auto; done. Qed.

Lemma right_spine_vafter km : right_spine km → vafter km = [].
Proof. induction km; simpl; auto; done. Qed.

Lemma left_spine_capp k1 k2 : left_spine k1 → left_spine k2 → left_spine (capp k1 k2).
Proof. induction k1; simpl; auto; done. Qed.

Lemma right_spine_capp k1 k2 : right_spine k1 → right_spine k2 → right_spine (capp k1 k2).
Proof. induction k1; simpl; auto; done. Qed.

(** The red-black conditions on a context do not look at the addresses and
    payloads of its frames. *)
Lemma cvalid_capp_cr km c l p d p' d' k col n :
  cvalid (capp km (CR c l p d k)) col n ↔ cvalid (capp km (CR c l p' d' k)) col n.
Proof.
  revert col n; induction km; intros col n; simpl; [tauto|..]; rewrite IHkm; tauto.
Qed.

Lemma cvalid_capp_cl km c r p d p' d' k col n :
  cvalid (capp km (CL c k p d r)) col n ↔ cvalid (capp km (CL c k p' d' r)) col n.
Proof.
  revert col n; induction km; intros col n; simpl; [tauto|..]; rewrite IHkm; tauto.
Qed.

Lemma cpar_capp nl km k : km ≠ Top → cpar nl (capp km k) = cpar nl km.
Proof. destruct km; simpl; auto; done. Qed.

End Compose.

Section Reads2.
Context {A : Type}.
Implicit Types (t : tree A) (k km : ctx A) (st : rb_tree_t (A:=A)).

Lemma find_shape nl np d st : ∀ t k fuel,
  (theight t < fuel)%nat →
  shape nl st (plug k t) np →
  path_ok (compare st) d k →
  wp (rb_find_node_from fuel (Some d) (rootp nl t)) st (λ z st',
      st' = st ∧
      ((z = nl ∧ ∃ k', plug k' Leaf = plug k t ∧ path_ok (compare st) d k') ∨
       (∃ k' c l v r, plug k' (Node c l z v r) = plug k t ∧ compare st d v = 0))).
Proof.
  induction t as [|c l IHl p v r IHr]; intros k fuel Hfuel HS Hp;
    (destruct fuel as [|fuel]; [lia|]); simpl rb_find_node_from.
  - simpl. repeat sh_step. split; [done|]. left. split; [done|]. by exists k.
  - simpl in Hfuel. sh_facts HS. repeat sh_step.
    + eapply wp_mono; [apply (IHl (CL c k p v r)); [lia|exact HS|by split]|].
      simpl. auto.
    + eapply wp_mono; [apply (IHr (CR c l p v k)); [lia|exact HS|by split]|].
      simpl. auto.
    + split; [done|]. right. exists k, c, l, v, r. split; [done|lia].
Qed.

Lemma minimum_shape nl np st : ∀ l k c p v r fuel,
  (theight l < fuel)%nat →
  shape nl st (plug k (Node c l p v r)) np →
  wp (rb_tree_minimum_node fuel p) st (λ y st',
      st' = st ∧ ∃ km yc yv yr,
        left_spine km ∧
        plug (capp km k) (Node yc Leaf y yv yr) = plug k (Node c l p v r)).
Proof.
  induction l as [|lc ll IHl lp lv lr _]; intros k c p v r fuel Hfuel HS;
    (destruct fuel as [|fuel]; [lia|]); simpl rb_tree_minimum_node.
  - repeat sh_step. split; [done|]. by exists Top, c, v, r.
  - simpl in Hfuel. sh_facts HS. repeat sh_step.
    eapply wp_mono; [apply (IHl (CL c k p v r)); [lia|exact HS]|].
    cbv beta. intros y st' (-> & km & yc & yv & yr & Hsp & E).
    split; [done|]. exists (capp km (CL c Top p v r)), yc, yv, yr.
    split; [by apply left_spine_capp|]. rewrite capp_assoc. exact E.
Qed.

Lemma maximum_shape nl np st : ∀ r k c l p v fuel,
  (theight r < fuel)%nat →
  shape nl st (plug k (Node c l p v r)) np →
  wp (rb_tree_maximum_node fuel p) st (λ y st',
      st' = st ∧ ∃ km yc yl yv,
        right_spine km ∧
        plug (capp km k) (Node yc yl y yv Leaf) = plug k (Node c l p v r)).
Proof.
  induction r as [|rc rl _ rp rv rr IHr]; intros k c l p v fuel Hfuel HS;
    (destruct fuel as [|fuel]; [lia|]); simpl rb_tree_maximum_node.
  - repeat sh_step. split; [done|]. by exists Top, c, l, v.
  - simpl in Hfuel. sh_facts HS. repeat sh_step.
    eapply wp_mono; [apply (IHr (CR c l p v k)); [lia|exact HS]|].
    cbv beta. intros y st' (-> & km & yc & yl & yv & Hsp & E).
    split; [done|]. exists (capp km (CR c l p v Top)), yc, yl, yv.
    split; [by apply right_spine_capp|]. rewrite capp_assoc. exact E.
Qed.

End Reads2.

Ltac nodup_goal ::=
  repeat progress
    rewrite ?NoDup_app', ?NoDup_cons, ?NoDup_nil', ?ldisj_app_l, ?ldisj_cons_l,
      ?ldisj_nil_l, ?ldisj_app_r, ?ldisj_cons_r, ?ldisj_nil_r,
      ?not_elem_of_app, ?not_elem_of_cons, ?not_elem_of_nil';
  split_and?;
  solve [ done | congruence | apply ldisj_sym; done ].

Ltac solve_same ::=
  split; [reflexivity|];
  cbn [mem]; repeat (rewrite dom_insert_lookup_L by (eexists; solve_lookup));
  reflexivity.

Ltac notin_goal :=
  rewrite ?ptrs_plug; simpl;
  repeat progress rewrite ?not_elem_of_app, ?not_elem_of_cons, ?not_elem_of_nil';
  split_and?; solve [done | congruence].

Ltac raw_finish' Hnd Hnin :=
  unfold keep in *; split_and!;
  first [ done
        | solve_lookup
        | norm_lists; norm_lists_in Hnd; norm_lists_in Hnin; done
        | solve_rep
        | nodup_goal
        | notin_goal
        | solve_same ].

(** Preparation of a proof on the nodes of the store: the shape facts of
    [HS] become facts on single addresses. *)
Ltac raw_start HS Hnd' Hnin' :=
  apply shape_plug in HS; simpl in HS;
  let Hnd := fresh "Hnd" in let Hnin := fresh "Hnin" in
  destruct HS as (? & ? & ? & Hnd & Hnin & ? & ?);
  pose proof (keep_intro _ Hnd) as Hnd'; pose proof (keep_intro _ Hnin) as Hnin'.

Section Transplant.
Context {A : Type}.
Implicit Types (t : tree A) (k km : ctx A) (st : rb_tree_t (A:=A)).

Lemma transplant_right_shape nl st k c u d r np :
  shape nl st (plug k (Node c Leaf u d r)) np →
  wp (rb_transplant u (rootp nl r)) st (λ _ st',
      shape nl st' (plug k r) (match r with Leaf => cpar nl k | _ => np end) ∧
      mem st' !! u = Some (mk_node (Some d) nl (rootp nl r) (cpar nl k) c) ∧
      (u ∉ ptrs (plug k r)) ∧ same st st').
Proof.
  intros HS.
  enough (wp (rb_transplant u (rootp nl r)) st (λ _ st',
      shape_at nl st' k r (match r with Leaf => cpar nl k | _ => np end) ∧
      mem st' !! u = Some (mk_node (Some d) nl (rootp nl r) (cpar nl k) c) ∧
      (u ∉ ptrs (plug k r)) ∧ same st st')) as Hwp.
  { eapply wp_mono; [exact Hwp|]. intros ? ? (HS' & Hrest).
    split; [by apply shape_at_plug|exact Hrest]. }
  unfold shape_at.
  destruct st as [rt nl' sz cmp fd h ds]. raw_start HS Hnd' Hnin'. simpl in *. subst nl'.
  unfold rb_transplant.
  destruct r as [|rc rl rp rd rr]; destruct k as [|kc up p pd s|kc s p pd up];
    simpl in *; destruct_and?; nodup_norm; repeat raw_step.
  all: raw_finish' Hnd' Hnin'.
Qed.

Lemma transplant_left_shape nl st k c u d l np :
  shape nl st (plug k (Node c l u d Leaf)) np →
  wp (rb_transplant u (rootp nl l)) st (λ _ st',
      shape nl st' (plug k l) (match l with Leaf => cpar nl k | _ => np end) ∧
      mem st' !! u = Some (mk_node (Some d) (rootp nl l) nl (cpar nl k) c) ∧
      (u ∉ ptrs (plug k l)) ∧ same st st').
Proof.
  intros HS.
  enough (wp (rb_transplant u (rootp nl l)) st (λ _ st',
      shape_at nl st' k l (match l with Leaf => cpar nl k | _ => np end) ∧
      mem st' !! u = Some (mk_node (Some d) (rootp nl l) nl (cpar nl k) c) ∧
      (u ∉ ptrs (plug k l)) ∧ same st st')) as Hwp.
  { eapply wp_mono; [exact Hwp|]. intros ? ? (HS' & Hrest).
    split; [by apply shape_at_plug|exact Hrest]. }
  unfold shape_at.
  destruct st as [rt nl' sz cmp fd h ds]. raw_start HS Hnd' Hnin'. simpl in *. subst nl'.
  unfold rb_transplant.
  destruct l as [|lc ll lp ld lr]; destruct k as [|kc up p pd s|kc s p pd up];
    simpl in *; destruct_and?; nodup_norm; repeat raw_step.
  all: raw_finish' Hnd' Hnin'.
Qed.

End Transplant.

Ltac raw_step ::=
  lazymatch goal with
  | |- wp (mbind _ _) _ _ => apply wp_bind
  | |- wp (mret _) _ _ => apply wp_ret
  | |- wp get_nil _ _ => eapply wp_get_nil; [reflexivity|]
  | |- wp get_root _ _ => eapply wp_get_root; [reflexivity|]
  | |- wp (put_root _) _ _ => apply wp_put_root
  | |- wp (get_data _) _ _ => eapply wp_get_data; [solve_lookup|]
  | |- wp (get_left _) _ _ => eapply wp_get_left; [solve_lookup|]
  | |- wp (get_right _) _ _ => eapply wp_get_right; [solve_lookup|]
  | |- wp (get_parent _) _ _ => eapply wp_get_parent; [solve_lookup|]
  | |- wp (get_color _) _ _ => eapply wp_get_color; [solve_lookup|]
  | |- wp (put_left _ _) _ _ => eapply wp_put_left; [solve_lookup|]
  | |- wp (put_right _ _) _ _ => eapply wp_put_right; [solve_lookup|]
  | |- wp (put_parent _ _) _ _ => eapply wp_put_parent; [solve_lookup|]
  | |- wp (put_color _ _) _ _ => eapply wp_put_color; [solve_lookup|]
  | |- wp (call_compare (Some _) (Some _)) _ _ => apply wp_call_compare
  | |- wp (rb_transplant _ _) _ _ => unfold rb_transplant
  | |- wp (if decide ?P then _ else _) _ _ =>
      let e := fresh "e" in
      destruct (decide P) as [e|e];
      [ try solve [exfalso; congruence | exfalso; revert e; ptr_ne | exfalso; simpl in *; lia]
      | try solve [exfalso; congruence | exfalso; apply e; ptr_ne | exfalso; simpl in *; lia] ]
  end; simpl.

Section Splice.
Context {A : Type}.
Implicit Types (t : tree A) (k km : ctx A) (st : rb_tree_t (A:=A)).

(** Removal of a node [z] with two children whose successor [y] is its
    right child. *)
Lemma splice_near {X} nl st k zc l z v yc y yv yr np (rest : M (A:=A) X) Q :
  shape nl st (plug k (Node zc l z v (Node yc Leaf y yv yr))) np →
  l ≠ Leaf →
  (∀ st', shape_at nl st' k (Node zc l y yv yr)
            (match yr with Leaf => y | _ => np end) →
          same st st' → wp rest st' Q) →
  wp (put_parent (rootp nl yr) y) st (λ _ st1,
      wp (rb_transplant z y;;
          zl ← get_left z; put_left y zl;;
          yl ← get_left y; put_parent yl y;;
          zc' ← get_color z; put_color y zc';;
          rest) st1 Q).
Proof.
  intros HS Hl Hrest. unfold shape_at in Hrest.
  destruct st as [rt nl' sz cmp fd h ds]. raw_start HS Hnd' Hnin'. simpl in *. subst nl'.
  destruct l as [|lc ll lp ld lr]; [done|].
  destruct yr as [|yrc yrl yrp yrd yrr]; destruct k as [|kc up p pd s|kc s p pd up];
    simpl in *; destruct_and?; nodup_norm; repeat raw_step.
  all: apply Hrest; [raw_finish' Hnd' Hnin'|solve_same].
Qed.

(** Removal of a node [z] with two children whose successor [y] has already
    been unlinked from deeper in the right subtree. *)
Lemma splice_far {X} nl st k zc l z v rc rl rp rd rr yc y yv yrp ypar np
    (rest : M (A:=A) X) Q :
  shape nl st (plug k (Node zc l z v (Node rc rl rp rd rr))) np →
  l ≠ Leaf →
  mem st !! y = Some (mk_node (Some yv) nl yrp ypar yc) →
  y ≠ nl →
  y ∉ ptrs (plug k (Node zc l z v (Node rc rl rp rd rr))) →
  (∀ st', shape_at nl st' k (Node zc l y yv (Node rc rl rp rd rr)) np →
          same st st' → wp rest st' Q) →
  wp (zr ← get_right z; put_right y zr;; yr ← get_right y; put_parent yr y) st
    (λ _ st1,
      wp (rb_transplant z y;;
          zl ← get_left z; put_left y zl;;
          yl ← get_left y; put_parent yl y;;
          zc' ← get_color z; put_color y zc';;
          rest) st1 Q).
Proof.
  intros HS Hl Hy Hynl Hyin Hrest. unfold shape_at in Hrest.
  rewrite ptrs_plug in Hyin.
  destruct st as [rt nl' sz cmp fd h ds]. raw_start HS Hnd' Hnin'. simpl in *. subst nl'.
  destruct l as [|lc ll lp ld lr]; [done|].
  destruct k as [|kc up p pd s|kc s p pd up];
    simpl in *; destruct_and?; nodup_norm; repeat raw_step.
  all: apply Hrest; [raw_finish' Hnd' Hnin'|solve_same].
Qed.

End Splice.

Section DeleteAux2.
Context {A : Type}.
Implicit Types (t : tree A) (k km : ctx A) (st : rb_tree_t (A:=A)).

Lemma plug_node km t :
  km ≠ Top → ∃ c l p d r, plug km t = Node c l p d r.
Proof.
  revert t; induction km as [|c up IH p d r|c l p d up IH]; intros t Hne; [done|..].
  - destruct up; [simpl; by repeat eexists|..]; apply (IH (Node c t p d r)); congruence.
  - destruct up; [simpl; by repeat eexists|..]; apply (IH (Node c l p d t)); congruence.
Qed.

Lemma rbsub_blacken t : rbsub t → rbsub (blacken t).
Proof. destruct t; simpl; intuition auto; congruence. Qed.

Lemma minimum_tree nl np st l k c p v r fuel :
  (theight l < fuel)%nat →
  shape nl st (plug k (Node c l p v r)) np →
  wp (rb_tree_minimum_node fuel p) st (λ y st',
      st' = st ∧ ∃ km yc yv yr,
        left_spine km ∧ Node c l p v r = plug km (Node yc Leaf y yv yr)).
Proof.
  revert k c p v r fuel.
  induction l as [|lc ll IHl lp lv lr _]; intros k c p v r fuel Hfuel HS;
    (destruct fuel as [|fuel]; [lia|]); simpl rb_tree_minimum_node.
  - repeat sh_step. split; [done|]. by exists Top, c, v, r.
  - simpl in Hfuel. sh_facts HS. repeat sh_step.
    eapply wp_mono; [apply (IHl (CL c k p v r)); [lia|exact HS]|].
    cbv beta. intros y st' (-> & km & yc & yv & yr & Hsp & E).
    split; [done|]. exists (capp km (CL c Top p v r)), yc, yv, yr.
    split; [by apply left_spine_capp|]. rewrite plug_capp, <- E. done.
Qed.

Lemma maximum_tree nl np st r k c l p v fuel :
  (theight r < fuel)%nat →
  shape nl st (plug k (Node c l p v r)) np →
  wp (rb_tree_maximum_node fuel p) st (λ y st',
      st' = st ∧ ∃ km yc yl yv,
        right_spine km ∧ Node c l p v r = plug km (Node yc yl y yv Leaf)).
Proof.
  revert k c l p v fuel.
  induction r as [|rc rl _ rp rv rr IHr]; intros k c l p v fuel Hfuel HS;
    (destruct fuel as [|fuel]; [lia|]); simpl rb_tree_maximum_node.
  - repeat sh_step. split; [done|]. by exists Top, c, l, v.
  - simpl in Hfuel. sh_facts HS. repeat sh_step.
    eapply wp_mono; [apply (IHr (CR c l p v k)); [lia|exact HS]|].
    cbv beta. intros y st' (-> & km & yc & yl & yv & Hsp & E).
    split; [done|]. exists (capp km (CR c l p v Top)), yc, yl, yv.
    split; [by apply right_spine_capp|]. rewrite plug_capp, <- E. done.
Qed.

Lemma shape_free nl st T np z :
  shape nl st T np → z ≠ nl → z ∉ ptrs T →
  shape nl (set_mem (delete z (mem st)) st) T np.
Proof.
  intros (? & ? & ? & ? & ? & Hrep) Hnl Hin. split_and!; auto; simpl.
  - by rewrite lookup_delete_ne.
  - eapply rep_frame; [done|]. intros q Hq. rewrite lookup_delete_ne; [done|].
    intros ->. done.
Qed.

Lemma shape_set_destroyed nl st T np l :
  shape nl st T np → shape nl (set_destroyed l st) T np.
Proof. intros (? & ? & ? & ? & ? & ?). by split_and!. Qed.

Lemma wp_get_free_data st (Q : bool → rb_tree_t (A:=A) → Prop) :
  Q (free_data st) st → wp get_free_data st Q.
Proof. intros. by eexists _, st. Qed.
Lemma wp_call_free_data st d (Q : unit → rb_tree_t (A:=A) → Prop) :
  Q tt (set_destroyed (destroyed st ++ [d]) st) → wp (call_free_data d) st Q.
Proof. intros. by eexists _, _. Qed.

Lemma node_destroy_spec st z n nl :
  nil st = nl → z ≠ nl → mem st !! z = Some n →
  wp (rb_node_destroy z) st (λ _ st',
      st' = set_mem (delete z (mem st))
              (set_destroyed (destroyed st ++ (if free_data st then [data n] else [])) st)).
Proof.
  intros Hnl Hz Hn. unfold rb_node_destroy.
  apply wp_bind. eapply wp_get_nil; [exact Hnl|].
  destruct (decide (z ≠ nl)); [|done].
  apply wp_bind. apply wp_get_free_data.
  destruct st as [rt nl' sz cmp [] h ds]; simpl in *.
  - apply wp_bind. apply wp_bind. eapply wp_get_data; [exact Hn|].
    apply wp_call_free_data. eapply wp_free; [exact Hn|]. done.
  - apply wp_bind. apply wp_ret. eapply wp_free; [exact Hn|].
    simpl. by rewrite app_nil_r.
Qed.

Lemma delete_tail nl np st K X z yoc fuel :
  shape nl st (plug K X) np → (X = Leaf → np = cpar nl K) →
  (yoc = RB_BLACK → rbsub (blacken X) ∧ cvalid K RB_BLACK (bh X + 1)) →
  (yoc = RB_RED → rbtree (plug K X)) →
  is_Some (mem st !! z) → z ≠ nl → z ∉ ptrs (plug K X) →
  (2 * cdepth K + 1 < fuel)%nat →
  wp ((if decide (yoc = RB_BLACK) then rb_delete_fixup fuel (rootp nl X) else mret tt);;
      rb_node_destroy z;;
      n ← get_size; put_size (n - 1);;
      mret RB_OK) st
    (λ res st', res = RB_OK ∧ ∃ T',
        shape nl st' T' np ∧ rbtree T' ∧
        values T' = values (plug K X) ∧ ptrs T' = ptrs (plug K X) ∧
        dom (mem st') = dom (mem st) ∖ {[z]} ∧
        nil st' = nil st ∧ compare st' = compare st ∧
        free_data st' = free_data st ∧
        size st' = (size st - 1) mod size_max ∧
        ∃ dz, destroyed st' =
              destroyed st ++ (if free_data st then [dz] else [])).
Proof.
  intros HS Hnp Hblack Hred [n Hn] Hznl Hzin Hfuel.
  apply wp_bind.
  eapply wp_mono with (Q' := λ _ st', ∃ T',
      shape nl st' T' np ∧ rbtree T' ∧
      values T' = values (plug K X) ∧ ptrs T' = ptrs (plug K X) ∧ same st st').
  { destruct yoc.
    - rewrite decide_False by done. apply wp_ret. exists (plug K X).
      split_and!; auto. apply same_refl.
    - rewrite decide_True by done. destruct (Hblack eq_refl) as [HX HK].
      eapply wp_mono; [apply wp_pres; [apply pres_delete_fixup|]|].
      + eapply delete_fixup_shape with (k := K) (t := X); eauto.
        pose proof (black_le (tcolor X)). lia.
      + cbv beta. intros [] st' ((T' & ? & ? & ? & ?) & ?). exists T'. auto. }
  cbv beta. intros [] st1 (T' & HS1 & HT' & Hv & Hp & Hsame).
  apply same_fields in Hsame as (Hnil & Hsz & Hcmp & Hfd & Hds & Hdom).
  assert (is_Some (mem st1 !! z)) as [n1 Hn1].
  { apply elem_of_dom. rewrite Hdom. apply elem_of_dom. eauto. }
  apply wp_bind. eapply wp_mono.
  { eapply node_destroy_spec; [eapply shape_nil_eq; eauto|done|exact Hn1]. }
  cbv beta. intros [] st2 ->.
  apply wp_bind. apply wp_get_size. apply wp_bind. apply wp_put_size. apply wp_ret.
  split; [done|]. exists T'.
  split.
  { apply shape_set_size.
    apply (shape_free nl (set_destroyed _ st1));
      [by apply shape_set_destroyed|done|by rewrite Hp]. }
  simpl. split_and!; auto; try congruence.
  - rewrite dom_delete_L. by rewrite Hdom.
  - exists (data n1). by rewrite Hds, Hfd.
Qed.

End DeleteAux2.

Ltac sh_facts_capp HS :=
  let H := fresh "Hdist" in
  simpl in HS;
  lazymatch type of HS with
  | shape ?nl ?st (plug ?K ?T) ?np => pose proof (shape_distinct _ _ _ _ _ HS) as H
  end;
  rewrite ?cptrs_capp in H; simpl in H; nodup_norm.

Section Delete.
Context {A : Type}.
Implicit Types (t : tree A) (k km : ctx A) (st : rb_tree_t (A:=A)).

Lemma delete_two_abs k km zc L z v yc y yv yr :
  rbtree (plug (capp km (CR zc L z v k)) (Node yc Leaf y yv yr)) →
  (yc = RB_BLACK →
     rbsub (blacken yr) ∧ cvalid (capp km (CR zc L y yv k)) RB_BLACK (bh yr + 1)) ∧
  (yc = RB_RED → rbtree (plug (capp km (CR zc L y yv k)) yr)).
Proof.
  intros HT. destruct (rbtree_plug_inv _ _ HT) as [Hcv Hsub].
  rewrite (cvalid_capp_cr km zc L z v y yv) in Hcv.
  simpl in Hcv, Hsub. destruct Hsub as (_ & Hr & Hbr & Hcr). split.
  - intros ->. split; [by apply rbsub_blacken|]. del_solve.
  - intros ->. apply plug_rbtree; [|done].
    replace (tcolor yr) with RB_BLACK by (symmetry; tauto). del_solve.
Qed.

Lemma delete_two_values k km zc L z v yc y yv yr :
  left_spine km →
  values (plug (capp km (CR zc L z v k)) (Node yc Leaf y yv yr)) =
    (vbefore k ++ values L) ++ v :: (yv :: values yr ++ vafter km ++ vafter k) ∧
  values (plug (capp km (CR zc L y yv k)) yr) =
    (vbefore k ++ values L) ++ (yv :: values yr ++ vafter km ++ vafter k).
Proof.
  intros Hsp. rewrite !values_plug, !vbefore_capp, !vafter_capp.
  rewrite (left_spine_vbefore _ Hsp). simpl. rewrite !app_nil_r.
  split; by repeat (rewrite <- app_assoc; simpl).
Qed.

Lemma delete_two_ptrs k km zc L z v yc y yv yr :
  ptrs (plug (capp km (CR zc L z v k)) (Node yc Leaf y yv yr)) ≡ₚ
  z :: ptrs (plug (capp km (CR zc L y yv k)) yr).
Proof. rewrite !ptrs_plug, !cptrs_capp. simpl. solve_Permutation. Qed.

Lemma delete_two_depth k km zc L z v yc y yv yr :
  (cdepth (capp km (CR zc L y yv k)) + 1 ≤
   theight (plug (capp km (CR zc L z v k)) (Node yc Leaf y yv yr)))%nat.
Proof.
  pose proof (cdepth_plug (capp km (CR zc L z v k)) (Node yc Leaf y yv yr)) as H.
  rewrite !cdepth_capp in *. simpl in *. lia.
Qed.

Lemma delete_ok st T np d fuel :
  shape (nil st) st T np → rbtree T →
  total_order (compare st) → sorted (compare st) (values T) →
  (2 * theight T + 2 ≤ fuel)%nat →
  ∃ res st', rb_delete fuel (Some st) (Some d) = Some (res, Some st') ∧
             delete_post st T d res st'.
Proof.
  intros HS HT Hto Hsort Hfuel.
  unfold rb_delete. apply wp_on_tree. destruct (decide (Some d = None)); [done|].
  apply wp_bind. unfold rb_find_node. repeat sh_step.
  eapply wp_mono; [eapply find_shape with (k := Top) (t := T); [lia|exact HS|done]|].
  cbv beta. intros z st1 [-> [[-> (k & Hk & Hpath)]|(k & zc & l & v & r & E & Hcmp)]].
  - (* not found *)
    repeat sh_step. left. split_and!; auto. simpl in Hk. subst T.
    rewrite values_plug in Hsort |- *. simpl in *. by apply path_absent.
  - simpl in E. subst T.
    destruct l as [|lc ll lp lv lr]; [|destruct r as [|rc rl rp rv rr]].
    + (* no left child *)
      sh_facts HS. repeat sh_step.
      focus_on HS z.
      eapply wp_mono; [eapply transplant_right_shape; exact HS|].
      cbv beta. intros [] st2 (HS2 & Hz2 & Hzin2 & Hsame2).
      apply wp_ret. cbn [fst snd].
      destruct (rbtree_plug_inv _ _ HT) as [Hcv Hsub]. simpl in Hcv, Hsub.
      destruct Hsub as (_ & Hr & Hbr & Hcr).
      pose proof (cdepth_plug k (Node zc Leaf z v r)) as Hdepth. simpl in Hdepth.
      apply same_fields in Hsame2 as (Hnil2 & Hsz2 & Hcmp2 & Hfd2 & Hds2 & Hdom2).
      eapply wp_mono.
      { eapply delete_tail with (K := k) (X := r); [exact HS2|..]; try done.
        - by intros ->.
        - intros ->. split; [by apply rbsub_blacken|]. del_solve.
        - intros ->. apply plug_rbtree; [|done].
          replace (tcolor r) with RB_BLACK by (symmetry; tauto). del_solve.
        - lia. }
      cbv beta. intros res st3 (-> & T' & HS3 & HT3 & Hv3 & Hp3 & Hdom3 & Hnil3 &
                                Hcmp3 & Hfd3 & Hsz3 & dz & Hds3).
      right. split; [done|].
      eexists T', _, (vbefore k), v, (values r ++ vafter k), z.
      split; [exact HS3|]. split; [exact HT3|].
      split_and!; try congruence.
      * rewrite values_plug. done.
      * rewrite Hv3, values_plug. done.
      * rewrite Hp3, !ptrs_plug. simpl. solve_Permutation.
      * exists dz. by rewrite Hds3, Hds2, Hfd2.
    + (* no right child *)
      sh_facts HS. repeat sh_step.
      focus_on HS z.
      eapply wp_mono;
        [eapply transplant_left_shape with (l := Node lc ll lp lv lr); exact HS|].
      cbv beta. intros [] st2 (HS2 & Hz2 & Hzin2 & Hsame2).
      apply wp_ret. cbn [fst snd].
      destruct (rbtree_plug_inv _ _ HT) as [Hcv Hsub]. simpl in Hcv, Hsub.
      destruct Hsub as (Hl & _ & Hbl & Hcl).
      pose proof (cdepth_plug k (Node zc (Node lc ll lp lv lr) z v Leaf)) as Hdepth.
      simpl in Hdepth.
      apply same_fields in Hsame2 as (Hnil2 & Hsz2 & Hcmp2 & Hfd2 & Hds2 & Hdom2).
      eapply wp_mono.
      { eapply delete_tail with (K := k) (X := Node lc ll lp lv lr);
          [exact HS2|..]; try done.
        - intros ->. split; [by apply (rbsub_blacken (Node lc ll lp lv lr))|]. del_solve.
        - intros ->. apply plug_rbtree; [|done].
          replace (tcolor (Node lc ll lp lv lr)) with RB_BLACK by (symmetry; tauto).
          del_solve.
        - lia. }
      cbv beta. intros res st3 (-> & T' & HS3 & HT3 & Hv3 & Hp3 & Hdom3 & Hnil3 &
                                Hcmp3 & Hfd3 & Hsz3 & dz & Hds3).
      right. split; [done|].
      eexists T', _, (vbefore k ++ values (Node lc ll lp lv lr)), v, (vafter k), z.
      split; [exact HS3|]. split; [exact HT3|].
      split_and!; try congruence.
      * rewrite values_plug. simpl. by rewrite <- !app_assoc.
      * rewrite Hv3, values_plug. simpl. by rewrite <- !app_assoc.
      * rewrite Hp3, !ptrs_plug. simpl. solve_Permutation.
      * exists dz. by rewrite Hds3, Hds2, Hfd2.
    + (* two children *)
      sh_facts HS. repeat sh_step.
      focus_on HS rp.
      pose proof (cdepth_plug k (Node zc (Node lc ll lp lv lr) z v (Node rc rl rp rv rr)))
        as Hh. simpl in Hh.
      eapply wp_mono; [eapply minimum_tree; [|exact HS]; lia|].
      clear Hh.
      cbv beta. intros y st1 (-> & km & yc & yv & yr & Hsp & Er).
      simpl in HS.
      assert (ET : plug k (Node zc (Node lc ll lp lv lr) z v (Node rc rl rp rv rr)) =
                   plug (capp km (CR zc (Node lc ll lp lv lr) z v k))
                        (Node yc Leaf y yv yr))
        by (rewrite plug_capp, Er; reflexivity).
      rewrite ET in HS, HT, Hsort, Hfuel |- *.
      destruct (delete_two_abs _ _ _ _ _ _ _ _ _ _ HT) as [Hblack Hred].
      destruct (delete_two_values k km zc (Node lc ll lp lv lr) z v yc y yv yr Hsp)
        as [Hval Hval'].
      pose proof (delete_two_ptrs k km zc (Node lc ll lp lv lr) z v yc y yv yr) as Hperm.
      pose proof (delete_two_depth k km zc (Node lc ll lp lv lr) z v yc y yv yr) as Hdepth.
      assert (Hzin : z ∉ ptrs (plug (capp km (CR zc (Node lc ll lp lv lr) y yv k)) yr)).
      { destruct HS as (_ & _ & _ & Hnd & _). rewrite Hperm in Hnd.
        by apply NoDup_cons in Hnd as [? _]. }
      assert (Hzdom : is_Some (mem st !! z)).
      { eapply shape_allocated; [exact HS|]. rewrite Hperm. set_solver. }
      destruct km as [|c1 km' p1 d1 r1|]; [| |simpl in Hsp; done].
      * (* the successor is the right child *)
        simpl in Er. injection Er as -> -> -> -> ->. simpl in *.
        repeat sh_step.
        focus_on HS z.
        eapply splice_near; [exact HS|done|].
        intros st2 HS2 Hsame2. apply shape_at_plug in HS2.
        apply wp_ret. cbn [fst snd].
        apply same_fields in Hsame2 as (Hnil2 & Hsz2 & Hcmp2 & Hfd2 & Hds2 & Hdom2).
        eapply wp_mono.
        { eapply delete_tail
            with (K := CR zc (Node lc ll lp lv lr) y yv k) (X := yr);
            [exact HS2|..]; try done.
          - by intros ->.
          - apply elem_of_dom. rewrite Hdom2. by apply elem_of_dom.
          - simpl in *. lia. }
        cbv beta. intros res st3 (-> & T' & HS3 & HT3 & Hv3 & Hp3 & Hdom3 & Hnil3 &
                                  Hcmp3 & Hfd3 & Hsz3 & dz & Hds3).
        right. split; [done|].
        eexists T', _, _, v, _, z.
        split; [exact HS3|]. split; [exact HT3|].
        split; [exact Hval|].
        split_and!; try congruence.
        -- rewrite Hv3. exact Hval'.
        -- rewrite Hp3. exact Hperm.
        -- exists dz. by rewrite Hds3, Hds2, Hfd2.
      * (* the successor is deeper in the right subtree *)
        clear H H0 H1 H2 H3 H4 H5 H6 H7 H8 H9 H10 H11 H12 H13 H14 H15.
        sh_facts_capp HS. repeat sh_step.
        focus_on HS y.
        eapply wp_mono; [eapply transplant_right_shape; exact HS|].
        cbv beta. intros [] st2 (HS2 & Hy2 & Hyin2 & Hsame2).
        destruct (plug_node (CL c1 km' p1 d1 r1) yr)
          as (rc' & rl' & rp' & rd' & rr' & Er'); [done|].
        assert (E2 : plug (CL c1 (capp km' (CR zc (Node lc ll lp lv lr) z v k)) p1 d1 r1) yr =
                     plug k (Node zc (Node lc ll lp lv lr) z v (Node rc' rl' rp' rd' rr'))).
        { change (plug (capp (CL c1 km' p1 d1 r1) (CR zc (Node lc ll lp lv lr) z v k)) yr = 
                  plug k (Node zc (Node lc ll lp lv lr) z v (Node rc' rl' rp' rd' rr'))).
          rewrite plug_capp, Er'. done. }
        rewrite E2 in HS2, Hyin2.
        eapply splice_far; [exact HS2|done|exact Hy2| |exact Hyin2|].
        { ptr_ne. }
        intros st3 HS3 Hsame3. apply shape_at_plug in HS3.
        assert (E3 : plug k (Node zc (Node lc ll lp lv lr) y yv (Node rc' rl' rp' rd' rr')) =
                     plug (capp (CL c1 km' p1 d1 r1) (CR zc (Node lc ll lp lv lr) y yv k)) yr)
          by (rewrite plug_capp, Er'; done).
        rewrite E3 in HS3.
        apply wp_ret. cbn [fst snd].
        pose proof (same_trans _ _ _ Hsame2 Hsame3) as Hsame.
        apply same_fields in Hsame as (Hnil2 & Hsz2 & Hcmp2 & Hfd2 & Hds2 & Hdom2).
        eapply wp_mono.
        { eapply delete_tail
            with (K := capp (CL c1 km' p1 d1 r1) (CR zc (Node lc ll lp lv lr) y yv k))
                 (X := yr);
            [exact HS3|..]; try done.
          - by intros ->.
          - apply elem_of_dom. rewrite Hdom2. by apply elem_of_dom.
          - lia. }
        cbv beta. intros res st4 (-> & T' & HS4 & HT4 & Hv4 & Hp4 & Hdom4 & Hnil4 &
                                  Hcmp4 & Hfd4 & Hsz4 & dz & Hds4).
        right. split; [done|].
        eexists T', _, _, v, _, z.
        split; [exact HS4|]. split; [exact HT4|].
        split; [exact Hval|].
        split_and!; try congruence.
        -- rewrite Hp4. exact Hperm.
        -- exists dz. by rewrite Hds4, Hds2, Hfd2.
Qed.
End Delete.

(** * Read-only traversals *)

Section ReadOnly.
Context {A : Type}.
Implicit Types (t : tree A) (st : rb_tree_t (A:=A)).

Lemma ro_bind {X Y} (m : M (A:=A) X) (f : X → M (A:=A) Y) st v res :
  m st = Some (v, st) → f v st = res → (m ≫= f) st = res.
Proof. intros E <-. unfold mbind, M_bind. by rewrite E. Qed.

Lemma ro_load st p n : mem st !! p = Some n → load p st = Some (n, st).
Proof. intros E. unfold load. by rewrite E. Qed.

Lemma ro_get_left st p n : mem st !! p = Some n → get_left p st = Some (left n, st).
Proof. intros E. eapply ro_bind; [by apply ro_load|done]. Qed.
Lemma ro_get_right st p n : mem st !! p = Some n → get_right p st = Some (right n, st).
Proof. intros E. eapply ro_bind; [by apply ro_load|done]. Qed.
Lemma ro_get_parent st p n : mem st !! p = Some n → get_parent p st = Some (parent n, st).
Proof. intros E. eapply ro_bind; [by apply ro_load|done]. Qed.
Lemma ro_get_color st p n : mem st !! p = Some n → get_color p st = Some (color n, st).
Proof. intros E. eapply ro_bind; [by apply ro_load|done]. Qed.
Lemma ro_get_data st p n : mem st !! p = Some n → get_data p st = Some (data n, st).
Proof. intros E. eapply ro_bind; [by apply ro_load|done]. Qed.

Lemma rep_color_rootp st nl np par t :
  mem st !! nl = Some (sentinel nl np) → rep (mem st) nl par t →
  get_color (rootp nl t) st = Some (tcolor t, st).
Proof.
  intros Hs Hrep. destruct t as [|c l p d r]; simpl in *.
  - by rewrite (ro_get_color _ _ _ Hs).
  - destruct Hrep as (E & _). by rewrite (ro_get_color _ _ _ E).
Qed.

End ReadOnly.

Ltac ro_step :=
  lazymatch goal with
  | |- (get_nil ≫= _) _ = _ => eapply ro_bind; [reflexivity|]; cbv beta
  | |- (get_root ≫= _) _ = _ => eapply ro_bind; [reflexivity|]; cbv beta
  | |- (get_left _ ≫= _) _ = _ =>
      eapply ro_bind; [eapply ro_get_left; eassumption|]; cbn [left]
  | |- (get_right _ ≫= _) _ = _ =>
      eapply ro_bind; [eapply ro_get_right; eassumption|]; cbn [right]
  | |- (get_parent _ ≫= _) _ = _ =>
      eapply ro_bind; [eapply ro_get_parent; eassumption|]; cbn [parent]
  | |- (get_data _ ≫= _) _ = _ =>
      eapply ro_bind; [eapply ro_get_data; eassumption|]; cbn [data]
  | |- (get_color (rootp _ _) ≫= _) _ = _ =>
      eapply ro_bind; [eapply rep_color_rootp; eassumption|]
  | |- (get_color _ ≫= _) _ = _ =>
      eapply ro_bind; [eapply ro_get_color; eassumption|]; cbn [color]
  | |- (mret _ ≫= _) _ = _ => eapply ro_bind; [reflexivity|]; cbv beta
  | |- ((_ ≫= _) ≫= _) _ = _ => eapply ro_bind
  | |- context [decide (?p ≠ ?q)] =>
      first [ rewrite (decide_True (P := p ≠ q)) by (first [done | congruence])
            | rewrite (decide_False (P := p ≠ q))
                by (let H := fresh in intros H; first [by apply H | congruence]) ]
  | |- context [decide (?p = ?q)] =>
      first [ rewrite (decide_True (P := p = q)) by (first [done | congruence])
            | rewrite (decide_False (P := p = q)) by (first [done | congruence]) ]
  end.

Section Traversals.
Context {A : Type}.
Implicit Types (t : tree A) (st : rb_tree_t (A:=A)).

Variables (st : rb_tree_t (A:=A)) (np : nat).
Let nl := nil st.
Hypothesis Hsent : mem st !! nl = Some (sentinel nl np).

Lemma height_node_ro t : ∀ par fuel,
  rep (mem st) nl par t → nl ∉ ptrs t → (theight t < fuel)%nat →
  rb_height_node fuel (rootp nl t) st = Some (Z.of_nat (theight t), st).
Proof using Hsent.
  induction t as [|c l IHl p d r IHr]; intros par fuel Hrep Hnin Hf;
    (destruct fuel; [lia|]); cbn [rb_height_node rootp].
  - by repeat ro_step.
  - simpl in Hrep, Hnin, Hf. destruct Hrep as (E & Hl & Hr).
    rewrite elem_of_app, elem_of_cons in Hnin.
    assert (p ≠ nl) by (intros ->; tauto).
    repeat ro_step.
    eapply ro_bind; [eapply IHl; [exact Hl|tauto|lia]|].
    ro_step.
    eapply ro_bind; [eapply IHr; [exact Hr|tauto|lia]|].
    unfold mret, M_ret. do 2 f_equal. cbn [theight]. destruct (decide _); lia.
Qed.

Lemma is_valid_node_ro t : ∀ par fuel,
  rep (mem st) nl par t → nl ∉ ptrs t → (theight t < fuel)%nat → rbsub t →
  rb_is_valid_node fuel (rootp nl t) st = Some (Some (Z.of_nat (bh t) + 1), st).
Proof using Hsent.
  induction t as [|c l IHl p d r IHr]; intros par fuel Hrep Hnin Hf Hrb;
    (destruct fuel; [lia|]); cbn [rb_is_valid_node rootp].
  - by repeat ro_step.
  - simpl in Hrep, Hnin, Hf, Hrb. destruct Hrep as (E & Hl & Hr).
    destruct Hrb as (Hrl & Hrr & Hbh & Hcol).
    rewrite elem_of_app, elem_of_cons in Hnin.
    assert (p ≠ nl) by (intros ->; tauto).
    do 3 ro_step.
    eapply ro_bind with (v := true).
    { destruct c.
      - destruct (Hcol eq_refl) as [Hcl Hcr]. repeat ro_step.
        rewrite Hcr. reflexivity.
      - by repeat ro_step. }
    cbn [negb]. ro_step.
    eapply ro_bind; [eapply IHl; [exact Hl|tauto|lia|done]|]. cbv beta iota.
    ro_step.
    eapply ro_bind; [eapply IHr; [exact Hr|tauto|lia|done]|]. cbv beta iota.
    rewrite Hbh. rewrite decide_False by (intros ?; congruence).
    ro_step. unfold mret, M_ret. do 3 f_equal. cbn [bh]. rewrite Hbh.
    destruct c; simpl; lia.
Qed.

Lemma inorder_walk_node_ro {C} (visit : option A → C → C) t : ∀ par fuel context,
  rep (mem st) nl par t → nl ∉ ptrs t → (theight t < fuel)%nat →
  rb_inorder_walk_node fuel (rootp nl t) visit context st =
    Some (foldl (λ acc v, visit (Some v) acc) context (values t), st).
Proof using Hsent.
  induction t as [|c l IHl p d r IHr]; intros par fuel context Hrep Hnin Hf;
    (destruct fuel; [lia|]); cbn [rb_inorder_walk_node rootp].
  - by repeat ro_step.
  - simpl in Hrep, Hnin, Hf. destruct Hrep as (E & Hl & Hr).
    rewrite elem_of_app, elem_of_cons in Hnin.
    assert (p ≠ nl) by (intros ->; tauto).
    repeat ro_step.
    eapply ro_bind; [eapply IHl; [exact Hl|tauto|lia]|].
    repeat ro_step.
    rewrite (IHr p fuel); [|exact Hr|tauto|lia].
    simpl. by rewrite foldl_app.
Qed.

End Traversals.

Section Queries.
Context {A : Type}.
Implicit Types (t : tree A) (st : rb_tree_t (A:=A)).

Lemma query_ro {X} (m : M (A:=A) X) st (v null : X) :
  m st = Some (v, st) → query (Some st) null m = Some v.
Proof. intros E. unfold query. by rewrite E. Qed.

Lemma height_shape st T np fuel :
  shape (nil st) st T np → (theight T < fuel)%nat →
  rb_height fuel (Some st) = Some (Z.of_nat (theight T)).
Proof.
  intros (_ & Hroot & Hs & _ & Hnin & Hrep) Hf. apply query_ro.
  ro_step. rewrite Hroot. eapply height_node_ro; eauto.
Qed.

Lemma is_valid_shape st T np fuel :
  shape (nil st) st T np → rbtree T → (theight T < fuel)%nat →
  rb_is_valid fuel (Some st) = Some true.
Proof.
  intros (_ & Hroot & Hs & _ & Hnin & Hrep) [Hc Hrb] Hf. apply query_ro.
  do 2 ro_step.
  eapply ro_bind with (v := false).
  { rewrite Hroot. destruct T as [|c l p d r]; simpl in *.
    - by rewrite decide_False by (intros ?; congruence).
    - destruct Hrep as (E & _). rewrite decide_True.
      2:{ intros ->. apply Hnin. rewrite elem_of_app, elem_of_cons. tauto. }
      ro_step. rewrite Hroot. repeat ro_step. subst c. reflexivity. }
  cbv iota. ro_step. rewrite Hroot.
  eapply ro_bind; [eapply is_valid_node_ro; eauto|]. reflexivity.
Qed.

Lemma inorder_walk_shape {C} st T np fuel (visit : option A → C → C) context :
  shape (nil st) st T np → (theight T < fuel)%nat →
  rb_inorder_walk fuel (Some st) (Some visit) context =
    Some (foldl (λ acc v, visit (Some v) acc) context (values T)).
Proof.
  intros (_ & Hroot & Hs & _ & Hnin & Hrep) Hf. apply query_ro.
  ro_step. rewrite Hroot. eapply inorder_walk_node_ro; eauto.
Qed.

(** The height of a red-black tree against its number of nodes. *)
Lemma rbsub_height t :
  rbsub t → (theight t ≤ 2 * bh t + (1 - black (tcolor t)))%nat.
Proof.
  induction t as [|c l IHl p d r IHr]; simpl; [lia|].
  intros (Hl & Hr & Hbh & Hcol). specialize (IHl Hl). specialize (IHr Hr).
  destruct c; simpl in *.
  - destruct (Hcol eq_refl) as [Hcl Hcr]. rewrite Hcl in IHl. rewrite Hcr in IHr.
    simpl in *. lia.
  - pose proof (black_le (tcolor l)). pose proof (black_le (tcolor r)). lia.
Qed.

Lemma rbsub_count t : rbsub t → (2 ^ bh t ≤ length (values t) + 1)%nat.
Proof.
  induction t as [|c l IHl p d r IHr]; simpl; [lia|].
  intros (Hl & Hr & Hbh & Hcol). specialize (IHl Hl). specialize (IHr Hr).
  rewrite length_app. simpl. rewrite Hbh in IHl.
  destruct c; simpl; rewrite ?Nat.add_0_r, <- ?Hbh.
  - rewrite Hbh. lia.
  - rewrite Hbh, Nat.add_1_r, Nat.pow_succ_r'. lia.
Qed.

Lemma rbtree_height_log (T : tree A) :
  rbtree T →
  Z.of_nat (theight T) ≤ 2 * Z.log2 (Z.of_nat (length (values T)) + 1).
Proof.
  intros [Hc Hrb]. pose proof (rbsub_height T Hrb) as Hh.
  pose proof (rbsub_count T Hrb) as Hn. rewrite Hc in Hh. simpl in Hh.
  assert (Z.of_nat (bh T) ≤ Z.log2 (Z.of_nat (length (values T)) + 1)).
  { apply Z.log2_le_pow2; [lia|].
    replace 2 with (Z.of_nat 2) by done. rewrite <- Nat2Z.inj_pow. lia. }
  lia.
Qed.

End Queries.

(** * Successor and predecessor *)

Section Neighbours.
Context {A : Type}.
Implicit Types (t : tree A) (k km : ctx A) (st : rb_tree_t (A:=A)).

Lemma successor_ascent_shape nl np st : ∀ k fuel c l p d r,
  shape nl st (plug k (Node c l p d r)) np → (cdepth k < fuel)%nat →
  wp (successor_ascent fuel p (cpar nl k)) st (λ y st',
      st' = st ∧ holds st nl y (head (vafter k))).
Proof.
  induction k as [|kc up IH kp kd kr|kc kl kp kd up IH]; intros fuel c l p d r HS Hf;
    (destruct fuel as [|fuel]; [lia|]); simpl successor_ascent; simpl in Hf.
  - simpl. repeat sh_step. done.
  - simpl in HS. sh_facts HS. simpl. repeat sh_step.
    split; [done|]. split; [done|]. eexists. split; [sh_lookup|done].
  - simpl in HS. sh_facts HS. simpl. repeat sh_step.
    eapply wp_mono; [eapply (IH fuel); [exact HS|lia]|]. done.
Qed.

Lemma predecessor_ascent_shape nl np st : ∀ k fuel c l p d r,
  shape nl st (plug k (Node c l p d r)) np → (cdepth k < fuel)%nat →
  wp (predecessor_ascent fuel p (cpar nl k)) st (λ y st',
      st' = st ∧ holds st nl y (last (vbefore k))).
Proof.
  induction k as [|kc up IH kp kd kr|kc kl kp kd up IH]; intros fuel c l p d r HS Hf;
    (destruct fuel as [|fuel]; [lia|]); simpl predecessor_ascent; simpl in Hf.
  - simpl. repeat sh_step. done.
  - simpl in HS. sh_facts HS. simpl. repeat sh_step.
    eapply wp_mono; [eapply (IH fuel); [exact HS|lia]|]. done.
  - simpl in HS. sh_facts HS. simpl. repeat sh_step.
    rewrite app_assoc, last_snoc.
    split; [done|]. split; [done|]. eexists. split; [sh_lookup|done].
Qed.

Lemma wp_query {X} (m : M (A:=A) X) st (null : X) (Q : X → Prop) :
  wp m st (λ x _, Q x) → ∃ x, query (Some st) null m = Some x ∧ Q x.
Proof.
  intros (x & st' & E & HQ). exists x. split; [|done]. unfold query. by rewrite E.
Qed.

Lemma successor_shape st T np d fuel :
  shape (nil st) st T np → (theight T < fuel)%nat →
  total_order (compare st) → sorted (compare st) (values T) →
  ∃ res, rb_successor fuel (Some st) (Some d) = Some res ∧
    ((¬ present (compare st) d (values T) ∧ res = None) ∨
     (∃ l1 v l2, values T = l1 ++ v :: l2 ∧ compare st d v = 0 ∧ res = head l2)).
Proof.
  intros HS Hf Hto Hsort. unfold rb_successor. apply wp_query.
  destruct (decide (Some d = None)); [done|].
  apply wp_bind. unfold rb_find_node. repeat sh_step.
  eapply wp_mono; [eapply find_shape with (k := Top) (t := T); [lia|exact HS|done]|].
  cbv beta. intros z st1 [-> [[-> (k & Hk & Hpath)]|(k & zc & l & v & r & E & Hcmp)]].
  - repeat sh_step. left. split; [|done]. simpl in Hk. subst T.
    rewrite values_plug in Hsort |- *. simpl in *. by apply path_absent.
  - simpl in E. subst T.
    pose proof (cdepth_plug k (Node zc l z v r)) as Hd. simpl in Hd.
    unfold rb_tree_successor_node.
    destruct r as [|rc rl rp rv rr].
    + sh_facts HS. repeat sh_step.
      eapply wp_mono; [eapply successor_ascent_shape; [exact HS|lia]|].
      cbv beta. intros y st' [-> Hy].
      assert (Hv : values (plug k (Node zc l z v Leaf)) =
                   (vbefore k ++ values l) ++ v :: vafter k)
        by (rewrite values_plug; simpl; by repeat (rewrite <- app_assoc; simpl)).
      destruct (vafter k) as [|s rest] eqn:Ea; simpl in Hy.
      * subst y. destruct (decide _) as [Hn|_]; [by destruct Hn|].
        apply wp_ret. right. by eexists _, v, [].
      * destruct Hy as (Hne & n' & En & Hdata). rewrite decide_True by done.
        eapply wp_get_data; [exact En|]. rewrite Hdata.
        right. by eexists _, v, (s :: rest).
    + sh_facts HS. repeat sh_step.
      focus_on HS rp.
      eapply wp_mono; [eapply minimum_tree; [|exact HS]; simpl in Hd; lia|].
      cbv beta. intros y st' (-> & km & yc & yv & yr & Hsp & Er).
      assert (ET : plug k (Node zc l z v (Node rc rl rp rv rr)) =
                   plug (capp km (CR zc l z v k)) (Node yc Leaf y yv yr))
        by (rewrite plug_capp, <- Er; reflexivity).
      simpl in HS. rewrite ET in HS.
      pose proof (shape_lookup _ _ _ _ _ _ _ _ _ HS) as Ey.
      pose proof (shape_distinct _ _ _ _ _ HS) as Hdist.
      apply NoDup_cons in Hdist as [Hnin _].
      rewrite decide_True.
      2:{ intros ->. apply Hnin. simpl. set_solver. }
      eapply wp_get_data; [exact Ey|]. simpl. right.
      exists (vbefore k ++ values l), v, (values (Node rc rl rp rv rr) ++ vafter k).
      split; [rewrite values_plug; simpl; by repeat (rewrite <- app_assoc; simpl)|].
      split; [done|].
      rewrite Er, values_plug, (left_spine_vbefore _ Hsp). done.
Qed.

Lemma predecessor_shape st T np d fuel :
  shape (nil st) st T np → (theight T < fuel)%nat →
  total_order (compare st) → sorted (compare st) (values T) →
  ∃ res, rb_predecessor fuel (Some st) (Some d) = Some res ∧
    ((¬ present (compare st) d (values T) ∧ res = None) ∨
     (∃ l1 v l2, values T = l1 ++ v :: l2 ∧ compare st d v = 0 ∧ res = last l1)).
Proof.
  intros HS Hf Hto Hsort. unfold rb_predecessor. apply wp_query.
  destruct (decide (Some d = None)); [done|].
  apply wp_bind. unfold rb_find_node. repeat sh_step.
  eapply wp_mono; [eapply find_shape with (k := Top) (t := T); [lia|exact HS|done]|].
  cbv beta. intros z st1 [-> [[-> (k & Hk & Hpath)]|(k & zc & l & v & r & E & Hcmp)]].
  - repeat sh_step. left. split; [|done]. simpl in Hk. subst T.
    rewrite values_plug in Hsort |- *. simpl in *. by apply path_absent.
  - simpl in E. subst T.
    pose proof (cdepth_plug k (Node zc l z v r)) as Hd. simpl in Hd.
    unfold rb_tree_predecessor_node.
    destruct l as [|lc ll lp lv lr].
    + sh_facts HS. repeat sh_step.
      eapply wp_mono; [eapply predecessor_ascent_shape; [exact HS|lia]|].
      cbv beta. intros y st' [-> Hy].
      assert (Hv : values (plug k (Node zc Leaf z v r)) =
                   vbefore k ++ v :: (values r ++ vafter k))
        by (rewrite values_plug; simpl; by repeat (rewrite <- app_assoc; simpl)).
      destruct (last (vbefore k)) as [s|] eqn:Ea; simpl in Hy.
      * destruct Hy as (Hne & n' & En & Hdata). rewrite decide_True by done.
        eapply wp_get_data; [exact En|]. rewrite Hdata.
        right. eexists (vbefore k), v, _. by rewrite Ea.
      * subst y. destruct (decide _) as [Hn|_]; [by destruct Hn|].
        apply wp_ret. right. eexists (vbefore k), v, _. by rewrite Ea.
    + sh_facts HS. repeat sh_step.
      focus_on HS lp.
      eapply wp_mono; [eapply maximum_tree; [|exact HS]; simpl in Hd; lia|].
      cbv beta. intros y st' (-> & km & yc & yl & yv & Hsp & El).
      assert (ET : plug k (Node zc (Node lc ll lp lv lr) z v r) =
                   plug (capp km (CL zc k z v r)) (Node yc yl y yv Leaf))
        by (rewrite plug_capp, <- El; reflexivity).
      simpl in HS. rewrite ET in HS.
      pose proof (shape_lookup _ _ _ _ _ _ _ _ _ HS) as Ey.
      pose proof (shape_distinct _ _ _ _ _ HS) as Hdist.
      apply NoDup_cons in Hdist as [Hnin _].
      rewrite decide_True.
      2:{ intros ->. apply Hnin. simpl. set_solver. }
      eapply wp_get_data; [exact Ey|]. simpl. right.
      exists (vbefore k ++ values (Node lc ll lp lv lr)), v, (values r ++ vafter k).
      split; [rewrite values_plug; simpl; by repeat (rewrite <- app_assoc; simpl)|].
      split; [done|].
      rewrite El, values_plug, (right_spine_vafter _ Hsp). simpl.
      rewrite app_nil_r, !app_assoc. by rewrite last_snoc.
Qed.

End Neighbours.

(** * Reachable trees *)

Lemma returns_det {X} (run : nat → option X) x y :
  returns run x → returns run y → x = y.
Proof.
  intros [n Hn] [m Hm].
  specialize (Hn (n `max` m)%nat). specialize (Hm (n `max` m)%nat).
  rewrite Hn in Hm by lia. assert (Some x = Some y) as [= ->] by (apply Hm; lia). done.
Qed.

Lemma returns_const {X} (o : option X) x : o = Some x → returns (λ _, o) x.
Proof. intros ->. by exists O. Qed.

Lemma returns_intro {X} (run : nat → option X) n x :
  fuel_mono run → run n = Some x → returns run x.
Proof. intros Hm E. exists n. intros fuel Hf. by apply (Hm n). Qed.

Section Mono.
Context {A : Type}.

Lemma le_m_refl {X} (m : M (A:=A) X) : le_m m m.
Proof. by intros st r. Qed.
Lemma le_m_fail {X} (m : M (A:=A) X) : le_m fail m.
Proof. by intros st r. Qed.
Lemma le_m_bind {X Y} (m m' : M (A:=A) X) (f f' : X → M (A:=A) Y) :
  le_m m m' → (∀ x, le_m (f x) (f' x)) → le_m (m ≫= f) (m' ≫= f').
Proof.
  intros Hm Hf st r. unfold mbind, M_bind.
  destruct (m st) as [[x st1]|] eqn:E; [|done].
  rewrite (Hm _ _ E). apply Hf.
Qed.

Lemma le_on_tree {X} (m m' : M (A:=A) X) tree (null : X) r :
  le_m m m' → on_tree tree null m = Some r → on_tree tree null m' = Some r.
Proof.
  intros Hm. destruct tree as [st|]; [|done]. simpl.
  destruct (m st) as [[x st1]|] eqn:E; [|done]. by rewrite (Hm _ _ E).
Qed.

End Mono.

Ltac solve_mono IH :=
  repeat first
    [ lazymatch goal with |- le_m ?a ?b => constr_eq a b; apply le_m_refl end
    | apply le_m_fail
    | lazymatch goal with
      | |- le_m (_ ≫= _) _ => apply le_m_bind; [|intros ?]
      end
    | apply IH; lia
    | match goal with
      | |- le_m (if decide ?P then _ else _) _ => destruct (decide P)
      | |- le_m (if ?b then _ else _) _ => destruct b
      | |- le_m (match ?b with _ => _ end) _ => destruct b
      end ].

Section Mono2.
Context {A : Type}.

Lemma insert_fixup_mono : ∀ n m z, (n ≤ m)%nat →
  le_m (rb_insert_fixup (A:=A) n z) (rb_insert_fixup m z).
Proof.
  induction n as [|n IH]; intros m z Hle; [apply le_m_fail|].
  destruct m as [|m]; [lia|]. simpl. solve_mono IH.
Qed.

Lemma insert_descent_mono d : ∀ n m y x, (n ≤ m)%nat →
  le_m (rb_insert_descent (A:=A) n d y x) (rb_insert_descent m d y x).
Proof.
  induction n as [|n IH]; intros m y x Hle; [apply le_m_fail|].
  destruct m as [|m]; [lia|]. simpl. solve_mono IH.
Qed.

Lemma delete_fixup_mono : ∀ n m x, (n ≤ m)%nat →
  le_m (rb_delete_fixup (A:=A) n x) (rb_delete_fixup m x).
Proof.
  induction n as [|n IH]; intros m x Hle; [apply le_m_fail|].
  destruct m as [|m]; [lia|]. simpl. solve_mono IH.
Qed.

Lemma find_node_from_mono d : ∀ n m x, (n ≤ m)%nat →
  le_m (rb_find_node_from (A:=A) n d x) (rb_find_node_from m d x).
Proof.
  induction n as [|n IH]; intros m x Hle; [apply le_m_fail|].
  destruct m as [|m]; [lia|]. simpl. solve_mono IH.
Qed.

Lemma minimum_node_mono : ∀ n m x, (n ≤ m)%nat →
  le_m (rb_tree_minimum_node (A:=A) n x) (rb_tree_minimum_node m x).
Proof.
  induction n as [|n IH]; intros m x Hle; [apply le_m_fail|].
  destruct m as [|m]; [lia|]. simpl. solve_mono IH.
Qed.

Lemma insert_mono tree d alloc :
  fuel_mono (λ fuel, rb_insert (A:=A) fuel tree d alloc).
Proof.
  intros n m x Hle. unfold rb_insert. apply le_on_tree.
  pose proof (λ z, insert_fixup_mono n m z Hle) as H1.
  pose proof (λ y x, insert_descent_mono d n m y x Hle) as H2.
  solve_mono H1; try apply H2.
Qed.

Lemma delete_mono tree d :
  fuel_mono (λ fuel, rb_delete (A:=A) fuel tree d).
Proof.
  intros n m x Hle. unfold rb_delete, rb_find_node. apply le_on_tree.
  pose proof (λ z, delete_fixup_mono n m z Hle) as H1.
  pose proof (λ x, find_node_from_mono d n m x Hle) as H2.
  pose proof (λ x, minimum_node_mono n m x Hle) as H3.
  solve_mono H1; try apply H2; try apply H3.
Qed.

End Mono2.

Section Reach.
Context {A : Type}.
Implicit Types (t T : tree A) (k km : ctx A) (st : rb_tree_t (A:=A)).

Lemma omap_lookup_delete {V} (h : gmap nat V) p (l : list nat) :
  p ∉ l → omap (λ q, delete p h !! q) l = omap (λ q, h !! q) l.
Proof.
  induction l as [|q l IH]; [done|]. intros [Hpq Hp]%not_elem_of_cons. csimpl.
  assert (delete p h !! q = h !! q) as -> by by apply lookup_delete_ne.
  by rewrite (IH Hp).
Qed.

Lemma map_to_list_along {V} (l : list nat) : ∀ (h : gmap nat V),
  NoDup l → dom h = list_to_set l →
  (map_to_list h).*2 ≡ₚ omap (λ p, h !! p) l.
Proof.
  induction l as [|p l IH]; intros h Hnd Hdom.
  - simpl in Hdom. apply dom_empty_inv_L in Hdom as ->. by rewrite map_to_list_empty.
  - apply NoDup_cons in Hnd as [Hp Hnd].
    assert (is_Some (h !! p)) as [x Hx].
    { apply elem_of_dom. rewrite Hdom. set_solver. }
    rewrite <- (insert_delete_id h p x Hx) at 1.
    rewrite map_to_list_insert by apply lookup_delete_eq.
    simpl. rewrite Hx. simpl. f_equiv.
    rewrite (IH (delete p h)); [|done|].
    + by rewrite omap_lookup_delete.
    + rewrite dom_delete_L, Hdom. simpl.
      assert (p ∉ (list_to_set l : gset nat)) by by rewrite elem_of_list_to_set.
      set_solver.
Qed.

Lemma rep_data h nl par t :
  rep h nl par t → omap (λ p, data <$> h !! p) (ptrs t) = Some <$> values t.
Proof.
  revert par. induction t as [|c l IHl p d r IHr]; intros par; simpl; [done|].
  intros (E & Hl & Hr). rewrite omap_app, fmap_app. csimpl.
  rewrite E. csimpl. by rewrite (IHl _ Hl), (IHr _ Hr).
Qed.

Lemma represents_stored st T np :
  represents st T np → stored st ≡ₚ Some <$> values T.
Proof.
  intros [(_ & _ & _ & Hnd & Hnin & Hrep) Hdom]. unfold stored.
  rewrite (map_to_list_along (ptrs T)); [|done|].
  - rewrite omap_lookup_delete, <- (rep_data _ _ _ _ Hrep) by done.
    clear. induction (ptrs T) as [|q l IH]; [done|]. csimpl.
    destruct (mem st !! q); csimpl; by rewrite IH.
  - rewrite dom_delete_L, Hdom.
    assert (nil st ∉ (list_to_set (ptrs T) : gset nat)) by by rewrite elem_of_list_to_set.
    set_solver.
Qed.

Lemma present_dec cmp (d : A) (l : list A) : present cmp d l ∨ ¬ present cmp d l.
Proof.
  induction l as [|v l [IH|IH]].
  - right. intros (v & Hv & _). by apply elem_of_nil in Hv.
  - left. destruct IH as (u & Hu & E). exists u. split; [by right|done].
  - destruct (decide (cmp d v = 0)) as [E|E].
    + left. exists v. split; [by left|done].
    + right. intros (u & [->|Hu]%elem_of_cons & E'); [done|]. apply IH. by exists u.
Qed.

Lemma create_inv compare_func free_func alloc_tree alloc_nil st :
  rb_tree_create (A:=A) compare_func free_func alloc_tree alloc_nil = Some st →
  represents st Leaf (nil st) ∧ size st = 0 ∧ destroyed st = [].
Proof.
  unfold rb_tree_create. destruct compare_func as [cmp|]; [|done].
  destruct alloc_tree; [|done]. destruct alloc_nil as [nl|]; [|done].
  intros [= <-]. simpl. split; [|done]. split.
  - unfold shape. simpl. split_and!; try done.
    + by rewrite lookup_singleton_eq.
    + constructor.
    + apply not_elem_of_nil.
  - simpl. rewrite dom_singleton_L. set_solver.
Qed.

Lemma insert_spec st T np d alloc :
  represents st T np → rbtree T →
  total_order (compare st) → sorted (compare st) (values T) →
  match alloc with Some z => mem st !! z = None | None => True end →
  ∃ res st',
    returns (λ fuel, rb_insert fuel (Some st) (Some d) alloc) (res, Some st') ∧
    insert_post st T np d alloc res st'.
Proof.
  intros [HS Hdom] HT Hto Hsort Hfresh.
  destruct alloc as [z|].
  - destruct (present_dec (compare st) d (values T)) as [Hp|Hp].
    + pose proof (insert_body_dup st T np d z (S (theight T)) HS Hfresh
                    ltac:(lia) Hto Hsort Hp) as Hwp.
      apply (wp_on_tree _ _ RB_ERROR) in Hwp as (res & st' & E & -> & ->).
      exists RB_DUPLICATE, st. split; [|by left].
      eapply returns_intro; [apply insert_mono|].
      unfold rb_insert. rewrite decide_False by done. exact E.
    + pose proof (insert_body_ok st T np d z (S (theight T)) HS HT Hto Hsort Hfresh
                    ltac:(lia) Hp) as Hwp.
      apply (wp_on_tree _ _ RB_ERROR) in Hwp
        as (res & st' & E & -> & T' & l1 & l2 & HS' & HT' & Hv & Hv' & Hsort' &
            Hperm & Hdom' & Hnil' & Hcmp' & Hfd' & Hds' & Hsz').
      exists RB_OK, st'. split.
      { eapply returns_intro; [apply insert_mono|].
        unfold rb_insert. rewrite decide_False by done. exact E. }
      right. split; [done|]. split; [done|]. exists T', l1, l2.
      split_and!; try done. split; [by rewrite Hnil'|].
      rewrite Hdom', Hdom, Hnil'.
      assert (list_to_set (ptrs T') = ({[z]} ∪ list_to_set (ptrs T) : gset nat)) as ->.
      { apply set_eq. intros x. rewrite elem_of_union, !elem_of_list_to_set, Hperm.
        set_solver. }
      set_solver.
  - exists RB_MEMORY_ERROR, st. split; [|done].
    exists O. intros fuel _. reflexivity.
Qed.

Lemma insert_null_data st alloc fuel :
  rb_insert fuel (Some st) None alloc = Some (RB_ERROR, Some st).
Proof. reflexivity. Qed.

Lemma insert_live_block st d z n fuel :
  mem st !! z = Some n → rb_insert fuel (Some st) (Some d) (Some z) = None.
Proof.
  intros E. unfold rb_insert, on_tree. rewrite decide_False by done.
  unfold rb_node_create, malloc, mbind, M_bind, get_nil. by rewrite E.
Qed.

(** [rb_delete] on a tree that satisfies the invariant. *)
Lemma delete_spec st T np d :
  represents st T np → rbtree T →
  total_order (compare st) → sorted (compare st) (values T) →
  ∃ res st',
    returns (λ fuel, rb_delete fuel (Some st) (Some d)) (res, Some st') ∧
    ((res = RB_NOT_FOUND ∧ st' = st ∧ ¬ present (compare st) d (values T)) ∨
     (res = RB_OK ∧ ∃ T' np' l1 v l2,
        represents st' T' np' ∧ rbtree T' ∧
        values T = l1 ++ v :: l2 ∧ compare st d v = 0 ∧ values T' = l1 ++ l2 ∧
        nil st' = nil st ∧ compare st' = compare st ∧
        free_data st' = free_data st ∧
        size st' = (size st - 1) mod size_max ∧
        ∃ dz, destroyed st' = destroyed st ++ (if free_data st then [dz] else []))).
Proof.
  intros [HS Hdom] HT Hto Hsort.
  destruct (delete_ok st T np d (2 * theight T + 2) HS HT Hto Hsort ltac:(lia))
    as (res & st' & E & Hpost).
  exists res, st'. split; [eapply returns_intro; [apply delete_mono|exact E]|].
  destruct Hpost as [?|(-> & T' & np' & l1 & v & l2 & z & HS' & HT' & Hv & Hc & Hv' &
                        Hperm & Hdom' & Hnil' & Hcmp' & Hfd' & Hsz' & Hds')]; [by left|].
  right. split; [done|]. exists T', np', l1, v, l2. split_and!; try done.
  split; [by rewrite Hnil'|].
  destruct HS as (_ & _ & _ & Hnd & Hnin & _).
  rewrite Hperm in Hnd, Hnin. apply NoDup_cons in Hnd as [Hz _].
  apply not_elem_of_cons in Hnin as [Hzn Hnin].
  rewrite Hdom', Hdom, Hnil'.
  assert (list_to_set (ptrs T) = ({[z]} ∪ list_to_set (ptrs T') : gset nat)) as ->.
  { apply set_eq. intros x. rewrite elem_of_union, !elem_of_list_to_set, Hperm.
    set_solver. }
  assert (z ∉ (list_to_set (ptrs T') : gset nat)) by by rewrite elem_of_list_to_set.
  set_solver.
Qed.

Lemma delete_null_data st fuel :
  rb_delete fuel (Some st) None = Some (RB_ERROR, Some st).
Proof. reflexivity. Qed.

End Reach.

Section Reachable.
Context {A : Type}.
Implicit Types (t T : tree A) (k km : ctx A) (st : rb_tree_t (A:=A)).

Lemma returns_eq {X} (run : nat → option X) x y :
  (∀ fuel, run fuel = Some y) → returns run x → x = y.
Proof. intros H [n Hn]. specialize (Hn n (le_n _)). rewrite H in Hn. congruence. Qed.

Lemma returns_none {X} (run : nat → option X) x :
  (∀ fuel, run fuel = None) → ¬ returns run x.
Proof. intros H [n Hn]. specialize (Hn n (le_n _)). rewrite H in Hn. congruence. Qed.

Lemma size_succ (n : nat) s :
  s = Z.of_nat n mod size_max → (s + 1) mod size_max = Z.of_nat (S n) mod size_max.
Proof. intros ->. rewrite Z.add_mod_idemp_l by done. f_equal. lia. Qed.

Lemma size_pred (n : nat) s :
  s = Z.of_nat (S n) mod size_max → (s - 1) mod size_max = Z.of_nat n mod size_max.
Proof. intros ->. rewrite Zminus_mod_idemp_l. f_equal. lia. Qed.

(** One step of [rb_insert] from a state that satisfies the invariant. *)
Lemma insert_step st d alloc res st' :
  Inv st → total_order (compare st) →
  returns (λ fuel, rb_insert fuel (Some st) d alloc) (res, Some st') →
  Inv st' ∧ compare st' = compare st ∧ nil st' = nil st.
Proof.
  intros (T & np & Hrep & HT & Hsort & Hsz) Hto Hret.
  assert (Inv st) as HI by (exists T, np; done).
  destruct d as [d|].
  2:{ apply (returns_eq _ _ (RB_ERROR, Some st)) in Hret; [|done].
      injection Hret as -> ->. done. }
  assert (match alloc with Some z => mem st !! z = None | None => True end) as Hfresh.
  { destruct alloc as [z|]; [|done]. destruct (mem st !! z) as [n|] eqn:E; [|done].
    exfalso. revert Hret. apply returns_none. intros fuel.
    by eapply insert_live_block. }
  destruct (insert_spec st T np d alloc Hrep HT Hto Hsort Hfresh)
    as (res0 & st0 & Hret0 & Hpost).
  pose proof (returns_det _ _ _ Hret Hret0) as [= -> ->].
  destruct alloc as [z|]; simpl in Hpost.
  - destruct Hpost as [(_ & _ & ->)|(_ & _ & T' & l1 & l2 & Hrep' & HT' & Hv & Hv' &
                                     Hsort' & Hnil' & Hcmp' & _ & _ & Hsz')]; [done|].
    split; [|done]. exists T', np. rewrite Hcmp'. split_and!; try done.
    rewrite Hsz', Hv'. rewrite Hv in Hsz.
    rewrite (size_succ (length (l1 ++ l2)) _ Hsz). f_equal. f_equal.
    rewrite !length_app. simpl. lia.
  - by destruct Hpost as [_ ->].
Qed.

(** One step of [rb_delete] from a state that satisfies the invariant. *)
Lemma delete_step st d res st' :
  Inv st → total_order (compare st) →
  returns (λ fuel, rb_delete fuel (Some st) d) (res, Some st') →
  Inv st' ∧ compare st' = compare st ∧ nil st' = nil st.
Proof.
  intros (T & np & Hrep & HT & Hsort & Hsz) Hto Hret.
  assert (Inv st) as HI by (exists T, np; done).
  destruct d as [d|].
  2:{ apply (returns_eq _ _ (RB_ERROR, Some st)) in Hret; [|done].
      injection Hret as -> ->. done. }
  destruct (delete_spec st T np d Hrep HT Hto Hsort) as (res0 & st0 & Hret0 & Hpost).
  pose proof (returns_det _ _ _ Hret Hret0) as [= -> ->].
  destruct Hpost as [(_ & -> & _)|(_ & T' & np' & l1 & v & l2 & Hrep' & HT' & Hv & _ &
                                   Hv' & Hnil' & Hcmp' & _ & Hsz' & _)]; [done|].
  split; [|done]. exists T', np'. rewrite Hcmp'. split_and!; try done.
  - rewrite Hv'. rewrite Hv in Hsort. by eapply sorted_remove.
  - rewrite Hsz', Hv'. rewrite Hv in Hsz.
    apply size_pred. rewrite Hsz. f_equal. f_equal.
    rewrite !length_app. simpl. lia.
Qed.

Lemma reachable_inv cmp st :
  total_order cmp → reachable cmp st → Inv st ∧ compare st = cmp.
Proof.
  intros Hto. induction 1 as [fd atr an st E|st d alloc res st' _ [IH Hc] Hret|
                              st d res st' _ [IH Hc] Hret].
  - destruct (create_inv _ _ _ _ _ E) as (Hrep & Hsz & _). split.
    + exists Leaf, (nil st). split_and!; try done. constructor.
    + unfold rb_tree_create in E. destruct atr; [|done]. destruct an; [|done].
      by injection E as <-.
  - destruct (insert_step _ _ _ _ _ IH ltac:(by rewrite Hc) Hret) as (? & ? & ?).
    split; [done|congruence].
  - destruct (delete_step _ _ _ _ IH ltac:(by rewrite Hc) Hret) as (? & ? & ?).
    split; [done|congruence].
Qed.

End Reachable.

(** * Rotations as operations of their own *)

Section Links.
Context {A : Type}.
Implicit Types (t T : tree A) (k km : ctx A) (st : rb_tree_t (A:=A)).

Lemma payload_same_refl st : payload_same st st.
Proof. intros p n E. by exists n. Qed.
Lemma payload_same_trans st1 st2 st3 :
  payload_same st1 st2 → payload_same st2 st3 → payload_same st1 st3.
Proof.
  intros H1 H2 p n E. destruct (H1 p n E) as (n' & E' & Hd & Hc).
  destruct (H2 p n' E') as (n'' & E'' & Hd' & Hc'). exists n''. split; [done|].
  split; congruence.
Qed.

Lemma kp_ret {X} (x : X) : keeps_payload (mret x : M (A:=A) X).
Proof. intros st y st' [= <- <-]. apply payload_same_refl. Qed.
Lemma kp_bind {X Y} (m : M (A:=A) X) (f : X → M (A:=A) Y) :
  keeps_payload m → (∀ x, keeps_payload (f x)) → keeps_payload (m ≫= f).
Proof.
  intros Hm Hf st y st'. unfold mbind, M_bind.
  destruct (m st) as [[x st1]|] eqn:E; [|done].
  intros E'. eapply payload_same_trans; [eapply Hm|eapply Hf]; eauto.
Qed.
Lemma kp_get_nil : keeps_payload (get_nil (A:=A)).
Proof. intros st y st' [= <- <-]. apply payload_same_refl. Qed.
Lemma kp_put_root v : keeps_payload (put_root (A:=A) v).
Proof. intros st y st' [= <- <-] p n E. by exists n. Qed.
Lemma kp_load p : keeps_payload (load (A:=A) p).
Proof.
  intros st y st'. unfold load. destruct (mem st !! p); [|done].
  intros [= <- <-]. apply payload_same_refl.
Qed.
Lemma kp_get_left p : keeps_payload (get_left (A:=A) p).
Proof. apply kp_bind; [apply kp_load|intros; apply kp_ret]. Qed.
Lemma kp_get_right p : keeps_payload (get_right (A:=A) p).
Proof. apply kp_bind; [apply kp_load|intros; apply kp_ret]. Qed.
Lemma kp_get_parent p : keeps_payload (get_parent (A:=A) p).
Proof. apply kp_bind; [apply kp_load|intros; apply kp_ret]. Qed.

Lemma kp_field (f : rb_node_t (A:=A) → rb_node_t (A:=A)) p :
  (∀ n, data (f n) = data n ∧ color (f n) = color n) →
  keeps_payload (n ← load p; store p (f n)).
Proof.
  intros Hf st y st'. unfold mbind, M_bind, load, store.
  destruct (mem st !! p) as [n0|] eqn:E; [|done]. rewrite E.
  intros [= <- <-] q m Eq. simpl. destruct (decide (q = p)) as [->|Hne].
  - rewrite lookup_insert_eq. eexists. split; [done|].
    rewrite E in Eq. injection Eq as <-. apply Hf.
  - rewrite lookup_insert_ne by done. by exists m.
Qed.
Lemma kp_put_left p v : keeps_payload (put_left (A:=A) p v).
Proof. apply (kp_field (λ n, mk_node (data n) v (right n) (parent n) (color n))). done. Qed.
Lemma kp_put_right p v : keeps_payload (put_right (A:=A) p v).
Proof. apply (kp_field (λ n, mk_node (data n) (left n) v (parent n) (color n))). done. Qed.
Lemma kp_put_parent p v : keeps_payload (put_parent (A:=A) p v).
Proof. apply (kp_field (λ n, mk_node (data n) (left n) (right n) v (color n))). done. Qed.

End Links.

Ltac solve_kp :=
  repeat first
    [ apply kp_ret | apply kp_get_nil | apply kp_put_root
    | apply kp_get_left | apply kp_get_right | apply kp_get_parent
    | apply kp_put_left | apply kp_put_right | apply kp_put_parent
    | apply kp_bind; [|intros ?]
    | match goal with
      | |- keeps_payload (if decide ?P then _ else _) => destruct (decide P)
      end ].

Section Rotations.
Context {A : Type}.
Implicit Types (t T : tree A) (k km : ctx A) (st : rb_tree_t (A:=A)).

Lemma kp_left_rotate x : keeps_payload (rb_left_rotate (A:=A) x).
Proof. unfold rb_left_rotate. solve_kp. Qed.
Lemma kp_right_rotate y : keeps_payload (rb_right_rotate (A:=A) y).
Proof. unfold rb_right_rotate. solve_kp. Qed.

(** Every node of a tree is the root of the subtree in some context. *)
Lemma ptrs_focus t x :
  x ∈ ptrs t → ∃ k c l d r, t = plug k (Node c l x d r).
Proof.
  induction t as [|c l IHl p d r IHr]; simpl; [by intros ?%elem_of_nil|].
  rewrite elem_of_app, elem_of_cons. intros [Hx|[->|Hx]].
  - destruct (IHl Hx) as (k & c' & l' & d' & r' & ->).
    exists (capp k (CL c Top p d r)), c', l', d', r'. by rewrite plug_capp.
  - by exists Top, c, l, d, r.
  - destruct (IHr Hx) as (k & c' & l' & d' & r' & ->).
    exists (capp k (CR c l p d Top)), c', l', d', r'. by rewrite plug_capp.
Qed.

Lemma represents_same st st' T T' np :
  represents st T np → shape (nil st) st' T' np → same st st' → ptrs T' ≡ₚ ptrs T →
  represents st' T' np.
Proof.
  intros [_ Hdom] HS' Hsame Hperm.
  apply same_fields in Hsame as (Hnil & _ & _ & _ & _ & Hdom').
  split; [by rewrite Hnil|]. rewrite Hdom', Hdom, Hnil. f_equal.
  apply set_eq. intros y. by rewrite !elem_of_list_to_set, Hperm.
Qed.

Lemma rep_same_all h h' nl par t :
  rep h nl par t → rep h' nl par t → ∀ p, p ∈ ptrs t → h' !! p = h !! p.
Proof.
  revert par. induction t as [|c l IHl q d r IHr]; intros par; simpl.
  - intros _ _ p Hp. by apply elem_of_nil in Hp.
  - intros (E & Hl & Hr) (E' & Hl' & Hr') p.
    rewrite elem_of_app, elem_of_cons. intros [Hp|[->|Hp]].
    + by eapply IHl.
    + by rewrite E, E'.
    + by eapply IHr.
Qed.

Lemma rep_same_below h h' nl par par' t :
  rep h nl par t → rep h' nl par' t →
  ∀ p, p ∈ ptrs t → p ≠ rootp nl t → h' !! p = h !! p.
Proof.
  destruct t as [|c l q d r]; simpl.
  - intros _ _ p Hp. by apply elem_of_nil in Hp.
  - intros (_ & Hl & Hr) (_ & Hl' & Hr') p.
    rewrite elem_of_app, elem_of_cons. intros [Hp|[->|Hp]] Hne; [|done|].
    + exact (rep_same_all _ _ _ _ _ Hl Hl' p Hp).
    + exact (rep_same_all _ _ _ _ _ Hr Hr' p Hp).
Qed.

Lemma crep_same_all h h' nl k hp :
  crep h nl k hp → crep h' nl k hp → ∀ p, p ∈ cptrs k → h' !! p = h !! p.
Proof.
  revert hp. induction k as [|c up IH q d r|c l q d up IH]; intros hp; simpl.
  - intros _ _ p Hp. by apply elem_of_nil in Hp.
  - intros (E & Hr & Hup) (E' & Hr' & Hup') p.
    rewrite elem_of_cons, elem_of_app. intros [->|[Hp|Hp]].
    + by rewrite E, E'.
    + exact (rep_same_all _ _ _ _ _ Hr Hr' p Hp).
    + exact (IH _ Hup Hup' p Hp).
  - intros (E & Hl & Hup) (E' & Hl' & Hup') p.
    rewrite elem_of_cons, elem_of_app. intros [->|[Hp|Hp]].
    + by rewrite E, E'.
    + exact (rep_same_all _ _ _ _ _ Hl Hl' p Hp).
    + exact (IH _ Hup Hup' p Hp).
Qed.

Lemma crep_same_above h h' nl k hp hp' :
  crep h nl k hp → crep h' nl k hp' →
  ∀ p, p ∈ cptrs k → p ≠ cpar nl k → h' !! p = h !! p.
Proof.
  destruct k as [|c up q d r|c l q d up]; simpl.
  - intros _ _ p Hp. by apply elem_of_nil in Hp.
  - intros (_ & Hr & Hup) (_ & Hr' & Hup') p.
    rewrite elem_of_cons, elem_of_app. intros [->|[Hp|Hp]] Hne; [done|..].
    + exact (rep_same_all _ _ _ _ _ Hr Hr' p Hp).
    + exact (crep_same_all _ _ _ _ _ Hup Hup' p Hp).
  - intros (_ & Hl & Hup) (_ & Hl' & Hup') p.
    rewrite elem_of_cons, elem_of_app. intros [->|[Hp|Hp]] Hne; [done|..].
    + exact (rep_same_all _ _ _ _ _ Hl Hl' p Hp).
    + exact (crep_same_all _ _ _ _ _ Hup Hup' p Hp).
Qed.

(** Two stores that hold the tree before and after a rotation agree on
    every node outside [rotated]. *)
Lemma rotate_frame h h' nl k xc a x xd yc b y yd g :
  crep h nl k x → rep h nl (cpar nl k) (Node xc a x xd (Node yc b y yd g)) →
  crep h' nl k y → rep h' nl (cpar nl k) (Node yc (Node xc a x xd b) y yd g) →
  ∀ p, p ∈ cptrs k ++ ptrs (Node xc a x xd (Node yc b y yd g)) →
       p ∉ rotated nl k x y b → h' !! p = h !! p.
Proof.
  intros Hk (_ & Ha & (_ & Hb & Hg)) Hk' (_ & (_ & Ha' & Hb') & Hg') p Hp Hn.
  unfold rotated in Hn. rewrite !not_elem_of_cons in Hn.
  destruct Hn as (Hx & Hy & Hrb & Hpar & _).
  simpl in Hp. rewrite !elem_of_app, !elem_of_cons, elem_of_app, elem_of_cons in Hp.
  destruct Hp as [Hp|[Hp|[->|[Hp|[->|Hp]]]]]; try done.
  - exact (crep_same_above _ _ _ _ _ _ Hk Hk' p Hp Hpar).
  - exact (rep_same_all _ _ _ _ _ Ha Ha' p Hp).
  - exact (rep_same_below _ _ _ _ _ _ Hb Hb' p Hp Hrb).
  - exact (rep_same_all _ _ _ _ _ Hg Hg' p Hp).
Qed.

Lemma relinks_intro st st' k xc a x xd yc b y yd g np :
  represents st (plug k (Node xc a x xd (Node yc b y yd g))) np →
  represents st' (plug k (Node yc (Node xc a x xd b) y yd g)) np →
  same st st' → payload_same st st' → payload_same st' st →
  relinks (rotated (nil st) k x y b) st st' ∧ relinks (rotated (nil st) k x y b) st' st.
Proof.
  intros Hrep Hrep' Hsame Hpay Hpay'.
  pose proof Hrep as [HS Hdom]. pose proof Hrep' as [HS' Hdom'].
  pose proof (same_fields _ _ Hsame) as (Hnil & _ & _ & _ & _ & Hd).
  rewrite Hnil in HS', Hdom'.
  apply shape_plug in HS as (_ & _ & Hs & _ & _ & Hk & Ht).
  apply shape_plug in HS' as (_ & _ & Hs' & _ & _ & Hk' & Ht').
  assert (Hv : values (plug k (Node yc (Node xc a x xd b) y yd g)) =
               values (plug k (Node xc a x xd (Node yc b y yd g)))).
  { rewrite !values_plug. simpl. by repeat (rewrite <- app_assoc; simpl). }
  assert (Hst : stored st' ≡ₚ stored st).
  { by rewrite (represents_stored _ _ _ Hrep'), (represents_stored _ _ _ Hrep), Hv. }
  assert (Hfr : ∀ p, p ∉ rotated (nil st) k x y b → mem st' !! p = mem st !! p).
  { intros p Hp. destruct (decide (p = nil st)) as [->|Hnl]; [by rewrite Hs, Hs'|].
    destruct (decide (p ∈ cptrs k ++ ptrs (Node xc a x xd (Node yc b y yd g)))) as [Hin|Hout].
    - by eapply rotate_frame.
    - assert (p ∉ dom (mem st)) as Hnd.
      { rewrite Hdom, elem_of_union, elem_of_singleton, elem_of_list_to_set, ptrs_plug.
        tauto. }
      assert (p ∉ dom (mem st')) as Hnd' by (by rewrite Hd).
      apply not_elem_of_dom in Hnd, Hnd'. by rewrite Hnd, Hnd'. }
  split.
  - split; [done|]. split; [by rewrite Hs, Hs'|done].
  - split; [|split].
    + split; [|split; [done|by symmetry]].
      destruct Hsame as [H1 H2]. by split.
    + by rewrite Hnil, Hs, Hs'.
    + intros p Hp. symmetry. by apply Hfr.
Qed.

Lemma left_rotate_spec st T np x n :
  represents st T np → x ∈ ptrs T → mem st !! x = Some n → right n ≠ nil st →
  ∃ k xc a xd yc b yd g st',
    T = plug k (Node xc a x xd (Node yc b (right n) yd g)) ∧
    rb_left_rotate x st = Some (tt, st') ∧
    represents st' (plug k (Node yc (Node xc a x xd b) (right n) yd g)) np ∧
    relinks (rotated (nil st) k x (right n) b) st st'.
Proof.
  intros Hrep Hx En Hr. pose proof Hrep as [HS _].
  destruct (ptrs_focus _ _ Hx) as (k & c & a & d & r & ->).
  pose proof (shape_lookup _ _ _ _ _ _ _ _ _ HS) as E. rewrite E in En.
  injection En as <-. simpl in Hr.
  destruct r as [|yc b y yd g]; [done|]. cbn [right rootp].
  pose proof (wp_pres _ _ _ (pres_left_rotate x)
                (left_rotate_shape _ _ _ _ _ _ _ _ _ _ _ _ _ HS))
    as ([] & st' & Erun & HS' & Hsame).
  assert (Hp : ptrs (plug k (Node yc (Node c a x d b) y yd g)) ≡ₚ
               ptrs (plug k (Node c a x d (Node yc b y yd g)))).
  { rewrite !ptrs_plug. simpl. solve_Permutation. }
  pose proof (represents_same _ _ _ _ _ Hrep HS' Hsame Hp) as Hrep'.
  exists k, c, a, d, yc, b, yd, g, st'. split_and!; try done.
  assert (payload_same st' st) as Hback.
  { intros p n' En'. pose proof (same_fields _ _ Hsame) as (_ & _ & _ & _ & _ & Hd).
    assert (p ∈ dom (mem st)) as Hin by (rewrite <- Hd; by eapply elem_of_dom_2).
    apply elem_of_dom in Hin as [n0 En0].
    destruct (kp_left_rotate x _ _ _ Erun p n0 En0) as (n1 & En1 & Hd1 & Hc1).
    rewrite En' in En1. injection En1 as <-. by exists n0. }
  by apply (relinks_intro st st' k c a x d yc b y yd g np Hrep Hrep' Hsame
              (kp_left_rotate x _ _ _ Erun) Hback).
Qed.

Lemma right_rotate_spec st T np y n :
  represents st T np → y ∈ ptrs T → mem st !! y = Some n → left n ≠ nil st →
  ∃ k xc a xd yc b yd g st',
    T = plug k (Node yc (Node xc a (left n) xd b) y yd g) ∧
    rb_right_rotate y st = Some (tt, st') ∧
    represents st' (plug k (Node xc a (left n) xd (Node yc b y yd g))) np ∧
    relinks (rotated (nil st) k (left n) y b) st st'.
Proof.
  intros Hrep Hy En Hl. pose proof Hrep as [HS _].
  destruct (ptrs_focus _ _ Hy) as (k & yc & l & yd & g & ->).
  pose proof (shape_lookup _ _ _ _ _ _ _ _ _ HS) as E. rewrite E in En.
  injection En as <-. simpl in Hl.
  destruct l as [|c a x d b]; [done|]. cbn [left rootp].
  pose proof (wp_pres _ _ _ (pres_right_rotate y)
                (right_rotate_shape _ _ _ _ _ _ _ _ _ _ _ _ _ HS))
    as ([] & st' & Erun & HS' & Hsame).
  assert (Hp : ptrs (plug k (Node c a x d (Node yc b y yd g))) ≡ₚ
               ptrs (plug k (Node yc (Node c a x d b) y yd g))).
  { rewrite !ptrs_plug. simpl. solve_Permutation. }
  pose proof (represents_same _ _ _ _ _ Hrep HS' Hsame Hp) as Hrep'.
  exists k, c, a, d, yc, b, yd, g, st'. split_and!; try done.
  assert (payload_same st' st) as Hback.
  { intros p n' En'. pose proof (same_fields _ _ Hsame) as (_ & _ & _ & _ & _ & Hd).
    assert (p ∈ dom (mem st)) as Hin by (rewrite <- Hd; by eapply elem_of_dom_2).
    apply elem_of_dom in Hin as [n0 En0].
    destruct (kp_right_rotate y _ _ _ Erun p n0 En0) as (n1 & En1 & Hd1 & Hc1).
    rewrite En' in En1. injection En1 as <-. by exists n0. }
  pose proof (same_fields _ _ Hsame) as (Hnil & _).
  assert (same st' st) as Hsame'.
  { destruct Hsame as [H1 H2]. by split. }
  rewrite <- Hnil.
  by apply (relinks_intro st' st k c a x d yc b y yd g np Hrep' Hrep Hsame'
              Hback (kp_right_rotate y _ _ _ Erun)).
Qed.

End Rotations.

(** * Neighbours in a strictly increasing sequence *)

Section Sequence.
Context {A : Type}.
Variable cmp : A → A → Z.
Hypothesis Hto : total_order cmp.

Lemma cmp_eq_left (d v w : A) : cmp d v = 0 → Z.sgn (cmp d w) = Z.sgn (cmp v w).
Proof using Hto. apply (cmp_eq_compat _ Hto). Qed.

Lemma cmp_eq_right (d v w : A) : cmp d v = 0 → Z.sgn (cmp w d) = Z.sgn (cmp w v).
Proof using Hto.
  intros E. pose proof (cmp_antisym _ Hto w d). pose proof (cmp_antisym _ Hto w v).
  pose proof (cmp_eq_left d v w E). lia.
Qed.

Lemma sorted_distinct (l : list A) i j u v :
  sorted cmp l → i ≠ j → l !! i = Some u → l !! j = Some v → cmp u v ≠ 0.
Proof using Hto.
  intros Hs. revert i j. induction Hs as [|x l Hs IH Hx]; intros i j Hij Hi Hj.
  - by rewrite lookup_nil in Hi.
  - rewrite Forall_forall in Hx. destruct i as [|i], j as [|j]; simpl in *.
    + done.
    + injection Hi as ->. apply list_elem_of_lookup_2 in Hj.
      specialize (Hx _ Hj). unfold lt_of in Hx. lia.
    + injection Hj as ->. apply list_elem_of_lookup_2 in Hi.
      specialize (Hx _ Hi). unfold lt_of in Hx.
      pose proof (cmp_antisym _ Hto u v). lia.
    + apply (IH i j); auto.
Qed.

Lemma sorted_split_unique (d : A) (l l1 l2 l1' l2' : list A) (v v' : A) :
  sorted cmp l → l = l1 ++ v :: l2 → cmp d v = 0 →
  l = l1' ++ v' :: l2' → cmp d v' = 0 →
  l1 = l1' ∧ v = v' ∧ l2 = l2'.
Proof using Hto.
  intros Hs E Hd E' Hd'.
  assert (cmp v v' = 0) as Hvv by (pose proof (cmp_eq_left d v v' Hd); lia).
  destruct (decide (length l1 = length l1')) as [Hlen|Hlen].
  - rewrite E in E'. apply app_inj_1 in E' as [-> [= -> ->]]; done.
  - exfalso. apply (sorted_distinct l (length l1) (length l1') v v' Hs Hlen); [| |done].
    + rewrite E. apply list_lookup_middle. done.
    + rewrite E'. apply list_lookup_middle. done.
Qed.

Lemma sorted_successor (l1 l2 : list A) (v d : A) :
  sorted cmp (l1 ++ v :: l2) → cmp d v = 0 →
  match head l2 with
  | Some u => u ∈ l1 ++ v :: l2 ∧ cmp d u < 0 ∧
              ∀ w, w ∈ l1 ++ v :: l2 → cmp d w < 0 → cmp u w ≤ 0
  | None => ∀ w, w ∈ l1 ++ v :: l2 → ¬ cmp d w < 0
  end.
Proof using Hto.
  intros Hs Hd. apply sorted_app in Hs as (H12 & _ & Hs).
  apply sorted_cons in Hs as (Hv & Hs2). rewrite Forall_forall in Hv.
  assert (Hlow : ∀ w, w ∈ l1 ++ [v] → ¬ cmp d w < 0).
  { intros w [Hw|Hw%list_elem_of_singleton]%elem_of_app Hlt.
    - pose proof (H12 w v Hw ltac:(by left)). pose proof (cmp_antisym _ Hto w v).
      pose proof (cmp_eq_left d v w Hd). lia.
    - subst w. lia. }
  destruct l2 as [|u l2]; simpl.
  - intros w Hw. apply Hlow. done.
  - split; [set_solver|]. split.
    + pose proof (Hv u ltac:(by left)). pose proof (cmp_eq_left d v u Hd). lia.
    + intros w Hw Hlt.
      apply elem_of_app in Hw as [Hw|[->|Hw]%elem_of_cons];
        [exfalso; eapply Hlow; [|exact Hlt]; set_solver..|].
      apply elem_of_cons in Hw as [->|Hw].
      * rewrite (cmp_refl _ _ Hto). lia.
      * apply sorted_cons in Hs2 as [Hu _]. rewrite Forall_forall in Hu.
        specialize (Hu _ Hw). lia.
Qed.

Lemma sorted_predecessor (l1 l2 : list A) (v d : A) :
  sorted cmp (l1 ++ v :: l2) → cmp d v = 0 →
  match last l1 with
  | Some u => u ∈ l1 ++ v :: l2 ∧ cmp u d < 0 ∧
              ∀ w, w ∈ l1 ++ v :: l2 → cmp w d < 0 → cmp w u ≤ 0
  | None => ∀ w, w ∈ l1 ++ v :: l2 → ¬ cmp w d < 0
  end.
Proof using Hto.
  intros Hs Hd. apply sorted_app in Hs as (H12 & Hs1 & Hs).
  apply sorted_cons in Hs as (Hv & Hs2). rewrite Forall_forall in Hv.
  assert (Hhigh : ∀ w, w ∈ v :: l2 → ¬ cmp w d < 0).
  { intros w [->|Hw]%elem_of_cons Hlt.
    - pose proof (cmp_eq_right d v v Hd). rewrite (cmp_refl _ _ Hto) in H. lia.
    - pose proof (Hv w Hw). pose proof (cmp_antisym _ Hto w v).
      pose proof (cmp_eq_right d v w Hd). lia. }
  destruct (last l1) as [u|] eqn:El.
  - apply last_Some in El as [l1' ->]. split; [set_solver|]. split.
    + pose proof (H12 u v ltac:(set_solver) ltac:(by left)).
      pose proof (cmp_eq_right d v u Hd). lia.
    + intros w Hw Hlt. apply elem_of_app in Hw as [Hw|Hw]; [|by apply Hhigh in Hw].
      apply elem_of_app in Hw as [Hw|Hw%list_elem_of_singleton].
      * apply sorted_app in Hs1 as (Hlu & _ & _).
        pose proof (Hlu w u Hw ltac:(by left)). lia.
      * subst w. rewrite (cmp_refl _ _ Hto). lia.
  - apply last_None in El as ->. simpl. done.
Qed.

End Sequence.

Section Claims.
Context {A : Type}.
Implicit Types (t T : tree A) (k km : ctx A) (st : rb_tree_t (A:=A)).

Lemma reachable_rep cmp st :
  total_order cmp → reachable cmp st →
  compare st = cmp ∧
  ∃ T np, represents st T np ∧ rbtree T ∧ sorted cmp (values T) ∧
          size st = Z.of_nat (length (values T)) mod size_max.
Proof.
  intros Hto Hr. destruct (reachable_inv _ _ Hto Hr) as [(T & np & H) Hc].
  split; [done|]. exists T, np. by rewrite <- Hc.
Qed.

Lemma present_stored cmp st T np d :
  represents st T np →
  (∃ v, Some v ∈ stored st ∧ cmp d v = 0) ↔ present cmp d (values T).
Proof.
  intros Hrep. unfold present.
  setoid_rewrite (represents_stored _ _ _ Hrep).
  split; intros (v & Hv & E); exists v; (split; [|done]).
  - apply list_elem_of_fmap in Hv as (v' & [= ->] & Hv). done.
  - apply list_elem_of_fmap. by exists v.
Qed.

Lemma insert_sentinel st d alloc res st' :
  Inv st → total_order (compare st) →
  returns (λ fuel, rb_insert fuel (Some st) d alloc) (res, Some st') →
  nil st' = nil st ∧ mem st' !! nil st' = mem st !! nil st.
Proof.
  intros (T & np & Hrep & HT & Hsort & Hsz) Hto Hret.
  destruct d as [d|].
  2:{ apply (returns_eq _ _ (RB_ERROR, Some st)) in Hret; [|done].
      injection Hret as -> ->. done. }
  assert (match alloc with Some z => mem st !! z = None | None => True end) as Hfresh.
  { destruct alloc as [z|]; [|done]. destruct (mem st !! z) as [n|] eqn:E; [|done].
    exfalso. revert Hret. apply returns_none. intros fuel.
    by eapply insert_live_block. }
  destruct (insert_spec st T np d alloc Hrep HT Hto Hsort Hfresh)
    as (res0 & st0 & Hret0 & Hpost).
  pose proof (returns_det _ _ _ Hret Hret0) as [= -> ->].
  destruct alloc as [z|]; simpl in Hpost.
  - destruct Hpost as [(_ & _ & ->)|(_ & _ & T' & l1 & l2 & [HS' _] & _ & _ & _ &
                                     _ & Hnil' & _)]; [done|].
    split; [done|]. destruct Hrep as [HS _].
    rewrite Hnil'. rewrite Hnil' in HS'.
    by rewrite (shape_nil _ _ _ _ HS'), (shape_nil _ _ _ _ HS).
  - by destruct Hpost as [_ ->].
Qed.

Lemma delete_sentinel st d res st' :
  Inv st → total_order (compare st) →
  returns (λ fuel, rb_delete fuel (Some st) d) (res, Some st') →
  nil st' = nil st ∧
  ∃ n n', mem st !! nil st = Some n ∧ mem st' !! nil st' = Some n' ∧
          color n' = color n ∧ data n' = data n ∧
          left n' = left n ∧ right n' = right n.
Proof.
  intros HI Hto Hret.
  destruct (delete_step _ _ _ _ HI Hto Hret) as ((T' & np' & [HS' _] & _) & _ & Hnil).
  destruct HI as (T & np & [HS _] & _).
  split; [done|]. exists (sentinel (nil st) np), (sentinel (nil st) np').
  rewrite (shape_nil _ _ _ _ HS), (shape_nil _ _ _ _ HS'), Hnil. done.
Qed.

(** The operations return on every reachable tree, the allocator handing
    out a block that is not live or none at all. *)
Lemma insert_returns cmp st d alloc :
  total_order cmp → reachable cmp st →
  match alloc with Some z => mem st !! z = None | None => True end →
  ∃ res st', returns (λ fuel, rb_insert fuel (Some st) d alloc) (res, Some st').
Proof.
  intros Hto Hr Hfresh.
  destruct (reachable_rep _ _ Hto Hr) as (Hc & T & np & Hrep & HT & Hsort & _).
  subst cmp. destruct d as [d|].
  - destruct (insert_spec st T np d alloc Hrep HT Hto Hsort Hfresh)
      as (res & st' & Hret & _). by exists res, st'.
  - exists RB_ERROR, st. by exists O.
Qed.

Lemma delete_returns cmp st d :
  total_order cmp → reachable cmp st →
  ∃ res st', returns (λ fuel, rb_delete fuel (Some st) d) (res, Some st').
Proof.
  intros Hto Hr.
  destruct (reachable_rep _ _ Hto Hr) as (Hc & T & np & Hrep & HT & Hsort & _).
  subst cmp. destruct d as [d|].
  - destruct (delete_spec st T np d Hrep HT Hto Hsort) as (res & st' & Hret & _).
    by exists res, st'.
  - exists RB_ERROR, st. by exists O.
Qed.

End Claims.

(** * Trees of integers, as in the tests of the repository *)

Lemma int_compare_lt a b : int_compare a b < 0 ↔ a < b.
Proof. unfold int_compare. repeat case_bool_decide; lia. Qed.

Lemma int_compare_eq a b : int_compare a b = 0 ↔ a = b.
Proof. unfold int_compare. repeat case_bool_decide; lia. Qed.

Lemma int_compare_total : total_order int_compare.
Proof.
  split.
  - intros a b. unfold int_compare. repeat case_bool_decide; lia.
  - intros a b c. rewrite !int_compare_lt. lia.
  - intros a b c ->%int_compare_eq. done.
Qed.

Lemma created_reachable : reachable int_compare created.
Proof. by apply (reach_create int_compare false true (Some 0%nat)). Qed.

Lemma after_insert_reachable st d z :
  reachable int_compare st →
  ran (rb_insert 64 (Some st) (Some d) (Some z)) = true →
  reachable int_compare (after_insert st d z).
Proof.
  intros Hr Hran. unfold after_insert.
  destruct (rb_insert 64 (Some st) (Some d) (Some z)) as [[res [st'|]]|] eqn:E;
    try done.
  eapply reach_insert; [exact Hr|].
  eapply returns_intro; [apply insert_mono|exact E].
Qed.

Lemma after_delete_reachable st d :
  reachable int_compare st →
  ran (rb_delete 64 (Some st) (Some d)) = true →
  reachable int_compare (after_delete st d).
Proof.
  intros Hr Hran. unfold after_delete.
  destruct (rb_delete 64 (Some st) (Some d)) as [[res [st'|]]|] eqn:E; try done.
  eapply reach_delete; [exact Hr|].
  eapply returns_intro; [apply delete_mono|exact E].
Qed.

Lemma tree_5_reachable : reachable int_compare tree_5.
Proof. apply after_insert_reachable; [apply created_reachable|by vm_compute]. Qed.

Lemma tree_5_3_reachable : reachable int_compare tree_5_3.
Proof. apply after_insert_reachable; [apply tree_5_reachable|by vm_compute]. Qed.

Lemma tree_1_2_reachable : reachable int_compare tree_1_2.
Proof.
  repeat (apply after_insert_reachable; [|by vm_compute]). apply created_reachable.
Qed.

Lemma tree_2_1_3_reachable : reachable int_compare tree_2_1_3.
Proof.
  repeat (apply after_insert_reachable; [|by vm_compute]). apply created_reachable.
Qed.

Lemma tree_2_1_3_4_del_reachable : reachable int_compare tree_2_1_3_4_del.
Proof.
  apply after_delete_reachable; [|by vm_compute].
  apply after_insert_reachable; [|by vm_compute]. apply tree_2_1_3_reachable.
Qed.

Lemma tree_2_1_3_represents :
  represents tree_2_1_3
    (Node RB_BLACK (Node RB_RED Leaf 2%nat 1 Leaf) 1%nat 2 (Node RB_RED Leaf 3%nat 3 Leaf))
    0%nat.
Proof.
  split; [|by vm_compute]. unfold shape. split_and!; try by vm_compute.
  - simpl. apply NoDup_ListNoDup. repeat constructor; simpl; intuition lia.
  - assert (nil tree_2_1_3 = 0%nat) as -> by by vm_compute. simpl. set_solver.
Qed.

Lemma unordered_represents cmp :
  represents (unordered cmp) (Node RB_BLACK (Node RB_RED Leaf 2%nat 7 Leaf) 1%nat 5 Leaf)
    0%nat.
Proof.
  split; [|by vm_compute]. unfold shape. split_and!; try by vm_compute.
  - simpl. apply NoDup_ListNoDup. repeat constructor; simpl; intuition lia.
  - simpl. set_solver.
Qed.

(** * The properties of the specification *)

(** C1: after every completed [rb_insert] and [rb_delete] on a tree made by
    [rb_tree_create] with a comparison function that is a total order,
    [rb_is_valid] returns true, and the tree held by the store has a black
    root, no red node with a red child, and equal black heights in the two
    subtrees of every node. *)
Theorem valid_after_every_operation {A : Type} (cmp : A → A → Z)
    (st : rb_tree_t (A:=A)) :
  total_order cmp → reachable cmp st →
  returns (λ fuel, rb_is_valid fuel (Some st)) true ∧
  ∃ T np, represents st T np ∧ rbtree T.
Proof.
  intros Hto Hr.
  destruct (reachable_rep _ _ Hto Hr) as (_ & T & np & Hrep & HT & _).
  split; [|by exists T, np].
  exists (S (theight T)). intros fuel Hf.
  destruct Hrep as [HS _]. eapply is_valid_shape; [exact HS|exact HT|lia].
Qed.

Lemma valid_after_every_operation_witness :
  total_order int_compare ∧ reachable int_compare tree_2_1_3_4_del ∧
  returns (λ fuel, rb_is_valid fuel (Some tree_2_1_3_4_del)) true ∧
  ∃ T np, represents tree_2_1_3_4_del T np ∧ rbtree T.
Proof.
  split; [exact int_compare_total|]. split; [exact tree_2_1_3_4_del_reachable|].
  exact (valid_after_every_operation int_compare tree_2_1_3_4_del
           int_compare_total tree_2_1_3_4_del_reachable).
Defined.

(** C2: on every reachable tree [rb_inorder_walk] calls the visitor on the
    stored payloads, once for each, in a sequence that is strictly
    increasing under the comparison function; two stored payloads never
    compare equal. *)
Theorem inorder_walk_strictly_increasing {A : Type} (cmp : A → A → Z)
    (st : rb_tree_t (A:=A)) :
  total_order cmp → reachable cmp st →
  ∃ vs : list A,
    Some <$> vs ≡ₚ stored st ∧
    sorted cmp vs ∧
    (∀ i j u v, i ≠ j → vs !! i = Some u → vs !! j = Some v → cmp u v ≠ 0) ∧
    ∀ (C : Type) (visit : option A → C → C) (context : C),
      returns (λ fuel, rb_inorder_walk fuel (Some st) (Some visit) context)
              (foldl (λ acc v, visit (Some v) acc) context vs).
Proof.
  intros Hto Hr.
  destruct (reachable_rep _ _ Hto Hr) as (_ & T & np & Hrep & HT & Hsort & _).
  exists (values T). split_and!.
  - by rewrite (represents_stored _ _ _ Hrep).
  - done.
  - intros i j u v. by apply sorted_distinct.
  - intros C visit context. exists (S (theight T)). intros fuel Hf.
    destruct Hrep as [HS _]. eapply inorder_walk_shape; [exact HS|lia].
Qed.

Lemma inorder_walk_strictly_increasing_witness :
  total_order int_compare ∧ reachable int_compare tree_2_1_3 ∧
  ∃ vs : list Z,
    Some <$> vs ≡ₚ stored tree_2_1_3 ∧
    sorted int_compare vs ∧
    (∀ i j u v, i ≠ j → vs !! i = Some u → vs !! j = Some v → int_compare u v ≠ 0) ∧
    ∀ (C : Type) (visit : option Z → C → C) (context : C),
      returns (λ fuel, rb_inorder_walk fuel (Some tree_2_1_3) (Some visit) context)
              (foldl (λ acc v, visit (Some v) acc) context vs).
Proof.
  split; [exact int_compare_total|]. split; [exact tree_2_1_3_reachable|].
  exact (inorder_walk_strictly_increasing int_compare tree_2_1_3
           int_compare_total tree_2_1_3_reachable).
Defined.

(** C3: [rb_count_range] on the tree that holds 3 and 5, with bounds 1 and
    10: both payloads lie between the bounds, the function returns 3.  The
    payload 3 is counted twice, once in the descent directed by the lower
    bound and once in the descent made because the root is in range.
    [rb_walk_range] visits each of the two payloads once. *)
Theorem count_range_counts_twice :
  reachable int_compare tree_5_3 ∧
  stored tree_5_3 = [Some 3; Some 5] ∧
  returns (λ fuel, rb_count_range fuel (Some tree_5_3) (Some 1) (Some 10)) 3 ∧
  returns (λ fuel, rb_walk_range fuel (Some tree_5_3) (Some 1) (Some 10)
                     (Some (λ d acc, acc ++ [d])) [])
          [Some 3; Some 5].
Proof.
  split; [exact tree_5_3_reachable|]. split; [by vm_compute|].
  split; exists 3%nat; intros fuel Hf;
    (do 3 (destruct fuel as [|fuel]; [lia|])); by vm_compute.
Qed.

(** C4 (as stated, refuted): the tree holds 5 and 5 is inserted again, but
    the allocation of the node that [rb_insert] makes before it searches
    the tree fails: the call returns the memory error, not the code for a
    duplicate. *)
Lemma insert_present_memory_error :
  reachable int_compare tree_5 ∧
  Some 5 ∈ stored tree_5 ∧ int_compare 5 5 = 0 ∧
  returns (λ fuel, rb_insert fuel (Some tree_5) (Some 5) None)
          (RB_MEMORY_ERROR, Some tree_5) ∧
  ∀ st', ¬ returns (λ fuel, rb_insert fuel (Some tree_5) (Some 5) None)
                   (RB_DUPLICATE, st').
Proof.
  assert (returns (λ fuel, rb_insert fuel (Some tree_5) (Some 5) None)
                  (RB_MEMORY_ERROR, Some tree_5)) as Hret
    by (exists O; intros fuel _; reflexivity).
  split; [exact tree_5_reachable|]. split; [by vm_compute; left|].
  split; [done|]. split; [exact Hret|].
  intros st' Hdup. by pose proof (returns_det _ _ _ Hret Hdup).
Qed.

(** C4 (amended): on a reachable tree that holds a payload equal to [d]
    under the comparison function, [rb_insert] returns the code for a
    duplicate when the allocation of the new node succeeds and the memory
    error when it fails; in both cases the tree object is the one it
    was: size, sequence, structure, and no call of the destructor. *)
Theorem insert_present_rejected {A : Type} (cmp : A → A → Z)
    (st : rb_tree_t (A:=A)) (d : A) (alloc : option nat) :
  total_order cmp → reachable cmp st →
  (∃ v, Some v ∈ stored st ∧ cmp d v = 0) →
  match alloc with Some z => mem st !! z = None | None => True end →
  returns (λ fuel, rb_insert fuel (Some st) (Some d) alloc)
          (match alloc with Some _ => RB_DUPLICATE | None => RB_MEMORY_ERROR end,
           Some st).
Proof.
  intros Hto Hr Hp Hfresh.
  destruct (reachable_rep _ _ Hto Hr) as (Hc & T & np & Hrep & HT & Hsort & _).
  apply (present_stored _ _ _ _ _ Hrep) in Hp. subst cmp.
  destruct (insert_spec st T np d alloc Hrep HT Hto Hsort Hfresh)
    as (res & st' & Hret & Hpost).
  destruct alloc as [z|]; simpl in Hpost.
  - destruct Hpost as [(_ & -> & ->)|(Hn & _)]; [done|]. by destruct Hn.
  - by destruct Hpost as [-> ->].
Qed.

Lemma insert_present_rejected_witness :
  total_order int_compare ∧ reachable int_compare tree_5 ∧
  (∃ v, Some v ∈ stored tree_5 ∧ int_compare 5 v = 0) ∧
  mem tree_5 !! 7%nat = None ∧
  returns (λ fuel, rb_insert fuel (Some tree_5) (Some 5) (Some 7%nat))
          (RB_DUPLICATE, Some tree_5).
Proof.
  assert (∃ v, Some v ∈ stored tree_5 ∧ int_compare 5 v = 0) as Hp
    by (exists 5; split; [by vm_compute; left|done]).
  assert (mem tree_5 !! 7%nat = None) as Hz by (by vm_compute).
  split; [exact int_compare_total|]. split; [exact tree_5_reachable|].
  split; [exact Hp|]. split; [exact Hz|].
  exact (insert_present_rejected int_compare tree_5 5 (Some 7%nat)
           int_compare_total tree_5_reachable Hp Hz).
Defined.

(** C5: on a reachable tree that holds [n] payloads, [rb_height] returns
    the number of nodes on the longest path from the root down to the
    sentinel, 0 for the empty tree, and for [n >= 1] this number is at
    most [2 * floor (log2 (n + 1))]. *)
Theorem height_logarithmic {A : Type} (cmp : A → A → Z)
    (st : rb_tree_t (A:=A)) (n : nat) :
  total_order cmp → reachable cmp st → length (stored st) = n →
  ∃ T np, represents st T np ∧
    returns (λ fuel, rb_height fuel (Some st)) (Z.of_nat (theight T)) ∧
    (n = 0%nat → theight T = 0%nat) ∧
    ((1 ≤ n)%nat → Z.of_nat (theight T) ≤ 2 * Z.log2 (Z.of_nat n + 1)).
Proof.
  intros Hto Hr Hn.
  destruct (reachable_rep _ _ Hto Hr) as (_ & T & np & Hrep & HT & _).
  assert (length (values T) = n) as Hlen.
  { rewrite <- Hn, (represents_stored _ _ _ Hrep). by rewrite length_fmap. }
  exists T, np. split; [done|]. split_and!.
  - exists (S (theight T)). intros fuel Hf.
    destruct Hrep as [HS _]. eapply height_shape; [exact HS|lia].
  - intros ->. destruct T; [done|]. simpl in Hlen. rewrite length_app in Hlen.
    simpl in Hlen. lia.
  - intros _. rewrite <- Hlen. by apply rbtree_height_log.
Qed.

Lemma height_logarithmic_witness :
  total_order int_compare ∧ reachable int_compare tree_2_1_3 ∧
  length (stored tree_2_1_3) = 3%nat ∧
  ∃ T np, represents tree_2_1_3 T np ∧
    returns (λ fuel, rb_height fuel (Some tree_2_1_3)) (Z.of_nat (theight T)) ∧
    (3%nat = 0%nat → theight T = 0%nat) ∧
    ((1 ≤ 3)%nat → Z.of_nat (theight T) ≤ 2 * Z.log2 (Z.of_nat 3 + 1)).
Proof.
  assert (length (stored tree_2_1_3) = 3%nat) as Hn by (by vm_compute).
  split; [exact int_compare_total|]. split; [exact tree_2_1_3_reachable|].
  split; [exact Hn|].
  exact (height_logarithmic int_compare tree_2_1_3 3
           int_compare_total tree_2_1_3_reachable Hn).
Defined.

(** C6: on a store that holds a tree [T], [rb_left_rotate] at a node [x]
    whose right child [y] is not the sentinel returns.  With [a] the left
    subtree of [x] and [b], [g] the subtrees of [y], the store then holds
    the tree in which [y] stands at the place of [x], with [x] and [g] as
    its children and [a], [b] as the children of [x], and nothing else of
    [T] has moved: the in-order sequence of payloads and the number of nodes
    are the same.  The header of the tree object, the allocated addresses
    and the payload and colour of every node are as before, the sentinel is
    not written, and no node is written other than [x], [y], the root of [b]
    and the parent of [x].  [rb_right_rotate] at a node [y] whose left child
    [x] is not the sentinel does the converse. *)
Theorem rotations_keep_sequence {A : Type} (st : rb_tree_t (A:=A)) (T : tree A)
    (np x : nat) (n : rb_node_t (A:=A)) :
  represents st T np → x ∈ ptrs T → mem st !! x = Some n →
  (right n ≠ nil st →
   ∃ k xc a xd yc b yd g st',
     T = plug k (Node xc a x xd (Node yc b (right n) yd g)) ∧
     rb_left_rotate x st = Some (tt, st') ∧
     represents st' (plug k (Node yc (Node xc a x xd b) (right n) yd g)) np ∧
     values (plug k (Node yc (Node xc a x xd b) (right n) yd g)) = values T ∧
     length (ptrs (plug k (Node yc (Node xc a x xd b) (right n) yd g)))
       = length (ptrs T) ∧
     relinks (rotated (nil st) k x (right n) b) st st') ∧
  (left n ≠ nil st →
   ∃ k xc a xd yc b yd g st',
     T = plug k (Node yc (Node xc a (left n) xd b) x yd g) ∧
     rb_right_rotate x st = Some (tt, st') ∧
     represents st' (plug k (Node xc a (left n) xd (Node yc b x yd g))) np ∧
     values (plug k (Node xc a (left n) xd (Node yc b x yd g))) = values T ∧
     length (ptrs (plug k (Node xc a (left n) xd (Node yc b x yd g))))
       = length (ptrs T) ∧
     relinks (rotated (nil st) k (left n) x b) st st').
Proof.
  intros Hrep Hx En. split; intros Hc.
  - destruct (left_rotate_spec st T np x n Hrep Hx En Hc)
      as (k & xc & a & xd & yc & b & yd & g & st' & -> & Erun & Hrep' & Hrel).
    exists k, xc, a, xd, yc, b, yd, g, st'. split_and!; try done.
    + rewrite !values_plug. simpl. by repeat (rewrite <- app_assoc; simpl).
    + rewrite !ptrs_plug, !length_app. simpl. rewrite !length_app. simpl.
      rewrite !length_app. simpl. lia.
  - destruct (right_rotate_spec st T np x n Hrep Hx En Hc)
      as (k & xc & a & xd & yc & b & yd & g & st' & -> & Erun & Hrep' & Hrel).
    exists k, xc, a, xd, yc, b, yd, g, st'. split_and!; try done.
    + rewrite !values_plug. simpl. by repeat (rewrite <- app_assoc; simpl).
    + rewrite !ptrs_plug, !length_app. simpl. rewrite !length_app. simpl.
      rewrite !length_app. simpl. lia.
Qed.

Lemma rotations_keep_sequence_witness :
  let T := Node RB_BLACK (Node RB_RED Leaf 2%nat 1 Leaf) 1%nat 2
             (Node RB_RED Leaf 3%nat 3 Leaf) in
  let n := mk_node (Some 2) 2%nat 3%nat 0%nat RB_BLACK in
  represents tree_2_1_3 T 0%nat ∧ 1%nat ∈ ptrs T ∧ mem tree_2_1_3 !! 1%nat = Some n ∧
  (right n ≠ nil tree_2_1_3 →
   ∃ k xc a xd yc b yd g st',
     T = plug k (Node xc a 1%nat xd (Node yc b (right n) yd g)) ∧
     rb_left_rotate 1%nat tree_2_1_3 = Some (tt, st') ∧
     represents st' (plug k (Node yc (Node xc a 1%nat xd b) (right n) yd g)) 0%nat ∧
     values (plug k (Node yc (Node xc a 1%nat xd b) (right n) yd g)) = values T ∧
     length (ptrs (plug k (Node yc (Node xc a 1%nat xd b) (right n) yd g)))
       = length (ptrs T) ∧
     relinks (rotated (nil tree_2_1_3) k 1%nat (right n) b) tree_2_1_3 st') ∧
  (left n ≠ nil tree_2_1_3 →
   ∃ k xc a xd yc b yd g st',
     T = plug k (Node yc (Node xc a (left n) xd b) 1%nat yd g) ∧
     rb_right_rotate 1%nat tree_2_1_3 = Some (tt, st') ∧
     represents st' (plug k (Node xc a (left n) xd (Node yc b 1%nat yd g))) 0%nat ∧
     values (plug k (Node xc a (left n) xd (Node yc b 1%nat yd g))) = values T ∧
     length (ptrs (plug k (Node xc a (left n) xd (Node yc b 1%nat yd g))))
       = length (ptrs T) ∧
     relinks (rotated (nil tree_2_1_3) k (left n) 1%nat b) tree_2_1_3 st').
Proof.
  intros T n.
  assert (1%nat ∈ ptrs T) as Hx by (simpl; set_solver).
  assert (mem tree_2_1_3 !! 1%nat = Some n) as En by (by vm_compute).
  split; [exact tree_2_1_3_represents|]. split; [exact Hx|]. split; [exact En|].
  exact (rotations_keep_sequence tree_2_1_3 T 0%nat 1%nat n
           tree_2_1_3_represents Hx En).
Defined.

(** C7: on a reachable tree, [rb_successor] and [rb_predecessor] return no
    payload for a key that is not stored; for a stored key the successor is
    the least stored payload above the key, none when the key is the
    greatest, and the predecessor is the greatest stored payload below the
    key, none when the key is the least. *)
Theorem successor_predecessor_neighbours {A : Type} (cmp : A → A → Z)
    (st : rb_tree_t (A:=A)) (d : A) :
  total_order cmp → reachable cmp st →
  ∃ (vs : list A) (s p : option A),
    Some <$> vs ≡ₚ stored st ∧
    returns (λ fuel, rb_successor fuel (Some st) (Some d)) s ∧
    returns (λ fuel, rb_predecessor fuel (Some st) (Some d)) p ∧
    (¬ present cmp d vs → s = None ∧ p = None) ∧
    (present cmp d vs →
     match s with
     | Some u => u ∈ vs ∧ cmp d u < 0 ∧ ∀ w, w ∈ vs → cmp d w < 0 → cmp u w ≤ 0
     | None => ∀ w, w ∈ vs → ¬ cmp d w < 0
     end ∧
     match p with
     | Some u => u ∈ vs ∧ cmp u d < 0 ∧ ∀ w, w ∈ vs → cmp w d < 0 → cmp w u ≤ 0
     | None => ∀ w, w ∈ vs → ¬ cmp w d < 0
     end).
Proof.
  intros Hto Hr.
  destruct (reachable_rep _ _ Hto Hr) as (Hc & T & np & Hrep & HT & Hsort & _).
  subst cmp. pose proof Hrep as [HS _].
  destruct (successor_shape st T np d (S (theight T)) HS ltac:(lia) Hto Hsort)
    as (s & Es & Hs).
  destruct (predecessor_shape st T np d (S (theight T)) HS ltac:(lia) Hto Hsort)
    as (p & Ep & Hp).
  assert (returns (λ fuel, rb_successor fuel (Some st) (Some d)) s) as Rs.
  { exists (S (theight T)). intros fuel Hf.
    destruct (successor_shape st T np d fuel HS ltac:(lia) Hto Hsort)
      as (s' & Es' & Hs'). rewrite Es'. f_equal.
    destruct Hs as [[Hn ->]|(l1 & v & l2 & Hv & Hd & ->)],
             Hs' as [[Hn' ->]|(l1' & v' & l2' & Hv' & Hd' & ->)]; try done.
    - destruct Hn. exists v'. split; [|done]. rewrite Hv'. set_solver.
    - destruct Hn'. exists v. split; [|done]. rewrite Hv. set_solver.
    - by destruct (sorted_split_unique (compare st) Hto d (values T) l1 l2 l1' l2' v v'
                     Hsort Hv Hd Hv' Hd') as (-> & -> & ->). }
  assert (returns (λ fuel, rb_predecessor fuel (Some st) (Some d)) p) as Rp.
  { exists (S (theight T)). intros fuel Hf.
    destruct (predecessor_shape st T np d fuel HS ltac:(lia) Hto Hsort)
      as (p' & Ep' & Hp'). rewrite Ep'. f_equal.
    destruct Hp as [[Hn ->]|(l1 & v & l2 & Hv & Hd & ->)],
             Hp' as [[Hn' ->]|(l1' & v' & l2' & Hv' & Hd' & ->)]; try done.
    - destruct Hn. exists v'. split; [|done]. rewrite Hv'. set_solver.
    - destruct Hn'. exists v. split; [|done]. rewrite Hv. set_solver.
    - by destruct (sorted_split_unique (compare st) Hto d (values T) l1 l2 l1' l2' v v'
                     Hsort Hv Hd Hv' Hd') as (-> & -> & ->). }
  exists (values T), s, p. split; [by rewrite (represents_stored _ _ _ Hrep)|].
  split; [done|]. split; [done|]. split.
  - intros Hn.
    destruct Hs as [[_ ->]|(l1 & v & l2 & Hv & Hd & _)],
             Hp as [[_ ->]|(l1' & v' & l2' & Hv' & Hd' & _)]; try done;
      destruct Hn; first [exists v | exists v']; (split; [|done]);
      first [rewrite Hv | rewrite Hv']; set_solver.
  - intros Hpr.
    destruct Hs as [[Hn _]|(l1 & v & l2 & Hv & Hd & ->)]; [done|].
    destruct Hp as [[Hn _]|(l1' & v' & l2' & Hv' & Hd' & ->)]; [done|].
    split.
    + rewrite Hv in Hsort |- *. by apply sorted_successor.
    + rewrite Hv' in Hsort |- *. by apply sorted_predecessor.
Qed.

Lemma successor_predecessor_neighbours_witness :
  total_order int_compare ∧ reachable int_compare tree_2_1_3 ∧
  ∃ (vs : list Z) (s p : option Z),
    Some <$> vs ≡ₚ stored tree_2_1_3 ∧
    returns (λ fuel, rb_successor fuel (Some tree_2_1_3) (Some 2)) s ∧
    returns (λ fuel, rb_predecessor fuel (Some tree_2_1_3) (Some 2)) p ∧
    (¬ present int_compare 2 vs → s = None ∧ p = None) ∧
    (present int_compare 2 vs →
     match s with
     | Some u => u ∈ vs ∧ int_compare 2 u < 0 ∧
                 ∀ w, w ∈ vs → int_compare 2 w < 0 → int_compare u w ≤ 0
     | None => ∀ w, w ∈ vs → ¬ int_compare 2 w < 0
     end ∧
     match p with
     | Some u => u ∈ vs ∧ int_compare u 2 < 0 ∧
                 ∀ w, w ∈ vs → int_compare w 2 < 0 → int_compare w u ≤ 0
     | None => ∀ w, w ∈ vs → ¬ int_compare w 2 < 0
     end).
Proof.
  split; [exact int_compare_total|]. split; [exact tree_2_1_3_reachable|].
  exact (successor_predecessor_neighbours int_compare tree_2_1_3 2
           int_compare_total tree_2_1_3_reachable).
Defined.

(** C8 (as stated, refuted): the tree holds 1 at the root and 2 in its right
    child; [rb_delete] of 2 returns and leaves the address of the root in
    the parent field of the sentinel, which held the address of the
    sentinel before the call. *)
Lemma delete_writes_sentinel_parent :
  reachable int_compare tree_1_2 ∧
  returns (λ fuel, rb_delete fuel (Some tree_1_2) (Some 2))
          (RB_OK, Some (after_delete tree_1_2 2)) ∧
  nil (after_delete tree_1_2 2) = nil tree_1_2 ∧
  parent <$> mem tree_1_2 !! nil tree_1_2 = Some 0%nat ∧
  parent <$> mem (after_delete tree_1_2 2) !! nil tree_1_2 = Some 1%nat.
Proof.
  split; [exact tree_1_2_reachable|]. split; [|by vm_compute].
  eapply returns_intro; [apply delete_mono|]. instantiate (1 := 64%nat).
  by vm_compute.
Qed.

(** C8 (amended): on a reachable tree the sentinel is black, holds no
    payload and has itself for left and right child; a completed [rb_insert]
    leaves the sentinel node as it was, parent field included, and a
    completed [rb_delete] leaves its colour, payload, left and right fields
    as they were (its parent field may be written). *)
Theorem sentinel_fields_kept {A : Type} (cmp : A → A → Z) (st : rb_tree_t (A:=A)) :
  total_order cmp → reachable cmp st →
  (∃ n, mem st !! nil st = Some n ∧ color n = RB_BLACK ∧ data n = None ∧
        left n = nil st ∧ right n = nil st) ∧
  (∀ d alloc res st',
     returns (λ fuel, rb_insert fuel (Some st) d alloc) (res, Some st') →
     nil st' = nil st ∧ mem st' !! nil st' = mem st !! nil st) ∧
  (∀ d res st',
     returns (λ fuel, rb_delete fuel (Some st) d) (res, Some st') →
     nil st' = nil st ∧
     ∃ n n', mem st !! nil st = Some n ∧ mem st' !! nil st' = Some n' ∧
             color n' = color n ∧ data n' = data n ∧
             left n' = left n ∧ right n' = right n).
Proof.
  intros Hto Hr. destruct (reachable_inv _ _ Hto Hr) as [HI Hc]. subst cmp.
  split_and!.
  - destruct HI as (T & np & [HS _] & _). exists (sentinel (nil st) np).
    by rewrite (shape_nil _ _ _ _ HS).
  - intros d alloc res st'. by apply insert_sentinel.
  - intros d res st'. by apply delete_sentinel.
Qed.

Lemma sentinel_fields_kept_witness :
  total_order int_compare ∧ reachable int_compare tree_1_2 ∧
  (∃ n, mem tree_1_2 !! nil tree_1_2 = Some n ∧ color n = RB_BLACK ∧ data n = None ∧
        left n = nil tree_1_2 ∧ right n = nil tree_1_2) ∧
  (∀ d alloc res st',
     returns (λ fuel, rb_insert fuel (Some tree_1_2) d alloc) (res, Some st') →
     nil st' = nil tree_1_2 ∧ mem st' !! nil st' = mem tree_1_2 !! nil tree_1_2) ∧
  (∀ d res st',
     returns (λ fuel, rb_delete fuel (Some tree_1_2) d) (res, Some st') →
     nil st' = nil tree_1_2 ∧
     ∃ n n', mem tree_1_2 !! nil tree_1_2 = Some n ∧ mem st' !! nil st' = Some n' ∧
             color n' = color n ∧ data n' = data n ∧
             left n' = left n ∧ right n' = right n).
Proof.
  split; [exact int_compare_total|]. split; [exact tree_1_2_reachable|].
  exact (sentinel_fields_kept int_compare tree_1_2
           int_compare_total tree_1_2_reachable).
Defined.

(** C9: on a null tree reference the read-only functions return their
    neutral results: size 0, empty, no payload for search, minimum and
    maximum, invalid, and height -1. *)
Theorem null_tree_queries {A : Type} (fuel : nat) (d : option A) :
  rb_size (A:=A) None = 0 ∧
  rb_is_empty (A:=A) None = true ∧
  rb_search fuel None d = Some None ∧
  rb_min (A:=A) fuel None = Some None ∧
  rb_max (A:=A) fuel None = Some None ∧
  rb_is_valid (A:=A) fuel None = Some false ∧
  rb_height (A:=A) fuel None = Some (-1).
Proof. repeat split. Qed.

(** C10: [rb_is_valid] never calls the comparison function.  The store
    [unordered cmp] holds 7 in the left child of the node that holds 5, with
    a black root and a red child: the in-order sequence 7, 5 is not
    increasing, and [rb_is_valid] returns true, whatever [cmp] is. *)
Theorem is_valid_ignores_order :
  (∀ cmp : Z → Z → Z,
     returns (λ fuel, rb_is_valid fuel (Some (unordered cmp))) true) ∧
  ∃ T np, represents (unordered int_compare) T np ∧ rbtree T ∧
          values T = [7; 5] ∧ ¬ sorted int_compare (values T).
Proof.
  split.
  - intros cmp. exists 3%nat. intros fuel Hf.
    pose proof (unordered_represents cmp) as [HS _].
    eapply is_valid_shape; [exact HS| |simpl; lia]. by repeat split.
  - eexists _, _. split; [apply unordered_represents|]. split; [by repeat split|].
    split; [done|]. simpl. intros [Hlt _]%sorted_cons.
    apply Forall_cons in Hlt as [Hlt _]. by vm_compute in Hlt.
Qed.

(** * The other walks, the range walk, search, minimum and maximum *)

Ltac ro_step' :=
  first
    [ ro_step
    | lazymatch goal with
      | |- (call_compare (Some _) (Some _) ≫= _) _ = _ =>
          eapply ro_bind; [reflexivity|]; cbv beta
      end ].

Section Orders.
Context {A : Type}.
Implicit Types (t : tree A) (st : rb_tree_t (A:=A)) (cmp : A → A → Z).

Lemma preorder_perm t : preorder t ≡ₚ values t.
Proof.
  induction t as [|c l IHl p d r IHr]; simpl; [done|].
  rewrite IHl, IHr. solve_Permutation.
Qed.

Lemma postorder_perm t : postorder t ≡ₚ values t.
Proof.
  induction t as [|c l IHl p d r IHr]; simpl; [done|].
  rewrite IHl, IHr. solve_Permutation.
Qed.

Lemma foldl_collect (vs : list A) (acc : list (option A)) :
  foldl (λ acc v, collect (Some v) acc) acc vs = acc ++ (Some <$> vs).
Proof.
  revert acc; induction vs as [|v vs IH]; intros acc; simpl.
  - by rewrite app_nil_r.
  - rewrite IH. unfold collect. by rewrite <- app_assoc.
Qed.

End Orders.

Section Traversals2.
Context {A : Type}.
Implicit Types (t : tree A).

Variables (st : rb_tree_t (A:=A)) (np : nat).
Let nl := nil st.
Hypothesis Hsent : mem st !! nl = Some (sentinel nl np).

Lemma preorder_walk_node_ro {C} (visit : option A → C → C) t : ∀ par fuel context,
  rep (mem st) nl par t → nl ∉ ptrs t → (theight t < fuel)%nat →
  rb_preorder_walk_node fuel (rootp nl t) visit context st =
    Some (foldl (λ acc v, visit (Some v) acc) context (preorder t), st).
Proof using Hsent.
  induction t as [|c l IHl p d r IHr]; intros par fuel context Hrep Hnin Hf;
    (destruct fuel; [lia|]); cbn [rb_preorder_walk_node rootp].
  - by repeat ro_step.
  - simpl in Hrep, Hnin, Hf. destruct Hrep as (E & Hl & Hr).
    rewrite elem_of_app, elem_of_cons in Hnin.
    assert (p ≠ nl) by (intros ->; tauto).
    repeat ro_step.
    eapply ro_bind; [eapply IHl; [exact Hl|tauto|lia]|].
    repeat ro_step.
    rewrite (IHr p fuel); [|exact Hr|tauto|lia].
    simpl. by rewrite foldl_app.
Qed.

Lemma postorder_walk_node_ro {C} (visit : option A → C → C) t : ∀ par fuel context,
  rep (mem st) nl par t → nl ∉ ptrs t → (theight t < fuel)%nat →
  rb_postorder_walk_node fuel (rootp nl t) visit context st =
    Some (foldl (λ acc v, visit (Some v) acc) context (postorder t), st).
Proof using Hsent.
  induction t as [|c l IHl p d r IHr]; intros par fuel context Hrep Hnin Hf;
    (destruct fuel; [lia|]); cbn [rb_postorder_walk_node rootp].
  - by repeat ro_step.
  - simpl in Hrep, Hnin, Hf. destruct Hrep as (E & Hl & Hr).
    rewrite elem_of_app, elem_of_cons in Hnin.
    assert (p ≠ nl) by (intros ->; tauto).
    repeat ro_step.
    eapply ro_bind; [eapply IHl; [exact Hl|tauto|lia]|].
    repeat ro_step.
    eapply ro_bind; [eapply IHr; [exact Hr|tauto|lia]|].
    repeat ro_step.
    simpl. by rewrite !foldl_app.
Qed.

End Traversals2.

Section RangeWalk.
Context {A : Type}.
Implicit Types (t : tree A) (cmp : A → A → Z).

Lemma cmp_lt_le_trans cmp (a b c : A) :
  total_order cmp → cmp a b < 0 → cmp b c <= 0 → cmp a c < 0.
Proof.
  intros Hto Hab Hbc. destruct (decide (cmp b c = 0)) as [E|E].
  - pose proof (cmp_eq_compat _ Hto b c a E).
    pose proof (cmp_antisym _ Hto a b). pose proof (cmp_antisym _ Hto a c). lia.
  - eapply (cmp_trans _ Hto); [exact Hab|lia].
Qed.

Lemma cmp_le_lt_trans cmp (a b c : A) :
  total_order cmp → cmp a b <= 0 → cmp b c < 0 → cmp a c < 0.
Proof.
  intros Hto Hab Hbc. destruct (decide (cmp a b = 0)) as [E|E].
  - pose proof (cmp_eq_compat _ Hto a b c E). lia.
  - eapply (cmp_trans _ Hto); [|exact Hbc]. lia.
Qed.

Lemma filter_none {B} (P : B → Prop) `{∀ x, Decision (P x)} (l : list B) :
  (∀ x, x ∈ l → ¬ P x) → filter P l = [].
Proof.
  induction l as [|x l IH]; [done|]. intros Hl.
  rewrite filter_cons_False by (apply Hl; by left).
  apply IH. intros y Hy. apply Hl. by right.
Qed.

Variables (st : rb_tree_t (A:=A)) (np : nat).
Let nl := nil st.
Hypothesis Hsent : mem st !! nl = Some (sentinel nl np).
Hypothesis Hto : total_order (compare st).

Lemma walk_range_nodes_ro {C} (visit : option A → C → C) (lo hi : A) t :
  ∀ par fuel context,
  rep (mem st) nl par t → nl ∉ ptrs t → (theight t < fuel)%nat →
  sorted (compare st) (values t) →
  walk_range_nodes fuel (rootp nl t) (Some lo) (Some hi) visit context st =
    Some (foldl (λ acc v, visit (Some v) acc) context
            (filter (in_range (compare st) lo hi) (values t)), st).
Proof using Hsent Hto.
  induction t as [|c l IHl p d r IHr]; intros par fuel context Hrep Hnin Hf Hs;
    (destruct fuel; [lia|]); cbn [walk_range_nodes rootp].
  - by repeat ro_step'.
  - simpl in Hrep, Hnin, Hf, Hs. destruct Hrep as (E & Hl & Hr).
    rewrite elem_of_app, elem_of_cons in Hnin.
    assert (p ≠ nl) by (intros ->; tauto).
    apply sorted_app in Hs as (Hlr & Hsl & Hs).
    apply sorted_cons in Hs as (Hdr & Hsr). rewrite Forall_forall in Hdr.
    do 6 ro_step'.
    set (P := in_range (compare st) lo hi).
    set (f := λ (acc : C) (v : A), visit (Some v) acc).
    eapply ro_bind with (v := foldl f context (filter P (values l))).
    { destruct (decide (compare st d lo > 0)) as [Hgt|Hle].
      - ro_step'. eapply IHl; [exact Hl|tauto|lia|done].
      - rewrite (filter_none P (values l)); [done|].
        intros x Hx [Hxlo _].
        pose proof (Hlr x d Hx ltac:(by left)) as Hxd.
        pose proof (cmp_lt_le_trans _ x d lo Hto Hxd ltac:(lia)). lia. }
    eapply ro_bind with (v := foldl f context (filter P (values l ++ [d]))).
    { rewrite filter_app, foldl_app.
      destruct (decide (compare st d lo >= 0 ∧ compare st d hi <= 0)) as [Hin|Hout].
      - ro_step'. rewrite (filter_cons_True P) by done. done.
      - rewrite (filter_cons_False P) by done. done. }
    simpl values.
    replace (values l ++ d :: values r) with ((values l ++ [d]) ++ values r)
      by (by rewrite <- app_assoc).
    rewrite (filter_app P (values l ++ [d])), foldl_app.
    destruct (decide (compare st d hi < 0)) as [Hlt|Hge].
    + ro_step'. eapply IHr; [exact Hr|tauto|lia|done].
    + rewrite (filter_none P (values r)); [done|].
      intros x Hx [_ Hxhi].
      pose proof (Hdr x Hx) as Hdx. unfold lt_of in Hdx.
      pose proof (cmp_antisym _ Hto d hi). pose proof (cmp_antisym _ Hto x hi).
      assert (compare st hi d <= 0) as Hhd by lia.
      pose proof (cmp_le_lt_trans _ hi d x Hto Hhd Hdx).
      pose proof (cmp_antisym _ Hto hi x). lia.
Qed.

End RangeWalk.

Section Queries2.
Context {A : Type}.
Implicit Types (t T : tree A) (k km : ctx A) (st : rb_tree_t (A:=A)) (cmp : A → A → Z).

Lemma preorder_walk_shape {C} st T np fuel (visit : option A → C → C) context :
  shape (nil st) st T np → (theight T < fuel)%nat →
  rb_preorder_walk fuel (Some st) (Some visit) context =
    Some (foldl (λ acc v, visit (Some v) acc) context (preorder T)).
Proof.
  intros (_ & Hroot & Hs & _ & Hnin & Hrep) Hf. apply query_ro.
  ro_step. rewrite Hroot. eapply preorder_walk_node_ro; eauto.
Qed.

Lemma postorder_walk_shape {C} st T np fuel (visit : option A → C → C) context :
  shape (nil st) st T np → (theight T < fuel)%nat →
  rb_postorder_walk fuel (Some st) (Some visit) context =
    Some (foldl (λ acc v, visit (Some v) acc) context (postorder T)).
Proof.
  intros (_ & Hroot & Hs & _ & Hnin & Hrep) Hf. apply query_ro.
  ro_step. rewrite Hroot. eapply postorder_walk_node_ro; eauto.
Qed.

Lemma walk_range_shape {C} st T np fuel (visit : option A → C → C) context lo hi :
  shape (nil st) st T np → (theight T < fuel)%nat →
  total_order (compare st) → sorted (compare st) (values T) →
  rb_walk_range fuel (Some st) (Some lo) (Some hi) (Some visit) context =
    Some (foldl (λ acc v, visit (Some v) acc) context
            (filter (in_range (compare st) lo hi) (values T))).
Proof.
  intros (_ & Hroot & Hs & _ & Hnin & Hrep) Hf Hto Hsort. apply query_ro.
  rewrite decide_False by (intros [?|?]; done).
  ro_step. rewrite Hroot. eapply walk_range_nodes_ro; eauto.
Qed.

(** In a strictly increasing list the payload equal to [d] is the one
    [find_eq] returns. *)
Lemma find_eq_absent cmp (d : A) l : ¬ present cmp d l → find_eq cmp d l = None.
Proof.
  induction l as [|v l IH]; [done|]. intros Hn. simpl.
  rewrite decide_False.
  - apply IH. intros (u & Hu & E). apply Hn. exists u. split; [by right|done].
  - intros E. apply Hn. exists v. split; [by left|done].
Qed.

Lemma find_eq_sorted cmp (d v : A) l1 l2 :
  total_order cmp → sorted cmp (l1 ++ v :: l2) → cmp d v = 0 →
  find_eq cmp d (l1 ++ v :: l2) = Some v.
Proof.
  intros Hto Hs Hd. apply sorted_app in Hs as (H12 & _ & _).
  induction l1 as [|x l1 IH]; simpl.
  - by rewrite decide_True.
  - rewrite decide_False.
    + apply IH. intros x1 x2 Hx1 Hx2. apply H12; [by right|done].
    + intros E. pose proof (H12 x v ltac:(by left) ltac:(by left)) as Hxv.
      pose proof (cmp_eq_compat _ Hto d x v E). lia.
Qed.

Lemma find_eq_Some cmp (d v : A) l : find_eq cmp d l = Some v → v ∈ l ∧ cmp d v = 0.
Proof.
  induction l as [|x l IH]; [done|]. simpl. destruct (decide _) as [E|E].
  - intros [= ->]. split; [by left|done].
  - intros Hf. destruct (IH Hf). split; [by right|done].
Qed.

Lemma find_eq_None cmp (d : A) l : find_eq cmp d l = None → ¬ present cmp d l.
Proof.
  induction l as [|x l IH]; simpl.
  - intros _ (v & Hv & _). by apply elem_of_nil in Hv.
  - destruct (decide _) as [E|E]; [done|]. intros Hf (v & [->|Hv]%elem_of_cons & Ev).
    + done.
    + apply (IH Hf). by exists v.
Qed.

Lemma search_shape st T np d fuel :
  shape (nil st) st T np → (theight T < fuel)%nat →
  total_order (compare st) → sorted (compare st) (values T) →
  rb_search fuel (Some st) (Some d) = Some (find_eq (compare st) d (values T)).
Proof.
  intros HS Hf Hto Hsort.
  enough (∃ res, rb_search fuel (Some st) (Some d) = Some res ∧
                 res = find_eq (compare st) d (values T)) as (res & E & ->) by done.
  unfold rb_search. apply wp_query.
  destruct (decide (Some d = None)); [done|].
  apply wp_bind. unfold rb_find_node. repeat sh_step.
  eapply wp_mono; [eapply find_shape with (k := Top) (t := T); [lia|exact HS|done]|].
  cbv beta. intros z st1 [-> [[-> (k & Hk & Hpath)]|(k & zc & l & v & r & E & Hcmp)]].
  - repeat sh_step. symmetry. apply find_eq_absent. simpl in Hk. subst T.
    rewrite values_plug in Hsort |- *. simpl in *. by apply path_absent.
  - simpl in E. subst T.
    assert (Hv : values (plug k (Node zc l z v r)) =
                 (vbefore k ++ values l) ++ v :: (values r ++ vafter k))
      by (rewrite values_plug; simpl; by repeat (rewrite <- app_assoc; simpl)).
    rewrite Hv in Hsort |- *. sh_facts HS. repeat sh_step.
    symmetry. by apply find_eq_sorted.
Qed.

Lemma min_shape st T np fuel :
  shape (nil st) st T np → (theight T < fuel)%nat →
  rb_min fuel (Some st) = Some (head (values T)).
Proof.
  intros HS Hf.
  enough (∃ res, rb_min fuel (Some st) = Some res ∧ res = head (values T))
    as (res & E & ->) by done.
  unfold rb_min. apply wp_query.
  destruct T as [|c l p v r].
  - repeat sh_step. done.
  - change (Node c l p v r) with (plug Top (Node c l p v r)) in HS.
    sh_facts HS. repeat sh_step.
    eapply wp_mono; [eapply minimum_tree; [|exact HS]; simpl in Hf; lia|].
    cbv beta. intros y st' (-> & km & yc & yv & yr & Hsp & Er).
    assert (Hh : head (values (Node c l p v r)) = Some yv)
      by (rewrite Er, values_plug, (left_spine_vbefore _ Hsp); done).
    simpl in HS. rewrite Er in HS.
    eapply wp_get_data; [eapply shape_lookup; exact HS|].
    simpl in Hh |- *. by rewrite Hh.
Qed.

Lemma max_shape st T np fuel :
  shape (nil st) st T np → (theight T < fuel)%nat →
  rb_max fuel (Some st) = Some (last (values T)).
Proof.
  intros HS Hf.
  enough (∃ res, rb_max fuel (Some st) = Some res ∧ res = last (values T))
    as (res & E & ->) by done.
  unfold rb_max. apply wp_query.
  destruct T as [|c l p v r].
  - repeat sh_step. done.
  - change (Node c l p v r) with (plug Top (Node c l p v r)) in HS.
    sh_facts HS. repeat sh_step.
    eapply wp_mono; [eapply maximum_tree; [|exact HS]; simpl in Hf; lia|].
    cbv beta. intros y st' (-> & km & yc & yl & yv & Hsp & Er).
    assert (Hh : last (values (Node c l p v r)) = Some yv).
    { rewrite Er, values_plug, (right_spine_vafter _ Hsp). simpl.
      rewrite app_nil_r, !app_assoc. by rewrite last_snoc. }
    simpl in HS. rewrite Er in HS.
    eapply wp_get_data; [eapply shape_lookup; exact HS|].
    simpl in Hh |- *. by rewrite Hh.
Qed.

End Queries2.

(** * What a caller observes on a reachable tree *)

Section Observe.
Context {A : Type}.
Implicit Types (t T : tree A) (st : rb_tree_t (A:=A)) (cmp : A → A → Z).

Lemma shape_yields st T np : shape (nil st) st T np → walk_yields st (values T).
Proof.
  intros HS. exists (S (theight T)). intros fuel Hf.
  rewrite (inorder_walk_shape st T np fuel collect [] HS) by lia.
  by rewrite foldl_collect.
Qed.

Lemma yields_values st T np vs :
  shape (nil st) st T np → walk_yields st vs → vs = values T.
Proof.
  intros HS Hy. pose proof (returns_det _ _ _ Hy (shape_yields _ _ _ HS)) as E.
  by apply (inj (fmap Some)) in E.
Qed.

Lemma yields_det st vs vs' : walk_yields st vs → walk_yields st vs' → vs = vs'.
Proof.
  intros H1 H2. pose proof (returns_det _ _ _ H1 H2) as E.
  by apply (inj (fmap Some)) in E.
Qed.

(** A reachable tree, seen through its in-order walk. *)
Lemma reachable_yields cmp st vs :
  total_order cmp → reachable cmp st → walk_yields st vs →
  compare st = cmp ∧
  ∃ T np, represents st T np ∧ rbtree T ∧ vs = values T ∧ sorted cmp vs ∧
          size st = Z.of_nat (length vs) mod size_max.
Proof.
  intros Hto Hr Hy.
  destruct (reachable_rep _ _ Hto Hr) as (Hc & T & np & Hrep & HT & Hsort & Hsz).
  split; [done|]. exists T, np. pose proof Hrep as [HS _].
  rewrite (yields_values _ _ _ _ HS Hy). done.
Qed.

Lemma reachable_walks cmp st :
  total_order cmp → reachable cmp st → ∃ vs, walk_yields st vs.
Proof.
  intros Hto Hr.
  destruct (reachable_rep _ _ Hto Hr) as (_ & T & np & [HS _] & _).
  exists (values T). by eapply shape_yields.
Qed.

Lemma find_eq_skip cmp (e d : A) l1 l2 :
  cmp e d ≠ 0 → find_eq cmp e (l1 ++ d :: l2) = find_eq cmp e (l1 ++ l2).
Proof.
  intros Hne. induction l1 as [|x l1 IH]; simpl.
  - by rewrite decide_False.
  - by rewrite IH.
Qed.

Lemma present_find_eq cmp (d : A) l :
  present cmp d l ↔ ∃ v, find_eq cmp d l = Some v.
Proof.
  split.
  - intros Hp. destruct (find_eq cmp d l) as [v|] eqn:E; [by exists v|].
    by apply find_eq_None in E.
  - intros [v (Hv & E)%find_eq_Some]. by exists v.
Qed.

End Observe.

(** * Payloads stay in their nodes *)

Section Data.
Context {A : Type}.
Implicit Types (st : rb_tree_t (A:=A)).

Lemma data_same_refl st : data_same st st.
Proof. intros p n E. by exists n. Qed.
Lemma data_same_trans st1 st2 st3 :
  data_same st1 st2 → data_same st2 st3 → data_same st1 st3.
Proof.
  intros H1 H2 p n E. destruct (H1 p n E) as (n' & E' & Hd).
  destruct (H2 p n' E') as (n'' & E'' & Hd'). exists n''. split; [done|]. congruence.
Qed.

Lemma bind_inv {X Y} (m : M (A:=A) X) (f : X → M (A:=A) Y) st r :
  (m ≫= f) st = Some r → ∃ x st1, m st = Some (x, st1) ∧ f x st1 = Some r.
Proof.
  unfold mbind, M_bind. destruct (m st) as [[x st1]|]; [|done]. intros E. by exists x, st1.
Qed.

Lemma reads_ret {X} (x : X) : reads (mret x : M (A:=A) X).
Proof. by intros st y st' [= <- <-]. Qed.
Lemma reads_fail {X} : reads (fail : M (A:=A) X).
Proof. by intros st y st'. Qed.
Lemma reads_bind {X Y} (m : M (A:=A) X) (f : X → M (A:=A) Y) :
  reads m → (∀ x, reads (f x)) → reads (m ≫= f).
Proof.
  intros Hm Hf st y st' (x & st1 & E1 & E2)%bind_inv.
  apply Hm in E1 as ->. by apply Hf in E2.
Qed.
Lemma reads_get_nil : reads (get_nil (A:=A)).
Proof. by intros st y st' [= <- <-]. Qed.
Lemma reads_get_root : reads (get_root (A:=A)).
Proof. by intros st y st' [= <- <-]. Qed.
Lemma reads_load p : reads (load (A:=A) p).
Proof. intros st y st'. unfold load. destruct (mem st !! p); [|done]. by intros [= <- <-]. Qed.
Lemma reads_get_data p : reads (get_data (A:=A) p).
Proof. apply reads_bind; [apply reads_load|intros; apply reads_ret]. Qed.
Lemma reads_get_left p : reads (get_left (A:=A) p).
Proof. apply reads_bind; [apply reads_load|intros; apply reads_ret]. Qed.
Lemma reads_get_right p : reads (get_right (A:=A) p).
Proof. apply reads_bind; [apply reads_load|intros; apply reads_ret]. Qed.
Lemma reads_get_parent p : reads (get_parent (A:=A) p).
Proof. apply reads_bind; [apply reads_load|intros; apply reads_ret]. Qed.
Lemma reads_get_color p : reads (get_color (A:=A) p).
Proof. apply reads_bind; [apply reads_load|intros; apply reads_ret]. Qed.
Lemma reads_call_compare a b : reads (call_compare (A:=A) a b).
Proof. intros st y st'. unfold call_compare. destruct a, b; try done. by intros [= <- <-]. Qed.
Lemma reads_get_size : reads (get_size (A:=A)).
Proof. by intros st y st' [= <- <-]. Qed.
Lemma reads_get_free_data : reads (get_free_data (A:=A)).
Proof. by intros st y st' [= <- <-]. Qed.

Lemma reads_pres {X} (m : M (A:=A) X) : reads m → pres m.
Proof. intros H st x st' E. apply H in E as ->. apply same_refl. Qed.
Lemma reads_keeps_data {X} (m : M (A:=A) X) : reads m → keeps_data m.
Proof. intros H st x st' E. apply H in E as ->. apply data_same_refl. Qed.

Lemma kd_ret {X} (x : X) : keeps_data (mret x : M (A:=A) X).
Proof. apply reads_keeps_data, reads_ret. Qed.
Lemma kd_fail {X} : keeps_data (fail : M (A:=A) X).
Proof. apply reads_keeps_data, reads_fail. Qed.
Lemma kd_bind {X Y} (m : M (A:=A) X) (f : X → M (A:=A) Y) :
  keeps_data m → (∀ x, keeps_data (f x)) → keeps_data (m ≫= f).
Proof.
  intros Hm Hf st y st' (x & st1 & E1 & E2)%bind_inv.
  eapply data_same_trans; [eapply Hm|eapply Hf]; eauto.
Qed.
Lemma kd_put_root v : keeps_data (put_root (A:=A) v).
Proof. intros st y st' [= <- <-] p n E. by exists n. Qed.
Lemma kd_field (f : rb_node_t (A:=A) → rb_node_t (A:=A)) p :
  (∀ n, data (f n) = data n) → keeps_data (n ← load p; store p (f n)).
Proof.
  intros Hf st y st' (n0 & st1 & E1 & E2)%bind_inv.
  unfold load in E1. destruct (mem st !! p) as [n1|] eqn:E; [|done].
  injection E1 as <- <-. unfold store in E2. rewrite E in E2. injection E2 as <- <-.
  intros q m Eq. simpl. destruct (decide (q = p)) as [->|Hne].
  - rewrite lookup_insert_eq. eexists. split; [done|].
    rewrite E in Eq. injection Eq as <-. apply Hf.
  - rewrite lookup_insert_ne by done. by exists m.
Qed.
Lemma kd_put_left p v : keeps_data (put_left (A:=A) p v).
Proof. apply (kd_field (λ n, mk_node (data n) v (right n) (parent n) (color n))). done. Qed.
Lemma kd_put_right p v : keeps_data (put_right (A:=A) p v).
Proof. apply (kd_field (λ n, mk_node (data n) (left n) v (parent n) (color n))). done. Qed.
Lemma kd_put_parent p v : keeps_data (put_parent (A:=A) p v).
Proof. apply (kd_field (λ n, mk_node (data n) (left n) (right n) v (color n))). done. Qed.
Lemma kd_put_color p v : keeps_data (put_color (A:=A) p v).
Proof. apply (kd_field (λ n, mk_node (data n) (left n) (right n) (parent n) v)). done. Qed.

End Data.

Ltac solve_reads :=
  repeat first
    [ assumption
    | apply reads_ret | apply reads_fail | apply reads_get_nil | apply reads_get_root
    | apply reads_get_data | apply reads_get_left | apply reads_get_right
    | apply reads_get_parent | apply reads_get_color | apply reads_call_compare
    | apply reads_get_size | apply reads_get_free_data
    | apply reads_bind; [|intros ?]
    | match goal with
      | |- reads (if decide ?P then _ else _) => destruct (decide P)
      | |- reads (if ?b then _ else _) => destruct b
      | |- reads (match ?b with _ => _ end) => destruct b
      end ].

Ltac solve_kd :=
  repeat first
    [ assumption
    | apply kd_ret | apply kd_fail | apply kd_put_root
    | apply kd_put_left | apply kd_put_right | apply kd_put_parent | apply kd_put_color
    | apply reads_keeps_data;
      first [ apply reads_get_nil | apply reads_get_root
            | apply reads_get_data | apply reads_get_left | apply reads_get_right
            | apply reads_get_parent | apply reads_get_color | apply reads_call_compare
            | apply reads_get_size | apply reads_get_free_data ]
    | apply kd_bind; [|intros ?]
    | match goal with
      | |- keeps_data (if decide ?P then _ else _) => destruct (decide P)
      | |- keeps_data (if ?b then _ else _) => destruct b
      | |- keeps_data (match ?b with _ => _ end) => destruct b
      end ].

Section Data2.
Context {A : Type}.
Implicit Types (st : rb_tree_t (A:=A)).

Lemma reads_find_node_from d : ∀ fuel x, reads (rb_find_node_from (A:=A) fuel d x).
Proof. induction fuel as [|fuel IH]; intros x; simpl; solve_reads; apply IH. Qed.
Lemma reads_insert_descent d : ∀ fuel y x, reads (rb_insert_descent (A:=A) fuel d y x).
Proof. induction fuel as [|fuel IH]; intros y x; simpl; solve_reads; apply IH. Qed.
Lemma reads_minimum_node : ∀ fuel x, reads (rb_tree_minimum_node (A:=A) fuel x).
Proof. induction fuel as [|fuel IH]; intros x; simpl; solve_reads; apply IH. Qed.
Lemma reads_maximum_node : ∀ fuel x, reads (rb_tree_maximum_node (A:=A) fuel x).
Proof. induction fuel as [|fuel IH]; intros x; simpl; solve_reads; apply IH. Qed.

Lemma kd_left_rotate x : keeps_data (rb_left_rotate (A:=A) x).
Proof. unfold rb_left_rotate. solve_kd. Qed.
Lemma kd_right_rotate x : keeps_data (rb_right_rotate (A:=A) x).
Proof. unfold rb_right_rotate. solve_kd. Qed.
Lemma kd_transplant u v : keeps_data (rb_transplant (A:=A) u v).
Proof. unfold rb_transplant. solve_kd. Qed.
Lemma kd_insert_fixup : ∀ fuel z, keeps_data (rb_insert_fixup (A:=A) fuel z).
Proof.
  induction fuel as [|fuel IH]; intros z; simpl; [apply kd_fail|].
  pose proof kd_left_rotate. pose proof kd_right_rotate.
  solve_kd; try apply IH; auto.
Qed.
Lemma kd_delete_fixup : ∀ fuel x, keeps_data (rb_delete_fixup (A:=A) fuel x).
Proof.
  induction fuel as [|fuel IH]; intros x; simpl; [apply kd_fail|].
  pose proof kd_left_rotate. pose proof kd_right_rotate.
  solve_kd; try apply IH; auto.
Qed.

End Data2.

Section Traces.
Context {A : Type}.
Implicit Types (st : rb_tree_t (A:=A)).

Lemma load_inv st p n st' : load p st = Some (n, st') → mem st !! p = Some n ∧ st' = st.
Proof. unfold load. destruct (mem st !! p); [|done]. by intros [= <- <-]. Qed.

Lemma free_inv st p x st' :
  free p st = Some (x, st') →
  is_Some (mem st !! p) ∧ st' = set_mem (delete p (mem st)) st.
Proof. unfold free. destruct (mem st !! p); [|done]. intros [= <- <-]. eauto. Qed.

Lemma get_data_inv st p d st' :
  get_data p st = Some (d, st') → ∃ n, mem st !! p = Some n ∧ d = data n ∧ st' = st.
Proof.
  intros (n & st1 & [E ->]%load_inv & [= <- <-])%bind_inv. by exists n.
Qed.

(** [rb_node_destroy] on a node other than the sentinel: the destructor, when
    there is one, receives the payload of the node, and the node is freed. *)
Lemma node_destroy_inv st z x st' :
  rb_node_destroy z st = Some (x, st') → z ≠ nil st →
  ∃ n, mem st !! z = Some n ∧
       st' = set_mem (delete z (mem st))
               (set_destroyed (destroyed st ++ (if free_data st then [data n] else [])) st).
Proof.
  intros E Hz. unfold rb_node_destroy in E.
  apply bind_inv in E as (nl & st1 & [= <- <-] & E).
  rewrite decide_True in E by done.
  apply bind_inv in E as (fd & st1 & [= <- <-] & E).
  apply bind_inv in E as ([] & st1 & E1 & E).
  apply free_inv in E as [[n En] ->].
  destruct (free_data st) eqn:Efd.
  - apply bind_inv in E1 as (d & st2 & (n' & En' & -> & ->)%get_data_inv & [= <-]).
    simpl in En. rewrite En' in En. injection En as ->.
    exists n. split; [done|]. reflexivity.
  - injection E1 as <-. exists n. split; [done|]. rewrite app_nil_r.
    by destruct st.
Qed.

(** [rb_find_node] returns the sentinel or a node whose payload compares
    equal to the key. *)
Lemma find_node_from_inv d : ∀ fuel x st z st',
  rb_find_node_from fuel (Some d) x st = Some (z, st') →
  st' = st ∧
  (z = nil st ∨ ∃ n v, mem st !! z = Some n ∧ data n = Some v ∧ compare st d v = 0).
Proof.
  induction fuel as [|fuel IH]; intros x st z st' E; [done|]. simpl in E.
  apply bind_inv in E as (nl & st1 & [= <- <-] & E).
  destruct (decide (x ≠ nil st)) as [Hx|Hx].
  - apply bind_inv in E as (xd & st1 & (n & En & -> & ->)%get_data_inv & E).
    apply bind_inv in E as (c & st1 & Ec & E).
    unfold call_compare in Ec. destruct (data n) as [v|] eqn:Ed; [|done].
    injection Ec as <- <-.
    destruct (decide (compare st d v < 0)).
    { apply bind_inv in E as (xl & st1 & E1 & E).
      apply reads_get_left in E1 as ->. exact (IH _ _ _ _ E). }
    destruct (decide (compare st d v > 0)).
    { apply bind_inv in E as (xr & st1 & E1 & E).
      apply reads_get_right in E1 as ->. exact (IH _ _ _ _ E). }
    injection E as <- <-. split; [done|]. right. exists n, v. split_and!; first [done | lia].
  - injection E as <- <-. split; [done|]. by left.
Qed.

End Traces.

Section Traces2.
Context {A : Type}.
Implicit Types (st : rb_tree_t (A:=A)).

Lemma pres_minimum_node fuel x : pres (rb_tree_minimum_node (A:=A) fuel x).
Proof. apply reads_pres, reads_minimum_node. Qed.
Lemma kd_minimum_node fuel x : keeps_data (rb_tree_minimum_node (A:=A) fuel x).
Proof. apply reads_keeps_data, reads_minimum_node. Qed.

Lemma data_same_lookup st st' p :
  same st st' → data_same st st' →
  data <$> (mem st' !! p) = data <$> (mem st !! p).
Proof.
  intros Hs Hd. apply same_fields in Hs as (_ & _ & _ & _ & _ & Hdom).
  destruct (mem st !! p) as [n|] eqn:E.
  - destruct (Hd p n E) as (n' & -> & Hn). simpl. by rewrite Hn.
  - apply not_elem_of_dom in E. rewrite <- Hdom in E.
    apply not_elem_of_dom in E. by rewrite E.
Qed.

(** What a call of [rb_delete] that returns has done, on any tree object. *)
Lemma delete_trace fuel st d res st' :
  rb_delete fuel (Some st) (Some d) = Some (res, Some st') →
  (res = RB_NOT_FOUND ∧ st' = st) ∨
  (res = RB_OK ∧ ∃ z n v,
     z ≠ nil st ∧ mem st !! z = Some n ∧ data n = Some v ∧ compare st d v = 0 ∧
     mem st' !! z = None ∧
     (∀ p, p ≠ z → data <$> (mem st' !! p) = data <$> (mem st !! p)) ∧
     destroyed st' = destroyed st ++ (if free_data st then [Some v] else []) ∧
     nil st' = nil st ∧ compare st' = compare st ∧ free_data st' = free_data st).
Proof.
  unfold rb_delete, on_tree. rewrite decide_False by done.
  match goal with |- match ?m st with _ => _ end = _ → _ =>
    destruct (m st) as [[x st'']|] eqn:E; [|done] end.
  intros [= -> ->].
  apply bind_inv in E as (z & st1 & Ef & E).
  unfold rb_find_node in Ef. apply bind_inv in Ef as (r & st0 & [= <- <-] & Ef).
  apply find_node_from_inv in Ef as [-> Hz].
  apply bind_inv in E as (nl & st1 & [= <- <-] & E).
  destruct (decide (z = nil st)) as [Hnil|Hnil].
  { injection E as <- <-. by left. }
  destruct Hz as [Hz|(n & v & En & Ed & Ec)]; [done|]. right.
  apply bind_inv in E as (yc & st1 & E1 & E). apply reads_get_color in E1 as ->.
  apply bind_inv in E as (zl & st1 & E1 & E). apply reads_get_left in E1 as ->.
  apply bind_inv in E as (xc & st1 & E1 & E).
  assert (same st st1 ∧ data_same st st1) as [Hs1 Hd1].
  { match type of E1 with ?m _ = _ => assert (pres m ∧ keeps_data m) as [Hp Hk] end.
    { pose proof (pres_transplant (A:=A)). pose proof (pres_minimum_node).
      pose proof (kd_transplant (A:=A)). pose proof (kd_minimum_node).
      split; [solve_pres; auto|solve_kd; auto]. }
    split; [by eapply Hp|by eapply Hk]. }
  apply bind_inv in E as ([] & st2 & E2 & E).
  assert (same st1 st2 ∧ data_same st1 st2) as [Hs2 Hd2].
  { destruct (decide (xc.2 = RB_BLACK)).
    - split; [by eapply pres_delete_fixup|by eapply kd_delete_fixup].
    - injection E2 as <-. split; [apply same_refl|apply data_same_refl]. }
  pose proof (same_trans _ _ _ Hs1 Hs2) as Hs.
  pose proof (data_same_trans _ _ _ Hd1 Hd2) as Hd.
  apply same_fields in Hs as (Hnil2 & Hsz2 & Hcmp2 & Hfd2 & Hds2 & Hdom2).
  apply bind_inv in E as ([] & st3 & E3 & E).
  apply node_destroy_inv in E3 as (n2 & En2 & ->); [|by rewrite Hnil2].
  apply bind_inv in E as (sz & st4 & [= <- <-] & E).
  apply bind_inv in E as ([] & st4 & [= <-] & [= <- <-]).
  destruct (Hd z n En) as (n2' & En2' & Hdata). rewrite En2 in En2'. injection En2' as <-.
  split; [done|]. exists z, n, v. simpl. split_and!; try done.
  - apply lookup_delete_eq.
  - intros p Hp. rewrite lookup_delete_ne by done.
    apply data_same_lookup; [|done]. by eapply same_trans.
  - by rewrite Hds2, Hfd2, Hdata, Ed.
Qed.

End Traces2.

Section Traces3.
Context {A : Type}.
Implicit Types (st : rb_tree_t (A:=A)).

Lemma pres_call_compare a b : pres (call_compare (A:=A) a b).
Proof. apply reads_pres, reads_call_compare. Qed.

(** What a call of [rb_insert] that returns has done, on any tree object. *)
Lemma insert_trace fuel st d alloc res st' :
  rb_insert fuel (Some st) (Some d) alloc = Some (res, Some st') →
  (res = RB_MEMORY_ERROR ∧ alloc = None ∧ st' = st) ∨
  (res = RB_DUPLICATE ∧ st' = st ∧ ∃ z, alloc = Some z ∧ mem st !! z = None) ∨
  (res = RB_OK ∧ ∃ z n,
     alloc = Some z ∧ mem st !! z = None ∧
     mem st' !! z = Some n ∧ data n = Some d ∧
     dom (mem st') = {[z]} ∪ dom (mem st) ∧
     (∀ p, p ≠ z → data <$> (mem st' !! p) = data <$> (mem st !! p)) ∧
     destroyed st' = destroyed st ∧
     nil st' = nil st ∧ compare st' = compare st ∧ free_data st' = free_data st ∧
     size st' = (size st + 1) mod size_max).
Proof.
  unfold rb_insert, on_tree. rewrite decide_False by done.
  match goal with |- match ?m st with _ => _ end = _ → _ =>
    destruct (m st) as [[x st'']|] eqn:E; [|done] end.
  intros [= -> ->].
  apply bind_inv in E as (z' & st1 & Ec & E).
  unfold rb_node_create in Ec. apply bind_inv in Ec as (nl & st0 & [= <- <-] & Ec).
  unfold malloc in Ec. destruct alloc as [z|].
  2:{ injection Ec as <- <-. injection E as <- <-. by left. }
  destruct (mem st !! z) as [?|] eqn:Ez; [done|]. injection Ec as <- <-.
  right.
  set (init := mk_node (Some d) (nil st) (nil st) (nil st) RB_RED) in *.
  set (st1 := set_mem (<[z:=init]> (mem st)) st) in *.
  apply bind_inv in E as (nl & st2 & [= <- <-] & E).
  apply bind_inv in E as (r & st2 & [= <- <-] & E).
  apply bind_inv in E as (y & st2 & Ed & E).
  apply reads_insert_descent in Ed as ->.
  destruct y as [y|].
  2:{ apply bind_inv in E as ([] & st2 & [_ ->]%free_inv & [= <- <-]).
      left. split; [done|]. split; [|by exists z].
      subst st1. simpl. rewrite delete_insert_id by done. by destruct st. }
  right.
  apply bind_inv in E as ([] & st2 & E1 & E).
  apply bind_inv in E as (nl & st3 & [= <- <-] & E).
  apply bind_inv in E as ([] & st3 & E2 & E).
  apply bind_inv in E as ([] & st4 & E3 & E).
  apply bind_inv in E as (sz & st5 & [= <- <-] & E).
  apply bind_inv in E as ([] & st5 & [= <-] & [= <- <-]).
  assert (same st1 st4 ∧ data_same st1 st4) as [Hs Hd].
  { assert (same st1 st2 ∧ data_same st1 st2) as [Hs2 Hd2]
      by (split; [by eapply pres_put_parent|by eapply kd_put_parent]).
    assert (same st2 st3 ∧ data_same st2 st3) as [Hs3 Hd3].
    { match type of E2 with ?m _ = _ => assert (pres m ∧ keeps_data m) as [Hp Hk] end.
      { pose proof (pres_call_compare).
        split; [solve_pres; auto|solve_kd; auto]. }
      split; [by eapply Hp|by eapply Hk]. }
    assert (same st3 st4 ∧ data_same st3 st4) as [Hs4 Hd4]
      by (split; [by eapply pres_insert_fixup|by eapply kd_insert_fixup]).
    split; [exact (same_trans _ _ _ Hs2 (same_trans _ _ _ Hs3 Hs4))
           |exact (data_same_trans _ _ _ Hd2 (data_same_trans _ _ _ Hd3 Hd4))]. }
  pose proof (same_fields _ _ Hs) as (Hnil2 & Hsz2 & Hcmp2 & Hfd2 & Hds2 & Hdom2).
  destruct (Hd z init) as (n & En & Hn).
  { subst st1. simpl. apply lookup_insert_eq. }
  split; [done|]. exists z, n. simpl. split_and!; try done.
  - rewrite Hdom2. subst st1. simpl. by rewrite dom_insert_L.
  - intros p Hp. rewrite (data_same_lookup _ _ p Hs Hd). subst st1. simpl.
    by rewrite lookup_insert_ne.
  - by rewrite Hsz2.
Qed.

End Traces3.

(** * Effects of the operations on a reachable tree *)

Section Effects.
Context {A : Type}.
Implicit Types (t T : tree A) (st : rb_tree_t (A:=A)) (cmp : A → A → Z).

Lemma returns_run {X} (run : nat → option X) x : returns run x → ∃ fuel, run fuel = Some x.
Proof. intros [n Hn]. exists n. by apply Hn. Qed.

(** The payload of a node of the tree is in its in-order sequence. *)
Lemma shape_data_in st T np z n :
  shape (nil st) st T np → z ∈ ptrs T → mem st !! z = Some n →
  ∃ v, data n = Some v ∧ v ∈ values T.
Proof.
  intros HS Hz En. destruct (ptrs_focus _ _ Hz) as (k & c & l & d & r & ->).
  rewrite (shape_lookup _ _ _ _ _ _ _ _ _ HS) in En. injection En as <-.
  exists d. split; [done|]. rewrite values_plug. simpl. set_solver.
Qed.

Lemma sorted_equal_unique cmp (d u v : A) l :
  total_order cmp → sorted cmp l → u ∈ l → v ∈ l → cmp d u = 0 → cmp d v = 0 → u = v.
Proof.
  intros Hto Hs Hu Hv Eu Ev.
  apply list_elem_of_split in Hu as (l1 & l2 & ->).
  pose proof (find_eq_sorted _ d u l1 l2 Hto Hs Eu) as Hf.
  apply list_elem_of_split in Hv as (l1' & l2' & E'). rewrite E' in Hs, Hf.
  rewrite (find_eq_sorted _ d v l1' l2' Hto Hs Ev) in Hf. by injection Hf.
Qed.

(** A call of [rb_insert] that returns [RB_OK] on a reachable tree. *)
Lemma insert_ok_effect cmp st d alloc st' :
  total_order cmp → reachable cmp st →
  returns (λ fuel, rb_insert fuel (Some st) (Some d) alloc) (RB_OK, Some st') →
  ∃ T np T' l1 l2 z,
    alloc = Some z ∧ mem st !! z = None ∧
    represents st T np ∧ represents st' T' np ∧
    values T = l1 ++ l2 ∧ values T' = l1 ++ d :: l2 ∧
    sorted cmp (values T) ∧ sorted cmp (values T') ∧
    ¬ present cmp d (values T) ∧ compare st' = cmp ∧
    destroyed st' = destroyed st ∧ size st' = (size st + 1) mod size_max.
Proof.
  intros Hto Hr Hret.
  destruct (reachable_rep _ _ Hto Hr) as (Hc & T & np & Hrep & HT & Hsort & _).
  subst cmp.
  assert (match alloc with Some z => mem st !! z = None | None => True end) as Hfresh.
  { destruct alloc as [z|]; [|done]. destruct (mem st !! z) as [n|] eqn:E; [|done].
    exfalso. revert Hret. apply returns_none. intros fuel.
    by eapply insert_live_block. }
  destruct (insert_spec st T np d alloc Hrep HT Hto Hsort Hfresh)
    as (res0 & st0 & Hret0 & Hpost).
  pose proof (returns_det _ _ _ Hret Hret0) as [= <- <-].
  destruct alloc as [z|]; simpl in Hpost; [|by destruct Hpost].
  destruct Hpost as [(_ & ? & _)|(Hn & _ & T' & l1 & l2 & Hrep' & HT' & Hv & Hv' &
                                  Hsort' & Hnil' & Hcmp' & _ & Hds' & Hsz')]; [done|].
  exists T, np, T', l1, l2, z. split_and!; try done.
Qed.

(** A call of [rb_delete] on a reachable tree. *)
Lemma delete_effect cmp st d :
  total_order cmp → reachable cmp st →
  ∃ res st' T np,
    returns (λ fuel, rb_delete fuel (Some st) (Some d)) (res, Some st') ∧
    represents st T np ∧ sorted cmp (values T) ∧
    ((res = RB_NOT_FOUND ∧ st' = st ∧ ¬ present cmp d (values T)) ∨
     (res = RB_OK ∧ ∃ T' np' l1 v l2,
        represents st' T' np' ∧
        values T = l1 ++ v :: l2 ∧ cmp d v = 0 ∧ values T' = l1 ++ l2 ∧
        compare st' = cmp ∧ size st' = (size st - 1) mod size_max ∧
        destroyed st' = destroyed st ++ (if free_data st then [Some v] else []))).
Proof.
  intros Hto Hr.
  destruct (reachable_rep _ _ Hto Hr) as (Hc & T & np & Hrep & HT & Hsort & _).
  subst cmp.
  destruct (delete_spec st T np d Hrep HT Hto Hsort) as (res & st' & Hret & Hpost).
  exists res, st', T, np. split; [done|]. split; [done|]. split; [done|].
  destruct Hpost as [?|(-> & T' & np' & l1 & v & l2 & Hrep' & HT' & Hv & Hc & Hv' &
                        Hnil' & Hcmp' & Hfd' & Hsz' & dz & Hds')]; [by left|].
  right. split; [done|]. exists T', np', l1, v, l2. split_and!; try done.
  destruct (returns_run _ _ Hret) as [fuel E].
  apply delete_trace in E as [[? _]|(_ & z & n & v' & Hz & En & Ed & Ec & _ & _ & Hds & _)];
    [done|].
  rewrite Hds. enough (v' = v) as -> by done.
  destruct Hrep as [HS Hdom].
  assert (z ∈ ptrs T) as Hin.
  { assert (z ∈ dom (mem st)) as Hzd by (apply elem_of_dom; eauto).
    rewrite Hdom in Hzd. apply elem_of_union in Hzd as [Hzd|Hzd].
    - apply elem_of_singleton in Hzd. done.
    - by apply elem_of_list_to_set in Hzd. }
  destruct (shape_data_in _ _ _ _ _ HS Hin En) as (v'' & Ed' & Hv'').
  rewrite Ed in Ed'. injection Ed' as <-.
  eapply (sorted_equal_unique (compare st) d); eauto. rewrite Hv. set_solver.
Qed.

End Effects.

Lemma owning_2_1_3_reachable : reachable int_compare owning_2_1_3.
Proof.
  repeat (apply after_insert_reachable; [|by vm_compute]).
  by apply (reach_create int_compare true true (Some 0%nat)).
Qed.

Lemma tree_2_1_3_yields : walk_yields tree_2_1_3 [1; 2; 3].
Proof. pose proof tree_2_1_3_represents as [HS _]. exact (shape_yields _ _ _ HS). Qed.

Lemma owning_2_1_3_yields : walk_yields owning_2_1_3 [1; 2; 3].
Proof.
  exists 3%nat. intros fuel Hf. (do 3 (destruct fuel as [|fuel]; [lia|])). by vm_compute.
Qed.

Lemma int_absent (d : Z) (l : list Z) :
  Forall (λ v, d ≠ v) l → ¬ present int_compare d l.
Proof.
  rewrite Forall_forall. intros Hl (v & Hv & E). exact (Hl v Hv (proj1 (int_compare_eq d v) E)).
Qed.

(** X1: [rb_insert] of a payload that is absent from a reachable tree, the
    allocator handing out a block that is not live, returns [RB_OK]; the
    in-order walk then yields the old sequence with the payload at its place
    in the order, the size has grown by one, the destructor was not called,
    and [rb_search] for the payload returns it. *)
Theorem insert_absent_stores {A : Type} (cmp : A → A → Z) (st : rb_tree_t (A:=A))
    (vs : list A) (d : A) (z : nat) :
  total_order cmp → reachable cmp st → walk_yields st vs →
  ¬ present cmp d vs → mem st !! z = None →
  ∃ st' l1 l2,
    returns (λ fuel, rb_insert fuel (Some st) (Some d) (Some z)) (RB_OK, Some st') ∧
    vs = l1 ++ l2 ∧ walk_yields st' (l1 ++ d :: l2) ∧ sorted cmp (l1 ++ d :: l2) ∧
    rb_size (Some st') = (rb_size (Some st) + 1) mod size_max ∧
    destroyed st' = destroyed st ∧
    returns (λ fuel, rb_search fuel (Some st') (Some d)) (Some d).
Proof.
  intros Hto Hr Hy Habs Hz.
  destruct (reachable_yields _ _ _ Hto Hr Hy) as (Hc & T & np & Hrep & HT & -> & Hsort & _).
  subst cmp.
  destruct (insert_spec st T np d (Some z) Hrep HT Hto Hsort Hz)
    as (res & st' & Hret & [(Hp & _)|(_ & -> & T' & l1 & l2 & Hrep' & HT' & Hv & Hv' &
                                       Hsort' & Hnil' & Hcmp' & _ & Hds' & Hsz')]);
    [done|].
  exists st', l1, l2. pose proof Hrep' as [HS' _]. rewrite Hnil' in HS'.
  assert (shape (nil st') st' T' np) as HS'' by (by rewrite Hnil').
  split_and!; try done.
  - rewrite <- Hv'. by eapply shape_yields.
  - by rewrite <- Hv'.
  - exists (S (theight T')). intros fuel Hf.
    rewrite <- Hcmp' in Hto, Hsort'.
    rewrite (search_shape st' T' np d fuel HS'' ltac:(lia) Hto Hsort').
    rewrite Hv' in Hsort' |- *. rewrite find_eq_sorted; [done..|].
    apply (cmp_refl _ _ Hto).
Qed.

Lemma insert_absent_stores_witness :
  total_order int_compare ∧ reachable int_compare tree_2_1_3 ∧
  walk_yields tree_2_1_3 [1; 2; 3] ∧ ¬ present int_compare 5 [1; 2; 3] ∧
  mem tree_2_1_3 !! 9%nat = None ∧
  ∃ st' l1 l2,
    returns (λ fuel, rb_insert fuel (Some tree_2_1_3) (Some 5) (Some 9%nat))
            (RB_OK, Some st') ∧
    [1; 2; 3] = l1 ++ l2 ∧ walk_yields st' (l1 ++ 5 :: l2) ∧
    sorted int_compare (l1 ++ 5 :: l2) ∧
    rb_size (Some st') = (rb_size (Some tree_2_1_3) + 1) mod size_max ∧
    destroyed st' = destroyed tree_2_1_3 ∧
    returns (λ fuel, rb_search fuel (Some st') (Some 5)) (Some 5).
Proof.
  assert (¬ present int_compare 5 [1; 2; 3]) as Habs
    by (apply int_absent; repeat constructor; lia).
  assert (mem tree_2_1_3 !! 9%nat = None) as Hz by (by vm_compute).
  split; [exact int_compare_total|]. split; [exact tree_2_1_3_reachable|].
  split; [exact tree_2_1_3_yields|]. split; [exact Habs|]. split; [exact Hz|].
  exact (insert_absent_stores int_compare tree_2_1_3 [1; 2; 3] 5 9%nat
           int_compare_total tree_2_1_3_reachable tree_2_1_3_yields Habs Hz).
Defined.

(** X2: on a reachable tree [rb_search] returns a stored payload that
    compares equal to the key, or none when no stored payload does. *)
Theorem search_returns_equal_payload {A : Type} (cmp : A → A → Z)
    (st : rb_tree_t (A:=A)) (vs : list A) (d : A) :
  total_order cmp → reachable cmp st → walk_yields st vs →
  ∃ r, returns (λ fuel, rb_search fuel (Some st) (Some d)) r ∧
       match r with
       | Some v => v ∈ vs ∧ cmp d v = 0
       | None => ∀ v, v ∈ vs → cmp d v ≠ 0
       end.
Proof.
  intros Hto Hr Hy.
  destruct (reachable_yields _ _ _ Hto Hr Hy) as (Hc & T & np & [HS _] & HT & -> & Hsort & _).
  subst cmp. exists (find_eq (compare st) d (values T)). split.
  - exists (S (theight T)). intros fuel Hf. apply (search_shape st T np); done || lia.
  - destruct (find_eq (compare st) d (values T)) as [v|] eqn:E.
    + by apply find_eq_Some in E.
    + intros v Hv Hc. apply find_eq_None in E. apply E. by exists v.
Qed.

Lemma search_returns_equal_payload_witness :
  total_order int_compare ∧ reachable int_compare tree_2_1_3 ∧
  walk_yields tree_2_1_3 [1; 2; 3] ∧
  ∃ r, returns (λ fuel, rb_search fuel (Some tree_2_1_3) (Some 3)) r ∧
       match r with
       | Some v => v ∈ [1; 2; 3] ∧ int_compare 3 v = 0
       | None => ∀ v, v ∈ [1; 2; 3] → int_compare 3 v ≠ 0
       end.
Proof.
  split; [exact int_compare_total|]. split; [exact tree_2_1_3_reachable|].
  split; [exact tree_2_1_3_yields|].
  exact (search_returns_equal_payload int_compare tree_2_1_3 [1; 2; 3] 3
           int_compare_total tree_2_1_3_reachable tree_2_1_3_yields).
Defined.

Lemma search_run {A : Type} (cmp : A → A → Z) (st : rb_tree_t (A:=A)) (T : tree A)
    (np : nat) (e : A) :
  total_order cmp → compare st = cmp → represents st T np → sorted cmp (values T) →
  returns (λ fuel, rb_search fuel (Some st) (Some e)) (find_eq cmp e (values T)).
Proof.
  intros Hto <- [HS _] Hsort. exists (S (theight T)). intros fuel Hf.
  apply (search_shape st T np); done || lia.
Qed.

(** X3: after a call of [rb_insert] that returned [RB_OK] for the payload
    [d], [rb_search] returns [d] for every key that compares equal to [d],
    and for every other key what it returned before the insertion. *)
Theorem search_after_insert {A : Type} (cmp : A → A → Z) (st st' : rb_tree_t (A:=A))
    (d e : A) (alloc : option nat) (r : option A) :
  total_order cmp → reachable cmp st →
  returns (λ fuel, rb_insert fuel (Some st) (Some d) alloc) (RB_OK, Some st') →
  returns (λ fuel, rb_search fuel (Some st) (Some e)) r →
  returns (λ fuel, rb_search fuel (Some st') (Some e))
          (if decide (cmp e d = 0) then Some d else r).
Proof.
  intros Hto Hr Hins Hs.
  destruct (insert_ok_effect _ _ _ _ _ Hto Hr Hins)
    as (T & np & T' & l1 & l2 & z & _ & _ & Hrep & Hrep' & Hv & Hv' & Hsort & Hsort' &
        _ & Hc' & _).
  destruct (reachable_rep _ _ Hto Hr) as (Hc & _).
  pose proof (search_run cmp st T np e Hto Hc Hrep Hsort) as Hs0.
  pose proof (returns_det _ _ _ Hs Hs0) as ->.
  pose proof (search_run cmp st' T' np e Hto Hc' Hrep' Hsort') as Hs1.
  rewrite Hv' in Hs1, Hsort'. rewrite Hv.
  destruct (decide (cmp e d = 0)) as [E|E].
  - by rewrite find_eq_sorted in Hs1.
  - by rewrite find_eq_skip in Hs1.
Qed.

Lemma search_after_insert_witness :
  total_order int_compare ∧ reachable int_compare tree_5 ∧
  returns (λ fuel, rb_insert fuel (Some tree_5) (Some 3) (Some 2%nat))
          (RB_OK, Some tree_5_3) ∧
  returns (λ fuel, rb_search fuel (Some tree_5) (Some 5)) (Some 5) ∧
  returns (λ fuel, rb_search fuel (Some tree_5_3) (Some 5))
          (if decide (int_compare 5 3 = 0) then Some 3 else Some 5).
Proof.
  assert (returns (λ fuel, rb_insert fuel (Some tree_5) (Some 3) (Some 2%nat))
                  (RB_OK, Some tree_5_3)) as Hins.
  { eapply returns_intro; [apply insert_mono|]. instantiate (1 := 64%nat). by vm_compute. }
  assert (returns (λ fuel, rb_search fuel (Some tree_5) (Some 5)) (Some 5)) as Hs.
  { exists 2%nat. intros fuel Hf. (do 2 (destruct fuel as [|fuel]; [lia|])). by vm_compute. }
  split; [exact int_compare_total|]. split; [exact tree_5_reachable|].
  split; [exact Hins|]. split; [exact Hs|].
  exact (search_after_insert int_compare tree_5 tree_5_3 3 5 (Some 2%nat) (Some 5)
           int_compare_total tree_5_reachable Hins Hs).
Defined.

(** X4: on a reachable tree [rb_delete] returns [RB_NOT_FOUND] and leaves the
    tree object as it is when no stored payload compares equal to the key;
    otherwise it returns [RB_OK], the in-order walk yields the old sequence
    without the one payload [v] that compares equal to the key, the size has
    dropped by one, and the destructor, when the tree has one, was called
    once, on [v]. *)
Theorem delete_removes_one {A : Type} (cmp : A → A → Z) (st : rb_tree_t (A:=A))
    (vs : list A) (d : A) :
  total_order cmp → reachable cmp st → walk_yields st vs →
  ∃ res st',
    returns (λ fuel, rb_delete fuel (Some st) (Some d)) (res, Some st') ∧
    ((res = RB_NOT_FOUND ∧ st' = st ∧ ¬ present cmp d vs) ∨
     (res = RB_OK ∧ ∃ l1 v l2,
        vs = l1 ++ v :: l2 ∧ cmp d v = 0 ∧ walk_yields st' (l1 ++ l2) ∧
        rb_size (Some st') = (rb_size (Some st) - 1) mod size_max ∧
        destroyed st' = destroyed st ++ (if free_data st then [Some v] else []))).
Proof.
  intros Hto Hr Hy.
  destruct (delete_effect cmp st d Hto Hr) as (res & st' & T & np & Hret & [HS _] & _ & Hpost).
  pose proof (yields_values _ _ _ _ HS Hy) as ->.
  exists res, st'. split; [done|].
  destruct Hpost as [?|(-> & T' & np' & l1 & v & l2 & [HS' _] & Hv & Hc & Hv' & _ & Hsz & Hds)];
    [by left|].
  right. split; [done|]. exists l1, v, l2. split_and!; try done.
  rewrite <- Hv'. by eapply shape_yields.
Qed.

Lemma delete_removes_one_witness :
  total_order int_compare ∧ reachable int_compare owning_2_1_3 ∧
  walk_yields owning_2_1_3 [1; 2; 3] ∧
  ∃ res st',
    returns (λ fuel, rb_delete fuel (Some owning_2_1_3) (Some 2)) (res, Some st') ∧
    ((res = RB_NOT_FOUND ∧ st' = owning_2_1_3 ∧ ¬ present int_compare 2 [1; 2; 3]) ∨
     (res = RB_OK ∧ ∃ l1 v l2,
        [1; 2; 3] = l1 ++ v :: l2 ∧ int_compare 2 v = 0 ∧ walk_yields st' (l1 ++ l2) ∧
        rb_size (Some st') = (rb_size (Some owning_2_1_3) - 1) mod size_max ∧
        destroyed st' =
          destroyed owning_2_1_3 ++ (if free_data owning_2_1_3 then [Some v] else []))).
Proof.
  split; [exact int_compare_total|]. split; [exact owning_2_1_3_reachable|].
  split; [exact owning_2_1_3_yields|].
  exact (delete_removes_one int_compare owning_2_1_3 [1; 2; 3] 2
           int_compare_total owning_2_1_3_reachable owning_2_1_3_yields).
Defined.

(** X5: deleting a payload right after it was inserted gives back the
    in-order sequence and the size the tree had before the insertion. *)
Theorem insert_then_delete_restores {A : Type} (cmp : A → A → Z)
    (st st1 : rb_tree_t (A:=A)) (vs : list A) (d : A) (alloc : option nat) :
  total_order cmp → reachable cmp st → walk_yields st vs →
  returns (λ fuel, rb_insert fuel (Some st) (Some d) alloc) (RB_OK, Some st1) →
  ∃ st2,
    returns (λ fuel, rb_delete fuel (Some st1) (Some d)) (RB_OK, Some st2) ∧
    walk_yields st2 vs ∧ rb_size (Some st2) = rb_size (Some st).
Proof.
  intros Hto Hr Hy Hins.
  destruct (insert_ok_effect _ _ _ _ _ Hto Hr Hins)
    as (T & np & T' & l1 & l2 & z & _ & _ & [HS _] & [HS1 _] & Hv & Hv' & Hsort & Hsort' &
        _ & _ & _ & Hsz).
  pose proof (yields_values _ _ _ _ HS Hy) as ->.
  assert (reachable cmp st1) as Hr1 by (by eapply reach_insert).
  destruct (delete_effect cmp st1 d Hto Hr1)
    as (res & st2 & T1 & np1 & Hret & [HS1' _] & Hsort1 & Hpost).
  pose proof (yields_values _ _ _ _ HS1' (shape_yields _ _ _ HS1)) as ET.
  rewrite <- ET in Hpost, Hsort1. clear ET HS1'.
  destruct Hpost as [(_ & _ & Hn)|(-> & T2 & np2 & k1 & v & k2 & [HS2 _] & Hk & Hc & Hv2 &
                                   _ & Hsz2 & _)].
  - destruct Hn. exists d. split; [rewrite Hv'; set_solver|]. by apply cmp_refl.
  - destruct (sorted_split_unique cmp Hto d (values T') l1 l2 k1 k2 d v
                Hsort' Hv' (cmp_refl _ _ Hto) Hk Hc) as (<- & <- & <-).
    exists st2. split; [done|]. split.
    + rewrite Hv, <- Hv2. by eapply shape_yields.
    + simpl. rewrite Hsz2, Hsz.
      destruct (reachable_rep _ _ Hto Hr) as (_ & T0 & np0 & _ & _ & _ & Hs0).
      rewrite Zminus_mod_idemp_l. replace (size st + 1 - 1) with (size st) by lia.
      rewrite Hs0. apply Z.mod_mod. done.
Qed.

Lemma insert_then_delete_restores_witness :
  total_order int_compare ∧ reachable int_compare tree_5 ∧ walk_yields tree_5 [5] ∧
  returns (λ fuel, rb_insert fuel (Some tree_5) (Some 3) (Some 2%nat))
          (RB_OK, Some tree_5_3) ∧
  ∃ st2,
    returns (λ fuel, rb_delete fuel (Some tree_5_3) (Some 3)) (RB_OK, Some st2) ∧
    walk_yields st2 [5] ∧ rb_size (Some st2) = rb_size (Some tree_5).
Proof.
  assert (returns (λ fuel, rb_insert fuel (Some tree_5) (Some 3) (Some 2%nat))
                  (RB_OK, Some tree_5_3)) as Hins.
  { eapply returns_intro; [apply insert_mono|]. instantiate (1 := 64%nat). by vm_compute. }
  assert (walk_yields tree_5 [5]) as Hy.
  { exists 2%nat. intros fuel Hf. (do 2 (destruct fuel as [|fuel]; [lia|])). by vm_compute. }
  split; [exact int_compare_total|]. split; [exact tree_5_reachable|].
  split; [exact Hy|]. split; [exact Hins|].
  exact (insert_then_delete_restores int_compare tree_5 tree_5_3 [5] 3 (Some 2%nat)
           int_compare_total tree_5_reachable Hy Hins).
Defined.

(** X6: after a call of [rb_delete] that returned [RB_OK] for the key [d],
    [rb_search] returns nothing for every key that compares equal to [d],
    and for every other key what it returned before the deletion. *)
Theorem search_after_delete {A : Type} (cmp : A → A → Z) (st st' : rb_tree_t (A:=A))
    (d e : A) (r : option A) :
  total_order cmp → reachable cmp st →
  returns (λ fuel, rb_delete fuel (Some st) (Some d)) (RB_OK, Some st') →
  returns (λ fuel, rb_search fuel (Some st) (Some e)) r →
  returns (λ fuel, rb_search fuel (Some st') (Some e))
          (if decide (cmp e d = 0) then None else r).
Proof.
  intros Hto Hr Hdel Hs.
  destruct (delete_effect cmp st d Hto Hr)
    as (res & st0 & T & np & Hret & Hrep & Hsort & Hpost).
  pose proof (returns_det _ _ _ Hdel Hret) as [= <- <-].
  destruct Hpost as [(? & _)|(_ & T' & np' & l1 & v & l2 & Hrep' & Hv & Hc & Hv' & Hc' & _)];
    [done|].
  destruct (reachable_rep _ _ Hto Hr) as (Hcmp & _).
  pose proof (search_run cmp st T np e Hto Hcmp Hrep Hsort) as Hs0.
  pose proof (returns_det _ _ _ Hs Hs0) as ->.
  assert (sorted cmp (values T')) as Hsort'.
  { rewrite Hv'. rewrite Hv in Hsort. by eapply sorted_remove. }
  pose proof (search_run cmp st' T' np' e Hto Hc' Hrep' Hsort') as Hs1.
  rewrite Hv' in Hs1. rewrite Hv. rewrite Hv in Hsort.
  destruct (decide (cmp e d = 0)) as [E|E].
  - assert (cmp e v = 0) as Ev.
    { pose proof (cmp_eq_compat _ Hto e d v E). lia. }
    rewrite find_eq_absent in Hs1; [done|].
    intros (u & Hu & Eu).
    assert (u ∈ l1 ++ v :: l2) as Hu' by set_solver.
    assert (v ∈ l1 ++ v :: l2) as Hv0 by set_solver.
    pose proof (sorted_equal_unique cmp e u v _ Hto Hsort Hu' Hv0 Eu Ev) as ->.
    apply sorted_app in Hsort as (H12 & Hs1' & Hs2').
    apply sorted_cons in Hs2' as (Hvl2 & _). rewrite Forall_forall in Hvl2.
    apply elem_of_app in Hu as [Hu|Hu].
    + pose proof (H12 v v Hu ltac:(by left)). rewrite (cmp_refl _ _ Hto) in H. lia.
    + pose proof (Hvl2 v Hu). rewrite (cmp_refl _ _ Hto) in H. lia.
  - assert (cmp e v ≠ 0) as Ev.
    { intros Ev. apply E.
      pose proof (cmp_eq_compat _ Hto e v d Ev).
      pose proof (cmp_antisym _ Hto v d). lia. }
    by rewrite find_eq_skip.
Qed.

Lemma search_after_delete_witness :
  total_order int_compare ∧ reachable int_compare tree_1_2 ∧
  returns (λ fuel, rb_delete fuel (Some tree_1_2) (Some 2))
          (RB_OK, Some (after_delete tree_1_2 2)) ∧
  returns (λ fuel, rb_search fuel (Some tree_1_2) (Some 2)) (Some 2) ∧
  returns (λ fuel, rb_search fuel (Some (after_delete tree_1_2 2)) (Some 2))
          (if decide (int_compare 2 2 = 0) then None else Some 2).
Proof.
  assert (returns (λ fuel, rb_delete fuel (Some tree_1_2) (Some 2))
                  (RB_OK, Some (after_delete tree_1_2 2))) as Hdel.
  { eapply returns_intro; [apply delete_mono|]. instantiate (1 := 64%nat). by vm_compute. }
  assert (returns (λ fuel, rb_search fuel (Some tree_1_2) (Some 2)) (Some 2)) as Hs.
  { exists 3%nat. intros fuel Hf. (do 3 (destruct fuel as [|fuel]; [lia|])). by vm_compute. }
  split; [exact int_compare_total|]. split; [exact tree_1_2_reachable|].
  split; [exact Hdel|]. split; [exact Hs|].
  exact (search_after_delete int_compare tree_1_2 (after_delete tree_1_2 2) 2 2 (Some 2)
           int_compare_total tree_1_2_reachable Hdel Hs).
Defined.

Lemma sorted_head_least {A : Type} (cmp : A → A → Z) (m : A) (l : list A) :
  total_order cmp → sorted cmp l → head l = Some m → ∀ w, w ∈ l → cmp m w <= 0.
Proof.
  intros Hto Hs Hh w Hw. destruct l as [|x l]; [done|]. injection Hh as ->.
  apply sorted_cons in Hs as [Hx _]. rewrite Forall_forall in Hx.
  apply elem_of_cons in Hw as [->|Hw].
  - rewrite (cmp_refl _ _ Hto). lia.
  - specialize (Hx _ Hw). lia.
Qed.

Lemma sorted_last_greatest {A : Type} (cmp : A → A → Z) (m : A) (l : list A) :
  total_order cmp → sorted cmp l → last l = Some m → ∀ w, w ∈ l → cmp w m <= 0.
Proof.
  intros Hto Hs Hh w Hw. apply last_Some in Hh as [l' ->].
  apply sorted_app in Hs as (H12 & _ & _).
  apply elem_of_app in Hw as [Hw|Hw%list_elem_of_singleton].
  - pose proof (H12 w m Hw ltac:(by left)). lia.
  - subst w. rewrite (cmp_refl _ _ Hto). lia.
Qed.

(** X7: on a reachable tree [rb_min] returns the first and [rb_max] the last
    payload of the in-order sequence, none on the empty tree; the first is
    below and the last above every stored payload. *)
Theorem min_max_are_extremes {A : Type} (cmp : A → A → Z) (st : rb_tree_t (A:=A))
    (vs : list A) :
  total_order cmp → reachable cmp st → walk_yields st vs →
  returns (λ fuel, rb_min fuel (Some st)) (head vs) ∧
  returns (λ fuel, rb_max fuel (Some st)) (last vs) ∧
  (∀ m w, head vs = Some m → w ∈ vs → cmp m w <= 0) ∧
  (∀ m w, last vs = Some m → w ∈ vs → cmp w m <= 0).
Proof.
  intros Hto Hr Hy.
  destruct (reachable_yields _ _ _ Hto Hr Hy) as (Hc & T & np & [HS _] & HT & -> & Hsort & _).
  split_and!.
  - exists (S (theight T)). intros fuel Hf. apply (min_shape st T np); done || lia.
  - exists (S (theight T)). intros fuel Hf. apply (max_shape st T np); done || lia.
  - intros m w Hm Hw. by eapply sorted_head_least.
  - intros m w Hm Hw. by eapply sorted_last_greatest.
Qed.

Lemma min_max_are_extremes_witness :
  total_order int_compare ∧ reachable int_compare tree_2_1_3 ∧
  walk_yields tree_2_1_3 [1; 2; 3] ∧
  returns (λ fuel, rb_min fuel (Some tree_2_1_3)) (head [1; 2; 3]) ∧
  returns (λ fuel, rb_max fuel (Some tree_2_1_3)) (last [1; 2; 3]) ∧
  (∀ m w, head [1; 2; 3] = Some m → w ∈ [1; 2; 3] → int_compare m w <= 0) ∧
  (∀ m w, last [1; 2; 3] = Some m → w ∈ [1; 2; 3] → int_compare w m <= 0).
Proof.
  split; [exact int_compare_total|]. split; [exact tree_2_1_3_reachable|].
  split; [exact tree_2_1_3_yields|].
  exact (min_max_are_extremes int_compare tree_2_1_3 [1; 2; 3]
           int_compare_total tree_2_1_3_reachable tree_2_1_3_yields).
Defined.

(** X8: on a reachable tree [rb_size] returns the number of payloads that the
    in-order walk yields, modulo [2^64]; [rb_is_empty] returns true on a
    tree without payloads, and false on a tree with at least one and fewer
    than [2^64] payloads. *)
Theorem size_counts_payloads {A : Type} (cmp : A → A → Z) (st : rb_tree_t (A:=A))
    (vs : list A) :
  total_order cmp → reachable cmp st → walk_yields st vs →
  rb_size (Some st) = Z.of_nat (length vs) mod size_max ∧
  (vs = [] → rb_is_empty (Some st) = true) ∧
  (vs ≠ [] → Z.of_nat (length vs) < size_max → rb_is_empty (Some st) = false).
Proof.
  intros Hto Hr Hy.
  destruct (reachable_yields _ _ _ Hto Hr Hy) as (Hc & T & np & _ & HT & -> & Hsort & Hsz).
  simpl. split; [done|]. split.
  - intros E. rewrite E in Hsz. by rewrite Hsz.
  - intros Hne Hlt. rewrite Hsz, Z.mod_small by lia.
    apply bool_decide_eq_false_2. destruct (values T); [done|]. simpl. lia.
Qed.

Lemma size_counts_payloads_witness :
  total_order int_compare ∧ reachable int_compare tree_2_1_3 ∧
  walk_yields tree_2_1_3 [1; 2; 3] ∧
  rb_size (Some tree_2_1_3) = Z.of_nat (length [1; 2; 3]) mod size_max ∧
  ([1; 2; 3] = [] → rb_is_empty (Some tree_2_1_3) = true) ∧
  ([1; 2; 3] ≠ [] → Z.of_nat (length [1; 2; 3]) < size_max →
   rb_is_empty (Some tree_2_1_3) = false).
Proof.
  split; [exact int_compare_total|]. split; [exact tree_2_1_3_reachable|].
  split; [exact tree_2_1_3_yields|].
  exact (size_counts_payloads int_compare tree_2_1_3 [1; 2; 3]
           int_compare_total tree_2_1_3_reachable tree_2_1_3_yields).
Defined.

Lemma preorder_head_postorder_last {A : Type} (T : tree A) :
  head (preorder T) = last (postorder T).
Proof.
  destruct T as [|c l p d r]; [done|]. simpl.
  by rewrite app_assoc, last_snoc.
Qed.

(** X9: on a reachable tree [rb_preorder_walk] and [rb_postorder_walk] call
    the visitor once for each stored payload; the payload visited first in
    pre-order is the one visited last in post-order. *)
Theorem other_walks_visit_once {A : Type} (cmp : A → A → Z) (st : rb_tree_t (A:=A))
    (vs : list A) :
  total_order cmp → reachable cmp st → walk_yields st vs →
  ∃ pre post : list A,
    pre ≡ₚ vs ∧ post ≡ₚ vs ∧ head pre = last post ∧
    ∀ (C : Type) (visit : option A → C → C) (context : C),
      returns (λ fuel, rb_preorder_walk fuel (Some st) (Some visit) context)
              (foldl (λ acc v, visit (Some v) acc) context pre) ∧
      returns (λ fuel, rb_postorder_walk fuel (Some st) (Some visit) context)
              (foldl (λ acc v, visit (Some v) acc) context post).
Proof.
  intros Hto Hr Hy.
  destruct (reachable_yields _ _ _ Hto Hr Hy) as (Hc & T & np & [HS _] & HT & -> & Hsort & _).
  exists (preorder T), (postorder T). split; [apply preorder_perm|].
  split; [apply postorder_perm|]. split; [apply preorder_head_postorder_last|].
  intros C visit context. split; exists (S (theight T)); intros fuel Hf.
  - apply (preorder_walk_shape st T np); done || lia.
  - apply (postorder_walk_shape st T np); done || lia.
Qed.

Lemma other_walks_visit_once_witness :
  total_order int_compare ∧ reachable int_compare tree_2_1_3 ∧
  walk_yields tree_2_1_3 [1; 2; 3] ∧
  ∃ pre post : list Z,
    pre ≡ₚ [1; 2; 3] ∧ post ≡ₚ [1; 2; 3] ∧ head pre = last post ∧
    ∀ (C : Type) (visit : option Z → C → C) (context : C),
      returns (λ fuel, rb_preorder_walk fuel (Some tree_2_1_3) (Some visit) context)
              (foldl (λ acc v, visit (Some v) acc) context pre) ∧
      returns (λ fuel, rb_postorder_walk fuel (Some tree_2_1_3) (Some visit) context)
              (foldl (λ acc v, visit (Some v) acc) context post).
Proof.
  split; [exact int_compare_total|]. split; [exact tree_2_1_3_reachable|].
  split; [exact tree_2_1_3_yields|].
  exact (other_walks_visit_once int_compare tree_2_1_3 [1; 2; 3]
           int_compare_total tree_2_1_3_reachable tree_2_1_3_yields).
Defined.

(** X10: on a reachable tree [rb_walk_range] calls the visitor on the stored
    payloads [v] with [min_key <= v <= max_key], once for each, in
    increasing order, and on no other payload. *)
Theorem walk_range_visits_in_range {A : Type} (cmp : A → A → Z)
    (st : rb_tree_t (A:=A)) (vs : list A) (lo hi : A) :
  total_order cmp → reachable cmp st → walk_yields st vs →
  ∀ (C : Type) (visit : option A → C → C) (context : C),
    returns (λ fuel, rb_walk_range fuel (Some st) (Some lo) (Some hi) (Some visit) context)
            (foldl (λ acc v, visit (Some v) acc) context
               (filter (in_range cmp lo hi) vs)).
Proof.
  intros Hto Hr Hy C visit context.
  destruct (reachable_yields _ _ _ Hto Hr Hy) as (Hc & T & np & [HS _] & HT & -> & Hsort & _).
  subst cmp. exists (S (theight T)). intros fuel Hf.
  apply (walk_range_shape st T np); done || lia.
Qed.

Lemma walk_range_visits_in_range_witness :
  total_order int_compare ∧ reachable int_compare tree_2_1_3 ∧
  walk_yields tree_2_1_3 [1; 2; 3] ∧
  ∀ (C : Type) (visit : option Z → C → C) (context : C),
    returns (λ fuel, rb_walk_range fuel (Some tree_2_1_3) (Some 2) (Some 7)
                       (Some visit) context)
            (foldl (λ acc v, visit (Some v) acc) context
               (filter (in_range int_compare 2 7) [1; 2; 3])).
Proof.
  split; [exact int_compare_total|]. split; [exact tree_2_1_3_reachable|].
  split; [exact tree_2_1_3_yields|].
  exact (walk_range_visits_in_range int_compare tree_2_1_3 [1; 2; 3] 2 7
           int_compare_total tree_2_1_3_reachable tree_2_1_3_yields).
Defined.

(** X11: [rb_insert] and [rb_delete] never move a payload from one node to
    another: on any tree object, a node that is allocated before and after
    a call that returns holds the same payload; [rb_insert] frees no node
    and [rb_delete] allocates none. *)
Theorem payloads_never_move {A : Type} (st st' : rb_tree_t (A:=A)) :
  (∃ fuel d alloc res, rb_insert fuel (Some st) d alloc = Some (res, Some st')) ∨
  (∃ fuel d res, rb_delete fuel (Some st) d = Some (res, Some st')) →
  (∀ p n n', mem st !! p = Some n → mem st' !! p = Some n' → data n' = data n) ∧
  ((∃ fuel d alloc res, rb_insert fuel (Some st) d alloc = Some (res, Some st')) →
   dom (mem st) ⊆ dom (mem st')) ∧
  ((∃ fuel d res, rb_delete fuel (Some st) d = Some (res, Some st')) →
   dom (mem st') ⊆ dom (mem st)).
Proof.
  assert (Hins : ∀ fuel d alloc res,
             rb_insert fuel (Some st) d alloc = Some (res, Some st') →
             (∀ p n n', mem st !! p = Some n → mem st' !! p = Some n' → data n' = data n) ∧
             dom (mem st) ⊆ dom (mem st')).
  { intros fuel [d|] alloc res E; [|injection E as <- <-; split; [intros ? ? ? ? ?; congruence|done]].
    apply insert_trace in E
      as [(_ & _ & ->)|[(_ & -> & _)|(_ & z & nz & _ & Hz & _ & _ & Hdom & Hdata & _)]];
      [(split; [intros ? ? ? ? ?; congruence|done])..|].
    split; [|rewrite Hdom; set_solver].
    intros p n n' En En'. assert (p ≠ z) as Hp by congruence.
    specialize (Hdata p Hp). rewrite En, En' in Hdata. by injection Hdata. }
  assert (Hdel : ∀ fuel d res,
             rb_delete fuel (Some st) d = Some (res, Some st') →
             (∀ p n n', mem st !! p = Some n → mem st' !! p = Some n' → data n' = data n) ∧
             dom (mem st') ⊆ dom (mem st)).
  { intros fuel [d|] res E; [|injection E as <- <-; split; [intros ? ? ? ? ?; congruence|done]].
    apply delete_trace in E
      as [(_ & ->)|(_ & z & nz & v & _ & _ & _ & _ & Hz & Hdata & _)];
      [split; [intros ? ? ? ? ?; congruence|done]|].
    split.
    - intros p n n' En En'. assert (p ≠ z) as Hp by congruence.
      specialize (Hdata p Hp). rewrite En, En' in Hdata. by injection Hdata.
    - intros p [n' En']%elem_of_dom. assert (p ≠ z) as Hp by congruence.
      specialize (Hdata p Hp). rewrite En' in Hdata.
      destruct (mem st !! p) eqn:E; [by apply elem_of_dom|done]. }
  intros H. split_and!.
  - destruct H as [(fuel & d & alloc & res & E)|(fuel & d & res & E)].
    + by destruct (Hins _ _ _ _ E).
    + by destruct (Hdel _ _ _ E).
  - intros (fuel & d & alloc & res & E). by destruct (Hins _ _ _ _ E).
  - intros (fuel & d & res & E). by destruct (Hdel _ _ _ E).
Qed.

Lemma payloads_never_move_witness :
  ((∃ fuel d alloc res,
      rb_insert fuel (Some tree_2_1_3) d alloc = Some (res, Some (after_delete tree_2_1_3 2))) ∨
   (∃ fuel d res,
      rb_delete fuel (Some tree_2_1_3) d = Some (res, Some (after_delete tree_2_1_3 2)))) ∧
  (∀ p n n', mem tree_2_1_3 !! p = Some n → mem (after_delete tree_2_1_3 2) !! p = Some n' →
             data n' = data n) ∧
  ((∃ fuel d alloc res,
      rb_insert fuel (Some tree_2_1_3) d alloc = Some (res, Some (after_delete tree_2_1_3 2))) →
   dom (mem tree_2_1_3) ⊆ dom (mem (after_delete tree_2_1_3 2))) ∧
  ((∃ fuel d res,
      rb_delete fuel (Some tree_2_1_3) d = Some (res, Some (after_delete tree_2_1_3 2))) →
   dom (mem (after_delete tree_2_1_3 2)) ⊆ dom (mem tree_2_1_3)).
Proof.
  assert ((∃ fuel d alloc res,
      rb_insert fuel (Some tree_2_1_3) d alloc = Some (res, Some (after_delete tree_2_1_3 2))) ∨
   (∃ fuel d res,
      rb_delete fuel (Some tree_2_1_3) d = Some (res, Some (after_delete tree_2_1_3 2)))) as H.
  { right. exists 64%nat, (Some 2), RB_OK. by vm_compute. }
  split; [exact H|].
  exact (payloads_never_move tree_2_1_3 (after_delete tree_2_1_3 2) H).
Defined.

(** X12: a call of [rb_insert] or [rb_delete] that returns a result other
    than [RB_OK] leaves the tree object as it was: its fields, its nodes and
    the destructor trace.  This holds on every tree object, for every
    argument and every answer of the allocator. *)
Theorem failed_calls_change_nothing {A : Type} (st st' : rb_tree_t (A:=A))
    (fuel : nat) (d : option A) (alloc : option nat) (res : rb_result_t) :
  rb_insert fuel (Some st) d alloc = Some (res, Some st') ∨
  rb_delete fuel (Some st) d = Some (res, Some st') →
  res ≠ RB_OK → st' = st.
Proof.
  intros [E|E] Hres.
  - destruct d as [d|]; [|by injection E as <- <-].
    apply insert_trace in E as [(_ & _ & ->)|[(_ & -> & _)|(-> & _)]]; done.
  - destruct d as [d|]; [|by injection E as <- <-].
    apply delete_trace in E as [(_ & ->)|(-> & _)]; done.
Qed.

Lemma failed_calls_change_nothing_witness :
  (rb_insert 64 (Some tree_2_1_3) (Some 2) (Some 99%nat)
     = Some (RB_DUPLICATE, Some tree_2_1_3) ∨
   rb_delete 64 (Some tree_2_1_3) (Some 2) = Some (RB_DUPLICATE, Some tree_2_1_3)) ∧
  RB_DUPLICATE ≠ RB_OK ∧ tree_2_1_3 = tree_2_1_3.
Proof.
  assert (rb_insert 64 (Some tree_2_1_3) (Some 2) (Some 99%nat)
            = Some (RB_DUPLICATE, Some tree_2_1_3) ∨
          rb_delete 64 (Some tree_2_1_3) (Some 2) = Some (RB_DUPLICATE, Some tree_2_1_3)) as H.
  { left. by vm_compute. }
  assert (RB_DUPLICATE ≠ RB_OK) as Hne by done.
  split; [exact H|]. split; [exact Hne|].
  exact (failed_calls_change_nothing tree_2_1_3 tree_2_1_3 64 (Some 2) (Some 99%nat)
           RB_DUPLICATE H Hne).
Defined.

(** * Comparison of two trees *)

Section Equal.
Context {A : Type}.
Implicit Types (T : tree A) (st : rb_tree_t (A:=A)) (cmp : A → A → Z).

Lemma read_in_ro {X} st (m : M (A:=A) X) v :
  m st = Some (v, st) → read_in st m = Some v.
Proof. unfold read_in. by intros ->. Qed.

Lemma nodes_equal_ro (t1 t2 : rb_tree_t (A:=A)) T1 : ∀ T2 par1 par2 fuel,
  rep (mem t1) (nil t1) par1 T1 → nil t1 ∉ ptrs T1 →
  rep (mem t2) (nil t2) par2 T2 → nil t2 ∉ ptrs T2 →
  (theight T1 < fuel)%nat →
  nodes_equal fuel t1 (rootp (nil t1) T1) t2 (rootp (nil t2) T2)
    = Some (same_layout (compare t1) T1 T2).
Proof.
  induction T1 as [|c1 l1 IHl p1 d1 r1 IHr]; intros T2 par1 par2 fuel H1 N1 H2 N2 Hf;
    (destruct fuel; [simpl in Hf; lia|]);
    destruct T2 as [|c2 l2 p2 d2 r2]; cbn [nodes_equal rootp same_layout].
  - by rewrite decide_True.
  - simpl in N2. rewrite elem_of_app, elem_of_cons in N2.
    rewrite decide_False by (intros [_ E]; destruct N2; by right; left).
    by rewrite decide_True by (by left).
  - simpl in N1. rewrite elem_of_app, elem_of_cons in N1.
    rewrite decide_False by (intros [E _]; destruct N1; by right; left).
    by rewrite decide_True by (by right).
  - simpl in N1, N2, H1, H2, Hf. rewrite elem_of_app, elem_of_cons in N1, N2.
    destruct H1 as (E1 & Hl1 & Hr1). destruct H2 as (E2 & Hl2 & Hr2).
    rewrite decide_False by (intros [E _]; destruct N1; by right; left).
    rewrite decide_False
      by (intros [E|E]; [destruct N1; by right; left|destruct N2; by right; left]).
    rewrite (read_in_ro _ _ _ (ro_get_data _ _ _ E1)).
    rewrite (read_in_ro _ _ _ (ro_get_data _ _ _ E2)).
    cbn [data mbind option_bind].
    change (read_in t1 (call_compare (Some d1) (Some d2))) with (Some (compare t1 d1 d2)).
    cbn [mbind option_bind].
    destruct (decide (compare t1 d1 d2 ≠ 0)) as [Hc|Hc].
    + by rewrite bool_decide_eq_false_2.
    + rewrite bool_decide_eq_true_2 by lia.
      rewrite (read_in_ro _ _ _ (ro_get_left _ _ _ E1)).
      rewrite (read_in_ro _ _ _ (ro_get_left _ _ _ E2)).
      cbn [left mbind option_bind].
      rewrite (IHl l2 p1 p2 fuel Hl1 ltac:(tauto) Hl2 ltac:(tauto) ltac:(lia)).
      cbn [mbind option_bind].
      destruct (same_layout (compare t1) l1 l2); [|done].
      rewrite (read_in_ro _ _ _ (ro_get_right _ _ _ E1)).
      rewrite (read_in_ro _ _ _ (ro_get_right _ _ _ E2)).
      cbn [right mbind option_bind].
      by rewrite (IHr r2 p1 p2 fuel Hr1 ltac:(tauto) Hr2 ltac:(tauto) ltac:(lia)).
Qed.

Lemma same_layout_length cmp T1 : ∀ T2,
  same_layout cmp T1 T2 = true → length (values T1) = length (values T2).
Proof.
  induction T1 as [|c1 l1 IHl p1 d1 r1 IHr]; intros [|c2 l2 p2 d2 r2]; simpl; try done.
  rewrite !andb_true_iff. intros [[_ Hl] Hr].
  rewrite !length_app. simpl. rewrite (IHl _ Hl), (IHr _ Hr). done.
Qed.

Lemma same_layout_values cmp T1 : ∀ T2,
  same_layout cmp T1 T2 = true →
  Forall2 (λ a b, cmp a b = 0) (values T1) (values T2).
Proof.
  induction T1 as [|c1 l1 IHl p1 d1 r1 IHr]; intros [|c2 l2 p2 d2 r2]; simpl; try done.
  rewrite !andb_true_iff. intros [[Hd%bool_decide_eq_true Hl] Hr].
  apply Forall2_app; [by apply IHl|]. constructor; [done|by apply IHr].
Qed.

Lemma same_layout_preorder_1 cmp T1 : ∀ T2,
  same_layout cmp T1 T2 = true →
  Forall2 (λ a b, cmp a b = 0) (preorder T1) (preorder T2).
Proof.
  induction T1 as [|c1 l1 IHl p1 d1 r1 IHr]; intros [|c2 l2 p2 d2 r2]; simpl; try done.
  rewrite !andb_true_iff. intros [[Hd%bool_decide_eq_true Hl] Hr].
  constructor; [done|]. apply Forall2_app; [by apply IHl|by apply IHr].
Qed.

Lemma Forall2_filter_length {B} (R : B → B → Prop) (P Q : B → Prop)
    `{∀ x, Decision (P x)} `{∀ x, Decision (Q x)} (xs ys : list B) :
  Forall2 R xs ys → (∀ x y, R x y → (P x ↔ Q y)) →
  length (filter P xs) = length (filter Q ys).
Proof.
  intros HF HPQ. induction HF as [|x y xs ys HR HF IH]; [done|].
  rewrite !filter_cons. destruct (decide (P x)) as [HP|HP].
  - rewrite decide_True by (by apply (HPQ x y HR)). simpl. by rewrite IH.
  - rewrite decide_False by (by rewrite <- (HPQ x y HR)). done.
Qed.

Lemma filter_all {B} (P : B → Prop) `{∀ x, Decision (P x)} (l : list B) :
  (∀ x, x ∈ l → P x) → filter P l = l.
Proof.
  induction l as [|x l IH]; [done|]. intros Hl.
  rewrite filter_cons_True by (apply Hl; by left).
  f_equal. apply IH. intros y Hy. apply Hl. by right.
Qed.

Lemma preorder_split cmp c l p (d : A) r :
  total_order cmp → sorted cmp (values (Node c l p d r)) →
  filter (λ x, cmp x d < 0) (preorder l ++ preorder r) = preorder l.
Proof.
  intros Hto Hs. simpl in Hs. apply sorted_app in Hs as (H12 & _ & Hs2).
  apply sorted_cons in Hs2 as (Hd & _). rewrite Forall_forall in Hd.
  rewrite filter_app, filter_all, filter_none; [by rewrite app_nil_r|..].
  - intros x Hx. rewrite preorder_perm in Hx. specialize (Hd x Hx).
    pose proof (cmp_antisym _ Hto x d). lia.
  - intros x Hx. rewrite preorder_perm in Hx. apply H12; [done|by left].
Qed.

Lemma same_layout_preorder_2 cmp T1 : ∀ T2,
  total_order cmp → sorted cmp (values T1) → sorted cmp (values T2) →
  Forall2 (λ a b, cmp a b = 0) (preorder T1) (preorder T2) →
  same_layout cmp T1 T2 = true.
Proof.
  induction T1 as [|c1 l1 IHl p1 d1 r1 IHr]; intros [|c2 l2 p2 d2 r2] Hto Hs1 Hs2 HF;
    simpl in HF; try done; [by inversion HF..|].
  apply Forall2_cons in HF as [Hd HF].
  assert (length (preorder l1) = length (preorder l2)) as Hlen.
  { rewrite <- (preorder_split cmp c1 l1 p1 d1 r1 Hto Hs1).
    rewrite <- (preorder_split cmp c2 l2 p2 d2 r2 Hto Hs2).
    eapply Forall2_filter_length; [exact HF|]. intros x y E. simpl in E.
    pose proof (cmp_eq_compat _ Hto x y d1 E).
    pose proof (cmp_eq_right cmp Hto d1 d2 y Hd). lia. }
  apply Forall2_app_inv in HF as [HFl HFr]; [|done].
  simpl in Hs1, Hs2.
  apply sorted_app in Hs1 as (_ & Hsl1 & Hsr1%sorted_cons).
  apply sorted_app in Hs2 as (_ & Hsl2 & Hsr2%sorted_cons).
  simpl. rewrite bool_decide_eq_true_2 by done.
  rewrite (IHl l2), (IHr r2); tauto.
Qed.

Lemma shape_preorder_yields st T np :
  shape (nil st) st T np → preorder_yields st (preorder T).
Proof.
  intros HS. exists (S (theight T)). intros fuel Hf.
  rewrite (preorder_walk_shape st T np fuel collect [] HS) by lia.
  by rewrite foldl_collect.
Qed.

Lemma preorder_yields_values st T np ps :
  shape (nil st) st T np → preorder_yields st ps → ps = preorder T.
Proof.
  intros HS Hy. pose proof (returns_det _ _ _ Hy (shape_preorder_yields _ _ _ HS)) as E.
  by apply (inj (fmap Some)) in E.
Qed.

Lemma trees_equal_shape (t1 t2 : rb_tree_t (A:=A)) T1 T2 np1 np2 fuel :
  shape (nil t1) t1 T1 np1 → shape (nil t2) t2 T2 np2 →
  size t1 = Z.of_nat (length (values T1)) mod size_max →
  size t2 = Z.of_nat (length (values T2)) mod size_max →
  (theight T1 < fuel)%nat →
  rb_trees_equal fuel (Some t1) (Some t2) = Some (same_layout (compare t1) T1 T2).
Proof.
  intros (_ & Hr1 & _ & _ & N1 & H1) (_ & Hr2 & _ & _ & N2 & H2) Hs1 Hs2 Hf.
  unfold rb_trees_equal. rewrite Hr1, Hr2.
  rewrite (nodes_equal_ro t1 t2 T1 T2 _ _ fuel H1 N1 H2 N2 Hf).
  destruct (decide (size t1 ≠ size t2)) as [Hne|_]; [|done].
  destruct (same_layout (compare t1) T1 T2) eqn:E; [|done].
  destruct Hne. rewrite Hs1, Hs2. by rewrite (same_layout_length _ _ _ E).
Qed.

End Equal.

Lemma tree_2_1_3_preorder : preorder_yields tree_2_1_3 [2; 1; 3].
Proof.
  exists 3%nat. intros fuel Hf. (do 3 (destruct fuel as [|fuel]; [lia|])). by vm_compute.
Qed.

Lemma tree_1_2_preorder : preorder_yields tree_1_2 [1; 2].
Proof.
  exists 3%nat. intros fuel Hf. (do 3 (destruct fuel as [|fuel]; [lia|])). by vm_compute.
Qed.

(** X13: on two reachable trees with the same comparison function
    [rb_trees_equal] returns true exactly when the pre-order walks of the two
    trees yield sequences of the same length whose payloads compare equal
    position by position, that is when the trees agree in their layout and
    not only in their content; the in-order walks then agree as well. *)
Theorem trees_equal_iff_preorder {A : Type} (cmp : A → A → Z)
    (t1 t2 : rb_tree_t (A:=A)) (ps1 ps2 : list A) :
  total_order cmp → reachable cmp t1 → reachable cmp t2 →
  preorder_yields t1 ps1 → preorder_yields t2 ps2 →
  returns (λ fuel, rb_trees_equal fuel (Some t1) (Some t2))
          (bool_decide (Forall2 (λ a b, cmp a b = 0) ps1 ps2)) ∧
  (∀ vs1 vs2, walk_yields t1 vs1 → walk_yields t2 vs2 →
     Forall2 (λ a b, cmp a b = 0) ps1 ps2 → Forall2 (λ a b, cmp a b = 0) vs1 vs2).
Proof.
  intros Hto Hr1 Hr2 Hp1 Hp2.
  destruct (reachable_rep _ _ Hto Hr1) as (Hc1 & T1 & np1 & [HS1 _] & _ & Hsort1 & Hsz1).
  destruct (reachable_rep _ _ Hto Hr2) as (Hc2 & T2 & np2 & [HS2 _] & _ & Hsort2 & Hsz2).
  pose proof (preorder_yields_values _ _ _ _ HS1 Hp1) as ->.
  pose proof (preorder_yields_values _ _ _ _ HS2 Hp2) as ->.
  assert (same_layout cmp T1 T2 = true ↔
          Forall2 (λ a b, cmp a b = 0) (preorder T1) (preorder T2)) as Hiff.
  { split; [apply same_layout_preorder_1|by apply same_layout_preorder_2]. }
  split.
  - exists (S (theight T1)). intros fuel Hf.
    rewrite (trees_equal_shape t1 t2 T1 T2 np1 np2 fuel HS1 HS2 Hsz1 Hsz2) by lia.
    rewrite Hc1. f_equal. destruct (same_layout cmp T1 T2) eqn:E.
    + symmetry. apply bool_decide_eq_true_2. by apply Hiff.
    + symmetry. apply bool_decide_eq_false_2. intros HF. apply Hiff in HF. congruence.
  - intros vs1 vs2 Hy1 Hy2 HF.
    rewrite (yields_values _ _ _ _ HS1 Hy1), (yields_values _ _ _ _ HS2 Hy2).
    apply same_layout_values. by apply Hiff.
Qed.

Lemma trees_equal_iff_preorder_witness :
  total_order int_compare ∧ reachable int_compare tree_2_1_3 ∧
  reachable int_compare tree_1_2 ∧
  preorder_yields tree_2_1_3 [2; 1; 3] ∧ preorder_yields tree_1_2 [1; 2] ∧
  returns (λ fuel, rb_trees_equal fuel (Some tree_2_1_3) (Some tree_1_2))
          (bool_decide (Forall2 (λ a b, int_compare a b = 0) [2; 1; 3] [1; 2])) ∧
  (∀ vs1 vs2, walk_yields tree_2_1_3 vs1 → walk_yields tree_1_2 vs2 →
     Forall2 (λ a b, int_compare a b = 0) [2; 1; 3] [1; 2] →
     Forall2 (λ a b, int_compare a b = 0) vs1 vs2).
Proof.
  split; [exact int_compare_total|]. split; [exact tree_2_1_3_reachable|].
  split; [exact tree_1_2_reachable|]. split; [exact tree_2_1_3_preorder|].
  split; [exact tree_1_2_preorder|].
  exact (trees_equal_iff_preorder int_compare tree_2_1_3 tree_1_2 [2; 1; 3] [1; 2]
           int_compare_total tree_2_1_3_reachable tree_1_2_reachable
           tree_2_1_3_preorder tree_1_2_preorder).
Defined.

(** * Destruction of a tree *)

Section Destroy.
Context {A : Type}.
Implicit Types (t T : tree A) (k : ctx A) (st : rb_tree_t (A:=A)).

Lemma cdepth_le k : (cdepth k ≤ length (cptrs k))%nat.
Proof.
  induction k as [|c up IH p d r|c l p d up IH]; simpl; [lia|..];
    rewrite length_app; lia.
Qed.

Lemma destroy_loop_wp nl : ∀ fuel k c l p d r st,
  (dmeasure k (Node c l p d r) ≤ fuel)%nat →
  nil st = nl →
  NoDup (cptrs k ++ ptrs (Node c l p d r)) → nl ∉ cptrs k ++ ptrs (Node c l p d r) →
  crep (mem st) nl k p → rep (mem st) nl (cpar nl k) (Node c l p d r) →
  wp (destroy_loop fuel p) st (λ _ st', ∃ h',
      st' = set_mem h' st ∧
      dom h' = dom (mem st) ∖ list_to_set (cptrs k ++ ptrs (Node c l p d r)) ∧
      ∀ q, q ∉ cptrs k ++ ptrs (Node c l p d r) → h' !! q = mem st !! q).
Proof.
  induction fuel as [|fuel IH]; intros k c l p d r st Hm Hnil Hnd Hnin Hk Ht.
  { unfold dmeasure in Hm. simpl in Hm. rewrite length_app in Hm. simpl in Hm. lia. }
  pose proof (cdepth_le k) as Hdep.
  cbn [destroy_loop]. pose proof Ht as (E & Hl & Hr).
  apply wp_bind. eapply wp_get_nil; [exact Hnil|].
  assert (p ≠ nl) as Hp.
  { intros ->. apply Hnin. rewrite elem_of_app. right. simpl.
    rewrite elem_of_app, elem_of_cons. tauto. }
  rewrite decide_True by done. cbv zeta.
  apply wp_bind. eapply wp_get_left; [exact E|]. cbn [left].
  destruct l as [|cl ll pl dl rl].
  - (* no left child *)
    cbn [rootp]. rewrite decide_False by (intros H; by apply H).
    apply wp_bind. eapply wp_get_right; [exact E|]. cbn [right].
    destruct r as [|cr lr pr dr rr].
    + (* a leaf: release it and go up *)
      cbn [rootp]. rewrite decide_False by (intros H; by apply H).
      apply wp_bind. eapply wp_get_parent; [exact E|]. cbn [parent].
      destruct k as [|c' up p' d' r'|c' l' p' d' up].
      * cbn [cpar]. rewrite decide_False by (intros H; by apply H).
        apply wp_bind. apply wp_ret. apply wp_bind. eapply wp_free; [exact E|].
        destruct fuel as [|fuel]; [unfold dmeasure in Hm; simpl in Hm; lia|].
        cbn [destroy_loop]. apply wp_bind. eapply wp_get_nil; [exact Hnil|].
        rewrite decide_False by (intros H; by apply H). apply wp_ret.
        eexists. split; [reflexivity|]. simpl. split.
        -- rewrite dom_delete_L. set_solver.
        -- intros q Hq. rewrite lookup_delete_ne; [done|]. set_solver.
      * cbn [cpar]. simpl in Hk. destruct Hk as (E' & Hr' & Hup).
        norm_lists_in Hnd. norm_lists_in Hnin. nodup_norm.
        rewrite decide_True by done.
        apply wp_bind. apply wp_bind. eapply wp_get_left; [exact E'|]. cbn [left].
        rewrite decide_True by done.
        eapply wp_put_left; [exact E'|]. cbn [data right parent color].
        apply wp_bind. eapply wp_free.
        { simpl. rewrite lookup_insert_ne by done. exact E. }
        cbn [set_mem mem].
        eapply wp_mono.
        { eapply (IH up c' Leaf p' d' r').
          - unfold dmeasure in *. simpl in *. rewrite ?length_app in *. simpl in *.
            pose proof (cdepth_le up). lia.
          - exact Hnil.
          - simpl. nodup_goal.
          - simpl. nodup_goal.
          - eapply crep_frame; [exact Hup|]. intros q Hq. simpl.
            rewrite lookup_delete_ne by (intros ->; done).
            by rewrite lookup_insert_ne by (intros ->; done).
          - simpl. split_and!; [|done|].
            + rewrite lookup_delete_ne by done. by rewrite lookup_insert_eq.
            + eapply rep_frame; [exact Hr'|]. intros q Hq. simpl.
              rewrite lookup_delete_ne by (intros ->; done).
              by rewrite lookup_insert_ne by (intros ->; done). }
        intros [] st' (h' & -> & Hdom & Hfr). eexists. split; [reflexivity|].
        simpl in Hdom, Hfr |- *. split.
        -- rewrite Hdom, dom_delete_L, dom_insert_L.
           assert (p' ∈ dom (mem st)) by (by eapply elem_of_dom_2). set_solver.
        -- intros q Hq. rewrite Hfr by set_solver.
           rewrite lookup_delete_ne, lookup_insert_ne; set_solver.
      * cbn [cpar]. simpl in Hk. destruct Hk as (E' & Hl' & Hup).
        norm_lists_in Hnd. norm_lists_in Hnin. nodup_norm.
        rewrite decide_True by done.
        apply wp_bind. apply wp_bind. eapply wp_get_left; [exact E'|]. cbn [left].
        assert (rootp nl l' ≠ p) as Hlp by (by apply rootp_ne').
        rewrite decide_False by done.
        eapply wp_put_right; [exact E'|]. cbn [data left parent color].
        apply wp_bind. eapply wp_free.
        { simpl. rewrite lookup_insert_ne by done. exact E. }
        cbn [set_mem mem].
        eapply wp_mono.
        { eapply (IH up c' l' p' d' Leaf).
          - unfold dmeasure in *. simpl in *. rewrite ?length_app in *. simpl in *.
            pose proof (cdepth_le up). rewrite ?length_app. simpl. lia.
          - exact Hnil.
          - simpl. nodup_goal.
          - simpl. nodup_goal.
          - eapply crep_frame; [exact Hup|]. intros q Hq. simpl.
            rewrite lookup_delete_ne by (intros ->; done).
            by rewrite lookup_insert_ne by (intros ->; done).
          - simpl. split_and!; [| |done].
            + rewrite lookup_delete_ne by done. by rewrite lookup_insert_eq.
            + eapply rep_frame; [exact Hl'|]. intros q Hq. simpl.
              rewrite lookup_delete_ne by (intros ->; done).
              by rewrite lookup_insert_ne by (intros ->; done). }
        intros [] st' (h' & -> & Hdom & Hfr). eexists. split; [reflexivity|].
        simpl in Hdom, Hfr |- *. split.
        -- rewrite Hdom, dom_delete_L, dom_insert_L.
           assert (p' ∈ dom (mem st)) by (by eapply elem_of_dom_2). set_solver.
        -- intros q Hq. rewrite Hfr by set_solver.
           rewrite lookup_delete_ne, lookup_insert_ne; set_solver.
    + (* only a right child: go down *)
      cbn [rootp]. assert (pr ≠ nl) as Hpr.
      { intros ->. apply Hnin. simpl. set_solver. }
      rewrite decide_True by done.
      apply wp_bind. eapply wp_get_right; [exact E|]. cbn [right].
      eapply wp_mono.
      { eapply (IH (CR c Leaf p d k) cr lr pr dr rr).
        - unfold dmeasure in *. simpl in *. rewrite ?length_app in *. simpl in *.
          rewrite ?length_app in *. simpl in *. lia.
        - exact Hnil.
        - simpl in Hnd |- *. eapply NoDup_Permutation_proper; [|exact Hnd].
          solve_Permutation.
        - simpl in Hnin |- *. set_solver.
        - simpl. split_and!; [exact E|done|exact Hk].
        - exact Hr. }
      intros [] st' (h' & -> & Hdom & Hfr). eexists. split; [reflexivity|]. split.
      * rewrite Hdom. simpl. set_solver.
      * intros q Hq. apply Hfr. simpl in Hq |- *. set_solver.
  - (* a left child: go down *)
    cbn [rootp]. assert (pl ≠ nl) as Hpl.
    { intros ->. apply Hnin. simpl. set_solver. }
    rewrite decide_True by done.
    apply wp_bind. eapply wp_get_left; [exact E|]. cbn [left].
    eapply wp_mono.
    { eapply (IH (CL c k p d r) cl ll pl dl rl).
      - unfold dmeasure in *. simpl in *. rewrite ?length_app in *. simpl in *.
        rewrite ?length_app in *. simpl in *. lia.
      - exact Hnil.
      - simpl in Hnd |- *. eapply NoDup_Permutation_proper; [|exact Hnd].
        solve_Permutation.
      - simpl in Hnin |- *. set_solver.
      - simpl. split_and!; [exact E|exact Hr|exact Hk].
      - exact Hl. }
    intros [] st' (h' & -> & Hdom & Hfr). eexists. split; [reflexivity|]. split.
    + rewrite Hdom. simpl. set_solver.
    + intros q Hq. apply Hfr. simpl in Hq |- *. set_solver.
Qed.

Lemma foldl_destroy_node_data st (l : list A) :
  foldl (λ acc v, destroy_node_data (Some v) acc) st l =
    if free_data st then set_destroyed (destroyed st ++ (Some <$> l)) st else st.
Proof.
  revert st. induction l as [|v l IH]; intros st; simpl.
  - destruct st as [? ? ? ? [] ? ?]; simpl; [|done]. by rewrite app_nil_r.
  - rewrite IH. unfold destroy_node_data.
    destruct st as [? ? ? ? [] ? ?]; simpl; [|done]. by rewrite <- app_assoc.
Qed.

Lemma destroy_nodes_wp st T np fuel :
  shape (nil st) st T np → (2 * length (ptrs T) < fuel)%nat →
  wp (destroy_loop fuel (root st)) st (λ _ st', ∃ h',
      st' = set_mem h' st ∧
      dom h' = dom (mem st) ∖ list_to_set (ptrs T) ∧
      ∀ q, q ∉ ptrs T → h' !! q = mem st !! q).
Proof.
  intros (_ & Hroot & Hs & Hnd & Hnin & Hrep) Hf. rewrite Hroot.
  destruct T as [|c l p d r].
  - destruct fuel as [|fuel]; [simpl in Hf; lia|]. cbn [destroy_loop rootp].
    apply wp_bind. eapply wp_get_nil; [reflexivity|].
    rewrite decide_False by (intros H; by apply H). apply wp_ret.
    exists (mem st). split; [by destruct st|]. split; [simpl; set_solver|done].
  - cbn [rootp]. eapply wp_mono.
    { eapply (destroy_loop_wp (nil st) fuel Top c l p d r st); try done.
      unfold dmeasure. simpl in *. lia. }
    intros [] st' (h' & -> & Hdom & Hfr). by exists h'.
Qed.

Lemma destroy_all_wp st T np fuel :
  represents st T np → (2 * length (ptrs T) < fuel)%nat →
  wp (r ← get_root; destroy_loop fuel r;; nl ← get_nil; free nl) st
     (λ _ st', mem st' = ∅ ∧ destroyed st' = destroyed st).
Proof.
  intros [HS Hdom] Hf.
  apply wp_bind. eapply wp_get_root; [reflexivity|].
  apply wp_bind. eapply wp_mono; [by eapply destroy_nodes_wp|].
  intros [] st' (h' & -> & Hdom' & Hfr).
  pose proof HS as (_ & _ & Hs & _ & Hnin & _).
  apply wp_bind. eapply wp_get_nil; [reflexivity|]. cbn [set_mem nil].
  eapply wp_free; [simpl; rewrite Hfr by done; exact Hs|].
  simpl. split; [|done].
  apply dom_empty_iff_L. rewrite dom_delete_L, Hdom', Hdom.
  apply set_eq. intros x.
  rewrite !elem_of_difference, elem_of_union, elem_of_singleton. set_solver.
Qed.

Lemma destroy_represents st T np fuel :
  represents st T np → (2 * length (ptrs T) < fuel)%nat → (theight T < fuel)%nat →
  rb_tree_destroy fuel (Some st) =
    Some (Some (∅, destroyed st ++
                   (if free_data st then Some <$> postorder T else []))).
Proof.
  intros Hrep Hf Hh. pose proof Hrep as [HS _]. unfold rb_tree_destroy.
  set (st1 := if free_data st
              then set_destroyed (destroyed st ++ (Some <$> postorder T)) st else st).
  assert ((if free_data st
           then rb_postorder_walk fuel (Some st) (Some destroy_node_data) st
           else Some st) = Some st1) as ->.
  { unfold st1. destruct (free_data st) eqn:Efd; [|done].
    rewrite (postorder_walk_shape st T np fuel destroy_node_data st HS Hh).
    by rewrite foldl_destroy_node_data, Efd. }
  cbn [mbind option_bind].
  assert (represents st1 T np) as Hrep1.
  { unfold st1. destruct (free_data st); [|done]. by destruct st. }
  assert (destroyed st1 = destroyed st ++
            (if free_data st then Some <$> postorder T else [])) as Hd1.
  { unfold st1. destruct (free_data st); simpl; [done|]. by rewrite app_nil_r. }
  destruct (destroy_all_wp st1 T np fuel Hrep1 Hf) as ([] & st2 & -> & Hm & Hd).
  cbn [mbind option_bind snd]. by rewrite Hm, Hd, Hd1.
Qed.

End Destroy.

(** X14: [rb_tree_destroy] on a reachable tree returns.  It releases every
    node and the sentinel, each of them once, so that nothing of the tree is
    left in the store; when the tree has a destructor it calls it once for
    each stored payload, and without a destructor it calls nothing. *)
Theorem destroy_releases_everything {A : Type} (cmp : A → A → Z)
    (st : rb_tree_t (A:=A)) (vs : list A) :
  total_order cmp → reachable cmp st → walk_yields st vs →
  ∃ post : list A,
    post ≡ₚ vs ∧
    returns (λ fuel, rb_tree_destroy fuel (Some st))
            (Some (∅, destroyed st ++ (if free_data st then Some <$> post else []))).
Proof.
  intros Hto Hr Hy.
  destruct (reachable_yields _ _ _ Hto Hr Hy) as (_ & T & np & Hrep & _ & -> & _).
  exists (postorder T). split; [apply postorder_perm|].
  exists (S (2 * length (ptrs T) + theight T)). intros fuel Hf.
  apply (destroy_represents st T np fuel Hrep); lia.
Qed.

Lemma destroy_releases_everything_witness :
  total_order int_compare ∧ reachable int_compare owning_2_1_3 ∧
  walk_yields owning_2_1_3 [1; 2; 3] ∧
  ∃ post : list Z,
    post ≡ₚ [1; 2; 3] ∧
    returns (λ fuel, rb_tree_destroy fuel (Some owning_2_1_3))
            (Some (∅, destroyed owning_2_1_3 ++
                      (if free_data owning_2_1_3 then Some <$> post else []))).
Proof.
  split; [exact int_compare_total|]. split; [exact owning_2_1_3_reachable|].
  split; [exact owning_2_1_3_yields|].
  exact (destroy_releases_everything int_compare owning_2_1_3 [1; 2; 3]
           int_compare_total owning_2_1_3_reachable owning_2_1_3_yields).
Defined.

(** * Iterators *)

Section Iter.
Context {A : Type}.
Implicit Types (t T : tree A) (k : ctx A) (st : rb_tree_t (A:=A)) (it : rb_iterator_t).

Lemma lanc_le k : (length (lanc k) ≤ cdepth k)%nat.
Proof. induction k; simpl; lia. Qed.

Lemma plug_height k t : (cdepth k + theight t ≤ theight (plug k t))%nat.
Proof.
  revert t. induction k as [|c up IH p d r|c l p d up IH]; intros t; simpl; [lia|..].
  - specialize (IH (Node c t p d r)). simpl in IH. lia.
  - specialize (IH (Node c l p d t)). simpl in IH. lia.
Qed.

Lemma lmost_plug t : ∀ k k' t', lmost k t = (k', t') → plug k' t' = plug k t.
Proof.
  induction t as [|c l IHl p d r _]; intros k k' t' E; simpl in E.
  - by injection E as <- <-.
  - destruct l as [|cl ll pl dl rl]; [by injection E as <- <-|].
    by rewrite (IHl _ _ _ E).
Qed.

Lemma lmost_node c l p d r : ∀ k k' t',
  lmost k (Node c l p d r) = (k', t') → ∃ c' p' d' r', t' = Node c' Leaf p' d' r'.
Proof.
  revert c p d r. induction l as [|cl ll IHl pl dl rl _]; intros c p d r k k' t' E.
  - simpl in E. injection E as <- <-. by eexists _, _, _, _.
  - eapply (IHl cl pl dl rl (CL c k p d r)). exact E.
Qed.

Lemma lmost_values t : ∀ k k' t',
  lmost k t = (k', t') → values t' ++ vafter k' = values t ++ vafter k.
Proof.
  induction t as [|c l IHl p d r _]; intros k k' t' E; simpl in E.
  - by injection E as <- <-.
  - destruct l as [|cl ll pl dl rl]; [by injection E as <- <-|].
    rewrite (IHl _ _ _ E). simpl. by rewrite <- !app_assoc.
Qed.

Lemma lup_plug k : ∀ t k' t', lup k t = Some (k', t') → plug k' t' = plug k t.
Proof.
  induction k as [|c up IH p d r|c l p d up IH]; intros t k' t' E; simpl in E.
  - done.
  - by injection E as <- <-.
  - by rewrite (IH _ _ _ E).
Qed.

Lemma lup_Some k : ∀ t q s, lanc k = q :: s →
  ∃ k' c l d r, lup k t = Some (k', Node c l q d r) ∧ lanc k' = s ∧
                vafter k = d :: values r ++ vafter k'.
Proof.
  induction k as [|c up IH p d r|c l p d up IH]; intros t q s E; simpl in E.
  - done.
  - injection E as <- <-. by eexists up, c, t, d, r.
  - destruct (IH (Node c l p d t) q s E) as (k' & c' & l' & d' & r' & E1 & E2 & E3).
    by eexists k', c', l', d', r'.
Qed.

Lemma lanc_nil k : lanc k = [] → vafter k = [].
Proof. induction k; simpl; intros; auto; done. Qed.

Lemma run_ro {X} (m : M (A:=A) X) st (v : X) :
  m st = Some (v, st) → fst <$> m st = Some v.
Proof. by intros ->. Qed.

Lemma stack_holds_set_current cap s it q :
  stack_holds cap s it → stack_holds cap s (set_current q it).
Proof. intros (? & ? & cells & ? & ?). split; [done|]. split; [done|]. by exists cells. Qed.

Variables (st : rb_tree_t (A:=A)) (realloc : Z → bool) (cap : Z).
Let nl := nil st.
Hypothesis Hcap : cap <= int_max.

Lemma push_holds s it :
  stack_holds cap s it → (Z.of_nat (length s) < cap) →
  ∃ it', iter_push realloc it st = Some ((true, it'), st) ∧
         current it' = current it ∧ stack_holds cap (current it :: s) it'.
Proof.
  intros (Hc & Hs & cells & Hst & Hcells) Hlt.
  unfold iter_push.
  rewrite decide_False by lia.
  eapply ex_intro. split.
  { eapply ro_bind; [reflexivity|]. cbn [fst snd]. rewrite Hst.
    rewrite decide_True by (unfold int_max in *; lia). reflexivity. }
  split; [done|]. split; [done|]. split.
  { simpl. rewrite Hs. lia. }
  eexists. split; [reflexivity|]. intros i q Hi. simpl in Hi.
  rewrite Hs, Nat2Z.id.
  destruct (decide (i = length s)) as [->|Hne].
  - rewrite lookup_insert_eq. rewrite lookup_app_r in Hi by (by rewrite length_rev).
    rewrite length_rev, Nat.sub_diag in Hi. by injection Hi as <-.
  - rewrite lookup_insert_ne by done. apply Hcells.
    rewrite lookup_app_l in Hi; [done|]. rewrite length_rev.
    apply lookup_lt_Some in Hi. rewrite length_app, length_rev in Hi. simpl in Hi. lia.
Qed.

Lemma pop_holds q s it :
  stack_holds cap (q :: s) it → (Z.of_nat (length (q :: s)) <= cap) →
  ∃ it', iter_pop it st = Some (it', st) ∧ current it' = q ∧ stack_holds cap s it'.
Proof.
  intros (Hc & Hs & cells & Hst & Hcells) Hlt. simpl in Hs, Hlt.
  unfold iter_pop. rewrite Hst.
  rewrite decide_True by (unfold int_min; lia).
  replace (Z.to_nat (stack_size it - 1)) with (length s) by lia.
  rewrite (Hcells (length s) q).
  2:{ simpl. rewrite lookup_app_r by (by rewrite length_rev).
      by rewrite length_rev, Nat.sub_diag. }
  eexists. split; [reflexivity|]. split; [done|]. split; [done|]. split.
  { simpl. lia. }
  exists cells. split; [done|]. intros i p Hi. apply Hcells. simpl.
  by apply lookup_app_l_Some.
Qed.

Lemma next_loop_spec l : ∀ c p d r k it,
  rep (mem st) nl (cpar nl k) (Node c l p d r) → nl ∉ ptrs (Node c l p d r) →
  iter_at nl cap k (Node c l p d r) it →
  Z.of_nat (cdepth k + theight (Node c l p d r)) <= cap →
  ∃ it', (∀ fuel, (theight (Node c l p d r) ≤ fuel)%nat →
            iterator_next_loop fuel realloc it st = Some ((true, it'), st)) ∧
         iter_at nl cap (lmost k (Node c l p d r)).1 (lmost k (Node c l p d r)).2 it'.
Proof.
  induction l as [|cl ll IHl pl dl rl _]; intros c p d r k it Hrep Hnin [Hcur Hst] Hb;
    destruct Hrep as (E & Hl & Hr); cbn [rootp] in Hcur.
  - exists it. split; [|done]. intros fuel Hf.
    destruct fuel as [|fuel]; [simpl in Hf; lia|]. cbn [iterator_next_loop].
    eapply ro_bind; [reflexivity|]. rewrite Hcur.
    eapply ro_bind; [by eapply ro_get_left|]. cbn [left rootp].
    by rewrite decide_False by (intros H; by apply H).
  - simpl in Hnin. rewrite ?elem_of_app, ?elem_of_cons in Hnin.
    assert (pl ≠ nl) as Hpl by (intros Heq; symmetry in Heq; apply Hnin; tauto).
    pose proof (lanc_le k) as Hle.
    destruct (push_holds (lanc k) it Hst) as (it1 & Ep & Hc1 & Hst1).
    { simpl in Hb. lia. }
    pose proof Hl as (El & _).
    destruct (IHl cl pl dl rl (CL c k p d r) (set_current pl it1)) as (it' & Ei & Hat).
    + exact Hl.
    + simpl. rewrite !elem_of_app, !elem_of_cons. tauto.
    + split; [done|]. apply stack_holds_set_current. simpl. by rewrite <- Hcur.
    + simpl in Hb |- *. lia.
    + exists it'. split; [|exact Hat]. intros fuel Hf.
      destruct fuel as [|fuel]; [simpl in Hf; lia|]. cbn [iterator_next_loop].
      eapply ro_bind; [reflexivity|]. rewrite Hcur.
      eapply ro_bind; [by eapply ro_get_left|]. cbn [left rootp].
      rewrite decide_True by done.
      eapply ro_bind; [exact Ep|]. cbn [fst snd]. rewrite Hc1, Hcur.
      eapply ro_bind; [by eapply ro_get_left|]. cbn [left rootp].
      apply Ei. simpl in Hf |- *. lia.
Qed.

Lemma first_loop_spec l : ∀ c p d r k it,
  rep (mem st) nl (cpar nl k) (Node c l p d r) → nl ∉ ptrs (Node c l p d r) →
  iter_at nl cap k (Node c l p d r) it →
  Z.of_nat (cdepth k + theight (Node c l p d r)) <= cap →
  ∃ it', (∀ fuel, (theight (Node c l p d r) < fuel)%nat →
            iterator_first_loop fuel realloc it st = Some ((true, it'), st)) ∧
         current it' = nl ∧
         stack_holds cap (rootp nl (lmost k (Node c l p d r)).2
                          :: lanc (lmost k (Node c l p d r)).1) it'.
Proof.
  induction l as [|cl ll IHl pl dl rl _]; intros c p d r k it Hrep Hnin [Hcur Hst] Hb;
    destruct Hrep as (E & Hl & Hr); cbn [rootp] in Hcur;
    simpl in Hnin; rewrite ?elem_of_app, ?elem_of_cons in Hnin;
    (assert (p ≠ nl) as Hp by (intros Heq; symmetry in Heq; apply Hnin; tauto));
    pose proof (lanc_le k) as Hle;
    (destruct (push_holds (lanc k) it Hst) as (it1 & Ep & Hc1 & Hst1);
      [simpl in Hb; lia|]).
  - exists (set_current nl it1). split; [|split; [done|]].
    + intros fuel Hf. destruct fuel as [|fuel]; [simpl in Hf; lia|].
      destruct fuel as [|fuel]; [simpl in Hf; lia|]. cbn [iterator_first_loop].
      eapply ro_bind; [reflexivity|]. rewrite Hcur.
      rewrite decide_True by done.
      eapply ro_bind; [exact Ep|]. cbn [fst snd]. rewrite Hc1, Hcur.
      eapply ro_bind; [by eapply ro_get_left|]. cbn [left rootp].
      eapply ro_bind; [reflexivity|]. cbn [set_current current].
      by rewrite decide_False by (intros H; by apply H).
    + cbn [lmost fst snd rootp]. apply stack_holds_set_current. by rewrite <- Hcur.
  - destruct (IHl cl pl dl rl (CL c k p d r) (set_current pl it1)) as (it' & Ei & Hat).
    + exact Hl.
    + simpl. rewrite !elem_of_app, !elem_of_cons. tauto.
    + split; [done|]. apply stack_holds_set_current. simpl. by rewrite <- Hcur.
    + simpl in Hb |- *. lia.
    + exists it'. split; [|exact Hat]. intros fuel Hf.
      destruct fuel as [|fuel]; [simpl in Hf; lia|]. cbn [iterator_first_loop].
      eapply ro_bind; [reflexivity|]. rewrite Hcur.
      rewrite decide_True by done.
      eapply ro_bind; [exact Ep|]. cbn [fst snd]. rewrite Hc1, Hcur.
      eapply ro_bind; [by eapply ro_get_left|]. cbn [left rootp].
      apply Ei. simpl in Hf |- *. lia.
Qed.

Variables (T : tree A) (np : nat).
Hypothesis HS : shape nl st T np.
Hypothesis Hh : Z.of_nat (theight T) <= cap.

Lemma focus_facts k t :
  plug k t = T →
  rep (mem st) nl (cpar nl k) t ∧ (nl ∉ ptrs t) ∧ Z.of_nat (cdepth k + theight t) <= cap.
Proof.
  intros E. pose proof HS as HS'. rewrite <- E in HS'.
  apply shape_plug in HS' as (_ & _ & _ & _ & Hnin & _ & Hrep).
  split; [done|]. split.
  - intros Hin. apply Hnin. apply elem_of_app. by right.
  - pose proof (plug_height k t) as Hp. rewrite E in Hp. lia.
Qed.

Lemma has_next_at k c l p d r it :
  plug k (Node c l p d r) = T → iter_at nl cap k (Node c l p d r) it →
  rb_iterator_has_next (Some st) (Some it)
    = Some (bool_decide (values r ++ vafter k ≠ [])).
Proof.
  intros E [Hcur (_ & Hsz & _)]. cbn [rootp] in Hcur.
  destruct (focus_facts _ _ E) as ((En & _ & _) & Hnin & _).
  simpl in Hnin. rewrite elem_of_app, elem_of_cons in Hnin.
  assert (p ≠ nl) as Hp by (intros Heq; symmetry in Heq; apply Hnin; tauto).
  unfold rb_iterator_has_next. apply run_ro.
  eapply ro_bind; [reflexivity|]. rewrite Hcur, decide_True by done.
  eapply ro_bind; [by eapply ro_get_right|]. cbn [right].
  unfold mret, M_ret. do 2 f_equal.
  destruct r as [|cr lr pr dr rr]; cbn [rootp values].
  - rewrite (bool_decide_eq_false_2 (nl ≠ nl)) by (intros H; by apply H). cbn [orb app].
    destruct (lanc k) as [|q s] eqn:El.
    + rewrite (lanc_nil _ El). simpl in Hsz. rewrite Hsz.
      rewrite (bool_decide_eq_false_2 (0 > 0)) by lia.
      symmetry. apply bool_decide_eq_false_2. intros H; by apply H.
    + destruct (lup_Some k (Node c l p d Leaf) q s El) as (? & ? & ? & ? & ? & _ & _ & ->).
      rewrite Hsz. rewrite bool_decide_eq_true_2 by (simpl; lia).
      symmetry. by apply bool_decide_eq_true_2.
  - assert (pr ≠ nl) as Hpr.
    { intros Heq; symmetry in Heq; apply Hnin. right. right. simpl.
      rewrite elem_of_app, elem_of_cons. tauto. }
    rewrite (bool_decide_eq_true_2 (pr ≠ nl)) by done. cbn [orb].
    symmetry. apply bool_decide_eq_true_2. by destruct (values lr).
Qed.

Lemma next_at k c l p d r it :
  plug k (Node c l p d r) = T → iter_at nl cap k (Node c l p d r) it →
  ∃ it',
    returns (λ fuel, rb_iterator_next fuel realloc (Some st) (Some it))
            (head (values r ++ vafter k), Some it') ∧
    match values r ++ vafter k with
    | [] => current it' = nl
    | _ :: rest =>
        ∃ k' c' l' p' d' r',
          plug k' (Node c' l' p' d' r') = T ∧
          iter_at nl cap k' (Node c' l' p' d' r') it' ∧
          values r' ++ vafter k' = rest
    end.
Proof.
  intros E [Hcur Hst]. cbn [rootp] in Hcur.
  destruct (focus_facts _ _ E) as ((En & _ & Hr) & Hnin & Hb).
  simpl in Hnin. rewrite elem_of_app, elem_of_cons in Hnin.
  assert (p ≠ nl) as Hp by (intros Heq; symmetry in Heq; apply Hnin; tauto).
  pose proof (lanc_le k) as Hle.
  destruct r as [|cr lr pr dr rr]; cbn [values app].
  - destruct (lanc k) as [|q s] eqn:El.
    + rewrite (lanc_nil _ El). exists (set_current nl it). split; [|done].
      exists O. intros fuel _. unfold rb_iterator_next. apply run_ro.
      eapply ro_bind; [reflexivity|].
      rewrite Hcur, decide_False by done.
      eapply ro_bind; [by eapply ro_get_right|]. cbn [right rootp].
      rewrite decide_False by (intros H; by apply H).
      destruct Hst as (_ & Hsz & _). rewrite Hsz.
      rewrite decide_False by (simpl; lia). eapply ro_bind; reflexivity.
    + destruct (lup_Some k (Node c l p d Leaf) q s El)
        as (k' & c' & l' & d' & r' & Eup & El' & Ev).
      rewrite Ev. cbn [head].
      destruct (pop_holds q s it Hst) as (it' & Epop & Hc' & Hst').
      { simpl in *. lia. }
      pose proof (lup_plug _ _ _ _ Eup) as E'. rewrite E in E'.
      destruct (focus_facts _ _ E') as ((En' & _ & _) & _ & _).
      exists it'. split.
      * exists O. intros fuel _. unfold rb_iterator_next. apply run_ro.
        eapply ro_bind; [reflexivity|].
        rewrite Hcur, decide_False by done.
        eapply ro_bind; [by eapply ro_get_right|]. cbn [right rootp].
        rewrite decide_False by (intros H; by apply H).
        destruct Hst as (_ & Hsz & _). rewrite Hsz.
        rewrite decide_True by (simpl; lia).
        eapply ro_bind; [exact Epop|]. rewrite Hc'.
        eapply ro_bind; [by eapply ro_get_data|]. reflexivity.
      * exists k', c', l', q, d', r'. split; [done|]. split; [|done].
        split; [done|]. by rewrite El'.
  - assert (pr ≠ nl) as Hpr.
    { intros Heq; symmetry in Heq; apply Hnin. right. right. simpl.
      rewrite elem_of_app, elem_of_cons. tauto. }
    set (K := CR c l p d k).
    destruct (lmost K (Node cr lr pr dr rr)) as [k' t'] eqn:Elm.
    destruct (lmost_node _ _ _ _ _ _ _ _ Elm) as (c' & p' & d' & r' & ->).
    pose proof (lmost_plug _ _ _ _ Elm) as E'. simpl in E'. rewrite E in E'.
    pose proof (lmost_values _ _ _ _ Elm) as Ev. simpl in Ev.
    destruct (focus_facts _ _ E') as ((En' & _ & _) & _ & _).
    destruct (next_loop_spec lr cr pr dr rr K (set_current pr it)) as (it' & El & Hat).
    { exact Hr. }
    { intros Hin. apply Hnin. tauto. }
    { split; [done|]. by apply stack_holds_set_current. }
    { simpl in Hb |- *. lia. }
    rewrite Elm in Hat. cbn [fst snd] in Hat.
    rewrite <- Ev. cbn [head app].
    exists it'. split.
    + exists (theight (Node cr lr pr dr rr)). intros fuel Hf.
      unfold rb_iterator_next. apply run_ro.
      eapply ro_bind; [reflexivity|].
      rewrite Hcur, decide_False by done.
      eapply ro_bind; [by eapply ro_get_right|]. cbn [right rootp].
      rewrite decide_True by done.
      eapply ro_bind; [by eapply ro_get_right|]. cbn [right rootp].
      eapply ro_bind; [by apply El|]. cbn [fst snd].
      destruct Hat as [-> _]. cbn [rootp].
      eapply ro_bind; [by eapply ro_get_data|]. reflexivity.
    + exists k', c', Leaf, p', d', r'. done.
Qed.

Lemma next_yields_at rest : ∀ k c l p d r it,
  plug k (Node c l p d r) = T → iter_at nl cap k (Node c l p d r) it →
  values r ++ vafter k = rest → next_yields realloc st it rest.
Proof.
  induction rest as [|v rest IH]; intros k c l p d r it E Hat Ev;
    pose proof (has_next_at _ _ _ _ _ _ _ E Hat) as Hn;
    destruct (next_at _ _ _ _ _ _ _ E Hat) as (it' & Hret & Hpost);
    rewrite Ev in Hn, Hret, Hpost; cbn [next_yields head] in *.
  - split; [by rewrite Hn|by exists it'].
  - split; [by rewrite Hn|].
    exists it'. split; [done|].
    destruct Hpost as (k' & c' & l' & p' & d' & r' & E' & Hat' & Ev').
    by eapply IH.
Qed.

Lemma first_at it0 cells0 :
  stack it0 = Some cells0 → stack_capacity it0 = cap →
  ∃ it1,
    returns (λ fuel, rb_iterator_first fuel realloc (Some st) (Some it0))
            (head (values T), Some it1) ∧
    next_yields realloc st it1 (tail (values T)).
Proof.
  intros Hst0 Hcap0. pose proof HS as (_ & Hroot & _).
  assert (T = Leaf ∨ ∃ c l p d r, T = Node c l p d r) as [ET|(c & l & p & d & r & ET)].
  { destruct T; [by left|right; by eexists _, _, _, _, _]. }
  - exists (mk_iter (Some cells0) 0 cap nl). rewrite ET. split.
    + exists 1%nat. intros fuel Hf. destruct fuel as [|fuel]; [lia|].
      unfold rb_iterator_first. apply run_ro.
      eapply ro_bind; [reflexivity|]. rewrite Hroot, ET. cbn [rootp iterator_first_loop].
      eapply ro_bind.
      { eapply ro_bind; [reflexivity|]. cbn [current].
        rewrite decide_False by (intros H; by apply H). reflexivity. }
      cbn [fst snd stack_size]. rewrite decide_False by lia.
      by rewrite Hst0, Hcap0.
    + cbn [values tail next_yields]. split.
      * unfold rb_iterator_has_next. apply run_ro.
        eapply ro_bind; [reflexivity|]. cbn [current].
        by rewrite decide_False by (intros H; by apply H).
      * eexists. exists O. intros fuel _. unfold rb_iterator_next. apply run_ro.
        eapply ro_bind; [reflexivity|]. cbn [current].
        by rewrite decide_True.
  - set (it := mk_iter (stack it0) 0 (stack_capacity it0) p).
    assert (plug Top (Node c l p d r) = T) as E0 by done.
    destruct (focus_facts _ _ E0) as (Hrep & Hnin & Hb).
    assert (iter_at nl cap Top (Node c l p d r) it) as Hat.
    { split; [done|]. split; [done|]. split; [done|].
      exists cells0. split; [done|]. intros i q Hi. by destruct i. }
    destruct (first_loop_spec l c p d r Top it Hrep Hnin Hat Hb) as (it' & Ei & Hc' & Hst').
    destruct (lmost Top (Node c l p d r)) as [k' t'] eqn:Elm.
    destruct (lmost_node _ _ _ _ _ _ _ _ Elm) as (c' & p' & d' & r' & ->).
    pose proof (lmost_plug _ _ _ _ Elm) as E'. simpl in E'. rewrite <- ET in E'.
    pose proof (lmost_values _ _ _ _ Elm) as Ev. rewrite <- ET in Ev.
    cbn [vafter] in Ev. rewrite app_nil_r in Ev.
    destruct (focus_facts _ _ E') as ((En' & _ & _) & _ & Hb').
    cbn [fst snd rootp] in Hst'. pose proof (lanc_le k') as Hle.
    destruct (pop_holds p' (lanc k') it' Hst') as (it1 & Epop & Hc1 & Hst1).
    { simpl in Hb' |- *. lia. }
    exists it1. rewrite <- Ev. cbn [values app head tail]. split.
    + exists (S (theight (Node c l p d r))). intros fuel Hf.
      unfold rb_iterator_first. apply run_ro.
      eapply ro_bind; [reflexivity|]. rewrite Hroot, ET. cbn [rootp].
      eapply ro_bind; [apply Ei; lia|]. cbn [fst snd].
      destruct Hst' as (_ & Hsz & _). rewrite Hsz.
      rewrite decide_True by (simpl; lia).
      eapply ro_bind; [exact Epop|]. rewrite Hc1.
      eapply ro_bind; [by eapply ro_get_data|]. reflexivity.
    + eapply next_yields_at; [exact E'| |done]. by split.
Qed.

End Iter.

Lemma created_iterator {A : Type} (st : rb_tree_t (A:=A)) it0 :
  rb_iterator_create (Some st) true true = Some it0 →
  stack it0 = Some ∅ ∧ stack_capacity it0 = 64.
Proof. by intros [= <-]. Qed.

(** X15: an iterator made by [rb_iterator_create] on a reachable tree with
    fewer than [2^33 - 1] payloads walks the in-order sequence:
    [rb_iterator_first] returns its first payload, each later call of
    [rb_iterator_next] returns the next one, and [NULL] after the last;
    [rb_iterator_has_next] tells before each call of [rb_iterator_next]
    whether a payload is left.  The stack of 64 cells is never enlarged,
    whatever [realloc] would answer. *)
Theorem iterator_yields_inorder {A : Type} (cmp : A → A → Z) (st : rb_tree_t (A:=A))
    (vs : list A) (realloc : Z → bool) (it0 : rb_iterator_t) :
  total_order cmp → reachable cmp st → walk_yields st vs →
  Z.of_nat (length vs) + 1 < 2 ^ 33 →
  rb_iterator_create (Some st) true true = Some it0 →
  ∃ it1,
    returns (λ fuel, rb_iterator_first fuel realloc (Some st) (Some it0))
            (head vs, Some it1) ∧
    next_yields realloc st it1 (tail vs).
Proof.
  intros Hto Hr Hy Hlen Hc.
  destruct (reachable_yields _ _ _ Hto Hr Hy) as (_ & T & np & [HS _] & HT & -> & _).
  destruct (created_iterator _ _ Hc) as [Hst Hcap].
  assert (64 <= int_max) as Hmax by (by vm_compute).
  apply (first_at st realloc 64 Hmax T np HS) with (cells0 := ∅); [|done..].
  pose proof (rbtree_height_log T HT) as Hh.
  assert (Z.log2 (Z.of_nat (length (values T)) + 1) < 33).
  { apply Z.log2_lt_pow2; lia. }
  lia.
Qed.

Lemma iterator_yields_inorder_witness :
  total_order int_compare ∧ reachable int_compare tree_2_1_3 ∧
  walk_yields tree_2_1_3 [1; 2; 3] ∧
  Z.of_nat (length [1; 2; 3]) + 1 < 2 ^ 33 ∧
  rb_iterator_create (Some tree_2_1_3) true true = Some (mk_iter (Some ∅) 0 64 0%nat) ∧
  ∃ it1,
    returns (λ fuel, rb_iterator_first fuel (λ _, false) (Some tree_2_1_3)
                       (Some (mk_iter (Some ∅) 0 64 0%nat)))
            (head [1; 2; 3], Some it1) ∧
    next_yields (λ _, false) tree_2_1_3 it1 (tail [1; 2; 3]).
Proof.
  assert (Z.of_nat (length [1; 2; 3]) + 1 < 2 ^ 33) as Hlen by (by vm_compute).
  assert (rb_iterator_create (Some tree_2_1_3) true true
            = Some (mk_iter (Some ∅) 0 64 0%nat)) as Hc by (by vm_compute).
  split; [exact int_compare_total|]. split; [exact tree_2_1_3_reachable|].
  split; [exact tree_2_1_3_yields|]. split; [exact Hlen|]. split; [exact Hc|].
  exact (iterator_yields_inorder int_compare tree_2_1_3 [1; 2; 3] (λ _, false)
           (mk_iter (Some ∅) 0 64 0%nat)
           int_compare_total tree_2_1_3_reachable tree_2_1_3_yields Hlen Hc).
Defined.

(** * Statistics *)

Section Stats.
Context {A : Type}.
Implicit Types (t T : tree A) (st : rb_tree_t (A:=A)).

Lemma reds_blacks t : (reds t + blacks t = length (values t))%nat.
Proof.
  induction t as [|c l IHl p d r IHr]; simpl; [done|].
  rewrite length_app. simpl. destruct c; simpl; lia.
Qed.

Lemma tmin_le_height t : (tmin t ≤ theight t)%nat.
Proof. induction t; simpl; lia. Qed.

Lemma rbsub_tmin t : rbsub t → (bh t ≤ tmin t)%nat.
Proof.
  induction t as [|c l IHl p d r IHr]; simpl; [lia|].
  intros (Hl & Hr & Hbh & _). specialize (IHl Hl). specialize (IHr Hr).
  pose proof (black_le c). lia.
Qed.

Context {double : Type} (double_add_int : double → Z → double).

Lemma collect_node_stats_ro st np t : ∀ par (stats : rb_tree_stats_t double) depth,
  mem st !! nil st = Some (sentinel (nil st) np) →
  rep (mem st) (nil st) par t → nil st ∉ ptrs t →
  depth + Z.of_nat (theight t) <= int_max →
  depth - 1 <= max_depth stats →
  0 <= total_nodes stats < size_max → 0 <= red_nodes stats < size_max →
  0 <= black_nodes stats < size_max →
  ∃ stats' : rb_tree_stats_t double,
    (∀ fuel, (theight t < fuel)%nat →
       collect_node_stats double_add_int fuel (rootp (nil st) t) stats depth st
         = Some (stats', st)) ∧
    total_nodes stats' = (total_nodes stats + Z.of_nat (length (values t))) mod size_max ∧
    red_nodes stats' = (red_nodes stats + Z.of_nat (reds t)) mod size_max ∧
    black_nodes stats' = (black_nodes stats + Z.of_nat (blacks t)) mod size_max ∧
    max_depth stats' = Z.max (max_depth stats) (depth + Z.of_nat (theight t) - 1) ∧
    min_depth stats' = Z.min (min_depth stats) (depth + Z.of_nat (tmin t)).
Proof.
  assert (0 < size_max) as Hm by done.
  induction t as [|c l IHl p d r IHr];
    intros par stats depth Hsent Hrep Hnin Hd Hmax Ht Hr Hb.
  - eexists. split.
    { intros fuel Hf. destruct fuel as [|fuel]; [simpl in Hf; lia|].
      cbn [collect_node_stats rootp].
      eapply ro_bind; [reflexivity|]. rewrite decide_True by done. reflexivity. }
    simpl. rewrite !Z.add_0_r, !Z.mod_small by lia.
    destruct (decide (depth < min_depth stats)); simpl; lia.
  - simpl in Hrep, Hnin, Hd. destruct Hrep as (E & Hl & Hrr).
    rewrite elem_of_app, elem_of_cons in Hnin.
    assert (p ≠ nil st) as Hp by (intros Heq; symmetry in Heq; tauto).
    set (s1 := mk_stats ((total_nodes stats + 1) mod size_max)
                 (if decide (c = RB_RED) then (red_nodes stats + 1) mod size_max
                  else red_nodes stats)
                 (if decide (c = RB_RED) then black_nodes stats
                  else (black_nodes stats + 1) mod size_max)
                 (if decide (depth > max_depth stats) then depth else max_depth stats)
                 (min_depth stats) (double_add_int (avg_depth stats) depth)).
    destruct (IHl p s1 (depth + 1)) as (s2 & E2 & T2 & R2 & B2 & X2 & N2);
      [done|done|tauto|lia|..].
    { unfold s1. cbn [max_depth]. destruct (decide (depth > max_depth stats)); lia. }
    { unfold s1. cbn [total_nodes]. apply Z.mod_pos_bound. lia. }
    { unfold s1. cbn [red_nodes].
      destruct (decide (c = RB_RED)); [apply Z.mod_pos_bound|]; lia. }
    { unfold s1. cbn [black_nodes].
      destruct (decide (c = RB_RED)); [|apply Z.mod_pos_bound]; lia. }
    destruct (IHr p s2 (depth + 1)) as (s3 & E3 & T3 & R3 & B3 & X3 & N3);
      [done|done|tauto|lia|..].
    { rewrite X2. unfold s1. cbn [max_depth].
      destruct (decide (depth > max_depth stats)); lia. }
    { rewrite T2. apply Z.mod_pos_bound. lia. }
    { rewrite R2. apply Z.mod_pos_bound. lia. }
    { rewrite B2. apply Z.mod_pos_bound. lia. }
    exists s3. split.
    { intros fuel Hf. destruct fuel as [|fuel]; [simpl in Hf; lia|].
      simpl in Hf. cbn [collect_node_stats rootp].
      eapply ro_bind; [reflexivity|]. rewrite decide_False by done. cbv zeta.
      eapply ro_bind; [by eapply ro_get_color|]. cbn [color].
      rewrite decide_True by lia.
      eapply ro_bind; [by eapply ro_get_left|]. cbn [left].
      eapply ro_bind.
      { specialize (E2 fuel ltac:(lia)). unfold s1 in E2.
        destruct (decide (c = RB_RED));
          cbn [total_nodes red_nodes black_nodes max_depth min_depth avg_depth];
          destruct (decide (depth > max_depth stats)); exact E2. }
      eapply ro_bind; [by eapply ro_get_right|]. cbn [right]. apply E3. lia. }
    rewrite T3, R3, B3, X3, N3, T2, R2, B2, X2, N2. unfold s1.
    cbn [total_nodes red_nodes black_nodes max_depth min_depth].
    cbn [values reds blacks theight tmin]. rewrite length_app. cbn [length].
    split_and!.
    + repeat (rewrite Zplus_mod_idemp_l || rewrite <- Z.add_assoc). f_equal. lia.
    + destruct c; cbn [decide_rel black]; rewrite ?decide_True, ?decide_False by done;
        repeat (rewrite Zplus_mod_idemp_l || rewrite <- Z.add_assoc); f_equal; lia.
    + destruct c; cbn [black]; rewrite ?decide_True, ?decide_False by done;
        repeat (rewrite Zplus_mod_idemp_l || rewrite <- Z.add_assoc); f_equal; lia.
    + destruct (decide (depth > max_depth stats)); lia.
    + lia.
Qed.

End Stats.

(** X16: on a reachable tree with fewer than [2^64] payloads
    [rb_get_statistics] returns, whatever the arithmetic of [double] is:
    [total_nodes] is the number of payloads, [red_nodes] and [black_nodes] add
    up to it, and [max_depth] is the value that [rb_height] returns.  On the
    empty tree [min_depth] keeps its initial value 1000000; otherwise
    [min_depth] counts the sentinel that ends the shortest path, so that
    [min_depth - 1 <= max_depth <= 2 * (min_depth - 1)]. *)
Theorem statistics_counts_and_depths {A double : Type} (cmp : A → A → Z)
    (st : rb_tree_t (A:=A)) (vs : list A) (double_zero : double)
    (double_add_int double_div_size : double → Z → double) :
  total_order cmp → reachable cmp st → walk_yields st vs →
  Z.of_nat (length vs) < size_max →
  ∃ stats : rb_tree_stats_t double,
    returns (λ fuel, rb_get_statistics double_zero double_add_int double_div_size
                       fuel (Some st)) stats ∧
    total_nodes stats = Z.of_nat (length vs) ∧
    red_nodes stats + black_nodes stats = total_nodes stats ∧
    returns (λ fuel, rb_height fuel (Some st)) (max_depth stats) ∧
    (vs = [] → min_depth stats = 1000000) ∧
    (vs ≠ [] → 2 <= min_depth stats ∧
               min_depth stats - 1 <= max_depth stats <= 2 * (min_depth stats - 1)).
Proof.
  intros Hto Hr Hy Hlen.
  destruct (reachable_yields _ _ _ Hto Hr Hy) as (_ & T & np & [HS _] & [Hc HT] & -> & _).
  pose proof HS as (_ & Hroot & Hsent & _ & Hnin & Hrep).
  assert (returns (λ fuel, rb_height fuel (Some st)) (Z.of_nat (theight T))) as Hheight.
  { exists (S (theight T)). intros fuel Hf. apply (height_shape st T np); [done|lia]. }
  assert (Z.of_nat (theight T) <= 128) as Hh.
  { pose proof (rbtree_height_log T (conj Hc HT)) as Hl.
    assert (Z.log2 (Z.of_nat (length (values T)) + 1) <= Z.log2 (2 ^ 64)) as Hlog.
    { apply Z.log2_le_mono. unfold size_max in Hlen. lia. }
    rewrite Z.log2_pow2 in Hlog by lia. lia. }
  destruct T as [|c l p d r].
  - eexists. split.
    { exists O. intros fuel _. unfold rb_get_statistics. apply query_ro.
      eapply ro_bind; [reflexivity|]. eapply ro_bind; [reflexivity|].
      rewrite Hroot. cbn [rootp]. by rewrite decide_True. }
    cbn [total_nodes red_nodes black_nodes max_depth min_depth values length theight] in *.
    split_and!; done.
  - set (s0 := mk_stats 0 0 0 0 1000000 double_zero).
    destruct (collect_node_stats_ro double_add_int st np (Node c l p d r) (nil st) s0 1)
      as (s1 & E1 & T1 & R1 & B1 & X1 & N1); try done; try (unfold int_max; lia).
    pose proof (reds_blacks (Node c l p d r)) as Hrb.
    pose proof (tmin_le_height (Node c l p d r)) as Hmin.
    pose proof (rbsub_tmin _ HT) as Hbh.
    pose proof (rbsub_height _ HT) as Hbh'. rewrite Hc in Hbh'.
    cbn [total_nodes red_nodes black_nodes max_depth min_depth s0] in T1, R1, B1, X1, N1.
    rewrite Z.add_0_l, Z.mod_small in T1, R1, B1 by lia.
    assert (0 < Z.of_nat (length (values (Node c l p d r)))) as Hpos.
    { simpl. rewrite length_app. simpl. lia. }
    exists (mk_stats (total_nodes s1) (red_nodes s1) (black_nodes s1) (max_depth s1)
              (min_depth s1) (double_div_size (avg_depth s1) (total_nodes s1))).
    split.
    { exists (S (theight (Node c l p d r))). intros fuel Hf.
      unfold rb_get_statistics. apply query_ro.
      eapply ro_bind; [reflexivity|]. eapply ro_bind; [reflexivity|].
      rewrite Hroot. cbn [rootp].
      assert (p ≠ nil st) as Hp.
      { intros Heq. apply Hnin. simpl. rewrite elem_of_app, elem_of_cons. auto. }
      rewrite decide_False by done.
      eapply ro_bind; [reflexivity|]. rewrite Hroot. cbn [rootp].
      eapply ro_bind; [apply E1; lia|].
      rewrite decide_True by lia. reflexivity. }
    cbn [total_nodes red_nodes black_nodes max_depth min_depth].
    assert (Z.of_nat (tmin (Node c l p d r)) >= 1) by (simpl; lia).
    simpl black in Hbh'.
    split_and!; try lia.
    + rewrite X1. replace (0 `max` (1 + Z.of_nat (theight (Node c l p d r)) - 1))
        with (Z.of_nat (theight (Node c l p d r))) by lia. done.
    + intros E. simpl in E. by destruct (values l).
Qed.

Lemma statistics_counts_and_depths_witness :
  total_order int_compare ∧ reachable int_compare tree_2_1_3 ∧
  walk_yields tree_2_1_3 [1; 2; 3] ∧ Z.of_nat (length [1; 2; 3]) < size_max ∧
  ∃ stats : rb_tree_stats_t Z,
    returns (λ fuel, rb_get_statistics 0 Z.add Z.div fuel (Some tree_2_1_3)) stats ∧
    total_nodes stats = Z.of_nat (length [1; 2; 3]) ∧
    red_nodes stats + black_nodes stats = total_nodes stats ∧
    returns (λ fuel, rb_height fuel (Some tree_2_1_3)) (max_depth stats) ∧
    ([1; 2; 3] = [] → min_depth stats = 1000000) ∧
    ([1; 2; 3] ≠ [] → 2 <= min_depth stats ∧
       min_depth stats - 1 <= max_depth stats <= 2 * (min_depth stats - 1)).
Proof.
  assert (Z.of_nat (length [1; 2; 3]) < size_max) as Hlen by (by vm_compute).
  split; [exact int_compare_total|]. split; [exact tree_2_1_3_reachable|].
  split; [exact tree_2_1_3_yields|]. split; [exact Hlen|].
  exact (statistics_counts_and_depths int_compare tree_2_1_3 [1; 2; 3] 0 Z.add Z.div
           int_compare_total tree_2_1_3_reachable tree_2_1_3_yields Hlen).
Defined.

(** * The nodes of a reachable tree *)

Lemma ptrs_values_length {A : Type} (t : tree A) : length (ptrs t) = length (values t).
Proof.
  induction t as [|c l IHl p d r IHr]; simpl; [done|].
  rewrite !length_app. simpl. by rewrite IHl, IHr.
Qed.

(** X17: the store of a reachable tree holds the sentinel and exactly one
    node for each payload of the in-order walk, and these nodes hold these
    payloads: no call of [rb_insert] or [rb_delete], whatever it returned,
    has left a node behind or released one that is still in use. *)
Theorem one_node_per_payload {A : Type} (cmp : A → A → Z) (st : rb_tree_t (A:=A))
    (vs : list A) :
  total_order cmp → reachable cmp st → walk_yields st vs →
  base.size (dom (mem st)) = S (length vs) ∧
  nil st ∈ dom (mem st) ∧
  stored st ≡ₚ Some <$> vs.
Proof.
  intros Hto Hr Hy.
  destruct (reachable_yields _ _ _ Hto Hr Hy) as (_ & T & np & Hrep & _ & -> & _).
  pose proof Hrep as [(_ & _ & Hs & Hnd & Hnin & _) Hdom].
  split_and!.
  - rewrite Hdom, size_union, size_singleton, size_list_to_set, ptrs_values_length by
      (done || (apply disjoint_singleton_l; by rewrite elem_of_list_to_set)).
    done.
  - by eapply elem_of_dom_2.
  - by apply represents_stored with (np := np).
Qed.

Lemma one_node_per_payload_witness :
  total_order int_compare ∧ reachable int_compare tree_2_1_3 ∧
  walk_yields tree_2_1_3 [1; 2; 3] ∧
  base.size (dom (mem tree_2_1_3)) = S (length [1; 2; 3]) ∧
  nil tree_2_1_3 ∈ dom (mem tree_2_1_3) ∧
  stored tree_2_1_3 ≡ₚ Some <$> [1; 2; 3].
Proof.
  split; [exact int_compare_total|]. split; [exact tree_2_1_3_reachable|].
  split; [exact tree_2_1_3_yields|].
  exact (one_node_per_payload int_compare tree_2_1_3 [1; 2; 3]
           int_compare_total tree_2_1_3_reachable tree_2_1_3_yields).
Defined.
